(** * LALR(1) parser generator: a shallow embedding of the C++ sources

    The development follows the source files of [lalr1-parser-generator]:
    [symbol.h/.cpp], [grammar.h/.cpp], [lr_items.h/.cpp],
    [parse_table.h/.cpp] and [parser.h/.cpp].

    Conventions of the embedding.
    - A [std::shared_ptr<T>] to an object that is never mutated after its
      construction is a record holding the address of the object together
      with its fields.  Pointer comparison ([==], [<], the key order of
      [std::set] and [std::map]) reads the address only.
    - A [std::set<T>] is the list of its elements in ascending key order,
      which is the order in which the C++ code iterates over it.
    - A [std::map] / [std::unordered_map] that is only read by key is a
      [gmap] whose keys are the addresses (or the pairs of a state number
      and an address).
    - A [while] loop whose number of iterations is not syntactically bounded
      takes a fuel argument; running out of fuel is the outcome [Timeout].
    - [int] and [size_t] values are [Z] and [nat]; the conversions between
      them never leave the 31-bit range for the tables considered here. *)

From Stdlib Require Import List ZArith Lia String Ascii Bool Arith DecimalString.
From Stdlib Require Import Relations.Relation_Operators Sorting.Sorted.
From stdpp Require Import gmap strings.
Import ListNotations.

Local Open Scope nat_scope.

(** ** Outcomes of a C++ computation *)

(** [Val v]: normal return; [Throw msg]: a [std::runtime_error] propagates;
    [Undefined]: the execution leaves defined behaviour (out-of-range
    [operator[]], [top()] of an empty stack, [back()] of an empty string);
    [Timeout]: the fuel of the model ran out. *)
Inductive Res (A : Type) : Type :=
  | Val (v : A)
  | Throw (what : string)
  | Undefined
  | Timeout.
Arguments Val {A} v.
Arguments Throw {A} what.
Arguments Undefined {A}.
Arguments Timeout {A}.

Definition res_bind {A B : Type} (m : Res A) (k : A -> Res B) : Res B :=
  match m with
  | Val v => k v
  | Throw w => Throw w
  | Undefined => Undefined
  | Timeout => Timeout
  end.

Notation "'do' x '<-' m 'in' k" := (res_bind m (fun x => k))
  (at level 10, x pattern, m at level 100, k at level 200).

(** A [for] loop over a vector whose body may throw or run out of fuel. *)
Fixpoint res_fold {A S : Type} (f : S -> A -> Res S) (l : list A) (s : S) : Res S :=
  match l with
  | [] => Val s
  | x :: l' => do s' <- f s x in res_fold f l' s'
  end.

(** The loop [bool changed = true; while (changed) { changed = false; body }]:
    [body] returns the new state and the final value of [changed]. *)
Fixpoint while_changed {S : Type} (body : S -> Res (S * bool)) (fuel : nat) (s : S)
  : Res S :=
  match fuel with
  | 0 => Timeout
  | S fuel' =>
      do (s', changed) <- body s in
      if changed then while_changed body fuel' s' else Val s'
  end.

Definition is_val {A : Type} (m : Res A) : Prop :=
  match m with Val _ => True | _ => False end.

(** ** [std::set] as a key-ordered list *)

Section std_set.
Context {A : Type}.
(** [lt] is the strict order [operator<] of the element type. *)
Variable lt : A -> A -> bool.

(** Two elements are the same key when neither is below the other. *)
Definition equiv_key (x y : A) : bool := negb (lt x y) && negb (lt y x).

(** [std::set::insert]: keeps the set when the key is already present. *)
Fixpoint set_insert (x : A) (s : list A) : list A :=
  match s with
  | [] => [x]
  | y :: s' =>
      if lt x y then x :: s
      else if lt y x then y :: set_insert x s'
      else s
  end.

(** [s.find(x) != s.end()] *)
Definition set_mem (x : A) (s : list A) : bool := existsb (equiv_key x) s.

(** [s.insert(first, last)] over a range listed as [xs]. *)
Definition set_insert_all (xs : list A) (s : list A) : list A :=
  fold_left (fun acc x => set_insert x acc) xs s.

(** Building a set from an initializer list. *)
Definition set_of_list (xs : list A) : list A := set_insert_all xs [].
End std_set.

(** [std::set::operator==]: same size and element-wise [==]. *)
Fixpoint set_eqb {A : Type} (eqb : A -> A -> bool) (s1 s2 : list A) : bool :=
  match s1, s2 with
  | [], [] => true
  | x :: s1', y :: s2' => eqb x y && set_eqb eqb s1' s2'
  | _, _ => false
  end.

(** [std::string::back()], undefined on the empty string. *)
Fixpoint back (s : string) : option ascii :=
  match s with
  | EmptyString => None
  | String c EmptyString => Some c
  | String _ s' => back s'
  end.

(** [std::to_string(int)] and [operator<<(int)]. *)
Definition to_string (z : Z) : string := NilZero.string_of_int (Z.to_int z).

(** [find] + [erase] of the first element satisfying [p]
    ([v.erase(std::find(...))]); erasing [end()] is undefined and is not
    reached by the callers below. *)
Fixpoint erase_first {A : Type} (p : A -> bool) (l : list A) : list A :=
  match l with
  | [] => []
  | x :: l' => if p x then l' else x :: erase_first p l'
  end.

(** ** token.h: token kinds and tokens *)

(** [enum class TokenType]: the enumerators are the integers the compiler
    assigns to them ([CUSTOM_START = 1000] opens a free range). *)
Definition TokenType := Z.
Module TokenType.
Definition EOF_TOKEN : TokenType := 0%Z.
Definition ERROR_TOKEN : TokenType := 1%Z.
Definition IDENTIFIER : TokenType := 2%Z.
Definition NUMBER : TokenType := 3%Z.
Definition STRING : TokenType := 4%Z.
Definition PLUS : TokenType := 5%Z.
Definition MINUS : TokenType := 6%Z.
Definition MULTIPLY : TokenType := 7%Z.
Definition DIVIDE : TokenType := 8%Z.
Definition POWER : TokenType := 9%Z.
Definition ASSIGN : TokenType := 10%Z.
Definition LPAREN : TokenType := 17%Z.
Definition RPAREN : TokenType := 18%Z.
Definition CUSTOM_START : TokenType := 1000%Z.
Definition EQUAL : TokenType := 11%Z.
Definition NOT_EQUAL : TokenType := 12%Z.
Definition LESS_THAN : TokenType := 13%Z.
Definition GREATER_THAN : TokenType := 14%Z.
Definition LESS_EQUAL : TokenType := 15%Z.
Definition GREATER_EQUAL : TokenType := 16%Z.
Definition LBRACE : TokenType := 19%Z.
Definition RBRACE : TokenType := 20%Z.
Definition SEMICOLON : TokenType := 21%Z.
Definition COMMA : TokenType := 22%Z.
Definition WHITESPACE : TokenType := 23%Z.
Definition NEWLINE : TokenType := 24%Z.
End TokenType.

Record Token : Type := mkToken {
  tok_type : TokenType;
  tok_value : string;
  tok_line : nat;
  tok_column : nat;
  tok_position : nat
}.

(** [Token()] *)
Definition default_token : Token := mkToken TokenType.EOF_TOKEN "" 1 1 0.

Definition is_eof (t : Token) : bool := (tok_type t =? TokenType.EOF_TOKEN)%Z.
Definition is_error_token (t : Token) : bool := (tok_type t =? TokenType.ERROR_TOKEN)%Z.

(** ** token.cpp: the names of the token types *)

(** The initializer list of the two static maps of token.cpp; the second
    map holds the same pairs with the string as the key. *)
Definition type_map : list (TokenType * string) :=
  [(TokenType.EOF_TOKEN, "EOF"); (TokenType.ERROR_TOKEN, "ERROR");
   (TokenType.IDENTIFIER, "IDENTIFIER"); (TokenType.NUMBER, "NUMBER");
   (TokenType.STRING, "STRING"); (TokenType.PLUS, "PLUS"); (TokenType.MINUS, "MINUS");
   (TokenType.MULTIPLY, "MULTIPLY"); (TokenType.DIVIDE, "DIVIDE");
   (TokenType.POWER, "POWER"); (TokenType.ASSIGN, "ASSIGN"); (TokenType.EQUAL, "EQUAL");
   (TokenType.NOT_EQUAL, "NOT_EQUAL"); (TokenType.LESS_THAN, "LESS_THAN");
   (TokenType.GREATER_THAN, "GREATER_THAN"); (TokenType.LESS_EQUAL, "LESS_EQUAL");
   (TokenType.GREATER_EQUAL, "GREATER_EQUAL"); (TokenType.LPAREN, "LPAREN");
   (TokenType.RPAREN, "RPAREN"); (TokenType.LBRACE, "LBRACE"); (TokenType.RBRACE, "RBRACE");
   (TokenType.SEMICOLON, "SEMICOLON"); (TokenType.COMMA, "COMMA");
   (TokenType.WHITESPACE, "WHITESPACE"); (TokenType.NEWLINE, "NEWLINE")]%string.

(** [type_map.find(type)] and [type_map.find(str)]. *)
Fixpoint find_by_type (ty : TokenType) (m : list (TokenType * string)) : option string :=
  match m with
  | [] => None
  | (k, v) :: m' => if (k =? ty)%Z then Some v else find_by_type ty m'
  end.
Fixpoint find_by_name (str : string) (m : list (TokenType * string)) : option TokenType :=
  match m with
  | [] => None
  | (v, k) :: m' => if String.eqb k str then Some v else find_by_name str m'
  end.

Definition token_type_to_string (ty : TokenType) : string :=
  match find_by_type ty type_map with
  | Some s => s
  | None => String.append "UNKNOWN(" (String.append (to_string ty) ")")
  end.

Definition string_to_token_type (str : string) : TokenType :=
  match find_by_name str type_map with
  | Some ty => ty
  | None => TokenType.ERROR_TOKEN
  end.

(** [Token::to_string()] *)
Definition token_to_string (t : Token) : string :=
  String.append "Token("
    (String.append (token_type_to_string (tok_type t))
      (String.append ", " (String (ascii_of_nat 34)
        (String.append (tok_value t)
          (String (ascii_of_nat 34)
            (String.append ", "
              (String.append (to_string (Z.of_nat (tok_line t)))
                (String.append ":"
                  (String.append (to_string (Z.of_nat (tok_column t))) ")"))))))))).

(** ** symbol.h / symbol.cpp *)

Inductive SymbolType : Type := TERMINAL | NONTERMINAL | EPSILON | END_OF_INPUT.

Definition SymbolType_eqb (a b : SymbolType) : bool :=
  match a, b with
  | TERMINAL, TERMINAL | NONTERMINAL, NONTERMINAL
  | EPSILON, EPSILON | END_OF_INPUT, END_OF_INPUT => true
  | _, _ => false
  end.

(** A [SymbolPtr] that is not null: the address of the [Symbol] object and
    its three (immutable) fields. *)
Record SymbolPtr : Type := mkSymbol {
  addr : nat;
  name : string;
  type : SymbolType;
  token_type : TokenType
}.

(** [Symbol(name, type)] and [Symbol(name, token_type)] placed at address
    [a] by [std::make_shared]. *)
Definition make_symbol (a : nat) (n : string) (t : SymbolType) : SymbolPtr :=
  mkSymbol a n t TokenType.EOF_TOKEN.
Definition make_terminal_symbol (a : nat) (n : string) (tt : TokenType) : SymbolPtr :=
  mkSymbol a n TERMINAL tt.

Definition is_terminal (s : SymbolPtr) : bool := SymbolType_eqb (type s) TERMINAL.
Definition is_nonterminal (s : SymbolPtr) : bool := SymbolType_eqb (type s) NONTERMINAL.
Definition is_epsilon (s : SymbolPtr) : bool := SymbolType_eqb (type s) EPSILON.
Definition is_end_of_input (s : SymbolPtr) : bool := SymbolType_eqb (type s) END_OF_INPUT.

(** Pointer comparison of two [SymbolPtr]. *)
Definition ptr_eqb (a b : SymbolPtr) : bool := addr a =? addr b.
Definition ptr_ltb (a b : SymbolPtr) : bool := addr a <? addr b.

(** Comparison of two possibly null [SymbolPtr]. *)
Definition optr_eqb (a b : option SymbolPtr) : bool :=
  match a, b with
  | None, None => true
  | Some x, Some y => ptr_eqb x y
  | _, _ => false
  end.

(** [std::set<SymbolPtr>] *)
Definition SymbolSet := list SymbolPtr.
Definition sym_insert : SymbolPtr -> SymbolSet -> SymbolSet := set_insert ptr_ltb.
Definition sym_mem : SymbolPtr -> SymbolSet -> bool := set_mem ptr_ltb.

Module SymbolTable.
Record t : Type := mk {
  symbols_ : SymbolSet;
  epsilon_ : SymbolPtr;
  end_of_input_ : SymbolPtr
}.

(** [SymbolTable()]: the two special symbols are allocated at the
    addresses [a_eps] and [a_eoi]. *)
Definition create (a_eps a_eoi : nat) : t :=
  let e := make_symbol a_eps "ε" EPSILON in
  let d := make_symbol a_eoi "$" END_OF_INPUT in
  mk (sym_insert d (sym_insert e [])) e d.

(** [get_terminal(name, token_type)]; [a] is the address a new symbol
    would receive. *)
Definition get_terminal (a : nat) (n : string) (tt : TokenType) (st : t)
  : SymbolPtr * t :=
  match find (fun s => String.eqb (name s) n && is_terminal s
                       && (token_type s =? tt)%Z) (symbols_ st) with
  | Some s => (s, st)
  | None =>
      let s := make_terminal_symbol a n tt in
      (s, mk (sym_insert s (symbols_ st)) (epsilon_ st) (end_of_input_ st))
  end.

(** [get_nonterminal(name)] *)
Definition get_nonterminal (a : nat) (n : string) (st : t) : SymbolPtr * t :=
  match find (fun s => String.eqb (name s) n && is_nonterminal s) (symbols_ st) with
  | Some s => (s, st)
  | None =>
      let s := make_symbol a n NONTERMINAL in
      (s, mk (sym_insert s (symbols_ st)) (epsilon_ st) (end_of_input_ st))
  end.

Definition get_epsilon (st : t) : SymbolPtr := epsilon_ st.
Definition get_end_of_input (st : t) : SymbolPtr := end_of_input_ st.

(** [find_symbol(name)]: the first symbol of that name in the order of the
    set, [None] for the null pointer. *)
Definition find_symbol (n : string) (st : t) : option SymbolPtr :=
  find (fun s => String.eqb (name s) n) (symbols_ st).

Definition get_all_symbols (st : t) : SymbolSet := symbols_ st.

(** [clear()]: the two special symbols are allocated again. *)
Definition clear (a_eps a_eoi : nat) (st : t) : t := create a_eps a_eoi.

(** [get_terminals()], [get_nonterminals()]: filtered copies of the set. *)
Definition get_terminals (st : t) : SymbolSet :=
  fold_left (fun acc s => if is_terminal s then sym_insert s acc else acc)
            (symbols_ st) [].
Definition get_nonterminals (st : t) : SymbolSet :=
  fold_left (fun acc s => if is_nonterminal s then sym_insert s acc else acc)
            (symbols_ st) [].
End SymbolTable.

(** ** grammar.h / grammar.cpp: productions and grammars *)

(** A [ProductionPtr]: the address of the [Production] object, its left-hand
    side and its right-hand side.  ([add_symbol] and [clear_rhs], which
    mutate a production, are used by none of the functions embedded here.) *)
Record ProductionPtr : Type := mkProduction {
  paddr : nat;
  lhs : SymbolPtr;
  rhs : list SymbolPtr
}.

Definition prod_eqb (p q : ProductionPtr) : bool := paddr p =? paddr q.
Definition prod_ltb (p q : ProductionPtr) : bool := paddr p <? paddr q.

(** [Production::is_epsilon_production] *)
Definition is_epsilon_production (p : ProductionPtr) : bool :=
  match rhs p with
  | [s] => is_epsilon s
  | _ => false
  end.

(** The maps of the set caches, keyed by the address of the symbol. *)
Abbreviation SetMap := (gmap nat SymbolSet).
Abbreviation BoolMap := (gmap nat bool).

Module Grammar.
Record t : Type := mk {
  symbol_table_ : SymbolTable.t;
  productions_ : list ProductionPtr;
  start_symbol_ : option SymbolPtr;
  is_augmented_ : bool;
  first_sets_ : SetMap;
  follow_sets_ : SetMap;
  epsilon_derivers_ : BoolMap;
  first_sets_computed_ : bool;
  follow_sets_computed_ : bool;
  epsilon_computed_ : bool
}.

Definition with_symbol_table (st : SymbolTable.t) (g : t) : t :=
  mk st (productions_ g) (start_symbol_ g) (is_augmented_ g)
     (first_sets_ g) (follow_sets_ g) (epsilon_derivers_ g)
     (first_sets_computed_ g) (follow_sets_computed_ g) (epsilon_computed_ g).
Definition with_productions (ps : list ProductionPtr) (g : t) : t :=
  mk (symbol_table_ g) ps (start_symbol_ g) (is_augmented_ g)
     (first_sets_ g) (follow_sets_ g) (epsilon_derivers_ g)
     (first_sets_computed_ g) (follow_sets_computed_ g) (epsilon_computed_ g).
Definition with_is_augmented (b : bool) (g : t) : t :=
  mk (symbol_table_ g) (productions_ g) (start_symbol_ g) b
     (first_sets_ g) (follow_sets_ g) (epsilon_derivers_ g)
     (first_sets_computed_ g) (follow_sets_computed_ g) (epsilon_computed_ g).
Definition with_first_sets (m : SetMap) (g : t) : t :=
  mk (symbol_table_ g) (productions_ g) (start_symbol_ g) (is_augmented_ g)
     m (follow_sets_ g) (epsilon_derivers_ g)
     (first_sets_computed_ g) (follow_sets_computed_ g) (epsilon_computed_ g).
Definition with_follow_sets (m : SetMap) (g : t) : t :=
  mk (symbol_table_ g) (productions_ g) (start_symbol_ g) (is_augmented_ g)
     (first_sets_ g) m (epsilon_derivers_ g)
     (first_sets_computed_ g) (follow_sets_computed_ g) (epsilon_computed_ g).
Definition with_epsilon_derivers (m : BoolMap) (g : t) : t :=
  mk (symbol_table_ g) (productions_ g) (start_symbol_ g) (is_augmented_ g)
     (first_sets_ g) (follow_sets_ g) m
     (first_sets_computed_ g) (follow_sets_computed_ g) (epsilon_computed_ g).
Definition with_flags (fi fo ep : bool) (g : t) : t :=
  mk (symbol_table_ g) (productions_ g) (start_symbol_ g) (is_augmented_ g)
     (first_sets_ g) (follow_sets_ g) (epsilon_derivers_ g) fi fo ep.

(** [Grammar()] *)
Definition create (a_eps a_eoi : nat) : t :=
  mk (SymbolTable.create a_eps a_eoi) [] None false ∅ ∅ ∅ false false false.

(** [set_start_symbol(start)]; [None] is the null pointer. *)
Definition set_start_symbol (s : option SymbolPtr) (g : t) : t :=
  mk (symbol_table_ g) (productions_ g) s (is_augmented_ g)
     (first_sets_ g) (follow_sets_ g) (epsilon_derivers_ g)
     (first_sets_computed_ g) (follow_sets_computed_ g) (epsilon_computed_ g).

Definition clear_cache (g : t) : t :=
  mk (symbol_table_ g) (productions_ g) (start_symbol_ g) (is_augmented_ g)
     ∅ ∅ ∅ false false false.

(** [add_production(lhs, rhs)]; the new [Production] lives at address [a]. *)
Definition add_production (a : nat) (l : SymbolPtr) (r : list SymbolPtr) (g : t)
  : ProductionPtr * t :=
  let prod := mkProduction a l r in
  (prod, clear_cache (with_productions (productions_ g ++ [prod]) g)).

Definition productions_for (symbol : SymbolPtr) (g : t) : list ProductionPtr :=
  List.filter (fun prod => ptr_eqb (lhs prod) symbol) (productions_ g).

(** [augment()]; [a_sym] and [a_prod] are the addresses that
    [std::make_shared] hands out for the new symbol (when one is created)
    and for the new production. *)
Definition augment (a_sym a_prod : nat) (g : t) : t :=
  match is_augmented_ g, start_symbol_ g with
  | true, _ => g
  | false, None => g
  | false, Some start =>
      let '(new_start, st') :=
        SymbolTable.get_nonterminal a_sym (String.append (name start) "'")
                                    (symbol_table_ g) in
      let '(augment_prod, g1) :=
        add_production a_prod new_start [start] (with_symbol_table st' g) in
      let ps := erase_first (prod_eqb augment_prod) (productions_ g1) in
      let g2 := with_productions (augment_prod :: ps) g1 in
      clear_cache (with_is_augmented true (set_start_symbol (Some new_start) g2))
  end.

Definition is_augmented (g : t) : bool := is_augmented_ g.
Definition start_symbol (g : t) : option SymbolPtr := start_symbol_ g.
Definition productions (g : t) : list ProductionPtr := productions_ g.

(** ** grammar.cpp: nullability, FIRST and FOLLOW *)

(** [m[k]] on an [unordered_map<SymbolPtr, bool>]: an absent key is first
    inserted with the value [false]. *)
Definition eps_at (k : SymbolPtr) (m : BoolMap) : bool * BoolMap :=
  match m !! addr k with
  | Some b => (b, m)
  | None => (false, <[addr k := false]> m)
  end.

(** [m[k]] on an [unordered_map<SymbolPtr, std::set<SymbolPtr>>]: an absent
    key is first inserted with the empty set. *)
Definition set_at (k : SymbolPtr) (m : SetMap) : SymbolSet * SetMap :=
  match m !! addr k with
  | Some s => (s, m)
  | None => ([], <[addr k := []]> m)
  end.

(** [m[k].insert(x)] *)
Definition set_add (k x : SymbolPtr) (m : SetMap) : SetMap :=
  let '(s, m') := set_at k m in <[addr k := sym_insert x s]> m'.

(** [for (sym : src) if (!sym->is_epsilon()) m[k].insert(sym)], for a key [k]
    already present. *)
Definition set_add_non_epsilon (k : SymbolPtr) (src : SymbolSet) (m : SetMap) : SetMap :=
  fold_left (fun acc sym => if is_epsilon sym then acc else set_add k sym acc) src m.

(** [for (sym : src) m[k].insert(sym)] *)
Definition set_add_all (k : SymbolPtr) (src : SymbolSet) (m : SetMap) : SetMap :=
  fold_left (fun acc sym => set_add k sym acc) src m.

(** The inner loop of [compute_epsilon_derivers] over a right-hand side:
    [all_derive_epsilon] after the loop, and the map with the keys that
    [operator[]] inserted. *)
Fixpoint all_derive_epsilon (syms : list SymbolPtr) (m : BoolMap) : bool * BoolMap :=
  match syms with
  | [] => (true, m)
  | symbol :: rest =>
      if is_terminal symbol || is_end_of_input symbol then (false, m)
      else
        let '(b, m') := eps_at symbol m in
        if b then all_derive_epsilon rest m' else (false, m')
  end.

(** The body of the [for] loop over the productions; the state is the map
    and the flag [changed]. *)
Definition epsilon_step (st : BoolMap * bool) (prod : ProductionPtr) : BoolMap * bool :=
  let '(m, changed) := st in
  let '(b, m1) := eps_at (lhs prod) m in
  if b then (m1, changed)
  else
    match rhs prod with
    | [] => (<[addr (lhs prod) := true]> m1, true)
    | _ =>
        if is_epsilon_production prod then (<[addr (lhs prod) := true]> m1, true)
        else
          let '(all, m2) := all_derive_epsilon (rhs prod) m1 in
          if all then (<[addr (lhs prod) := true]> m2, true) else (m2, changed)
    end.

(** [while (changed) { changed = false; for (prod : productions_) ... }] *)
Definition epsilon_loop (fuel : nat) (prods : list ProductionPtr) (m : BoolMap)
  : Res BoolMap :=
  while_changed (fun m0 => Val (fold_left epsilon_step prods (m0, false))) fuel m.

(** The two initialisation steps of [compute_epsilon_derivers]. *)
Definition epsilon_init (st : SymbolTable.t) : BoolMap :=
  let m := fold_left (fun acc nt => <[addr nt := false]> acc)
                     (SymbolTable.get_nonterminals st) ∅ in
  <[addr (SymbolTable.get_epsilon st) := true]> m.

Definition compute_epsilon_derivers (fuel : nat) (g : t) : Res t :=
  do m <- epsilon_loop fuel (productions_ g) (epsilon_init (symbol_table_ g)) in
  Val (with_flags (first_sets_computed_ g) (follow_sets_computed_ g) true
                  (with_epsilon_derivers m g)).

(** [derives_epsilon(SymbolPtr)]: the answer and the grammar with its
    cache filled. *)
Definition derives_epsilon (fuel : nat) (symbol : SymbolPtr) (g : t) : Res (bool * t) :=
  do g' <- (if epsilon_computed_ g then Val g else compute_epsilon_derivers fuel g) in
  Val (match epsilon_derivers_ g' !! addr symbol with
       | Some b => b
       | None => false
       end, g').

(** [derives_epsilon(const std::vector<SymbolPtr>&)] *)
Fixpoint derives_epsilon_seq (fuel : nat) (symbols : list SymbolPtr) (g : t)
  : Res (bool * t) :=
  match symbols with
  | [] => Val (true, g)
  | symbol :: rest =>
      do (b, g') <- derives_epsilon fuel symbol g in
      if b then derives_epsilon_seq fuel rest g' else Val (false, g')
  end.

(** The loop of [compute_first_sets] over the right-hand side
    [X1 ... Xk] of a production with left-hand side [l]; [first_lhs] is
    the entry of [l], which exists when the loop starts. *)
Fixpoint first_rhs_loop (fuel : nat) (l : SymbolPtr) (syms : list SymbolPtr) (g : t)
  : Res t :=
  match syms with
  | [] => Val g
  | symbol :: rest =>
      let '(first_symbol, fs1) := set_at symbol (first_sets_ g) in
      let fs2 := set_add_non_epsilon l first_symbol fs1 in
      do (b, g1) <- derives_epsilon fuel symbol (with_first_sets fs2 g) in
      if negb b then Val g1
      else
        match rest with
        | [] =>
            Val (with_first_sets
                   (set_add l (SymbolTable.get_epsilon (symbol_table_ g1))
                            (first_sets_ g1)) g1)
        | _ :: _ => first_rhs_loop fuel l rest g1
        end
  end.

(** The body of the [for] loop over the productions in
    [compute_first_sets]. *)
Definition first_step (fuel : nat) (st : t * bool) (prod : ProductionPtr)
  : Res (t * bool) :=
  let '(g, changed) := st in
  let '(first_lhs, fs0) := set_at (lhs prod) (first_sets_ g) in
  let old_size := length first_lhs in
  let g0 := with_first_sets fs0 g in
  do g1 <- match rhs prod with
           | [] =>
               Val (with_first_sets
                      (set_add (lhs prod)
                               (SymbolTable.get_epsilon (symbol_table_ g0)) fs0) g0)
           | _ :: _ => first_rhs_loop fuel (lhs prod) (rhs prod) g0
           end in
  let new_size := length (fst (set_at (lhs prod) (first_sets_ g1))) in
  Val (g1, if new_size =? old_size then changed else true).

Definition first_loop (fuel n : nat) (g : t) : Res t :=
  while_changed (fun g0 => res_fold (first_step fuel) (productions_ g0) (g0, false)) n g.

(** The initialisation of [compute_first_sets]. *)
Definition first_init (st : SymbolTable.t) : SetMap :=
  let m1 := fold_left (fun acc terminal => set_add terminal terminal acc)
                      (SymbolTable.get_terminals st) ∅ in
  let m2 := set_add (SymbolTable.get_epsilon st) (SymbolTable.get_epsilon st) m1 in
  let m3 := set_add (SymbolTable.get_end_of_input st)
                    (SymbolTable.get_end_of_input st) m2 in
  fold_left (fun acc nonterminal => <[addr nonterminal := []]> acc)
            (SymbolTable.get_nonterminals st) m3.

Definition compute_first_sets (fuel : nat) (g : t) : Res t :=
  do g' <- first_loop fuel fuel
             (with_first_sets (first_init (symbol_table_ g)) g) in
  Val (with_flags true (follow_sets_computed_ g') (epsilon_computed_ g') g').

(** [first_set(SymbolPtr)] *)
Definition first_set (fuel : nat) (symbol : SymbolPtr) (g : t) : Res (SymbolSet * t) :=
  do g' <- (if first_sets_computed_ g then Val g else compute_first_sets fuel g) in
  Val (match first_sets_ g' !! addr symbol with
       | Some s => s
       | None => []
       end, g').

(** The loop of [first_set(const std::vector<SymbolPtr>&)]. *)
Fixpoint first_seq_loop (fuel : nat) (symbols : list SymbolPtr)
         (result : SymbolSet) (g : t) : Res (SymbolSet * t) :=
  match symbols with
  | [] => Val (result, g)
  | symbol :: rest =>
      do (first_i, g1) <- first_set fuel symbol g in
      let result1 :=
        fold_left (fun acc sym => if is_epsilon sym then acc else sym_insert sym acc)
                  first_i result in
      do (b, g2) <- derives_epsilon fuel symbol g1 in
      if negb b then Val (result1, g2)
      else
        match rest with
        | [] =>
            do (b', g3) <- derives_epsilon fuel symbol g2 in
            Val (if b' then sym_insert (SymbolTable.get_epsilon (symbol_table_ g3)) result1
                 else result1, g3)
        | _ :: _ => first_seq_loop fuel rest result1 g2
        end
  end.

(** [first_set(const std::vector<SymbolPtr>&)] *)
Definition first_set_seq (fuel : nat) (symbols : list SymbolPtr) (g : t)
  : Res (SymbolSet * t) :=
  do (result, g1) <- first_seq_loop fuel symbols [] g in
  match symbols with
  | [] => Val (sym_insert (SymbolTable.get_epsilon (symbol_table_ g1)) result, g1)
  | _ :: _ =>
      do (b, g2) <- derives_epsilon_seq fuel symbols g1 in
      Val (if b then sym_insert (SymbolTable.get_epsilon (symbol_table_ g2)) result
           else result, g2)
  end.

(** The body of the inner loop of [compute_follow_sets] at one position of
    the production [A -> alpha B beta]. *)
Definition follow_pos_step (fuel : nat) (A B : SymbolPtr) (beta : list SymbolPtr)
           (st : t * bool) : Res (t * bool) :=
  let '(g, changed) := st in
  if negb (is_nonterminal B) then Val st
  else
    let '(follow_B, fo0) := set_at B (follow_sets_ g) in
    let old_size := length follow_B in
    let g0 := with_follow_sets fo0 g in
    do g1 <- match beta with
             | [] =>
                 let '(follow_A, fo1) := set_at A (follow_sets_ g0) in
                 Val (with_follow_sets (set_add_all B follow_A fo1) g0)
             | _ :: _ =>
                 do (first_beta, ga) <- first_set_seq fuel beta g0 in
                 let gb := with_follow_sets
                             (set_add_non_epsilon B first_beta (follow_sets_ ga)) ga in
                 do (b, gc) <- derives_epsilon_seq fuel beta gb in
                 if b then
                   let '(follow_A, fo1) := set_at A (follow_sets_ gc) in
                   Val (with_follow_sets (set_add_all B follow_A fo1) gc)
                 else Val gc
             end in
    let new_size := length (fst (set_at B (follow_sets_ g1))) in
    Val (g1, if new_size =? old_size then changed else true).

(** [for (size_t i = 0; i < prod->rhs().size(); ++i)]: [syms] is the part
    of the right-hand side from position [i] on. *)
Fixpoint follow_rhs_loop (fuel : nat) (A : SymbolPtr) (syms : list SymbolPtr)
         (st : t * bool) : Res (t * bool) :=
  match syms with
  | [] => Val st
  | B :: beta =>
      do st' <- follow_pos_step fuel A B beta st in
      follow_rhs_loop fuel A beta st'
  end.

Definition follow_step (fuel : nat) (st : t * bool) (prod : ProductionPtr)
  : Res (t * bool) :=
  follow_rhs_loop fuel (lhs prod) (rhs prod) st.

Definition follow_loop (fuel n : nat) (g : t) : Res t :=
  while_changed (fun g0 => res_fold (follow_step fuel) (productions_ g0) (g0, false)) n g.

(** The initialisation of [compute_follow_sets]. *)
Definition follow_init (g : t) : SetMap :=
  let m := fold_left (fun acc nonterminal => <[addr nonterminal := []]> acc)
                     (SymbolTable.get_nonterminals (symbol_table_ g)) ∅ in
  match start_symbol_ g with
  | Some start => set_add start (SymbolTable.get_end_of_input (symbol_table_ g)) m
  | None => m
  end.

Definition compute_follow_sets (fuel : nat) (g : t) : Res t :=
  do g0 <- (if first_sets_computed_ g then Val g else compute_first_sets fuel g) in
  do g' <- follow_loop fuel fuel (with_follow_sets (follow_init g0) g0) in
  Val (with_flags (first_sets_computed_ g') true (epsilon_computed_ g') g').

(** [follow_set(SymbolPtr)] *)
Definition follow_set (fuel : nat) (symbol : SymbolPtr) (g : t) : Res (SymbolSet * t) :=
  do g' <- (if follow_sets_computed_ g then Val g else compute_follow_sets fuel g) in
  Val (match follow_sets_ g' !! addr symbol with
       | Some s => s
       | None => []
       end, g').
(** [get_validation_errors()] *)
Definition get_validation_errors (g : t) : list string :=
  let errors :=
    match start_symbol_ g with
    | None => ["No start symbol defined"%string]
    | Some _ => []
    end in
  let errors :=
    match productions_ g with
    | [] => errors ++ ["No productions defined"%string]
    | _ :: _ => errors
    end in
  let '(defined_nonterminals, used_nonterminals) :=
    fold_left (fun (st : SymbolSet * SymbolSet) prod =>
                 (sym_insert (lhs prod) (fst st),
                  fold_left (fun used symbol =>
                               if is_nonterminal symbol then sym_insert symbol used
                               else used)
                            (rhs prod) (snd st)))
              (productions_ g) ([], []) in
  fold_left (fun errors symbol =>
               if sym_mem symbol defined_nonterminals then errors
               else errors ++ [String.append "Undefined nonterminal: " (name symbol)])
            used_nonterminals errors.

(** [is_valid()] *)
Definition is_valid (g : t) : bool :=
  match get_validation_errors g with
  | [] => true
  | _ :: _ => false
  end.
End Grammar.

(** ** Reference notions for nullability *)

(** The least set of addresses closed under the rules that
    [compute_epsilon_derivers] applies: the epsilon symbol of the table is
    in it; the left-hand side of a production is in it when the production
    is an epsilon production or when no symbol of its right-hand side is a
    terminal or the end-of-input symbol and all of them are in it. *)
Inductive nullable_addr (prods : list ProductionPtr) (e : nat) : nat -> Prop :=
  | nullable_eps : nullable_addr prods e e
  | nullable_epsprod (p : ProductionPtr) :
      In p prods -> is_epsilon_production p = true ->
      nullable_addr prods e (addr (lhs p))
  | nullable_prod (p : ProductionPtr) :
      In p prods -> nullable_rhs prods e (rhs p) ->
      nullable_addr prods e (addr (lhs p))
with nullable_rhs (prods : list ProductionPtr) (e : nat) : list SymbolPtr -> Prop :=
  | nullable_rhs_nil : nullable_rhs prods e []
  | nullable_rhs_cons (s : SymbolPtr) (l : list SymbolPtr) :
      is_terminal s = false -> is_end_of_input s = false ->
      nullable_addr prods e (addr s) -> nullable_rhs prods e l ->
      nullable_rhs prods e (s :: l).

Scheme nullable_addr_mut := Induction for nullable_addr Sort Prop
  with nullable_rhs_mut := Induction for nullable_rhs Sort Prop.

(** Derivations.  A sentential form is a list of symbols; the string that a
    right-hand side denotes is the right-hand side without its epsilon
    symbols.  One step replaces an occurrence of the (nonterminal)
    left-hand side of a production by that string. *)
Definition body (p : ProductionPtr) : list SymbolPtr :=
  List.filter (fun s => negb (is_epsilon s)) (rhs p).

Inductive derives_step (prods : list ProductionPtr) : list SymbolPtr -> list SymbolPtr -> Prop :=
  | derives_step_intro (p : ProductionPtr) (alpha beta : list SymbolPtr) :
      In p prods -> is_nonterminal (lhs p) = true ->
      derives_step prods (alpha ++ lhs p :: beta) (alpha ++ body p ++ beta).

(** [derives_in prods n u v]: [u] rewrites to [v] in [n] steps. *)
Inductive derives_in (prods : list ProductionPtr) : nat -> list SymbolPtr -> list SymbolPtr -> Prop :=
  | derives_in_refl (u : list SymbolPtr) : derives_in prods 0 u u
  | derives_in_step (n : nat) (u v w : list SymbolPtr) :
      derives_step prods u v -> derives_in prods n v w -> derives_in prods (S n) u w.

(** [A =>* epsilon] *)
Definition derives_empty (prods : list ProductionPtr) (A : SymbolPtr) : Prop :=
  exists n, derives_in prods n [A] [].

(** The symbols a grammar refers to. *)
Definition symbols_of (g : Grammar.t) : list SymbolPtr :=
  SymbolTable.epsilon_ (Grammar.symbol_table_ g)
  :: SymbolTable.end_of_input_ (Grammar.symbol_table_ g)
  :: SymbolTable.symbols_ (Grammar.symbol_table_ g)
  ++ flat_map (fun p => lhs p :: rhs p) (Grammar.productions_ g).

(** The invariants of the data model that the code relies on without
    checking them: two handles with the same address are the same symbol;
    the epsilon symbol of the table has the epsilon type and is the only
    symbol of that type; the left-hand side of every production is a
    nonterminal. *)
Record well_formed (g : Grammar.t) : Prop := {
  wf_addr : forall x y, In x (symbols_of g) -> In y (symbols_of g) ->
                        addr x = addr y -> x = y;
  wf_epsilon : is_epsilon (SymbolTable.epsilon_ (Grammar.symbol_table_ g)) = true;
  wf_epsilon_unique : forall x, In x (symbols_of g) -> is_epsilon x = true ->
                                x = SymbolTable.epsilon_ (Grammar.symbol_table_ g);
  wf_lhs : forall p, In p (Grammar.productions_ g) -> is_nonterminal (lhs p) = true
}.

(** Structural equality of two handles. *)
Definition symbol_eqb (x y : SymbolPtr) : bool :=
  (addr x =? addr y) && String.eqb (name x) (name y)
  && SymbolType_eqb (type x) (type y) && (token_type x =? token_type y)%Z.

(** A decision procedure for [well_formed]. *)
Definition well_formed_check (g : Grammar.t) : bool :=
  let eps := SymbolTable.epsilon_ (Grammar.symbol_table_ g) in
  forallb (fun x => forallb (fun y => implb (addr x =? addr y) (symbol_eqb x y))
                            (symbols_of g)) (symbols_of g)
  && is_epsilon eps
  && forallb (fun x => implb (is_epsilon x) (symbol_eqb x eps)) (symbols_of g)
  && forallb (fun p => is_nonterminal (lhs p)) (Grammar.productions_ g).

(** ** lr_items.h / lr_items.cpp: items, states and the LR(0) automaton *)

Module LR0Item.
Record t : Type := mk {
  production_ : ProductionPtr;
  dot_position_ : nat
}.

Definition production (i : t) : ProductionPtr := production_ i.
Definition dot_position (i : t) : nat := dot_position_ i.

Definition is_complete (i : t) : bool :=
  length (rhs (production_ i)) <=? dot_position_ i.

(** The result is [None] for the null pointer. *)
Definition next_symbol (i : t) : option SymbolPtr :=
  if is_complete i then None else nth_error (rhs (production_ i)) (dot_position_ i).

Definition advance (i : t) : t := mk (production_ i) (dot_position_ i + 1).

Definition eqb (a b : t) : bool :=
  prod_eqb (production_ a) (production_ b) && (dot_position_ a =? dot_position_ b).

Definition ltb (a b : t) : bool :=
  if negb (prod_eqb (production_ a) (production_ b))
  then prod_ltb (production_ a) (production_ b)
  else dot_position_ a <? dot_position_ b.
End LR0Item.

(** [std::set<LR0Item>] *)
Definition LR0ItemSet := list LR0Item.t.
Definition item_insert : LR0Item.t -> LR0ItemSet -> LR0ItemSet := set_insert LR0Item.ltb.
Definition item_mem : LR0Item.t -> LR0ItemSet -> bool := set_mem LR0Item.ltb.

Module LR1Item.
Record t : Type := mk {
  production_ : ProductionPtr;
  dot_position_ : nat;
  lookahead_ : SymbolPtr
}.

(** [LR1Item(const LR0Item&, SymbolPtr)] *)
Definition of_core (c : LR0Item.t) (la : SymbolPtr) : t :=
  mk (LR0Item.production_ c) (LR0Item.dot_position_ c) la.

Definition production (i : t) : ProductionPtr := production_ i.
Definition lookahead (i : t) : SymbolPtr := lookahead_ i.
Definition core (i : t) : LR0Item.t := LR0Item.mk (production_ i) (dot_position_ i).

Definition is_complete (i : t) : bool :=
  length (rhs (production_ i)) <=? dot_position_ i.

Definition next_symbol (i : t) : option SymbolPtr :=
  if is_complete i then None else nth_error (rhs (production_ i)) (dot_position_ i).

Definition ltb (a b : t) : bool :=
  if negb (prod_eqb (production_ a) (production_ b))
  then prod_ltb (production_ a) (production_ b)
  else if negb (dot_position_ a =? dot_position_ b)
       then dot_position_ a <? dot_position_ b
       else ptr_ltb (lookahead_ a) (lookahead_ b).

Definition eqb (a b : t) : bool :=
  prod_eqb (production_ a) (production_ b) && (dot_position_ a =? dot_position_ b)
  && ptr_eqb (lookahead_ a) (lookahead_ b).

Definition advance (i : t) : t := mk (production_ i) (dot_position_ i + 1) (lookahead_ i).
End LR1Item.

Definition LR1ItemSet := list LR1Item.t.

Module LR0State.
Record t : Type := mk {
  id_ : Z;
  items_ : LR0ItemSet
}.

Definition id (s : t) : Z := id_ s.
Definition items (s : t) : LR0ItemSet := items_ s.

Definition get_transition_symbols (s : t) : SymbolSet :=
  fold_left (fun symbols item =>
               match LR0Item.next_symbol item with
               | Some next_sym => sym_insert next_sym symbols
               | None => symbols
               end) (items_ s) [].

Definition get_items_for_symbol (symbol : SymbolPtr) (s : t) : LR0ItemSet :=
  fold_left (fun result item =>
               if optr_eqb (LR0Item.next_symbol item) (Some symbol)
               then item_insert item result else result) (items_ s) [].
End LR0State.

Module LR0Automaton.
Record t : Type := mk {
  states_ : list LR0State.t;
  transitions_ : gmap (Z * nat) Z
}.

Definition states (a : t) : list LR0State.t := states_ a.

(** One round of the [while (changed)] loop of [closure]: the enlarged
    set and the flag. *)
Definition closure_pass (grammar : Grammar.t) (result : LR0ItemSet) : LR0ItemSet * bool :=
  let add_prod (acc : LR0ItemSet * bool) (prod : ProductionPtr) :=
    let new_item := LR0Item.mk prod 0 in
    if negb (item_mem new_item result) && negb (item_mem new_item (fst acc))
    then (item_insert new_item (fst acc), true) else acc in
  let visit (acc : LR0ItemSet * bool) (item : LR0Item.t) :=
    match LR0Item.next_symbol item with
    | Some next_sym =>
        if is_nonterminal next_sym
        then fold_left add_prod (Grammar.productions_for next_sym grammar) acc
        else acc
    | None => acc
    end in
  let '(new_items, changed) := fold_left visit result ([], false) in
  (set_insert_all LR0Item.ltb new_items result, changed).

Definition closure (fuel : nat) (items : LR0ItemSet) (grammar : Grammar.t)
  : Res LR0ItemSet :=
  while_changed (fun result => Val (closure_pass grammar result)) fuel items.

Definition goto_set (fuel : nat) (items : LR0ItemSet) (symbol : SymbolPtr)
           (grammar : Grammar.t) : Res LR0ItemSet :=
  closure fuel
    (fold_left (fun result item =>
                  if optr_eqb (LR0Item.next_symbol item) (Some symbol)
                  then item_insert (LR0Item.advance item) result else result)
               items [])
    grammar.

Definition get_transition (from_state : Z) (symbol : SymbolPtr) (a : t) : Z :=
  match transitions_ a !! (from_state, addr symbol) with
  | Some target => target
  | None => (-1)%Z
  end.

(** [get_state(id)] *)
Definition get_state (i : Z) (a : t) : option LR0State.t :=
  if (i <? 0)%Z || (Z.of_nat (length (states_ a)) <=? i)%Z then None
  else nth_error (states_ a) (Z.to_nat i).

(** The search [for (existing_state : states_) if (items == goto_items)]. *)
Definition find_state (goto_items : LR0ItemSet) (a : t) : option LR0State.t :=
  find (fun existing_state =>
          set_eqb LR0Item.eqb (LR0State.items existing_state) goto_items)
       (states_ a).

(** The body of the loop over the transition symbols of
    [current_state].  The work queue is listed from its back to its
    front: [back()] is the head, [push_back] conses, [pop_back] drops the
    head. *)
Definition process_symbol (fuel : nat) (grammar : Grammar.t) (current_state : LR0State.t)
           (st : t * list LR0State.t) (symbol : SymbolPtr)
  : Res (t * list LR0State.t) :=
  let '(a, work_queue) := st in
  let items_for_symbol := LR0State.get_items_for_symbol symbol current_state in
  let goto_items :=
    fold_left (fun acc item => item_insert (LR0Item.advance item) acc)
              items_for_symbol [] in
  do goto_items <- closure fuel goto_items grammar in
  let '(target_state, a1, work_queue1) :=
    match find_state goto_items a with
    | Some existing_state => (existing_state, a, work_queue)
    | None =>
        let target := LR0State.mk (Z.of_nat (length (states_ a))) goto_items in
        (target, mk (states_ a ++ [target]) (transitions_ a), target :: work_queue)
    end in
  Val (mk (states_ a1)
          (<[(LR0State.id current_state, addr symbol) := LR0State.id target_state]>
             (transitions_ a1)),
       work_queue1).

(** One iteration of [while (!work_queue.empty())]. *)
Definition process_state (fuel : nat) (grammar : Grammar.t)
           (a : t) (current_state : LR0State.t) (rest : list LR0State.t)
  : Res (t * list LR0State.t) :=
  res_fold (process_symbol fuel grammar current_state)
           (LR0State.get_transition_symbols current_state) (a, rest).

Fixpoint build_loop (n fuel : nat) (grammar : Grammar.t)
         (a : t) (work_queue : list LR0State.t) : Res t :=
  match work_queue with
  | [] => Val a
  | current_state :: rest =>
      match n with
      | 0 => Timeout
      | S n' =>
          do (a', work_queue') <- process_state fuel grammar a current_state rest in
          build_loop n' fuel grammar a' work_queue'
      end
  end.

(** The statements of the constructor before the loop. *)
Definition initial (fuel : nat) (grammar : Grammar.t) : Res (t * list LR0State.t) :=
  match Grammar.productions grammar with
  | [] => Undefined
  | start_production :: _ =>
      let initial_item := LR0Item.mk start_production 0 in
      do initial_set <- closure fuel (set_of_list LR0Item.ltb [initial_item]) grammar in
      let initial_state := LR0State.mk 0 initial_set in
      Val (mk [initial_state] ∅, [initial_state])
  end.

(** [LR0Automaton(const Grammar&)]: [n] bounds the iterations of the work
    loop and [fuel] those of each closure. *)
Definition create (n fuel : nat) (grammar : Grammar.t) : Res t :=
  do (a, work_queue) <- initial fuel grammar in
  build_loop n fuel grammar a work_queue.
End LR0Automaton.

Definition lr1_insert : LR1Item.t -> LR1ItemSet -> LR1ItemSet := set_insert LR1Item.ltb.

Module LALRState.
(** [lookaheads_] is a [std::map<LR0Item, std::set<SymbolPtr>>]; its key is
    the pair of the production address and the dot position. *)
Record t : Type := mk {
  id_ : Z;
  core_ : LR0ItemSet;
  items_ : LR1ItemSet;
  lookaheads_ : gmap (nat * nat) SymbolSet
}.

(** [LALRState(id, core)] *)
Definition create (i : Z) (core : LR0ItemSet) : t := mk i core [] ∅.

Definition id (s : t) : Z := id_ s.
Definition items (s : t) : LR1ItemSet := items_ s.

Definition item_key (item : LR0Item.t) : nat * nat :=
  (paddr (LR0Item.production_ item), LR0Item.dot_position_ item).

(** [lookaheads_[item]] *)
Definition lookaheads_at (item : LR0Item.t) (m : gmap (nat * nat) SymbolSet)
  : SymbolSet * gmap (nat * nat) SymbolSet :=
  match m !! item_key item with
  | Some s => (s, m)
  | None => ([], <[item_key item := []]> m)
  end.

(** [add_lookahead(item, lookahead)]: the item set is rebuilt from the core
    and the lookahead map. *)
Definition add_lookahead (item : LR0Item.t) (lookahead : SymbolPtr) (s : t) : t :=
  let '(las, m1) := lookaheads_at item (lookaheads_ s) in
  let m2 := <[item_key item := sym_insert lookahead las]> m1 in
  let rebuild (acc : LR1ItemSet * gmap (nat * nat) SymbolSet) (core_item : LR0Item.t) :=
    let '(las', m') := lookaheads_at core_item (snd acc) in
    (fold_left (fun its la => lr1_insert (LR1Item.of_core core_item la) its) las' (fst acc),
     m') in
  let '(its, m3) := fold_left rebuild (core_ s) ([], m2) in
  mk (id_ s) (core_ s) its m3.

Definition get_transition_symbols (s : t) : SymbolSet :=
  fold_left (fun symbols item =>
               match LR1Item.next_symbol item with
               | Some next_sym => sym_insert next_sym symbols
               | None => symbols
               end) (items_ s) [].
End LALRState.

(** ** The breadth-first numbering of the states

    The construction of the canonical collection as the specification
    words it: the states are taken from the front of a first-in first-out
    queue.  It differs from [LR0Automaton.create] in the queue discipline
    only. *)
Module BreadthFirst.
(** The queue is listed from its front to its back. *)
Definition process_symbol (fuel : nat) (grammar : Grammar.t) (current_state : LR0State.t)
           (st : LR0Automaton.t * list LR0State.t) (symbol : SymbolPtr)
  : Res (LR0Automaton.t * list LR0State.t) :=
  let '(a, queue) := st in
  let items_for_symbol := LR0State.get_items_for_symbol symbol current_state in
  let goto_items :=
    fold_left (fun acc item => item_insert (LR0Item.advance item) acc)
              items_for_symbol [] in
  do goto_items <- LR0Automaton.closure fuel goto_items grammar in
  let '(target_state, a1, queue1) :=
    match LR0Automaton.find_state goto_items a with
    | Some existing_state => (existing_state, a, queue)
    | None =>
        let target :=
          LR0State.mk (Z.of_nat (length (LR0Automaton.states_ a))) goto_items in
        (target,
         LR0Automaton.mk (LR0Automaton.states_ a ++ [target]) (LR0Automaton.transitions_ a),
         queue ++ [target])
    end in
  Val (LR0Automaton.mk (LR0Automaton.states_ a1)
         (<[(LR0State.id current_state, addr symbol) := LR0State.id target_state]>
            (LR0Automaton.transitions_ a1)),
       queue1).

Fixpoint build_loop (n fuel : nat) (grammar : Grammar.t)
         (a : LR0Automaton.t) (queue : list LR0State.t) : Res LR0Automaton.t :=
  match queue with
  | [] => Val a
  | current_state :: rest =>
      match n with
      | 0 => Timeout
      | S n' =>
          do (a', queue') <-
             res_fold (process_symbol fuel grammar current_state)
                      (LR0State.get_transition_symbols current_state) (a, rest) in
          build_loop n' fuel grammar a' queue'
      end
  end.

Definition create (n fuel : nat) (grammar : Grammar.t) : Res LR0Automaton.t :=
  do (a, queue) <- LR0Automaton.initial fuel grammar in
  build_loop n fuel grammar a queue.
End BreadthFirst.

(** ** parse_table.h / parse_table.cpp: actions and the parse table *)

Inductive ActionType : Type := SHIFT | REDUCE | ACCEPT | ERROR.

Definition ActionType_eqb (a b : ActionType) : bool :=
  match a, b with
  | SHIFT, SHIFT | REDUCE, REDUCE | ACCEPT, ACCEPT | ERROR, ERROR => true
  | _, _ => false
  end.

Module Action.
Record t : Type := mk {
  type : ActionType;
  value : Z
}.

(** [Action(ActionType t, int v = -1)] *)
Definition make (ty : ActionType) : t := mk ty (-1)%Z.

Definition is_shift (a : t) : bool := ActionType_eqb (type a) SHIFT.
Definition is_reduce (a : t) : bool := ActionType_eqb (type a) REDUCE.
Definition is_accept (a : t) : bool := ActionType_eqb (type a) ACCEPT.
Definition is_error (a : t) : bool := ActionType_eqb (type a) ERROR.

Definition to_string (a : t) : string :=
  match type a with
  | SHIFT => String.append "s" (to_string (value a))
  | REDUCE => String.append "r" (to_string (value a))
  | ACCEPT => "acc"
  | ERROR => "err"
  end.

(** The test [existing.type != action.type || existing.value != action.value]. *)
Definition differs (existing action : t) : bool :=
  negb (ActionType_eqb (type existing) (type action))
  || negb (value existing =? value action)%Z.
End Action.

Module ParseTable.
Record t : Type := mk {
  num_states_ : Z;
  terminals_ : SymbolSet;
  nonterminals_ : SymbolSet;
  action_table_ : gmap (Z * nat) Action.t;
  goto_table_ : gmap (Z * nat) Z;
  conflicts_ : list string
}.

(** [ParseTable(num_states, terminals, nonterminals)] *)
Definition create (num_states : Z) (terminals nonterminals : SymbolSet) : t :=
  mk num_states terminals nonterminals ∅ ∅ [].

(** The text pushed on [conflicts_]. *)
Definition conflict_message (state : Z) (terminal : SymbolPtr)
           (existing action : Action.t) : string :=
  String.append "Action conflict in state "
    (String.append (to_string state)
      (String.append " on terminal "
        (String.append (name terminal)
          (String.append ": existing="
            (String.append (Action.to_string existing)
              (String.append ", new=" (Action.to_string action))))))).

(** [set_action(state, terminal, action)] *)
Definition set_action (state : Z) (terminal : SymbolPtr) (action : Action.t) (tb : t) : t :=
  let key := (state, addr terminal) in
  let conflicts :=
    match action_table_ tb !! key with
    | Some existing =>
        if Action.differs existing action
        then conflicts_ tb ++ [conflict_message state terminal existing action]
        else conflicts_ tb
    | None => conflicts_ tb
    end in
  mk (num_states_ tb) (terminals_ tb) (nonterminals_ tb)
     (<[key := action]> (action_table_ tb)) (goto_table_ tb) conflicts.

(** [set_goto(state, nonterminal, target_state)] *)
Definition set_goto (state : Z) (nonterminal : SymbolPtr) (target_state : Z) (tb : t) : t :=
  mk (num_states_ tb) (terminals_ tb) (nonterminals_ tb)
     (action_table_ tb) (<[(state, addr nonterminal) := target_state]> (goto_table_ tb))
     (conflicts_ tb).

(** [get_action(state, terminal)] *)
Definition get_action (state : Z) (terminal : SymbolPtr) (tb : t) : Action.t :=
  match action_table_ tb !! (state, addr terminal) with
  | Some a => a
  | None => Action.make ERROR
  end.

(** [get_goto(state, nonterminal)] *)
Definition get_goto (state : Z) (nonterminal : SymbolPtr) (tb : t) : Z :=
  match goto_table_ tb !! (state, addr nonterminal) with
  | Some target => target
  | None => (-1)%Z
  end.

Definition has_conflicts (tb : t) : bool :=
  match conflicts_ tb with [] => false | _ :: _ => true end.

Definition get_conflicts (tb : t) : list string := conflicts_ tb.
End ParseTable.

(** [symbol->name().back() == '\'']; [back()] of an empty name is undefined. *)
Definition name_ends_with_quote (symbol : SymbolPtr) : Res bool :=
  match back (name symbol) with
  | Some c => Val (Ascii.eqb c "'"%char)
  | None => Undefined
  end.

(** The test that both [build_lalr_states] and [generate_table] use to
    recognise the item [S' -> S .]: the name of the left-hand side ends with
    an apostrophe and the right-hand side has one symbol. *)
Definition looks_augmented (prod : ProductionPtr) : Res bool :=
  do q <- name_ends_with_quote (lhs prod) in
  Val (q && (length (rhs prod) =? 1)).

(** The position of the first element of [productions] that is the same
    object as [prod]. *)
Fixpoint production_number (prod : ProductionPtr) (productions : list ProductionPtr)
         (i : nat) : option nat :=
  match productions with
  | [] => None
  | p :: rest => if prod_eqb p prod then Some i else production_number prod rest (S i)
  end.

Module LALR1Generator.
(** The member [transitions_] of the class is never used.  The generator
    keeps a reference to the grammar, whose set caches are [mutable]; the
    [const] overloads of [first_set] and [follow_set] that the class calls
    are declared in grammar.h without a body in the sources, and are taken
    to be the functions of grammar.cpp. *)
Record t : Type := mk {
  grammar_ : Grammar.t;
  states_ : list LALRState.t;
  lr0_automaton_ : LR0Automaton.t
}.

(** [LALR1Generator(const Grammar&)] *)
Definition create (n fuel : nat) (grammar : Grammar.t) : Res t :=
  do a <- LR0Automaton.create n fuel grammar in
  Val (mk grammar [] a).

(** The lookahead set that [build_lalr_states] computes for one LR(0) item. *)
Definition item_lookaheads (fuel : nat) (lr0_item : LR0Item.t) (g : Grammar.t)
  : Res (SymbolSet * Grammar.t) :=
  if LR0Item.is_complete lr0_item then
    do aug <- looks_augmented (LR0Item.production lr0_item) in
    if aug then
      Val (sym_insert (SymbolTable.get_end_of_input (Grammar.symbol_table_ g)) [], g)
    else
      do (follow, g') <- Grammar.follow_set fuel (lhs (LR0Item.production lr0_item)) g in
      Val (set_insert_all ptr_ltb follow [], g')
  else
    match LR0Item.next_symbol lr0_item with
    | Some next_symbol =>
        if is_terminal next_symbol then Val (sym_insert next_symbol [], g)
        else if is_nonterminal next_symbol then
          do (first, g') <- Grammar.first_set fuel next_symbol g in
          Val (set_insert_all ptr_ltb first [], g')
        else Val ([], g)
    | None => Val ([], g)
    end.

(** The body of the loop over the LR(0) states. *)
Definition build_lalr_state (fuel : nat) (st : list LALRState.t * Grammar.t)
           (lr0_state : LR0State.t) : Res (list LALRState.t * Grammar.t) :=
  let '(states, g) := st in
  let lalr_state := LALRState.create (LR0State.id lr0_state) (LR0State.items lr0_state) in
  do (lalr_state', g') <-
    res_fold (fun '(ls, g1) lr0_item =>
                do (lookaheads, g2) <- item_lookaheads fuel lr0_item g1 in
                Val (fold_left (fun s la => LALRState.add_lookahead lr0_item la s)
                               lookaheads ls, g2))
             (LR0State.items lr0_state) (lalr_state, g) in
  Val (states ++ [lalr_state'], g').

Definition build_lalr_states (fuel : nat) (gen : t) : Res t :=
  do (states, g) <- res_fold (build_lalr_state fuel)
                             (LR0Automaton.states (lr0_automaton_ gen))
                             (states_ gen, grammar_ gen) in
  Val (mk g states (lr0_automaton_ gen)).

(** A call [table->set_action(state, terminal, action)]. *)
Definition ActionCall : Type := Z * SymbolPtr * Action.t.
(** A call [table->set_goto(state, nonterminal, target)]. *)
Definition GotoCall : Type := Z * SymbolPtr * Z.

(** The call of [set_action] that the body of the loop over the LR(1) items
    of [state] makes for [item], if it makes one. *)
Definition item_action (gen : t) (state : LALRState.t) (item : LR1Item.t)
  : Res (option ActionCall) :=
  if LR1Item.is_complete item then
    do aug <- looks_augmented (LR1Item.production item) in
    if aug then
      Val (Some (LALRState.id state, LR1Item.lookahead item, Action.make ACCEPT))
    else
      Val (match production_number (LR1Item.production item)
                                   (Grammar.productions (grammar_ gen)) 0 with
           | Some i => Some (LALRState.id state, LR1Item.lookahead item,
                             Action.mk REDUCE (Z.of_nat i))
           | None => None
           end)
  else
    Val (match LR1Item.next_symbol item with
         | Some next_symbol =>
             if is_terminal next_symbol then
               let target_state :=
                 LR0Automaton.get_transition (LALRState.id state) next_symbol
                                             (lr0_automaton_ gen) in
               if (0 <=? target_state)%Z
               then Some (LALRState.id state, next_symbol, Action.mk SHIFT target_state)
               else None
             else None
         | None => None
         end).

(** The calls of [set_action] made for one state, in the order of its items. *)
Fixpoint state_actions (gen : t) (state : LALRState.t) (items : LR1ItemSet)
  : Res (list ActionCall) :=
  match items with
  | [] => Val []
  | item :: rest =>
      do c <- item_action gen state item in
      do cs <- state_actions gen state rest in
      Val (match c with Some call => call :: cs | None => cs end)
  end.

(** The calls of [set_goto] made for one state. *)
Definition state_gotos (gen : t) (state : LALRState.t) : list GotoCall :=
  flat_map (fun symbol =>
              if is_nonterminal symbol then
                let target_state :=
                  LR0Automaton.get_transition (LALRState.id state) symbol
                                              (lr0_automaton_ gen) in
                if (0 <=? target_state)%Z
                then [(LALRState.id state, symbol, target_state)] else []
              else [])
           (LALRState.get_transition_symbols state).

Definition do_action (tb : ParseTable.t) (c : ActionCall) : ParseTable.t :=
  let '(state, terminal, action) := c in ParseTable.set_action state terminal action tb.
Definition do_goto (tb : ParseTable.t) (c : GotoCall) : ParseTable.t :=
  let '(state, nonterminal, target) := c in ParseTable.set_goto state nonterminal target tb.

(** The body of the loop over [states_] in [generate_table]. *)
Definition fill_state (gen : t) (tb : ParseTable.t) (state : LALRState.t)
  : Res ParseTable.t :=
  do calls <- state_actions gen state (LALRState.items state) in
  Val (fold_left do_goto (state_gotos gen state) (fold_left do_action calls tb)).

(** All the calls of [set_action] that [generate_table] makes over the
    states [states], in order. *)
Fixpoint emitted_actions (gen : t) (states : list LALRState.t) : Res (list ActionCall) :=
  match states with
  | [] => Val []
  | state :: rest =>
      do calls <- state_actions gen state (LALRState.items state) in
      do more <- emitted_actions gen rest in
      Val (calls ++ more)
  end.

(** [generate_table()]: the table and the generator with its states. *)
Definition generate_table (fuel : nat) (gen : t) : Res (ParseTable.t * t) :=
  if negb (Grammar.is_augmented (grammar_ gen)) then
    Throw "Grammar must be augmented before generating LALR(1) table"
  else
    do gen' <- build_lalr_states fuel gen in
    let st := Grammar.symbol_table_ (grammar_ gen') in
    let terminals :=
      sym_insert (SymbolTable.get_end_of_input st) (SymbolTable.get_terminals st) in
    let nonterminals := SymbolTable.get_nonterminals st in
    let table := ParseTable.create (Z.of_nat (length (states_ gen')))
                                   terminals nonterminals in
    do table' <- res_fold (fill_state gen') (states_ gen') table in
    Val (table', gen').
End LALR1Generator.

(** ** parser.h / parser.cpp: the table-driven driver *)

(** A parse-tree node; [add_child] appends to the children. *)
#[warnings="-register-all"]
Inductive ParseNode : Type :=
  | Node (symbol_ : SymbolPtr) (value_ : string) (children_ : list ParseNode).

Definition node_symbol (n : ParseNode) : SymbolPtr := let 'Node s _ _ := n in s.
Definition node_value (n : ParseNode) : string := let 'Node _ v _ := n in v.
Definition node_children (n : ParseNode) : list ParseNode := let 'Node _ _ c := n in c.

(** [struct ParseResult]; [tree] is [None] for a null pointer. *)
Record ParseResult : Type := mkResult {
  success : bool;
  tree : option ParseNode;
  error_message : string;
  error_line : nat;
  error_column : nat
}.

(** [ParseResult(ParseNodePtr t)] and [ParseResult(error, line, col)]. *)
Definition result_ok (t : option ParseNode) : ParseResult := mkResult true t "" 0 0.
Definition result_error (msg : string) (line col : nat) : ParseResult :=
  mkResult false None msg line col.

(** The token source as the driver uses it, through [next_token] alone:
    the tokens that the lexer will still deliver, and the line, column and
    position at which its input ends.  Once the tokens are used up
    ([at_end()]) every call answers
    [Token(TokenType::EOF_TOKEN, "", current_line_, current_column_, current_pos_)]
    and leaves the lexer where it is. *)
Record Lexer : Type := mkLexer {
  pending : list Token;
  end_line : nat;
  end_column : nat;
  end_position : nat
}.

Definition eof_token (l : Lexer) : Token :=
  mkToken TokenType.EOF_TOKEN "" (end_line l) (end_column l) (end_position l).

Definition next_token (l : Lexer) : Token * Lexer :=
  match pending l with
  | [] => (eof_token l, l)
  | t :: rest => (t, mkLexer rest (end_line l) (end_column l) (end_position l))
  end.

Module LALR1Parser.
Record StackElement : Type := mkElement {
  state : Z;
  symbol : option SymbolPtr;
  node : option ParseNode
}.

Record t : Type := mk {
  grammar_ : Grammar.t;
  table_ : ParseTable.t;
  debug_ : bool
}.

(** The local variables of [parse_internal] that live across iterations;
    the top of [stack] is the head of the list. *)
Record Config : Type := mkConfig {
  stack : list StackElement;
  current_token : Token;
  lexer : Lexer
}.

Inductive Step : Type :=
  | Continue (c : Config)
  | Return (r : ParseResult).

(** The terminal for the current token. *)
Definition find_terminal (p : t) (tok : Token) : option SymbolPtr :=
  if is_eof tok
  then Some (SymbolTable.get_end_of_input (Grammar.symbol_table_ (grammar_ p)))
  else find (fun sym => is_terminal sym && (token_type sym =? tok_type tok)%Z)
            (SymbolTable.get_terminals (Grammar.symbol_table_ (grammar_ p))).

Definition get_expected_symbols (state : Z) (p : t) : SymbolSet :=
  let st := Grammar.symbol_table_ (grammar_ p) in
  let expected :=
    fold_left (fun acc terminal =>
                 if negb (Action.is_error (ParseTable.get_action state terminal (table_ p)))
                 then sym_insert terminal acc else acc)
              (SymbolTable.get_terminals st) [] in
  if negb (Action.is_error
             (ParseTable.get_action state (SymbolTable.get_end_of_input st) (table_ p)))
  then sym_insert (SymbolTable.get_end_of_input st) expected else expected.

(** The loop [for (i = 0; i < rhs.size(); ++i)] that pops [k] frames:
    [None] when the stack runs empty, otherwise the popped nodes in popping
    order and the remaining stack. *)
Fixpoint pop_frames (k : nat) (stack : list StackElement)
         (rhs_nodes : list (option ParseNode))
  : option (list (option ParseNode) * list StackElement) :=
  match k with
  | 0 => Some (rhs_nodes, stack)
  | S k' =>
      match stack with
      | [] => None
      | top :: rest => pop_frames k' rest (rhs_nodes ++ [node top])
      end
  end.

(** The children added to the new node: the popped nodes in reverse, the
    null ones skipped. *)
Definition children_of (rhs_nodes : list (option ParseNode)) : list ParseNode :=
  flat_map (fun n => match n with Some x => [x] | None => [] end) (rev rhs_nodes).

Definition join_names (l : SymbolSet) : string :=
  snd (fold_left (fun (st : bool * string) sym =>
                    (false, String.append (if fst st then snd st
                                           else String.append (snd st) ", ")
                                          (name sym)))
                 l (true, ""%string)).

(** One iteration of the [while (true)] loop of [parse_internal]. *)
Definition step (p : t) (c : Config) : Res Step :=
  match stack c with
  | [] => Undefined
  | top :: _ =>
      let current_state := state top in
      let tok := current_token c in
      match find_terminal p tok with
      | None =>
          Val (Return (result_error (String.append "Unknown token: " (tok_value tok))
                                    (tok_line tok) (tok_column tok)))
      | Some terminal =>
          let action := ParseTable.get_action current_state terminal (table_ p) in
          if Action.is_shift action then
            let nd := Node terminal (tok_value tok) [] in
            let '(tok', lexer') := next_token (lexer c) in
            Val (Continue (mkConfig
                   (mkElement (Action.value action) (Some terminal) (Some nd) :: stack c)
                   tok' lexer'))
          else if Action.is_reduce action then
            if (Action.value action <? 0)%Z then Undefined
            else
              match nth_error (Grammar.productions (grammar_ p))
                              (Z.to_nat (Action.value action)) with
              | None => Undefined
              | Some production =>
                  match pop_frames (length (rhs production)) (stack c) [] with
                  | None =>
                      Val (Return (result_error "Stack underflow during reduction"
                                                (tok_line tok) (tok_column tok)))
                  | Some (rhs_nodes, stack') =>
                      let lhs_node := Node (lhs production) "" (children_of rhs_nodes) in
                      let state_after_pop :=
                        match stack' with [] => 0%Z | e :: _ => state e end in
                      let goto_state :=
                        ParseTable.get_goto state_after_pop (lhs production) (table_ p) in
                      if (goto_state <? 0)%Z then
                        Val (Return (result_error
                               (String.append "No goto entry for state "
                                 (String.append (to_string state_after_pop)
                                   (String.append " and symbol " (name (lhs production)))))
                               (tok_line tok) (tok_column tok)))
                      else
                        Val (Continue (mkConfig
                               (mkElement goto_state (Some (lhs production)) (Some lhs_node)
                                  :: stack')
                               tok (lexer c)))
                  end
              end
          else if Action.is_accept action then
            if 2 <=? length (stack c) then Val (Return (result_ok (node top)))
            else Val (Return (result_error "Invalid stack state at accept"
                                           (tok_line tok) (tok_column tok)))
          else
            let expected_symbols := join_names (get_expected_symbols current_state p) in
            let error := String.append "Unexpected token '"
                           (String.append (tok_value tok) "'") in
            let error := if String.eqb expected_symbols "" then error
                         else String.append error
                                (String.append ". Expected: " expected_symbols) in
            Val (Return (result_error error (tok_line tok) (tok_column tok)))
      end
  end.

Fixpoint run (fuel : nat) (p : t) (c : Config) : Res ParseResult :=
  match fuel with
  | 0 => Timeout
  | S fuel' =>
      do s <- step p c in
      match s with
      | Return r => Val r
      | Continue c' => run fuel' p c'
      end
  end.

(** [parse_internal(lexer)] *)
Definition parse_internal (fuel : nat) (p : t) (l : Lexer) : Res ParseResult :=
  let '(tok, l') := next_token l in
  run fuel p (mkConfig [mkElement 0 None None] tok l').

(** The token that the iteration of the loop at [c] pushes on the stack:
    the current token, when the action for it is Shift. *)
Definition shifted_token (p : t) (c : Config) : option Token :=
  match stack c with
  | [] => None
  | top :: _ =>
      match find_terminal p (current_token c) with
      | None => None
      | Some terminal =>
          if Action.is_shift (ParseTable.get_action (state top) terminal (table_ p))
          then Some (current_token c) else None
      end
  end.

(** The tokens that the loop shifts when it runs from [c], in order. *)
Fixpoint shifted_tokens (fuel : nat) (p : t) (c : Config) : list Token :=
  match fuel with
  | 0 => []
  | S fuel' =>
      match step p c with
      | Val (Continue c') =>
          match shifted_token p c with
          | Some tok => tok :: shifted_tokens fuel' p c'
          | None => shifted_tokens fuel' p c'
          end
      | _ => []
      end
  end.

(** The tokens that [parse_internal(lexer)] shifts. *)
Definition parse_shifted (fuel : nat) (p : t) (l : Lexer) : list Token :=
  let '(tok, l') := next_token l in
  shifted_tokens fuel p (mkConfig [mkElement 0 None None] tok l').
End LALR1Parser.

(** The user's start symbol of an augmented grammar: the right-hand side of
    production 0. *)
Definition user_start (g : Grammar.t) : option SymbolPtr :=
  match Grammar.productions g with
  | p0 :: _ => match rhs p0 with [s] => Some s | _ => None end
  | [] => None
  end.

(** The stack layout that the specification requires when Accept is
    dispatched: exactly the initial frame below one frame whose node is
    labelled by the user's start symbol. *)
Definition accept_layout_ok (g : Grammar.t) (stack : list LALR1Parser.StackElement) : bool :=
  match stack with
  | [top; bottom] =>
      (LALR1Parser.state bottom =? 0)%Z
      && match LALR1Parser.symbol bottom, LALR1Parser.node bottom with
         | None, None => true
         | _, _ => false
         end
      && match LALR1Parser.node top, user_start g with
         | Some nd, Some s => ptr_eqb (node_symbol nd) s
         | _, _ => false
         end
  | _ => false
  end.

(** ** Concrete grammars used as test inputs *)

Module Examples.
(** The grammar of the README and of the test drivers:
    [E -> E + T | T], [T -> num], built through the API. *)
Definition g0 : Grammar.t := Grammar.create 1 2.
Definition E_st := SymbolTable.get_nonterminal 10 "E" (Grammar.symbol_table_ g0).
Definition E : SymbolPtr := fst E_st.
Definition T_st := SymbolTable.get_nonterminal 11 "T" (snd E_st).
Definition T : SymbolPtr := fst T_st.
Definition plus_st := SymbolTable.get_terminal 12 "+" TokenType.PLUS (snd T_st).
Definition plus : SymbolPtr := fst plus_st.
Definition num_st := SymbolTable.get_terminal 13 "num" TokenType.NUMBER (snd plus_st).
Definition num : SymbolPtr := fst num_st.

Definition sum_grammar : Grammar.t :=
  let g1 := Grammar.with_symbol_table (snd num_st) g0 in
  let g2 := snd (Grammar.add_production 20 E [E; plus; T] g1) in
  let g3 := snd (Grammar.add_production 21 E [T] g2) in
  let g4 := snd (Grammar.add_production 22 T [num] g3) in
  Grammar.set_start_symbol (Some E) g4.

Definition sum_grammar_augmented : Grammar.t := Grammar.augment 14 23 sum_grammar.
End Examples.

Module ExamplesLL.
(** A grammar in which a nonterminal named [E'] already exists:
    [E -> T E'], [E' -> + T E' | (empty)], [T -> num], start symbol [E]. *)
Definition g0 : Grammar.t := Grammar.create 1 2.
Definition E_st := SymbolTable.get_nonterminal 10 "E" (Grammar.symbol_table_ g0).
Definition E : SymbolPtr := fst E_st.
Definition E'_st := SymbolTable.get_nonterminal 11 "E'" (snd E_st).
Definition E' : SymbolPtr := fst E'_st.
Definition T_st := SymbolTable.get_nonterminal 12 "T" (snd E'_st).
Definition T : SymbolPtr := fst T_st.
Definition plus_st := SymbolTable.get_terminal 13 "+" TokenType.PLUS (snd T_st).
Definition plus : SymbolPtr := fst plus_st.
Definition num_st := SymbolTable.get_terminal 14 "num" TokenType.NUMBER (snd plus_st).
Definition num : SymbolPtr := fst num_st.

Definition ll_grammar : Grammar.t :=
  let g1 := Grammar.with_symbol_table (snd num_st) g0 in
  let g2 := snd (Grammar.add_production 20 E [T; E'] g1) in
  let g3 := snd (Grammar.add_production 21 E' [plus; T; E'] g2) in
  let g4 := snd (Grammar.add_production 22 E' [] g3) in
  let g5 := snd (Grammar.add_production 23 T [num] g4) in
  Grammar.set_start_symbol (Some E) g5.
End ExamplesLL.

Module ExamplesEps.
(** [S -> a A] and an epsilon production for [A], written either with the
    epsilon symbol as its right-hand side (as the .g4 converter does) or
    with an empty right-hand side; augmented through the API. *)
Definition g0 : Grammar.t := Grammar.create 1 2.
Definition eps : SymbolPtr := SymbolTable.get_epsilon (Grammar.symbol_table_ g0).
Definition eoi : SymbolPtr := SymbolTable.get_end_of_input (Grammar.symbol_table_ g0).
Definition S_st := SymbolTable.get_nonterminal 10 "S" (Grammar.symbol_table_ g0).
Definition S : SymbolPtr := fst S_st.
Definition A_st := SymbolTable.get_nonterminal 11 "A" (snd S_st).
Definition A : SymbolPtr := fst A_st.
Definition a_st := SymbolTable.get_terminal 12 "a" TokenType.IDENTIFIER (snd A_st).
Definition a : SymbolPtr := fst a_st.

Definition grammar_with (A_rhs : list SymbolPtr) : Grammar.t :=
  let g1 := Grammar.with_symbol_table (snd a_st) g0 in
  let g2 := snd (Grammar.add_production 20 S [a; A] g1) in
  let g3 := snd (Grammar.add_production 21 A A_rhs g2) in
  Grammar.augment 13 22 (Grammar.set_start_symbol (Some S) g3).

Definition grammar_eps_symbol : Grammar.t := grammar_with [eps].
Definition grammar_empty_rhs : Grammar.t := grammar_with [].

(** The LR table of this grammar, written by hand with the public
    [set_action] / [set_goto]: state 0 shifts [a] to 1; state 1 reduces by
    production 2 ([A -> epsilon]) on [$]; state 2 reduces by production 1
    ([S -> a A]) on [$]; state 3 accepts. *)
Definition table : ParseTable.t :=
  let t0 := ParseTable.create 4 [eoi; a] [S; A] in
  let t1 := ParseTable.set_action 0 a (Action.mk SHIFT 1) t0 in
  let t2 := ParseTable.set_goto 0 S 3 t1 in
  let t3 := ParseTable.set_action 1 eoi (Action.mk REDUCE 2) t2 in
  let t4 := ParseTable.set_goto 1 A 2 t3 in
  let t5 := ParseTable.set_action 2 eoi (Action.mk REDUCE 1) t4 in
  ParseTable.set_action 3 eoi (Action.make ACCEPT) t5.

Definition parser_eps_symbol : LALR1Parser.t := LALR1Parser.mk grammar_eps_symbol table false.
Definition parser_empty_rhs : LALR1Parser.t := LALR1Parser.mk grammar_empty_rhs table false.

Definition tok_a : Token := mkToken TokenType.IDENTIFIER "a" 1 1 0.
Definition node_a : ParseNode := Node a "a" [].

(** The lexer on the input [a]: one token, and the input ends at line 1,
    column 2, position 1. *)
Definition lexer_a : Lexer := mkLexer [tok_a] 1 2 1.

(** The configuration after the token [a] was shifted, at end of input. *)
Definition after_shift : LALR1Parser.Config :=
  LALR1Parser.mkConfig
    [LALR1Parser.mkElement 1 (Some a) (Some node_a); LALR1Parser.mkElement 0 None None]
    (mkToken TokenType.EOF_TOKEN "" 1 2 1) (mkLexer [] 1 2 1).
End ExamplesEps.

Module ExamplesQuote.
(** A grammar with a nonterminal whose name ends with an apostrophe:
    [S -> A'], [A' -> b], start symbol [S]; augmented through the API. *)
Definition g0 : Grammar.t := Grammar.create 1 2.
Definition eoi : SymbolPtr := SymbolTable.get_end_of_input (Grammar.symbol_table_ g0).
Definition S_st := SymbolTable.get_nonterminal 10 "S" (Grammar.symbol_table_ g0).
Definition S : SymbolPtr := fst S_st.
Definition A'_st := SymbolTable.get_nonterminal 11 "A'" (snd S_st).
Definition A' : SymbolPtr := fst A'_st.
Definition b_st := SymbolTable.get_terminal 12 "b" TokenType.IDENTIFIER (snd A'_st).
Definition b : SymbolPtr := fst b_st.

Definition grammar : Grammar.t :=
  let g1 := Grammar.with_symbol_table (snd b_st) g0 in
  let g2 := snd (Grammar.add_production 20 S [A'] g1) in
  let g3 := snd (Grammar.add_production 21 A' [b] g2) in
  Grammar.augment 13 22 (Grammar.set_start_symbol (Some S) g3).

Definition generator : Res LALR1Generator.t := LALR1Generator.create 20 20 grammar.

Definition generated : Res (ParseTable.t * LALR1Generator.t) :=
  do gen <- generator in LALR1Generator.generate_table 20 gen.

Definition parser : Res LALR1Parser.t :=
  do (table, gen) <- generated in
  Val (LALR1Parser.mk (LALR1Generator.grammar_ gen) table false).

Definition tok_b : Token := mkToken TokenType.IDENTIFIER "b" 1 1 0.
(** The lexer on the input [b]. *)
Definition lexer_b : Lexer := mkLexer [tok_b] 1 2 1.
End ExamplesQuote.

Module ExamplesIncomplete.
(** An augmented grammar whose start symbol is then reset to the null
    pointer: [set_start_symbol(E); augment(); set_start_symbol(nullptr)]. *)
Definition no_start : Grammar.t :=
  Grammar.set_start_symbol None Examples.sum_grammar_augmented.

(** A grammar with a start symbol and no production of its own, augmented. *)
Definition no_productions : Grammar.t :=
  Grammar.set_start_symbol (Some Examples.E)
    (Grammar.with_symbol_table (snd Examples.num_st) Examples.g0).
Definition no_productions_augmented : Grammar.t := Grammar.augment 14 23 no_productions.

(** The grammar of the test drivers before its start symbol is set. *)
Definition never_started : Grammar.t := Grammar.set_start_symbol None Examples.sum_grammar.
End ExamplesIncomplete.

(** The grammar [S -> a b | c d], augmented; [addr_a] and [addr_c] are
    the addresses at which the symbols [a] and [c] are allocated. *)
Module ExamplesOrder.
Definition g0 : Grammar.t := Grammar.create 1 2.
Definition S_st := SymbolTable.get_nonterminal 10 "S" (Grammar.symbol_table_ g0).
Definition S : SymbolPtr := fst S_st.

Definition build (addr_a addr_c : nat) : Grammar.t :=
  let a_st := SymbolTable.get_terminal addr_a "a" TokenType.IDENTIFIER (snd S_st) in
  let b_st := SymbolTable.get_terminal 12 "b" TokenType.NUMBER (snd a_st) in
  let c_st := SymbolTable.get_terminal addr_c "c" TokenType.STRING (snd b_st) in
  let d_st := SymbolTable.get_terminal 14 "d" TokenType.PLUS (snd c_st) in
  let g1 := Grammar.with_symbol_table (snd d_st) g0 in
  let g2 := snd (Grammar.add_production 20 S [fst a_st; fst b_st] g1) in
  let g3 := snd (Grammar.add_production 21 S [fst c_st; fst d_st] g2) in
  Grammar.augment 15 22 (Grammar.set_start_symbol (Some S) g3).

Definition grammar : Grammar.t := build 11 13.
Definition grammar_swapped : Grammar.t := build 13 11.

(** The item sets of the states in the order of their ids, each item as
    the address of its production and the position of its dot
    (20 is [S -> a b], 21 is [S -> c d], 22 is [S' -> S]). *)
Definition numbering (r : Res LR0Automaton.t) : list (Z * list (nat * nat)) :=
  match r with
  | Val a =>
      map (fun s => (LR0State.id s,
                     map (fun i => (paddr (LR0Item.production_ i),
                                    LR0Item.dot_position_ i))
                         (LR0State.items s)))
          (LR0Automaton.states_ a)
  | _ => []
  end.
End ExamplesOrder.

(** * Properties *)

(** ** Grammar::augment *)

(** C10. When no start symbol is set, [augment()] returns at once: the
    grammar is unchanged as a whole (symbol table, productions, start
    symbol, caches), and a grammar that was not augmented stays so. *)
Theorem augment_without_start_is_identity (a_sym a_prod : nat) (g : Grammar.t) :
  Grammar.start_symbol g = None ->
  Grammar.augment a_sym a_prod g = g
  /\ (Grammar.is_augmented g = false ->
      Grammar.is_augmented (Grammar.augment a_sym a_prod g) = false).
Proof.
  intros Hstart. unfold Grammar.start_symbol in Hstart.
  assert (Hid : Grammar.augment a_sym a_prod g = g).
  { unfold Grammar.augment. rewrite Hstart. now destruct (Grammar.is_augmented_ g). }
  split; [exact Hid | now rewrite Hid].
Qed.

Lemma augment_without_start_is_identity_witness :
  let g := snd (Grammar.add_production 20 Examples.E [Examples.T] Examples.g0) in
  Grammar.augment 14 23 g = g
  /\ (Grammar.is_augmented g = false ->
      Grammar.is_augmented (Grammar.augment 14 23 g) = false).
Proof.
  exact (augment_without_start_is_identity 14 23
           (snd (Grammar.add_production 20 Examples.E [Examples.T] Examples.g0))
           eq_refl).
Defined.

Lemma augment_of_augmented (a_sym a_prod : nat) (g : Grammar.t) :
  Grammar.is_augmented_ g = true -> Grammar.augment a_sym a_prod g = g.
Proof. intros H. unfold Grammar.augment. now rewrite H. Qed.

Lemma augment_changes_or_not (a_sym a_prod : nat) (g : Grammar.t) :
  Grammar.augment a_sym a_prod g = g
  \/ Grammar.is_augmented_ (Grammar.augment a_sym a_prod g) = true.
Proof.
  unfold Grammar.augment.
  destruct (Grammar.is_augmented_ g); [now left|].
  destruct (Grammar.start_symbol_ g) as [start|]; [|now left].
  right. now destruct (SymbolTable.get_nonterminal _ _ _).
Qed.

(** A second call of [augment()] returns at once. *)
Lemma augment_idempotent (a_sym a_prod a_sym' a_prod' : nat) (g : Grammar.t) :
  Grammar.augment a_sym' a_prod' (Grammar.augment a_sym a_prod g)
  = Grammar.augment a_sym a_prod g.
Proof.
  destruct (augment_changes_or_not a_sym a_prod g) as [H|H].
  - rewrite H. destruct (augment_changes_or_not a_sym' a_prod' g) as [H'|H']; [exact H'|].
    destruct (Grammar.is_augmented_ g) eqn:Haug.
    + now apply augment_of_augmented.
    + unfold Grammar.augment in H |- *. rewrite Haug in H |- *.
      destruct (Grammar.start_symbol_ g); [|reflexivity].
      destruct (SymbolTable.get_nonterminal a_sym _ _) as [ns st'].
      exfalso. apply (f_equal Grammar.is_augmented_) in H. cbn in H. congruence.
  - now apply augment_of_augmented.
Qed.

Lemma erase_first_app_last {A : Type} (p : A -> bool) (l : list A) (x : A) :
  (forall y, In y l -> p y = false) -> p x = true ->
  erase_first p (l ++ [x]) = l.
Proof.
  induction l as [|y l IH]; cbn; intros Hl Hx.
  - now rewrite Hx.
  - rewrite (Hl y) by now left. f_equal. apply IH; auto.
Qed.

(** What the first call does on a grammar with a start symbol [start]: the
    new start symbol is the nonterminal that [get_nonterminal] returns for
    the name [start.name + "'"], the production [S' -> start] is moved to
    index 0 in front of the old productions, and the grammar is marked
    augmented.  ([a_prod] is the address of a new object, hence of no
    production of [g].) *)
Lemma augment_spec (a_sym a_prod : nat) (g : Grammar.t) (start : SymbolPtr) :
  Grammar.is_augmented g = false ->
  Grammar.start_symbol g = Some start ->
  (forall p, In p (Grammar.productions g) -> paddr p <> a_prod) ->
  let new_start :=
    fst (SymbolTable.get_nonterminal a_sym (String.append (name start) "'")
                                     (Grammar.symbol_table_ g)) in
  let g' := Grammar.augment a_sym a_prod g in
  Grammar.productions g' = mkProduction a_prod new_start [start] :: Grammar.productions g
  /\ Grammar.start_symbol g' = Some new_start
  /\ Grammar.is_augmented g' = true
  /\ is_nonterminal new_start = true
  /\ name new_start = String.append (name start) "'".
Proof.
  unfold Grammar.is_augmented, Grammar.start_symbol, Grammar.productions.
  intros Haug Hstart Hfresh. cbn zeta.
  unfold Grammar.augment. rewrite Haug, Hstart.
  unfold SymbolTable.get_nonterminal.
  assert (Herase : forall ns,
    erase_first (prod_eqb (mkProduction a_prod ns [start]))
      (Grammar.productions_ g ++ [mkProduction a_prod ns [start]])
    = Grammar.productions_ g).
  { intros ns. apply erase_first_app_last.
    - intros p Hp. unfold prod_eqb; cbn. apply Nat.eqb_neq.
      intros Heq. now apply (Hfresh p Hp).
    - unfold prod_eqb; cbn. apply Nat.eqb_refl. }
  destruct (find _ (SymbolTable.symbols_ (Grammar.symbol_table_ g))) as [s|] eqn:Hfind;
    cbn; rewrite Herase.
  - apply find_some in Hfind as [_ Hs].
    apply andb_true_iff in Hs as [Hname Hnt]. apply String.eqb_eq in Hname.
    auto.
  - auto.
Qed.

(** When the symbol table holds no nonterminal of the name
    [start.name + "'"], the new start symbol is a new object: its address
    [a_sym], being that of a new allocation, is the address of no symbol of
    the table, and the symbol is added to the table. *)
Lemma augment_creates_symbol (a_sym a_prod : nat) (g : Grammar.t) (start : SymbolPtr) :
  Grammar.is_augmented g = false ->
  Grammar.start_symbol g = Some start ->
  find (fun s => String.eqb (name s) (String.append (name start) "'") && is_nonterminal s)
       (SymbolTable.symbols_ (Grammar.symbol_table_ g)) = None ->
  (forall s, In s (SymbolTable.symbols_ (Grammar.symbol_table_ g)) -> addr s <> a_sym) ->
  let new_start := make_symbol a_sym (String.append (name start) "'") NONTERMINAL in
  let g' := Grammar.augment a_sym a_prod g in
  Grammar.start_symbol g' = Some new_start
  /\ (forall s, In s (SymbolTable.symbols_ (Grammar.symbol_table_ g)) ->
                ptr_eqb s new_start = false)
  /\ SymbolTable.symbols_ (Grammar.symbol_table_ g')
     = sym_insert new_start (SymbolTable.symbols_ (Grammar.symbol_table_ g)).
Proof.
  unfold Grammar.is_augmented, Grammar.start_symbol.
  intros Haug Hstart Hfind Hfresh. cbn zeta.
  unfold Grammar.augment. rewrite Haug, Hstart.
  unfold SymbolTable.get_nonterminal. rewrite Hfind. cbn.
  repeat split.
  intros s Hs. unfold ptr_eqb; cbn. apply Nat.eqb_neq. now apply Hfresh.
Qed.

(** C6 (defect). On a grammar that already has a nonterminal named [E'],
    augmenting with start symbol [E] creates no symbol: the new start
    symbol is the existing [E'], the symbol table is unchanged, and the
    production [E' -> E] joins the productions that [E'] already had. *)
Theorem augment_reuses_existing_nonterminal :
  let g := ExamplesLL.ll_grammar in
  let g' := Grammar.augment 15 24 g in
  Grammar.start_symbol g' = Some ExamplesLL.E'
  /\ In ExamplesLL.E' (SymbolTable.symbols_ (Grammar.symbol_table_ g))
  /\ Grammar.symbol_table_ g' = Grammar.symbol_table_ g
  /\ Grammar.productions g'
     = mkProduction 24 ExamplesLL.E' [ExamplesLL.E] :: Grammar.productions g
  /\ map (fun p => map name (rhs p)) (Grammar.productions_for ExamplesLL.E' g')
     = [["E"]; ["+"; "T"; "E'"]; []]%string.
Proof.
  vm_compute. repeat split; auto 10.
Qed.

(** ** ParseTable::set_action and get_action *)

Lemma get_action_set_action_same (state : Z) (terminal : SymbolPtr)
      (action : Action.t) (tb : ParseTable.t) :
  ParseTable.get_action state terminal (ParseTable.set_action state terminal action tb)
  = action.
Proof.
  unfold ParseTable.get_action, ParseTable.set_action; cbn.
  now rewrite lookup_insert_eq.
Qed.

Lemma get_action_set_action_other (state state' : Z) (terminal terminal' : SymbolPtr)
      (action : Action.t) (tb : ParseTable.t) :
  (state', addr terminal') <> (state, addr terminal) ->
  ParseTable.get_action state' terminal' (ParseTable.set_action state terminal action tb)
  = ParseTable.get_action state' terminal' tb.
Proof.
  intros Hne. unfold ParseTable.get_action, ParseTable.set_action; cbn.
  rewrite lookup_insert_ne; [reflexivity | congruence].
Qed.

(** The action of the last call in [calls] that addresses the cell
    [(state, terminal)]. *)
Fixpoint last_write (calls : list LALR1Generator.ActionCall) (state : Z)
         (terminal : SymbolPtr) : option Action.t :=
  match calls with
  | [] => None
  | (state', terminal', action) :: rest =>
      match last_write rest state terminal with
      | Some later => Some later
      | None =>
          if (state' =? state)%Z && ptr_eqb terminal' terminal
          then Some action else None
      end
  end.

Lemma get_action_after_calls (calls : list LALR1Generator.ActionCall)
      (tb : ParseTable.t) (state : Z) (terminal : SymbolPtr) :
  ParseTable.get_action state terminal (fold_left LALR1Generator.do_action calls tb)
  = match last_write calls state terminal with
    | Some action => action
    | None => ParseTable.get_action state terminal tb
    end.
Proof.
  revert tb. induction calls as [|[[state' terminal'] action] rest IH]; intros tb; cbn.
  - reflexivity.
  - rewrite IH. destruct (last_write rest state terminal) as [later|]; [reflexivity|].
    destruct ((state' =? state)%Z && ptr_eqb terminal' terminal) eqn:Hcell.
    + apply andb_true_iff in Hcell as [Hs Ht].
      apply Z.eqb_eq in Hs. apply Nat.eqb_eq in Ht. subst state'.
      unfold ParseTable.get_action, ParseTable.set_action; cbn.
      rewrite Ht. now rewrite lookup_insert_eq.
    + apply get_action_set_action_other.
      intros Heq. injection Heq as Hs Ht.
      apply andb_false_iff in Hcell as [Hcell|Hcell].
      * apply Z.eqb_neq in Hcell. congruence.
      * apply Nat.eqb_neq in Hcell. congruence.
Qed.

(** C1 (as amended). A call of [set_action] on a cell that holds a
    different action appends one description of the conflict (state,
    terminal name, existing action, new action) and then stores the new
    action: the cell holds the action written last.  After any sequence of
    calls, [get_action] returns the last action written to the cell. *)
Theorem set_action_records_conflict_and_overwrites
        (state : Z) (terminal : SymbolPtr) (action existing : Action.t)
        (tb : ParseTable.t) (calls : list LALR1Generator.ActionCall) :
  ParseTable.action_table_ tb !! (state, addr terminal) = Some existing ->
  Action.differs existing action = true ->
  let tb' := ParseTable.set_action state terminal action tb in
  ParseTable.conflicts_ tb'
  = ParseTable.conflicts_ tb
    ++ [ParseTable.conflict_message state terminal existing action]
  /\ ParseTable.get_action state terminal tb' = action
  /\ ParseTable.get_action state terminal (fold_left LALR1Generator.do_action calls tb')
     = match last_write calls state terminal with
       | Some later => later
       | None => action
       end.
Proof.
  intros Hex Hdiff tb'. repeat split.
  - unfold tb', ParseTable.set_action; cbn. now rewrite Hex, Hdiff.
  - apply get_action_set_action_same.
  - rewrite get_action_after_calls. unfold tb'.
    now rewrite get_action_set_action_same.
Qed.

Lemma set_action_records_conflict_and_overwrites_witness :
  let tb := ParseTable.set_action 0 Examples.plus (Action.mk SHIFT 1)
              (ParseTable.create 1 [] []) in
  let tb' := ParseTable.set_action 0 Examples.plus (Action.mk REDUCE 2) tb in
  ParseTable.conflicts_ tb'
  = ParseTable.conflicts_ tb
    ++ [ParseTable.conflict_message 0 Examples.plus (Action.mk SHIFT 1) (Action.mk REDUCE 2)]
  /\ ParseTable.get_action 0 Examples.plus tb' = Action.mk REDUCE 2
  /\ ParseTable.get_action 0 Examples.plus (fold_left LALR1Generator.do_action [] tb')
     = Action.mk REDUCE 2.
Proof.
  exact (set_action_records_conflict_and_overwrites 0 Examples.plus
           (Action.mk REDUCE 2) (Action.mk SHIFT 1)
           (ParseTable.set_action 0 Examples.plus (Action.mk SHIFT 1)
              (ParseTable.create 1 [] []))
           [] eq_refl eq_refl).
Defined.

(** C1 (counterexample to the claim as stated). A shift is written to the
    cell (0, +), then a reduce: the conflict is recorded, and the cell no
    longer holds the action assigned first. *)
Lemma set_action_drops_first_assignment :
  let tb1 := ParseTable.set_action 0 Examples.plus (Action.mk SHIFT 1)
               (ParseTable.create 1 [] []) in
  let tb2 := ParseTable.set_action 0 Examples.plus (Action.mk REDUCE 2) tb1 in
  ParseTable.get_action 0 Examples.plus tb1 = Action.mk SHIFT 1
  /\ ParseTable.conflicts_ tb2
     = ["Action conflict in state 0 on terminal +: existing=s1, new=r2"%string]
  /\ ParseTable.get_action 0 Examples.plus tb2 <> Action.mk SHIFT 1.
Proof.
  vm_compute. repeat split. discriminate.
Qed.

(** ** LALR1Parser::parse_internal *)

Lemma pop_frames_spec (k : nat) (stack : list LALR1Parser.StackElement)
      (acc : list (option ParseNode)) :
  LALR1Parser.pop_frames k stack acc
  = if k <=? length stack
    then Some (acc ++ map LALR1Parser.node (firstn k stack), skipn k stack)
    else None.
Proof.
  revert stack acc. induction k as [|k IH]; intros stack acc; cbn.
  - now rewrite app_nil_r.
  - destruct stack as [|top rest]; cbn; [reflexivity|].
    rewrite IH. destruct (k <=? length rest); [|reflexivity].
    now rewrite <- app_assoc.
Qed.

(** A reduction pops as many frames as the right-hand side of the
    production has symbols: when the table answers [Reduce i], production
    [i] is [production], the stack holds at least that many frames and the
    goto entry exists, the new stack is the old one without its
    [rhs.size()] topmost frames, below the frame of the left-hand side. *)
Lemma reduce_pops_rhs_size (p : LALR1Parser.t) (c : LALR1Parser.Config)
      (top : LALR1Parser.StackElement) (rest : list LALR1Parser.StackElement)
      (terminal : SymbolPtr) (i : nat) (production : ProductionPtr) (target : Z) :
  LALR1Parser.stack c = top :: rest ->
  LALR1Parser.find_terminal p (LALR1Parser.current_token c) = Some terminal ->
  ParseTable.get_action (LALR1Parser.state top) terminal (LALR1Parser.table_ p)
  = Action.mk REDUCE (Z.of_nat i) ->
  nth_error (Grammar.productions (LALR1Parser.grammar_ p)) i = Some production ->
  length (rhs production) <= length (LALR1Parser.stack c) ->
  ParseTable.get_goto
    (match skipn (length (rhs production)) (LALR1Parser.stack c) with
     | [] => 0%Z | e :: _ => LALR1Parser.state e end)
    (lhs production) (LALR1Parser.table_ p) = target ->
  (0 <= target)%Z ->
  exists frame,
    LALR1Parser.step p c
    = Val (LALR1Parser.Continue
             (LALR1Parser.mkConfig
                (frame :: skipn (length (rhs production)) (LALR1Parser.stack c))
                (LALR1Parser.current_token c) (LALR1Parser.lexer c)))
    /\ LALR1Parser.state frame = target
    /\ LALR1Parser.symbol frame = Some (lhs production).
Proof.
  intros Hstack Hterm Hact Hprod Hlen Hgoto Hpos.
  unfold LALR1Parser.step. rewrite Hstack, Hterm, Hact. cbn.
  assert (Hneg : (Z.of_nat i <? 0)%Z = false) by (apply Z.ltb_ge; lia).
  rewrite Hneg, Nat2Z.id, Hprod, pop_frames_spec.
  rewrite Hstack in Hlen, Hgoto.
  destruct (length (rhs production) <=? length (top :: rest)) eqn:Hle;
    [|apply Nat.leb_gt in Hle; lia].
  cbn [fst snd]. rewrite Hgoto.
  assert (Hneg' : (target <? 0)%Z = false) by (apply Z.ltb_ge; lia).
  rewrite Hneg'. eexists. split; [reflexivity|]. split; reflexivity.
Qed.

(** C3 (defect). [A -> epsilon] is stored with the epsilon symbol as its
    right-hand side (production 2 of the grammar), and the table reduces by
    it in state 1 on end of input.  After the token [a] was shifted the
    driver pops one frame, the one of [a], instead of none; it then looks
    for goto[0, A] instead of goto[1, A] and rejects the input [a].  With
    the same table and [A]'s right-hand side empty, no frame is popped and
    the input is accepted. *)
Theorem reduce_by_epsilon_symbol_pops_a_frame :
  let p := ExamplesEps.parser_eps_symbol in
  let production := mkProduction 21 ExamplesEps.A [ExamplesEps.eps] in
  nth_error (Grammar.productions (LALR1Parser.grammar_ p)) 2 = Some production
  /\ is_epsilon_production production = true
  /\ ParseTable.get_action 1 ExamplesEps.eoi (LALR1Parser.table_ p) = Action.mk REDUCE 2
  /\ LALR1Parser.pop_frames (length (rhs production))
       (LALR1Parser.stack ExamplesEps.after_shift) []
     = Some ([Some ExamplesEps.node_a], [LALR1Parser.mkElement 0 None None])
  /\ LALR1Parser.step p ExamplesEps.after_shift
     = Val (LALR1Parser.Return
              (result_error "No goto entry for state 0 and symbol A" 1 2))
  /\ LALR1Parser.parse_internal 20 p ExamplesEps.lexer_a
     = Val (result_error "No goto entry for state 0 and symbol A" 1 2)
  /\ LALR1Parser.parse_internal 20 ExamplesEps.parser_empty_rhs ExamplesEps.lexer_a
     = Val (result_ok (Some (Node ExamplesEps.S ""
                               [ExamplesEps.node_a; Node ExamplesEps.A "" []]))).
Proof.
  vm_compute. repeat split.
Qed.

(** C4 (as amended). When Accept is dispatched, the driver succeeds
    exactly when the stack holds at least two frames, whatever they are, and
    returns the node of the top frame; with fewer frames it fails with
    "Invalid stack state at accept" at the position of the current token. *)
Theorem accept_needs_two_frames (p : LALR1Parser.t) (c : LALR1Parser.Config)
        (top : LALR1Parser.StackElement) (rest : list LALR1Parser.StackElement)
        (terminal : SymbolPtr) :
  LALR1Parser.stack c = top :: rest ->
  LALR1Parser.find_terminal p (LALR1Parser.current_token c) = Some terminal ->
  Action.type (ParseTable.get_action (LALR1Parser.state top) terminal
                                     (LALR1Parser.table_ p)) = ACCEPT ->
  exists r,
    LALR1Parser.step p c = Val (LALR1Parser.Return r)
    /\ (success r = true <-> 2 <= length (LALR1Parser.stack c))
    /\ (success r = true -> tree r = LALR1Parser.node top)
    /\ (success r = false ->
        r = result_error "Invalid stack state at accept"
              (tok_line (LALR1Parser.current_token c))
              (tok_column (LALR1Parser.current_token c))).
Proof.
  intros Hstack Hterm Hact.
  unfold LALR1Parser.step. rewrite Hstack, Hterm.
  unfold Action.is_shift, Action.is_reduce, Action.is_accept. rewrite Hact. cbn.
  destruct rest as [|second rest]; cbn.
  - eexists. split; [reflexivity|]. cbn. repeat split; try discriminate; try lia.
  - eexists. split; [reflexivity|]. cbn. repeat split; try discriminate; try lia.
Qed.

Lemma accept_needs_two_frames_witness :
  exists r,
    LALR1Parser.step ExamplesEps.parser_empty_rhs
      (LALR1Parser.mkConfig
         [LALR1Parser.mkElement 3 (Some ExamplesEps.S)
            (Some (Node ExamplesEps.S "" []));
          LALR1Parser.mkElement 0 None None]
         default_token (mkLexer [] 1 1 0))
    = Val (LALR1Parser.Return r)
    /\ (success r = true <-> 2 <= 2)
    /\ (success r = true -> tree r = Some (Node ExamplesEps.S "" []))
    /\ (success r = false ->
        r = result_error "Invalid stack state at accept" 1 1).
Proof.
  exact (accept_needs_two_frames ExamplesEps.parser_empty_rhs
           (LALR1Parser.mkConfig
              [LALR1Parser.mkElement 3 (Some ExamplesEps.S)
                 (Some (Node ExamplesEps.S "" []));
               LALR1Parser.mkElement 0 None None]
              default_token (mkLexer [] 1 1 0))
           (LALR1Parser.mkElement 3 (Some ExamplesEps.S)
              (Some (Node ExamplesEps.S "" [])))
           [LALR1Parser.mkElement 0 None None]
           ExamplesEps.eoi eq_refl eq_refl eq_refl).
Defined.

(** C4 (counterexamples to the claim as stated).  First, Accept dispatched
    on a stack of three frames succeeds.  Second, for the grammar
    [S -> A'], [A' -> b] the generated table accepts in the state reached by
    shifting [b]: the parse of [b] succeeds with the stack
    [initial, frame of b], and the root of the returned tree is the
    terminal [b], not the start symbol [S]. *)
Lemma accept_ignores_stack_layout :
  (let stack3 :=
     [LALR1Parser.mkElement 3 (Some ExamplesEps.S) (Some (Node ExamplesEps.S "" []));
      LALR1Parser.mkElement 1 (Some ExamplesEps.a) (Some ExamplesEps.node_a);
      LALR1Parser.mkElement 0 None None] in
   accept_layout_ok ExamplesEps.grammar_empty_rhs stack3 = false
   /\ LALR1Parser.step ExamplesEps.parser_empty_rhs
        (LALR1Parser.mkConfig stack3 default_token (mkLexer [] 1 1 0))
      = Val (LALR1Parser.Return (result_ok (Some (Node ExamplesEps.S "" [])))))
  /\ (let node_b := Node ExamplesQuote.b "b" [] in
      let stack2 :=
        [LALR1Parser.mkElement 3 (Some ExamplesQuote.b) (Some node_b);
         LALR1Parser.mkElement 0 None None] in
      user_start ExamplesQuote.grammar = Some ExamplesQuote.S
      /\ accept_layout_ok ExamplesQuote.grammar stack2 = false
      /\ (do p <- ExamplesQuote.parser in
          LALR1Parser.step p (LALR1Parser.mkConfig stack2 default_token (mkLexer [] 1 1 0)))
         = Val (LALR1Parser.Return (result_ok (Some node_b)))
      /\ (do p <- ExamplesQuote.parser in
          LALR1Parser.parse_internal 20 p ExamplesQuote.lexer_b)
         = Val (result_ok (Some node_b))
      /\ ptr_eqb (node_symbol node_b) ExamplesQuote.S = false).
Proof.
  vm_compute. repeat split.
Qed.

(** ** LALR1Generator::generate_table *)

(** C5 (defect). For the augmented grammar [S' -> S], [S -> A'], [A' -> b]
    the table construction makes two calls of [set_action] with Accept: one
    for state 1, which holds the item [S' -> S .], and one for state 3,
    whose only item is [A' -> b .]; both cells of the table hold Accept. *)
Theorem accept_emitted_for_quoted_unit_production :
  let eoi := ExamplesQuote.eoi in
  let accept := Action.make ACCEPT in
  (do (tb, gen) <- ExamplesQuote.generated in
   do calls <- LALR1Generator.emitted_actions gen (LALR1Generator.states_ gen) in
   Val (List.filter (fun c => Action.is_accept (snd c)) calls))
  = Val [(1%Z, eoi, accept); (3%Z, eoi, accept)]
  /\ (do (tb, gen) <- ExamplesQuote.generated in
      Val (ParseTable.get_action 1 eoi tb, ParseTable.get_action 3 eoi tb,
           ParseTable.conflicts_ tb))
     = Val (accept, accept, [])
  /\ (do gen <- ExamplesQuote.generator in
      Val (option_map LR0State.items
             (LR0Automaton.get_state 3 (LALR1Generator.lr0_automaton_ gen))))
     = Val (Some [LR0Item.mk (mkProduction 21 ExamplesQuote.A' [ExamplesQuote.b]) 1]).
Proof.
  vm_compute. repeat split.
Qed.

(** Constructing the generator for a grammar without productions reads
    [productions()[0]] of an empty vector. *)
Lemma generator_create_without_productions (n fuel : nat) (g : Grammar.t) :
  Grammar.productions g = [] -> LALR1Generator.create n fuel g = Undefined.
Proof.
  intros H. unfold LALR1Generator.create, LR0Automaton.create, LR0Automaton.initial.
  now rewrite H.
Qed.

(** C2 (as amended). [generate_table] throws the runtime error "Grammar
    must be augmented ..." and returns no table whenever the grammar of the
    generator is not marked augmented; this is the case in particular after
    [augment()] was called on a grammar that has no start symbol. *)
Theorem generate_table_requires_augmented (fuel : nat) (gen : LALR1Generator.t) :
  (Grammar.is_augmented (LALR1Generator.grammar_ gen) = false
   \/ exists a_sym a_prod g,
        LALR1Generator.grammar_ gen = Grammar.augment a_sym a_prod g
        /\ Grammar.is_augmented g = false /\ Grammar.start_symbol g = None) ->
  LALR1Generator.generate_table fuel gen
  = Throw "Grammar must be augmented before generating LALR(1) table".
Proof.
  intros H.
  assert (Haug : Grammar.is_augmented (LALR1Generator.grammar_ gen) = false).
  { destruct H as [H | (a_sym & a_prod & g & Hg & Haug & Hstart)]; [exact H|].
    rewrite Hg. now apply augment_without_start_is_identity. }
  unfold LALR1Generator.generate_table. now rewrite Haug.
Qed.

Lemma generate_table_requires_augmented_witness :
  (do gen <- LALR1Generator.create 20 20
               (Grammar.augment 14 23 ExamplesIncomplete.never_started) in
   LALR1Generator.generate_table 20 gen)
  = Throw "Grammar must be augmented before generating LALR(1) table".
Proof.
  destruct (LALR1Generator.create 20 20
              (Grammar.augment 14 23 ExamplesIncomplete.never_started))
    as [gen| | |] eqn:Hgen; try (vm_compute in Hgen; discriminate Hgen).
  cbn. apply generate_table_requires_augmented.
  right. exists 14, 23, ExamplesIncomplete.never_started.
  vm_compute in Hgen. injection Hgen as <-. vm_compute. repeat split.
Defined.

(** C2 (counterexamples to the claim as stated).  A grammar that is marked
    augmented passes the only check of [generate_table]: a table is
    returned for an augmented grammar whose start symbol is null, and for
    the augmentation of a grammar that has a start symbol and no
    production. *)
Lemma generate_table_accepts_incomplete_grammars :
  Grammar.start_symbol ExamplesIncomplete.no_start = None
  /\ (do gen <- LALR1Generator.create 20 20 ExamplesIncomplete.no_start in
      do (tb, gen') <- LALR1Generator.generate_table 20 gen in
      Val (ParseTable.num_states_ tb)) = Val 6%Z
  /\ Grammar.productions ExamplesIncomplete.no_productions = []
  /\ (do gen <- LALR1Generator.create 20 20 ExamplesIncomplete.no_productions_augmented in
      do (tb, gen') <- LALR1Generator.generate_table 20 gen in
      Val (ParseTable.num_states_ tb)) = Val 2%Z.
Proof.
  vm_compute. repeat split.
Qed.

(** ** Key-ordered lists *)

Section std_set_facts.
Context {A : Type}.
Variable lt : A -> A -> bool.
Hypothesis lt_trans : forall a b c, lt a b = true -> lt b c = true -> lt a c = true.
Hypothesis lt_irrefl : forall a, lt a a = false.

Definition sorted_by (s : list A) : Prop :=
  StronglySorted (fun a b => lt a b = true) s.

Lemma set_insert_In (x y : A) (s : list A) :
  In y (set_insert lt x s) -> y = x \/ In y s.
Proof using Type.
  induction s as [|z s IH]; cbn.
  - intros [<-|[]]. now left.
  - destruct (lt x z).
    + intros [<-|H]; [now left | now right].
    + destruct (lt z x); [|now right].
      intros [<-|H]; [right; now left|].
      destruct (IH H) as [->|Hin]; [now left | right; now right].
Qed.

Lemma set_insert_incl (x y : A) (s : list A) :
  In y s -> In y (set_insert lt x s).
Proof using Type.
  induction s as [|z s IH]; cbn; [intros []|].
  intros H. destruct (lt x z); [now right|].
  destruct (lt z x); [|exact H].
  destruct H as [<-|H]; [now left | right; now apply IH].
Qed.

(** After the insertion the set holds an element with the key of [x]. *)
Lemma set_insert_has (x : A) (s : list A) :
  exists y, In y (set_insert lt x s) /\ equiv_key lt x y = true.
Proof using lt_irrefl.
  assert (Hxx : equiv_key lt x x = true)
    by (unfold equiv_key; now rewrite lt_irrefl).
  induction s as [|z s IH]; cbn.
  - exists x. split; [now left | exact Hxx].
  - destruct (lt x z) eqn:Hxz.
    + exists x. split; [now left | exact Hxx].
    + destruct (lt z x) eqn:Hzx.
      * destruct IH as (y & Hy & He). exists y. split; [now right | exact He].
      * exists z. split; [now left|]. unfold equiv_key. now rewrite Hxz, Hzx.
Qed.

Lemma set_insert_sorted (x : A) (s : list A) :
  sorted_by s -> sorted_by (set_insert lt x s).
Proof using lt_trans.
  unfold sorted_by. induction s as [|z s IH]; cbn; intros Hs.
  - constructor; constructor.
  - apply StronglySorted_inv in Hs as [Hs Hz].
    destruct (lt x z) eqn:Hxz.
    + constructor; [constructor; assumption|].
      constructor; [exact Hxz|].
      rewrite List.Forall_forall in Hz |- *. intros y Hy.
      apply lt_trans with (b := z); auto.
    + destruct (lt z x) eqn:Hzx; [|constructor; assumption].
      constructor; [now apply IH|].
      rewrite List.Forall_forall in Hz |- *. intros y Hy.
      apply set_insert_In in Hy as [->|Hy]; auto.
Qed.

Lemma set_insert_length (x : A) (s : list A) :
  length s <= length (set_insert lt x s) <= S (length s).
Proof using Type.
  induction s as [|z s IH]; cbn; [lia|].
  destruct (lt x z); cbn; [lia|]. destruct (lt z x); cbn; lia.
Qed.

Lemma set_insert_all_sorted (xs s : list A) :
  sorted_by s -> sorted_by (set_insert_all lt xs s).
Proof using lt_trans.
  unfold set_insert_all. revert s. induction xs as [|x xs IH]; intros s Hs; cbn; auto.
  apply IH. now apply set_insert_sorted.
Qed.

Lemma set_insert_all_In (xs s : list A) (y : A) :
  In y (set_insert_all lt xs s) -> In y xs \/ In y s.
Proof using Type.
  unfold set_insert_all. revert s. induction xs as [|x xs IH]; intros s; cbn; auto.
  intros H. apply IH in H as [H|H]; [left; now right|].
  apply set_insert_In in H as [->|H]; [left; now left | now right].
Qed.

Lemma set_insert_all_incl (xs s : list A) (y : A) :
  In y s -> In y (set_insert_all lt xs s).
Proof using Type.
  unfold set_insert_all. revert s. induction xs as [|x xs IH]; intros s; cbn; auto.
  intros H. apply IH. now apply set_insert_incl.
Qed.

Lemma set_insert_all_has (xs s : list A) (x : A) :
  In x xs -> exists y, In y (set_insert_all lt xs s) /\ equiv_key lt x y = true.
Proof using lt_irrefl.
  unfold set_insert_all. revert s. induction xs as [|z xs IH]; intros s; cbn; [intros []|].
  intros [->|Hin]; [|now apply IH].
  destruct (set_insert_has x s) as (y & Hy & Heq).
  exists y. split; [|exact Heq]. now apply set_insert_all_incl.
Qed.
End std_set_facts.

(** Sets of symbols: the order is that of the addresses. *)
Lemma ptr_ltb_trans (a b c : SymbolPtr) :
  ptr_ltb a b = true -> ptr_ltb b c = true -> ptr_ltb a c = true.
Proof.
  unfold ptr_ltb. rewrite !Nat.ltb_lt. lia.
Qed.

Lemma ptr_ltb_irrefl (a : SymbolPtr) : ptr_ltb a a = false.
Proof. unfold ptr_ltb. apply Nat.ltb_irrefl. Qed.

Lemma equiv_key_ptr (x y : SymbolPtr) :
  equiv_key ptr_ltb x y = true <-> addr x = addr y.
Proof.
  unfold equiv_key, ptr_ltb.
  rewrite andb_true_iff, !negb_true_iff, !Nat.ltb_ge. lia.
Qed.

Lemma sorted_by_addr_NoDup (s : SymbolSet) :
  sorted_by ptr_ltb s -> List.NoDup (map addr s).
Proof.
  unfold sorted_by. induction 1 as [|x s Hs IH Hx]; cbn; constructor; auto.
  intros Hin. apply in_map_iff in Hin as (y & Hy & Hin).
  rewrite List.Forall_forall in Hx. specialize (Hx y Hin).
  unfold ptr_ltb in Hx. apply Nat.ltb_lt in Hx. lia.
Qed.

(** A sorted set whose addresses come from a list [U] is not longer than
    [U]. *)
Lemma sorted_set_length_bound (s : SymbolSet) (U : list nat) :
  sorted_by ptr_ltb s -> (forall x, In x s -> In (addr x) U) ->
  length s <= length U.
Proof.
  intros Hs Hincl. rewrite <- (length_map addr s).
  apply NoDup_incl_length; [now apply sorted_by_addr_NoDup|].
  intros a Ha. apply in_map_iff in Ha as (x & <- & Hx). auto.
Qed.

(** ** Loops that run until nothing changes *)

Section while_changed_facts.
Context {S : Type}.
Variable body : S -> Res (S * bool).
Variable Inv : S -> Prop.
Variable measure : S -> nat.
Variable bound : nat.

Hypothesis measure_bounded : forall s, Inv s -> measure s <= bound.
Hypothesis body_progress :
  forall s, Inv s ->
    exists s' changed,
      body s = Val (s', changed) /\ Inv s'
      /\ (changed = true -> measure s < measure s').

(** With more fuel than the measure can still grow, the loop ends because
    a round changed nothing: its result is what the last round returned. *)
Lemma while_changed_terminates (fuel : nat) (s : S) :
  Inv s -> bound < fuel + measure s ->
  exists s' s0,
    while_changed body fuel s = Val s' /\ Inv s' /\ Inv s0 /\ body s0 = Val (s', false).
Proof using measure_bounded body_progress.
  revert s. induction fuel as [|fuel IH]; intros s HI Hfuel.
  - pose proof (measure_bounded s HI). lia.
  - destruct (body_progress s HI) as (s' & changed & Hbody & HI' & Hgrow).
    cbn. rewrite Hbody. cbn. destruct changed.
    + apply IH; [exact HI'|]. specialize (Hgrow eq_refl). lia.
    + exists s', s. auto.
Qed.
End while_changed_facts.

(** The result does not depend on the fuel, once there is enough of it. *)
Lemma while_changed_more_fuel {S : Type} (body : S -> Res (S * bool))
      (fuel fuel' : nat) (s s' : S) :
  while_changed body fuel s = Val s' -> fuel <= fuel' ->
  while_changed body fuel' s = Val s'.
Proof.
  revert fuel' s. induction fuel as [|fuel IH]; intros fuel' s; cbn; [discriminate|].
  intros H Hle. destruct fuel' as [|fuel']; [lia|]. cbn.
  destruct (body s) as [[s1 changed]| | |]; cbn in *; try discriminate.
  destruct changed; [|exact H]. apply IH; [exact H | lia].
Qed.

Lemma filter_length_le_pointwise {A : Type} (P Q : A -> bool) (l : list A) :
  (forall x, In x l -> P x = true -> Q x = true) ->
  length (List.filter P l) <= length (List.filter Q l).
Proof.
  induction l as [|x l IH]; cbn; intros H; [lia|].
  assert (IH' := IH (fun y Hy => H y (or_intror Hy))).
  destruct (P x) eqn:HP.
  - rewrite (H x (or_introl eq_refl) HP). cbn. lia.
  - destruct (Q x); cbn; lia.
Qed.

Lemma filter_length_lt_pointwise {A : Type} (P Q : A -> bool) (l : list A) (x : A) :
  (forall y, In y l -> P y = true -> Q y = true) ->
  In x l -> P x = false -> Q x = true ->
  length (List.filter P l) < length (List.filter Q l).
Proof.
  induction l as [|y l IH]; cbn; intros H Hin HP HQ; [contradiction|].
  assert (Hle := filter_length_le_pointwise P Q l (fun z Hz => H z (or_intror Hz))).
  destruct Hin as [->|Hin].
  - rewrite HP, HQ. cbn. lia.
  - assert (IH' := IH (fun z Hz => H z (or_intror Hz)) Hin HP HQ).
    destruct (P y) eqn:HPy.
    + rewrite (H y (or_introl eq_refl) HPy). cbn. lia.
    + destruct (Q y); cbn; lia.
Qed.

Lemma list_sum_le_pointwise {A : Type} (f h : A -> nat) (l : list A) :
  (forall x, In x l -> f x <= h x) ->
  list_sum (map f l) <= list_sum (map h l).
Proof.
  unfold list_sum. induction l as [|y l IH]; cbn; intros H; [lia|].
  pose proof (H y (or_introl eq_refl)).
  pose proof (IH (fun z Hz => H z (or_intror Hz))). lia.
Qed.

Lemma list_sum_lt_pointwise {A : Type} (f h : A -> nat) (l : list A) (x : A) :
  (forall y, In y l -> f y <= h y) -> In x l -> f x < h x ->
  list_sum (map f l) < list_sum (map h l).
Proof.
  induction l as [|y l IH]; intros H Hin Hlt; [contradiction|].
  pose proof (H y (or_introl eq_refl)).
  pose proof (list_sum_le_pointwise f h l (fun z Hz => H z (or_intror Hz))).
  unfold list_sum in *. cbn.
  destruct Hin as [->|Hin]; [lia|].
  pose proof (IH (fun z Hz => H z (or_intror Hz)) Hin Hlt). lia.
Qed.

Lemma list_sum_bound {A : Type} (f : A -> nat) (l : list A) (b : nat) :
  (forall x, In x l -> f x <= b) -> list_sum (map f l) <= length l * b.
Proof.
  unfold list_sum. induction l as [|y l IH]; intros H; [cbn; lia|].
  pose proof (H y (or_introl eq_refl)).
  pose proof (IH (fun z Hz => H z (or_intror Hz))).
  cbn. lia.
Qed.

(** ** compute_epsilon_derivers *)

(** The set that an [unordered_map<SymbolPtr, bool>] describes: the
    addresses mapped to [true]. *)
Definition markedb (m : BoolMap) (k : nat) : bool :=
  match m !! k with
  | Some true => true
  | _ => false
  end.

Lemma markedb_insert_true (m : BoolMap) (k j : nat) :
  markedb (<[k := true]> m) j = (j =? k) || markedb m j.
Proof.
  unfold markedb. destruct (Nat.eqb_spec j k) as [->|Hne].
  - now rewrite lookup_insert_eq.
  - now rewrite lookup_insert_ne by congruence.
Qed.

Lemma markedb_insert_false (m : BoolMap) (k j : nat) :
  markedb m k = false -> markedb (<[k := false]> m) j = markedb m j.
Proof.
  unfold markedb. intros Hk. destruct (Nat.eqb_spec j k) as [->|Hne].
  - rewrite lookup_insert_eq. exact (eq_sym Hk).
  - now rewrite lookup_insert_ne by congruence.
Qed.

Lemma eps_at_spec (k : SymbolPtr) (m m' : BoolMap) (b : bool) :
  Grammar.eps_at k m = (b, m') ->
  b = markedb m (addr k) /\ forall j, markedb m' j = markedb m j.
Proof.
  unfold Grammar.eps_at. intros H.
  destruct (m !! addr k) as [v|] eqn:Hk; injection H as <- <-.
  - split; [|reflexivity]. unfold markedb. rewrite Hk. now destruct v.
  - assert (Hm : markedb m (addr k) = false) by (unfold markedb; now rewrite Hk).
    split; [now rewrite Hm|]. intros j. now apply markedb_insert_false.
Qed.

(** The test that the loop over a right-hand side performs, on the set [f]. *)
Definition rhs_all_marked (f : nat -> bool) (syms : list SymbolPtr) : bool :=
  forallb (fun s => negb (is_terminal s || is_end_of_input s) && f (addr s)) syms.

Lemma rhs_all_marked_ext (f f' : nat -> bool) (syms : list SymbolPtr) :
  (forall j, f' j = f j) -> rhs_all_marked f' syms = rhs_all_marked f syms.
Proof.
  intros H. unfold rhs_all_marked. induction syms as [|s l IH]; cbn; [reflexivity|].
  now rewrite H, IH.
Qed.

Lemma all_derive_epsilon_spec (syms : list SymbolPtr) (m m' : BoolMap) (b : bool) :
  Grammar.all_derive_epsilon syms m = (b, m') ->
  b = rhs_all_marked (markedb m) syms /\ forall j, markedb m' j = markedb m j.
Proof.
  revert m. induction syms as [|s l IH]; intros m; cbn.
  - intros H. injection H as <- <-. auto.
  - destruct (is_terminal s || is_end_of_input s) eqn:Hterm; cbn.
    + intros H. injection H as <- <-. auto.
    + destruct (Grammar.eps_at s m) as [b1 m1] eqn:Hat.
      apply eps_at_spec in Hat as [-> Hm1].
      destruct (markedb m (addr s)) eqn:Hs; cbn.
      * intros H. apply IH in H as [-> Hm']. split.
        -- now apply rhs_all_marked_ext.
        -- intros j. now rewrite Hm', Hm1.
      * intros H. injection H as <- <-. auto.
Qed.

(** Whether a production lets its left-hand side join the set [f]. *)
Definition rhs_nullable_in (f : nat -> bool) (prod : ProductionPtr) : bool :=
  is_epsilon_production prod || rhs_all_marked f (rhs prod).

Definition fires (f : nat -> bool) (prod : ProductionPtr) : bool :=
  negb (f (addr (lhs prod))) && rhs_nullable_in f prod.

Lemma epsilon_step_spec (m m' : BoolMap) (changed changed' : bool) (prod : ProductionPtr) :
  Grammar.epsilon_step (m, changed) prod = (m', changed') ->
  (forall j, markedb m' j
             = markedb m j || (fires (markedb m) prod && (j =? addr (lhs prod))))
  /\ changed' = changed || fires (markedb m) prod.
Proof.
  unfold Grammar.epsilon_step, fires, rhs_nullable_in.
  destruct (Grammar.eps_at (lhs prod) m) as [b m1] eqn:Hat.
  apply eps_at_spec in Hat as [-> Hm1].
  destruct (markedb m (addr (lhs prod))) eqn:Hl; cbn.
  - intros H. injection H as <- <-. split.
    + intros j. now rewrite Hm1, orb_false_r.
    + now rewrite orb_false_r.
  - destruct (rhs prod) as [|s l] eqn:Hrhs.
    + intros H. injection H as <- <-. split.
      * intros j. rewrite markedb_insert_true, Hm1.
        unfold rhs_all_marked; cbn. rewrite orb_true_r. cbn. apply orb_comm.
      * unfold rhs_all_marked; cbn. now rewrite !orb_true_r.
    + destruct (is_epsilon_production prod) eqn:Heps;
        cbn -[Grammar.all_derive_epsilon rhs_all_marked].
      * intros H. injection H as <- <-. split.
        -- intros j. rewrite markedb_insert_true, Hm1. apply orb_comm.
        -- now rewrite orb_true_r.
      * destruct (Grammar.all_derive_epsilon (s :: l) m1) as [all m2] eqn:Hall.
        apply all_derive_epsilon_spec in Hall as [-> Hm2].
        rewrite (rhs_all_marked_ext (markedb m) (markedb m1)) by exact Hm1.
        destruct (rhs_all_marked (markedb m) (s :: l)) eqn:Hok.
        -- intros H. injection H as <- <-. split.
           ++ intros j. rewrite markedb_insert_true, Hm2, Hm1. apply orb_comm.
           ++ now rewrite orb_true_r.
        -- intros H. injection H as <- <-. split.
           ++ intros j. now rewrite Hm2, Hm1, orb_false_r.
           ++ now rewrite orb_false_r.
Qed.

Lemma fires_ext (f f' : nat -> bool) (prod : ProductionPtr) :
  (forall j, f' j = f j) -> fires f' prod = fires f prod.
Proof.
  intros H. unfold fires, rhs_nullable_in.
  now rewrite H, (rhs_all_marked_ext f f') by exact H.
Qed.

(** One round over a list of productions: marks are only added; when the
    round reports no change nothing was marked and no production is ready
    to fire; when it reports a change, the left-hand side of one of the
    productions was newly marked. *)
Lemma epsilon_fold_spec (l : list ProductionPtr) :
  forall (m m' : BoolMap) (changed changed' : bool),
    fold_left Grammar.epsilon_step l (m, changed) = (m', changed') ->
    (forall j, markedb m j = true -> markedb m' j = true)
    /\ (changed' = false ->
        changed = false /\ (forall j, markedb m' j = markedb m j)
        /\ forall prod, In prod l -> fires (markedb m) prod = false)
    /\ (changed = false -> changed' = true ->
        exists prod, In prod l /\ markedb m (addr (lhs prod)) = false
                     /\ markedb m' (addr (lhs prod)) = true).
Proof.
  induction l as [|prod0 l IH]; intros m m' changed changed'; cbn [fold_left].
  - intros H. injection H as <- <-. repeat split; auto.
    + intros prod [].
    + intros -> Hc. discriminate.
  - destruct (Grammar.epsilon_step (m, changed) prod0) as [m1 changed1] eqn:Hstep.
    apply epsilon_step_spec in Hstep as [Hm1 Hc1].
    intros Hfold. apply IH in Hfold as (Hmono & Hsame & Hnew).
    assert (Hmono1 : forall j, markedb m j = true -> markedb m1 j = true).
    { intros j Hj. rewrite Hm1, Hj. reflexivity. }
    repeat split.
    + auto.
    + destruct (Hsame H) as (Hch1 & _). rewrite Hc1 in Hch1.
      now apply orb_false_iff in Hch1.
    + destruct (Hsame H) as (Hch1 & Heq & _). rewrite Hc1 in Hch1.
      apply orb_false_iff in Hch1 as [_ Hf].
      intros j. rewrite Heq, Hm1, Hf. cbn. apply orb_false_r.
    + destruct (Hsame H) as (Hch1 & Heq & Hnone). rewrite Hc1 in Hch1.
      apply orb_false_iff in Hch1 as [_ Hf].
      intros prod [<-|Hin]; [exact Hf|].
      rewrite <- (Hnone prod Hin). symmetry. apply fires_ext.
      intros j. rewrite Hm1, Hf. cbn. apply orb_false_r.
    + intros Hch Hch'. subst changed. cbn in Hc1.
      destruct (fires (markedb m) prod0) eqn:Hf.
      * exists prod0. split; [now left|]. unfold fires in Hf.
        apply andb_true_iff in Hf as [Hl Hr]. apply negb_true_iff in Hl.
        split; [exact Hl|]. apply Hmono. rewrite Hm1, Nat.eqb_refl.
        cbn. apply orb_true_r.
      * subst changed1. destruct (Hnew eq_refl Hch') as (prod & Hin & Hno & Hyes).
        exists prod. split; [now right|]. split; [|exact Hyes].
        rewrite Hm1 in Hno. cbn in Hno. now rewrite orb_false_r in Hno.
Qed.

Section nullable_facts.
Variable prods : list ProductionPtr.
Variable e : nat.

Lemma rhs_all_marked_sound (f : nat -> bool) (syms : list SymbolPtr) :
  (forall j, f j = true -> nullable_addr prods e j) ->
  rhs_all_marked f syms = true -> nullable_rhs prods e syms.
Proof.
  intros Hf. induction syms as [|s l IH]; cbn; intros H.
  - constructor.
  - apply andb_true_iff in H as [Hs Hl]. apply andb_true_iff in Hs as [Hterm Hs].
    apply negb_true_iff, orb_false_iff in Hterm as [Ht He].
    constructor; auto.
Qed.

(** Marks stay within the least closed set. *)
Lemma epsilon_fold_sound (l : list ProductionPtr) :
  forall (m m' : BoolMap) (changed changed' : bool),
    (forall prod, In prod l -> In prod prods) ->
    (forall j, markedb m j = true -> nullable_addr prods e j) ->
    fold_left Grammar.epsilon_step l (m, changed) = (m', changed') ->
    forall j, markedb m' j = true -> nullable_addr prods e j.
Proof.
  induction l as [|prod0 l IH]; intros m m' changed changed' Hl Hm; cbn [fold_left].
  - intros H. now injection H as <- <-.
  - destruct (Grammar.epsilon_step (m, changed) prod0) as [m1 changed1] eqn:Hstep.
    apply epsilon_step_spec in Hstep as [Hm1 _].
    apply IH.
    + intros prod Hin. apply Hl. now right.
    + intros j. rewrite Hm1. intros Hj. apply orb_true_iff in Hj as [Hj|Hj]; [auto|].
      apply andb_true_iff in Hj as [Hf Hj]. apply Nat.eqb_eq in Hj as ->.
      unfold fires in Hf. apply andb_true_iff in Hf as [_ Hr].
      unfold rhs_nullable_in in Hr. apply orb_true_iff in Hr as [Hr|Hr].
      * apply nullable_epsprod; [apply Hl; now left | exact Hr].
      * apply nullable_prod; [apply Hl; now left|].
        now apply rhs_all_marked_sound with (f := markedb m).
Qed.

(** A set that contains the epsilon symbol and that no production can
    enlarge contains the least closed set. *)
Lemma nullable_addr_least (f : nat -> bool) :
  f e = true ->
  (forall prod, In prod prods -> fires f prod = false) ->
  forall j, nullable_addr prods e j -> f j = true.
Proof.
  intros He Hclosed.
  assert (Hready : forall prod, In prod prods -> rhs_nullable_in f prod = true ->
                                f (addr (lhs prod)) = true).
  { intros prod Hin Hr. specialize (Hclosed prod Hin). unfold fires in Hclosed.
    rewrite Hr, andb_true_r in Hclosed. now apply negb_false_iff in Hclosed. }
  apply (nullable_addr_mut prods e
           (fun j _ => f j = true)
           (fun l _ => rhs_all_marked f l = true)).
  - exact He.
  - intros p Hin Heps. apply Hready; [exact Hin|].
    unfold rhs_nullable_in. now rewrite Heps.
  - intros p Hin _ Hrhs. apply Hready; [exact Hin|].
    unfold rhs_nullable_in. rewrite Hrhs. apply orb_true_r.
  - reflexivity.
  - intros s l Ht Hend _ Hs _ Hl. unfold rhs_all_marked in *. cbn.
    now rewrite Ht, Hend, Hs, Hl.
Qed.
End nullable_facts.

Lemma markedb_fold_false (l : list SymbolPtr) :
  forall m : BoolMap,
    (forall j, markedb m j = false) ->
    forall j, markedb (fold_left (fun acc nt => <[addr nt := false]> acc) l m) j = false.
Proof.
  induction l as [|s l IH]; intros m Hm j; cbn; [apply Hm|].
  apply IH. intros i. rewrite markedb_insert_false; auto.
Qed.

Lemma markedb_epsilon_init (st : SymbolTable.t) (j : nat) :
  markedb (Grammar.epsilon_init st) j = (j =? addr (SymbolTable.epsilon_ st)).
Proof.
  unfold Grammar.epsilon_init, SymbolTable.get_epsilon.
  rewrite markedb_insert_true, markedb_fold_false; [apply orb_false_r|].
  intros i. unfold markedb. now rewrite lookup_empty.
Qed.

(** The number of left-hand sides that are marked. *)
Definition marked_count (prods : list ProductionPtr) (m : BoolMap) : nat :=
  length (List.filter (markedb m) (map (fun prod => addr (lhs prod)) prods)).

Lemma marked_count_bound (prods : list ProductionPtr) (m : BoolMap) :
  marked_count prods m <= length prods.
Proof.
  unfold marked_count. etransitivity; [apply List.filter_length_le|].
  now rewrite length_map.
Qed.

(** [compute_epsilon_derivers] terminates within [length prods + 1] rounds,
    and the addresses it maps to [true] are exactly the least closed set. *)
Lemma epsilon_loop_correct (st : SymbolTable.t) (prods : list ProductionPtr) (fuel : nat) :
  length prods < fuel ->
  exists m,
    Grammar.epsilon_loop fuel prods (Grammar.epsilon_init st) = Val m
    /\ forall j, markedb m j = true
                 <-> nullable_addr prods (addr (SymbolTable.epsilon_ st)) j.
Proof.
  intros Hfuel. set (e := addr (SymbolTable.epsilon_ st)).
  pose (Inv := fun m : BoolMap =>
                 markedb m e = true
                 /\ forall j, markedb m j = true -> nullable_addr prods e j).
  destruct (while_changed_terminates
              (fun m0 => Val (fold_left Grammar.epsilon_step prods (m0, false)))
              Inv (marked_count prods) (length prods)) with
    (fuel := fuel) (s := Grammar.epsilon_init st) as (m & m0 & Hrun & HI & HI0 & Hlast).
  - intros s _. apply marked_count_bound.
  - intros s [He Hs].
    destruct (fold_left Grammar.epsilon_step prods (s, false)) as [s' changed] eqn:Hfold.
    exists s', changed. split; [reflexivity|].
    pose proof (epsilon_fold_spec prods _ _ _ _ Hfold) as (Hmono & _ & Hnew).
    split; [split|].
    + now apply Hmono.
    + eapply epsilon_fold_sound; [| exact Hs | exact Hfold]. auto.
    + intros ->. destruct (Hnew eq_refl eq_refl) as (prod & Hin & Hno & Hyes).
      unfold marked_count.
      apply filter_length_lt_pointwise with (x := addr (lhs prod)); auto.
      apply in_map_iff. now exists prod.
  - split.
    + rewrite markedb_epsilon_init. apply Nat.eqb_refl.
    + intros j. rewrite markedb_epsilon_init. intros Hj.
      apply Nat.eqb_eq in Hj as ->. constructor.
  - pose proof (marked_count_bound prods (Grammar.epsilon_init st)). lia.
  - exists m. split; [exact Hrun|]. intros j. split; [apply HI|].
    injection Hlast as Hlast.
    pose proof (epsilon_fold_spec prods _ _ _ _ Hlast) as (_ & Hsame & _).
    destruct (Hsame eq_refl) as (_ & Heq & Hnone).
    apply nullable_addr_least.
    + apply HI.
    + intros prod Hin. rewrite <- (Hnone prod Hin). now apply fires_ext.
Qed.

(** ** Derivations of the empty string *)

Section derivation_facts.
Variable prods : list ProductionPtr.

Lemma derives_in_trans (n1 n2 : nat) (u v w : list SymbolPtr) :
  derives_in prods n1 u v -> derives_in prods n2 v w -> derives_in prods (n1 + n2) u w.
Proof.
  induction 1 as [u|n u v x Hstep _ IH]; intros H2; cbn; [exact H2|].
  econstructor; [exact Hstep | now apply IH].
Qed.

Lemma derives_step_app_r (u v t : list SymbolPtr) :
  derives_step prods u v -> derives_step prods (u ++ t) (v ++ t).
Proof.
  intros [p alpha beta Hin Hnt].
  replace ((alpha ++ lhs p :: beta) ++ t) with (alpha ++ lhs p :: (beta ++ t))
    by now rewrite <- app_assoc.
  replace ((alpha ++ body p ++ beta) ++ t) with (alpha ++ body p ++ (beta ++ t))
    by now rewrite <- !app_assoc.
  now constructor.
Qed.

Lemma derives_step_app_l (t u v : list SymbolPtr) :
  derives_step prods u v -> derives_step prods (t ++ u) (t ++ v).
Proof.
  intros [p alpha beta Hin Hnt].
  replace (t ++ alpha ++ lhs p :: beta) with ((t ++ alpha) ++ lhs p :: beta)
    by now rewrite <- app_assoc.
  replace (t ++ alpha ++ body p ++ beta) with ((t ++ alpha) ++ body p ++ beta)
    by now rewrite <- !app_assoc.
  now constructor.
Qed.

Lemma derives_in_app_r (n : nat) (u v t : list SymbolPtr) :
  derives_in prods n u v -> derives_in prods n (u ++ t) (v ++ t).
Proof.
  induction 1 as [u|n u v x Hstep _ IH]; [constructor|].
  econstructor; [apply derives_step_app_r; exact Hstep | exact IH].
Qed.

Lemma derives_in_app_l (n : nat) (t u v : list SymbolPtr) :
  derives_in prods n u v -> derives_in prods n (t ++ u) (t ++ v).
Proof.
  induction 1 as [u|n u v x Hstep _ IH]; [constructor|].
  econstructor; [apply derives_step_app_l; exact Hstep | exact IH].
Qed.

Lemma derives_in_app_nil (n1 n2 : nat) (u v : list SymbolPtr) :
  derives_in prods n1 u [] -> derives_in prods n2 v [] ->
  derives_in prods (n1 + n2) (u ++ v) [].
Proof.
  intros Hu Hv. apply derives_in_trans with (v := v); [|exact Hv].
  now apply (derives_in_app_r n1 u [] v).
Qed.

Lemma derives_in_0_inv (u v : list SymbolPtr) : derives_in prods 0 u v -> u = v.
Proof. now inversion 1. Qed.

Lemma derives_in_S_inv (n : nat) (u w : list SymbolPtr) :
  derives_in prods (S n) u w ->
  exists v, derives_step prods u v /\ derives_in prods n v w.
Proof. inversion 1; subst. eauto. Qed.

Lemma derives_step_inv (u v : list SymbolPtr) :
  derives_step prods u v ->
  exists p alpha beta,
    u = alpha ++ lhs p :: beta /\ v = alpha ++ body p ++ beta
    /\ In p prods /\ is_nonterminal (lhs p) = true.
Proof. inversion 1; subst. eauto 10. Qed.

(** An occurrence in a concatenation lies in the left or in the right part. *)
Lemma app_eq_app_cons {A : Type} (u1 u2 alpha beta : list A) (x : A) :
  u1 ++ u2 = alpha ++ x :: beta ->
  (exists gamma, u1 = alpha ++ x :: gamma /\ beta = gamma ++ u2)
  \/ (exists gamma, alpha = u1 ++ gamma /\ u2 = gamma ++ x :: beta).
Proof.
  revert alpha. induction u1 as [|y u1 IH]; intros alpha; cbn.
  - intros ->. right. now exists alpha.
  - destruct alpha as [|z alpha]; cbn; intros H; injection H as -> H.
    + left. now exists u1.
    + destruct (IH alpha H) as [(gamma & -> & ->)|(gamma & -> & ->)].
      * left. now exists gamma.
      * right. now exists gamma.
Qed.

(** A derivation of the empty string from a concatenation splits into
    derivations from its two parts. *)
Lemma derives_in_split (n : nat) :
  forall u1 u2 : list SymbolPtr,
    derives_in prods n (u1 ++ u2) [] ->
    exists n1 n2, n1 + n2 = n /\ derives_in prods n1 u1 [] /\ derives_in prods n2 u2 [].
Proof.
  induction n as [|n IH]; intros u1 u2 H.
  - apply derives_in_0_inv, app_eq_nil in H as [-> ->].
    exists 0, 0. repeat split; constructor.
  - apply derives_in_S_inv in H as (v & Hstep & Hrest).
    apply derives_step_inv in Hstep as (p & alpha & beta & Hu & -> & Hin & Hnt).
    apply app_eq_app_cons in Hu as [(gamma & -> & ->)|(gamma & -> & ->)].
    + replace (alpha ++ body p ++ gamma ++ u2) with ((alpha ++ body p ++ gamma) ++ u2)
        in Hrest by now rewrite <- !app_assoc.
      apply IH in Hrest as (n1 & n2 & <- & H1 & H2).
      exists (S n1), n2. repeat split; [|exact H2].
      econstructor; [|exact H1]. now constructor.
    + replace ((u1 ++ gamma) ++ body p ++ beta) with (u1 ++ (gamma ++ body p ++ beta))
        in Hrest by now rewrite <- !app_assoc.
      apply IH in Hrest as (n1 & n2 & <- & H1 & H2).
      exists n1, (S n2). repeat split; [lia|exact H1|].
      econstructor; [|exact H2]. now constructor.
Qed.
End derivation_facts.

Lemma symbol_type_cases (s : SymbolPtr) :
  is_terminal s = false -> is_end_of_input s = false -> is_epsilon s = false ->
  is_nonterminal s = true.
Proof.
  unfold is_terminal, is_end_of_input, is_epsilon, is_nonterminal.
  now destruct (type s).
Qed.

Lemma nonterminal_not_others (s : SymbolPtr) :
  is_nonterminal s = true ->
  is_terminal s = false /\ is_end_of_input s = false /\ is_epsilon s = false.
Proof.
  unfold is_terminal, is_end_of_input, is_epsilon, is_nonterminal.
  now destruct (type s).
Qed.

Section nullable_derives.
Variable g : Grammar.t.
Hypothesis wf : well_formed g.

Let prods := Grammar.productions_ g.
Let e := addr (SymbolTable.epsilon_ (Grammar.symbol_table_ g)).

Lemma in_symbols_of_lhs (p : ProductionPtr) :
  In p prods -> In (lhs p) (symbols_of g).
Proof using Type.
  intros Hin. unfold symbols_of. right. right. apply in_or_app. right.
  apply in_flat_map. exists p. split; [exact Hin | now left].
Qed.

Lemma in_symbols_of_rhs (p : ProductionPtr) (s : SymbolPtr) :
  In p prods -> In s (rhs p) -> In s (symbols_of g).
Proof using Type.
  intros Hin Hs. unfold symbols_of. right. right. apply in_or_app. right.
  apply in_flat_map. exists p. split; [exact Hin | now right].
Qed.

Lemma in_symbols_of_epsilon :
  In (SymbolTable.epsilon_ (Grammar.symbol_table_ g)) (symbols_of g).
Proof using Type. now left. Qed.

(** From the least closed set to derivations. *)
Lemma nullable_addr_derives (j : nat) :
  nullable_addr prods e j ->
  forall A, In A (symbols_of g) -> addr A = j -> is_nonterminal A = true ->
            derives_empty prods A.
Proof using wf.
  apply (nullable_addr_mut prods e
           (fun j _ => forall A, In A (symbols_of g) -> addr A = j ->
                                 is_nonterminal A = true -> derives_empty prods A)
           (fun l _ => (forall s, In s l -> In s (symbols_of g)) ->
                       exists n, derives_in prods n
                                   (List.filter (fun s => negb (is_epsilon s)) l) [])).
  - intros A HA Haddr Hnt.
    assert (A = SymbolTable.epsilon_ (Grammar.symbol_table_ g)) as ->.
    { apply (wf_addr g wf); [exact HA | apply in_symbols_of_epsilon | exact Haddr]. }
    apply nonterminal_not_others in Hnt as (_ & _ & Hne).
    rewrite (wf_epsilon g wf) in Hne. discriminate.
  - intros p Hin Heps A HA Haddr Hnt.
    assert (lhs p = A) as <-.
    { apply (wf_addr g wf); [now apply in_symbols_of_lhs | exact HA | now symmetry]. }
    exists 1. apply derives_in_step with (v := [] ++ body p ++ []).
    + now apply (derives_step_intro prods p [] []).
    + unfold is_epsilon_production in Heps. unfold body.
      destruct (rhs p) as [|s [|s' l]]; try discriminate. cbn. rewrite Heps. cbn.
      constructor.
  - intros p Hin _ IH A HA Haddr Hnt.
    assert (lhs p = A) as <-.
    { apply (wf_addr g wf); [now apply in_symbols_of_lhs | exact HA | now symmetry]. }
    destruct IH as [n Hn]; [intros s Hs; now apply in_symbols_of_rhs with (p := p)|].
    exists (S n). apply derives_in_step with (v := [] ++ body p ++ []).
    + now apply (derives_step_intro prods p [] []).
    + cbn. rewrite app_nil_r. exact Hn.
  - intros _. exists 0. constructor.
  - intros s l Ht Hend _ IHs _ IHl Hsyms. cbn.
    destruct IHl as [n2 Hn2]; [intros x Hx; apply Hsyms; now right|].
    destruct (is_epsilon s) eqn:Heps; cbn; [now exists n2|].
    destruct (IHs s) as [n1 Hn1]; [apply Hsyms; now left | reflexivity
                                  | now apply symbol_type_cases|].
    exists (n1 + n2). now apply (derives_in_app_nil prods n1 n2 [s]).
Qed.

(** From derivations to the least closed set. *)
Lemma derives_nullable_addr (n : nat) :
  forall m w, m <= n -> derives_in prods m w [] ->
              Forall (fun s => is_nonterminal s = true
                               /\ nullable_addr prods e (addr s)) w.
Proof using wf.
  induction n as [|n IH]; intros m w Hm Hw.
  - assert (m = 0) as -> by lia. apply derives_in_0_inv in Hw as ->. constructor.
  - destruct w as [|s w]; [constructor|].
    apply (derives_in_split prods m [s] w) in Hw as (n1 & n2 & <- & H1 & H2).
    destruct n1 as [|k]; [apply derives_in_0_inv in H1; discriminate|].
    constructor; [|apply (IH n2); [lia | exact H2]].
    apply derives_in_S_inv in H1 as (v & Hstep & Hrest).
    apply derives_step_inv in Hstep as (p & alpha & beta & Hu & -> & Hin & Hnt).
    destruct alpha as [|x alpha]; cbn in Hu.
    2:{ injection Hu as _ Hu. now destruct alpha. }
    injection Hu as -> <-. cbn in Hrest. rewrite app_nil_r in Hrest.
    split; [exact Hnt|].
    apply (IH k) in Hrest; [|lia].
    apply nullable_prod; [exact Hin|].
    assert (Hsyms : forall x, In x (rhs p) -> In x (symbols_of g))
      by (intros x Hx; now apply in_symbols_of_rhs with (p := p)).
    unfold body in Hrest. revert Hrest Hsyms.
    induction (rhs p) as [|x l IHl]; cbn; intros Hrest Hsyms; [constructor|].
    destruct (is_epsilon x) eqn:Heps; cbn in Hrest.
    + assert (x = SymbolTable.epsilon_ (Grammar.symbol_table_ g)) as ->
        by (apply (wf_epsilon_unique g wf); [apply Hsyms; now left | exact Heps]).
      constructor.
      * unfold is_terminal, is_epsilon in *. now destruct (type _).
      * unfold is_end_of_input, is_epsilon in *. now destruct (type _).
      * constructor.
      * apply IHl; [exact Hrest | intros y Hy; apply Hsyms; now right].
    + apply Forall_cons_iff in Hrest as [[Hx Hnx] Hrest].
      apply nonterminal_not_others in Hx as (Ht & Hend & _).
      constructor; [exact Ht | exact Hend | exact Hnx|].
      apply IHl; [exact Hrest | intros y Hy; apply Hsyms; now right].
Qed.

(** For a nonterminal of a well-formed grammar, membership in the least
    closed set is derivability of the empty string. *)
Lemma nullable_addr_iff_derives (A : SymbolPtr) :
  In A (symbols_of g) -> is_nonterminal A = true ->
  (nullable_addr prods e (addr A) <-> derives_empty prods A).
Proof using wf.
  intros HA Hnt. split.
  - intros H. now apply (nullable_addr_derives (addr A)).
  - intros [n Hn]. apply (derives_nullable_addr n n [A]) in Hn; [|lia].
    now apply Forall_cons_iff in Hn as [[_ Hn] _].
Qed.
End nullable_derives.

(** ** The set caches as functions from addresses to sets *)

(** What a lookup defaults to: the set stored at [k], empty when there is
    no entry. *)
Definition get_set (fs : SetMap) (k : nat) : SymbolSet :=
  match fs !! k with
  | Some s => s
  | None => []
  end.

Lemma set_at_spec (k : SymbolPtr) (fs : SetMap) :
  fst (Grammar.set_at k fs) = get_set fs (addr k)
  /\ forall j, get_set (snd (Grammar.set_at k fs)) j = get_set fs j.
Proof.
  unfold Grammar.set_at, get_set. destruct (fs !! addr k) as [s|] eqn:Hk; cbn.
  - split; [reflexivity|]. intros j. reflexivity.
  - split; [reflexivity|]. intros j. destruct (Nat.eq_dec j (addr k)) as [->|Hne].
    + now rewrite lookup_insert_eq, Hk.
    + now rewrite lookup_insert_ne by congruence.
Qed.

Lemma get_set_insert (fs : SetMap) (k j : nat) (s : SymbolSet) :
  get_set (<[k := s]> fs) j = if j =? k then s else get_set fs j.
Proof.
  unfold get_set. destruct (Nat.eqb_spec j k) as [->|Hne].
  - now rewrite lookup_insert_eq.
  - now rewrite lookup_insert_ne by congruence.
Qed.

Lemma set_add_spec (k x : SymbolPtr) (fs : SetMap) (j : nat) :
  get_set (Grammar.set_add k x fs) j
  = if j =? addr k then sym_insert x (get_set fs (addr k)) else get_set fs j.
Proof.
  unfold Grammar.set_add.
  destruct (Grammar.set_at k fs) as [s fs'] eqn:Hat.
  pose proof (set_at_spec k fs) as [Hs Hfs]. rewrite Hat in Hs, Hfs. cbn in Hs, Hfs.
  rewrite get_set_insert, Hs. destruct (j =? addr k); [reflexivity | apply Hfs].
Qed.

(** The changes that the FIRST and FOLLOW loops make to a cache: creating
    an empty entry, copying into the set of [k] an element (that passes
    [guard]) of some set of the cache or of a source cache, and inserting a
    given symbol into the set of a key for which [allowed] holds. *)
Inductive set_op (src : nat -> SymbolSet) (guard : SymbolPtr -> Prop)
          (allowed : nat -> SymbolPtr -> Prop) (fs : SetMap) : SetMap -> Prop :=
  | set_op_touch (k : SymbolPtr) :
      set_op src guard allowed fs (snd (Grammar.set_at k fs))
  | set_op_copy (k : SymbolPtr) (j : nat) (x : SymbolPtr) :
      In x (get_set fs j) \/ In x (src j) -> guard x ->
      set_op src guard allowed fs (Grammar.set_add k x fs)
  | set_op_put (k x : SymbolPtr) :
      allowed (addr k) x ->
      set_op src guard allowed fs (Grammar.set_add k x fs).

Inductive set_ops (src : nat -> SymbolSet) (guard : SymbolPtr -> Prop)
          (allowed : nat -> SymbolPtr -> Prop) : SetMap -> SetMap -> Prop :=
  | set_ops_refl (fs : SetMap) : set_ops src guard allowed fs fs
  | set_ops_step (fs fs1 fs2 : SetMap) :
      set_ops src guard allowed fs fs1 -> set_op src guard allowed fs1 fs2 ->
      set_ops src guard allowed fs fs2.

Section set_ops_facts.
Variable src : nat -> SymbolSet.
Variable guard : SymbolPtr -> Prop.
Variable allowed : nat -> SymbolPtr -> Prop.

Lemma set_ops_trans (fs1 fs2 fs3 : SetMap) :
  set_ops src guard allowed fs1 fs2 -> set_ops src guard allowed fs2 fs3 ->
  set_ops src guard allowed fs1 fs3.
Proof.
  intros H12 H23. induction H23 as [|fs2 fs3 fs4 _ IH Hop]; [exact H12|].
  eapply set_ops_step; [apply IH; exact H12 | exact Hop].
Qed.

Lemma set_ops_one (fs fs' : SetMap) :
  set_op src guard allowed fs fs' -> set_ops src guard allowed fs fs'.
Proof. intros H. eapply set_ops_step; [apply set_ops_refl | exact H]. Qed.

(** Elements stay, and sets do not shrink. *)
Lemma set_op_incl (fs fs' : SetMap) (j : nat) (y : SymbolPtr) :
  set_op src guard allowed fs fs' -> In y (get_set fs j) -> In y (get_set fs' j).
Proof.
  intros [k|k i x _ _|k x _] Hy.
  - now rewrite (proj2 (set_at_spec k fs)).
  - rewrite set_add_spec. destruct (Nat.eqb_spec j (addr k)) as [->|_]; [|exact Hy].
    now apply set_insert_incl.
  - rewrite set_add_spec. destruct (Nat.eqb_spec j (addr k)) as [->|_]; [|exact Hy].
    now apply set_insert_incl.
Qed.

Lemma set_ops_incl (fs fs' : SetMap) (j : nat) (y : SymbolPtr) :
  set_ops src guard allowed fs fs' -> In y (get_set fs j) -> In y (get_set fs' j).
Proof.
  induction 1 as [|fs fs1 fs2 _ IH Hop]; [auto|].
  intros Hy. eapply set_op_incl; [exact Hop | auto].
Qed.

Lemma set_op_length (fs fs' : SetMap) (j : nat) :
  set_op src guard allowed fs fs' -> length (get_set fs j) <= length (get_set fs' j).
Proof.
  intros [k|k i x _ _|k x _].
  - now rewrite (proj2 (set_at_spec k fs)).
  - rewrite set_add_spec. destruct (Nat.eqb_spec j (addr k)) as [->|_]; [|lia].
    apply set_insert_length.
  - rewrite set_add_spec. destruct (Nat.eqb_spec j (addr k)) as [->|_]; [|lia].
    apply set_insert_length.
Qed.

Lemma set_ops_length (fs fs' : SetMap) (j : nat) :
  set_ops src guard allowed fs fs' -> length (get_set fs j) <= length (get_set fs' j).
Proof.
  induction 1 as [|fs fs1 fs2 _ IH Hop]; [lia|].
  pose proof (set_op_length _ _ j Hop). lia.
Qed.

(** The sets stay sorted and within a universe [U] that contains the
    source sets and the symbols that may be put. *)
Definition sets_ok (U : list SymbolPtr) (fs : SetMap) : Prop :=
  forall j, sorted_by ptr_ltb (get_set fs j)
            /\ forall x, In x (get_set fs j) -> In x U.

Lemma set_ops_ok (U : list SymbolPtr) (fs fs' : SetMap) :
  (forall j x, In x (src j) -> In x U) ->
  (forall j x, allowed j x -> In x U) ->
  set_ops src guard allowed fs fs' -> sets_ok U fs -> sets_ok U fs'.
Proof.
  intros Hsrc Hallowed. induction 1 as [|fs fs1 fs2 _ IH Hop]; [auto|].
  intros Hok. specialize (IH Hok). clear Hok.
  assert (Hadd : forall k x, In x U -> sets_ok U (Grammar.set_add k x fs1)).
  { intros k x Hx j. rewrite set_add_spec.
    destruct (Nat.eqb_spec j (addr k)) as [->|_]; [|apply IH].
    split.
    - apply set_insert_sorted; [exact ptr_ltb_trans | apply IH].
    - intros y Hy. apply set_insert_In in Hy as [->|Hy]; [exact Hx|].
      now apply (IH (addr k)). }
  destruct Hop as [k|k i x Hx _|k x Hx].
  - intros j. rewrite (proj2 (set_at_spec k fs1)). apply IH.
  - apply Hadd. destruct Hx as [Hx|Hx]; [now apply (IH i) | now apply (Hsrc i)].
  - apply Hadd. now apply (Hallowed (addr k)).
Qed.
End set_ops_facts.

(** ** compute_first_sets *)

(** The nullable map that [derives_epsilon] reads on [g]: the cache when it
    is marked computed, the result of [compute_epsilon_derivers] otherwise. *)
Definition eps_cache_of (g : Grammar.t) (m : BoolMap) : Prop :=
  if Grammar.epsilon_computed_ g then m = Grammar.epsilon_derivers_ g
  else Grammar.epsilon_loop (S (length (Grammar.productions_ g)))
         (Grammar.productions_ g) (Grammar.epsilon_init (Grammar.symbol_table_ g))
       = Val m.

Lemma eps_cache_exists (g : Grammar.t) : exists m, eps_cache_of g m.
Proof.
  unfold eps_cache_of. destruct (Grammar.epsilon_computed_ g); [eauto|].
  destruct (epsilon_loop_correct (Grammar.symbol_table_ g) (Grammar.productions_ g)
              (S (length (Grammar.productions_ g)))) as (m & Hm & _); [lia|].
  eauto.
Qed.

Lemma eps_cache_correct (g : Grammar.t) (m : BoolMap) :
  Grammar.epsilon_computed_ g = false -> eps_cache_of g m ->
  forall j, markedb m j = true
            <-> nullable_addr (Grammar.productions_ g)
                  (addr (SymbolTable.epsilon_ (Grammar.symbol_table_ g))) j.
Proof.
  unfold eps_cache_of. intros -> Hm.
  destruct (epsilon_loop_correct (Grammar.symbol_table_ g) (Grammar.productions_ g)
              (S (length (Grammar.productions_ g)))) as (m' & Hm' & Hspec); [lia|].
  rewrite Hm in Hm'. injection Hm' as <-. exact Hspec.
Qed.

(** The part of a grammar that the set computations never write. *)
Record same_core (g g' : Grammar.t) : Prop := {
  sc_table : Grammar.symbol_table_ g' = Grammar.symbol_table_ g;
  sc_prods : Grammar.productions_ g' = Grammar.productions_ g;
  sc_start : Grammar.start_symbol_ g' = Grammar.start_symbol_ g;
  sc_aug : Grammar.is_augmented_ g' = Grammar.is_augmented_ g
}.

Lemma same_core_refl (g : Grammar.t) : same_core g g.
Proof. now constructor. Qed.

Lemma same_core_trans (g1 g2 g3 : Grammar.t) :
  same_core g1 g2 -> same_core g2 g3 -> same_core g1 g3.
Proof. intros [] []. constructor; congruence. Qed.

Lemma eps_cache_of_core (g g' : Grammar.t) (m : BoolMap) :
  same_core g g' ->
  Grammar.epsilon_computed_ g' = Grammar.epsilon_computed_ g ->
  Grammar.epsilon_derivers_ g' = Grammar.epsilon_derivers_ g ->
  eps_cache_of g m -> eps_cache_of g' m.
Proof.
  intros [Ht Hp _ _] Hc Hd. unfold eps_cache_of. now rewrite Hc, Hd, Ht, Hp.
Qed.

(** A call that may fill the nullable cache and writes nothing else. *)
Record eps_rel (m : BoolMap) (g g' : Grammar.t) : Prop := {
  er_core : same_core g g';
  er_first : Grammar.first_sets_ g' = Grammar.first_sets_ g;
  er_follow : Grammar.follow_sets_ g' = Grammar.follow_sets_ g;
  er_first_flag : Grammar.first_sets_computed_ g' = Grammar.first_sets_computed_ g;
  er_follow_flag : Grammar.follow_sets_computed_ g' = Grammar.follow_sets_computed_ g;
  er_cache : eps_cache_of g' m
}.

Lemma eps_rel_refl (m : BoolMap) (g : Grammar.t) : eps_cache_of g m -> eps_rel m g g.
Proof. intros H. constructor; auto using same_core_refl. Qed.

Lemma eps_rel_trans (m : BoolMap) (g1 g2 g3 : Grammar.t) :
  eps_rel m g1 g2 -> eps_rel m g2 g3 -> eps_rel m g1 g3.
Proof.
  intros [] []. constructor; try congruence. eapply same_core_trans; eauto.
Qed.

Lemma derives_epsilon_spec (fuel : nat) (symbol : SymbolPtr) (g : Grammar.t) (m : BoolMap) :
  length (Grammar.productions_ g) < fuel -> eps_cache_of g m ->
  exists g', Grammar.derives_epsilon fuel symbol g = Val (markedb m (addr symbol), g')
             /\ eps_rel m g g'.
Proof.
  intros Hfuel Hm. unfold Grammar.derives_epsilon, eps_cache_of in *.
  destruct (Grammar.epsilon_computed_ g) eqn:Hc.
  - subst m. cbn. exists g. split.
    + unfold markedb. now destruct (Grammar.epsilon_derivers_ g !! addr symbol) as [[]|].
    + apply eps_rel_refl. unfold eps_cache_of. now rewrite Hc.
  - unfold Grammar.compute_epsilon_derivers, Grammar.epsilon_loop in *.
    rewrite (while_changed_more_fuel _ _ fuel _ _ Hm) by lia. cbn.
    eexists. split.
    + unfold markedb. now destruct (m !! addr symbol) as [[]|].
    + constructor; try reflexivity. now constructor.
Qed.

Lemma derives_epsilon_seq_spec (fuel : nat) (symbols : list SymbolPtr) :
  forall (g : Grammar.t) (m : BoolMap),
    length (Grammar.productions_ g) < fuel -> eps_cache_of g m ->
    exists g', Grammar.derives_epsilon_seq fuel symbols g
               = Val (forallb (fun s => markedb m (addr s)) symbols, g')
               /\ eps_rel m g g'.
Proof.
  induction symbols as [|s l IH]; intros g m Hfuel Hm; cbn.
  - exists g. split; [reflexivity | now apply eps_rel_refl].
  - destruct (derives_epsilon_spec fuel s g m Hfuel Hm) as (g1 & -> & H1). cbn.
    destruct (markedb m (addr s)); cbn; [|now exists g1].
    destruct (IH g1 m) as (g2 & -> & H2).
    + now rewrite (sc_prods _ _ (er_core _ _ _ H1)).
    + apply (er_cache _ _ _ H1).
    + exists g2. split; [reflexivity | eapply eps_rel_trans; eauto].
Qed.

(** Whether every symbol of the right-hand side is in the nullable map. *)
Definition ready (m : BoolMap) (prod : ProductionPtr) : bool :=
  forallb (fun s => markedb m (addr s)) (rhs prod).

(** The epsilon symbol may be put into the FIRST set of the left-hand side
    of a production that is ready. *)
Definition first_allowed (m : BoolMap) (g : Grammar.t) (k : nat) (x : SymbolPtr) : Prop :=
  x = SymbolTable.epsilon_ (Grammar.symbol_table_ g)
  /\ exists prod, In prod (Grammar.productions_ g) /\ addr (lhs prod) = k
                  /\ ready m prod = true.

Definition first_ops (m : BoolMap) (g : Grammar.t) : SetMap -> SetMap -> Prop :=
  set_ops (fun _ => []) (fun x => is_epsilon x = false) (first_allowed m g).

(** What a part of [compute_first_sets] may change. *)
Record first_rel (m : BoolMap) (g g' : Grammar.t) : Prop := {
  fr_core : same_core g g';
  fr_follow : Grammar.follow_sets_ g' = Grammar.follow_sets_ g;
  fr_first_flag : Grammar.first_sets_computed_ g' = Grammar.first_sets_computed_ g;
  fr_follow_flag : Grammar.follow_sets_computed_ g' = Grammar.follow_sets_computed_ g;
  fr_cache : eps_cache_of g' m;
  fr_ops : first_ops m g (Grammar.first_sets_ g) (Grammar.first_sets_ g')
}.

Lemma first_allowed_core (m : BoolMap) (g g' : Grammar.t) (k : nat) (x : SymbolPtr) :
  same_core g g' -> first_allowed m g' k x -> first_allowed m g k x.
Proof.
  intros [Ht Hp _ _]. unfold first_allowed. now rewrite Ht, Hp.
Qed.

Lemma first_ops_core (m : BoolMap) (g g' : Grammar.t) (fs fs' : SetMap) :
  same_core g g' -> first_ops m g' fs fs' -> first_ops m g fs fs'.
Proof.
  intros Hc. unfold first_ops. induction 1 as [|fs fs1 fs2 _ IH Hop].
  - apply set_ops_refl.
  - eapply set_ops_step; [exact IH|].
    destruct Hop as [k|k j x Hx Hg|k x Hx].
    + apply set_op_touch.
    + now apply set_op_copy with (j := j).
    + apply set_op_put. eapply first_allowed_core; eauto.
Qed.

Lemma first_rel_refl (m : BoolMap) (g : Grammar.t) : eps_cache_of g m -> first_rel m g g.
Proof.
  intros H. constructor; auto using same_core_refl. apply set_ops_refl.
Qed.

Lemma first_rel_trans (m : BoolMap) (g1 g2 g3 : Grammar.t) :
  first_rel m g1 g2 -> first_rel m g2 g3 -> first_rel m g1 g3.
Proof.
  intros [Hc1 ? ? ? ? Ho1] [Hc2 ? ? ? ? Ho2]. constructor; try congruence.
  - eapply same_core_trans; eauto.
  - eapply set_ops_trans; [exact Ho1|]. eapply first_ops_core; eauto.
Qed.

Lemma eps_rel_first_rel (m : BoolMap) (g g' : Grammar.t) :
  eps_rel m g g' -> first_rel m g g'.
Proof.
  intros []. constructor; auto. rewrite er_first0. apply set_ops_refl.
Qed.

Lemma first_rel_with_first_sets (m : BoolMap) (g : Grammar.t) (fs : SetMap) :
  eps_cache_of g m -> first_ops m g (Grammar.first_sets_ g) fs ->
  first_rel m g (Grammar.with_first_sets fs g).
Proof.
  intros Hm Hops. constructor; try reflexivity; [now constructor | exact Hm | exact Hops].
Qed.

Lemma set_add_non_epsilon_ops (m : BoolMap) (g : Grammar.t) (l : SymbolPtr) (j : nat)
      (elems : SymbolSet) :
  forall fs, (forall x, In x elems -> In x (get_set fs j)) ->
             first_ops m g fs (Grammar.set_add_non_epsilon l elems fs).
Proof.
  unfold Grammar.set_add_non_epsilon.
  induction elems as [|x elems IH]; intros fs Hin; cbn; [apply set_ops_refl|].
  destruct (is_epsilon x) eqn:Hx.
  - apply IH. intros y Hy. apply Hin. now right.
  - assert (Hop : set_op (fun _ => []) (fun x => is_epsilon x = false)
                         (first_allowed m g) fs (Grammar.set_add l x fs)).
    { apply set_op_copy with (j := j); [|exact Hx]. left. apply Hin. now left. }
    eapply set_ops_trans.
    + apply set_ops_one. exact Hop.
    + apply IH. intros y Hy. eapply set_op_incl; [exact Hop|]. apply Hin. now right.
Qed.

(** The set of [k] holds a symbol with address [a]. *)
Definition has_addr (fs : SetMap) (k a : nat) : Prop :=
  exists y, In y (get_set fs k) /\ addr y = a.

Lemma has_addr_ops (m : BoolMap) (g : Grammar.t) (fs fs' : SetMap) (k a : nat) :
  first_ops m g fs fs' -> has_addr fs k a -> has_addr fs' k a.
Proof.
  intros Hops (y & Hy & Ha). exists y. split; [|exact Ha].
  eapply set_ops_incl; eauto.
Qed.

Lemma has_addr_set_add (k x : SymbolPtr) (fs : SetMap) :
  has_addr (Grammar.set_add k x fs) (addr k) (addr x).
Proof.
  unfold has_addr. rewrite set_add_spec, Nat.eqb_refl.
  destruct (set_insert_has ptr_ltb ptr_ltb_irrefl x (get_set fs (addr k)))
    as (y & Hy & He).
  exists y. split; [exact Hy|]. symmetry. now apply equiv_key_ptr.
Qed.

Section first_step_facts.
Variable fuel : nat.
Variable m : BoolMap.
Variable prod : ProductionPtr.

Let eps_of (g : Grammar.t) : SymbolPtr := SymbolTable.epsilon_ (Grammar.symbol_table_ g).

Lemma first_rhs_loop_spec (syms : list SymbolPtr) :
  forall (pre : list SymbolPtr) (g : Grammar.t),
    rhs prod = pre ++ syms -> In prod (Grammar.productions_ g) ->
    forallb (fun s => markedb m (addr s)) pre = true ->
    length (Grammar.productions_ g) < fuel -> eps_cache_of g m ->
    exists g',
      Grammar.first_rhs_loop fuel (lhs prod) syms g = Val g'
      /\ first_rel m g g'
      /\ (syms <> [] -> ready m prod = true ->
          has_addr (Grammar.first_sets_ g') (addr (lhs prod)) (addr (eps_of g))).
Proof using Type.
  induction syms as [|symbol rest IH]; intros pre g Hrhs Hin Hpre Hfuel Hm.
  - exists g. cbn. split; [reflexivity|]. split; [now apply first_rel_refl|].
    intros Hne. now contradiction Hne.
  - cbn [Grammar.first_rhs_loop].
    destruct (Grammar.set_at symbol (Grammar.first_sets_ g)) as [first_symbol fs1] eqn:Hat.
    pose proof (set_at_spec symbol (Grammar.first_sets_ g)) as [Hfst Hsnd].
    rewrite Hat in Hfst, Hsnd. cbn in Hfst, Hsnd.
    set (fs2 := Grammar.set_add_non_epsilon (lhs prod) first_symbol fs1).
    assert (Hops2 : first_ops m g (Grammar.first_sets_ g) fs2).
    { apply (set_ops_trans _ _ _ _ fs1).
      - apply set_ops_one.
        assert (Hfs1 : fs1 = snd (Grammar.set_at symbol (Grammar.first_sets_ g)))
          by now rewrite Hat.
        rewrite Hfs1. exact (set_op_touch _ _ _ _ symbol).
      - apply set_add_non_epsilon_ops with (j := addr symbol).
        intros x Hx. rewrite Hsnd. now rewrite <- Hfst. }
    pose proof (first_rel_with_first_sets m g fs2 Hm Hops2) as Hrel2.
    destruct (derives_epsilon_spec fuel symbol (Grammar.with_first_sets fs2 g) m)
      as (g1 & Hde & Hrel1); [exact Hfuel | exact Hm |].
    rewrite Hde. cbn [res_bind].
    assert (Hrel : first_rel m g g1).
    { eapply first_rel_trans; [exact Hrel2 | now apply eps_rel_first_rel]. }
    assert (Hready : ready m prod = true -> markedb m (addr symbol) = true
                     /\ forallb (fun s => markedb m (addr s)) rest = true).
    { unfold ready. rewrite Hrhs, forallb_app. cbn. intros H.
      apply andb_true_iff in H as [_ H]. now apply andb_true_iff in H. }
    destruct (markedb m (addr symbol)) eqn:Hsym; cbn [negb].
    2:{ exists g1. split; [reflexivity|]. split; [exact Hrel|].
        intros _ Hr. apply Hready in Hr as [Hr _]. discriminate. }
    destruct rest as [|symbol' rest'].
    + eexists. split; [reflexivity|].
      assert (Hput : first_ops m g1 (Grammar.first_sets_ g1)
                       (Grammar.set_add (lhs prod)
                          (SymbolTable.get_epsilon (Grammar.symbol_table_ g1))
                          (Grammar.first_sets_ g1))).
      { apply set_ops_one, set_op_put. split; [reflexivity|].
        exists prod. split; [|split; [reflexivity|]].
        - now rewrite (sc_prods _ _ (fr_core _ _ _ Hrel)).
        - unfold ready. rewrite Hrhs, forallb_app, Hpre. cbn. now rewrite Hsym. }
      split.
      * eapply first_rel_trans; [exact Hrel|].
        apply first_rel_with_first_sets; [apply (fr_cache _ _ _ Hrel) | exact Hput].
      * intros _ _. cbn. unfold eps_of.
        rewrite <- (sc_table _ _ (fr_core _ _ _ Hrel)). apply has_addr_set_add.
    + destruct (IH (pre ++ [symbol]) g1) as (g' & Hloop & Hrel' & Heps).
      * now rewrite <- app_assoc.
      * now rewrite (sc_prods _ _ (fr_core _ _ _ Hrel)).
      * rewrite forallb_app, Hpre. cbn. now rewrite Hsym.
      * now rewrite (sc_prods _ _ (fr_core _ _ _ Hrel)).
      * apply (fr_cache _ _ _ Hrel).
      * exists g'. split; [exact Hloop|]. split.
        -- eapply first_rel_trans; eauto.
        -- intros _ Hr. unfold eps_of in *.
           rewrite <- (sc_table _ _ (fr_core _ _ _ Hrel)). apply Heps; [discriminate | exact Hr].
Qed.
End first_step_facts.

Lemma first_step_spec (fuel : nat) (m : BoolMap) (prod : ProductionPtr)
      (g : Grammar.t) (changed : bool) :
  In prod (Grammar.productions_ g) ->
  length (Grammar.productions_ g) < fuel -> eps_cache_of g m ->
  exists g',
    Grammar.first_step fuel (g, changed) prod
    = Val (g', changed
               || negb (length (get_set (Grammar.first_sets_ g') (addr (lhs prod)))
                        =? length (get_set (Grammar.first_sets_ g) (addr (lhs prod)))))
    /\ first_rel m g g'
    /\ (ready m prod = true ->
        has_addr (Grammar.first_sets_ g') (addr (lhs prod))
                 (addr (SymbolTable.epsilon_ (Grammar.symbol_table_ g)))).
Proof.
  intros Hin Hfuel Hm. unfold Grammar.first_step.
  destruct (Grammar.set_at (lhs prod) (Grammar.first_sets_ g)) as [first_lhs fs0] eqn:Hat.
  pose proof (set_at_spec (lhs prod) (Grammar.first_sets_ g)) as [Hfst Hsnd].
  rewrite Hat in Hfst, Hsnd. cbn in Hfst, Hsnd.
  assert (Hops0 : first_ops m g (Grammar.first_sets_ g) fs0).
  { apply set_ops_one.
    assert (Hfs0 : fs0 = snd (Grammar.set_at (lhs prod) (Grammar.first_sets_ g)))
      by now rewrite Hat.
    rewrite Hfs0. exact (set_op_touch _ _ _ _ (lhs prod)). }
  pose proof (first_rel_with_first_sets m g fs0 Hm Hops0) as Hrel0.
  assert (Hresult : forall g1 : Grammar.t,
    (if length (fst (Grammar.set_at (lhs prod) (Grammar.first_sets_ g1)))
        =? length first_lhs then changed else true)
    = changed
      || negb (length (get_set (Grammar.first_sets_ g1) (addr (lhs prod)))
               =? length (get_set (Grammar.first_sets_ g) (addr (lhs prod))))).
  { intros g1. rewrite (proj1 (set_at_spec (lhs prod) (Grammar.first_sets_ g1))), Hfst.
    destruct (_ =? _); cbn; [now rewrite orb_false_r | now rewrite orb_true_r]. }
  destruct (rhs prod) as [|symbol rest] eqn:Hrhs.
  - cbn [res_bind]. eexists. split; [now rewrite Hresult|].
    assert (Hput : first_ops m (Grammar.with_first_sets fs0 g) fs0
                     (Grammar.set_add (lhs prod)
                        (SymbolTable.get_epsilon
                           (Grammar.symbol_table_ (Grammar.with_first_sets fs0 g))) fs0)).
    { apply set_ops_one, set_op_put. split; [reflexivity|].
      exists prod. split; [exact Hin|]. split; [reflexivity|].
      unfold ready. now rewrite Hrhs. }
    split.
    + eapply first_rel_trans; [exact Hrel0|].
      apply (first_rel_with_first_sets m (Grammar.with_first_sets fs0 g)); [exact Hm | exact Hput].
    + intros _. cbn. apply has_addr_set_add.
  - destruct (first_rhs_loop_spec fuel m prod (symbol :: rest) []
                (Grammar.with_first_sets fs0 g))
      as (g1 & Hloop & Hrel1 & Heps); auto.
    rewrite <- Hrhs in Hloop |- *. rewrite Hloop. cbn [res_bind].
    exists g1. split; [now rewrite Hresult|]. split.
    + eapply first_rel_trans; eauto.
    + intros Hr. apply Heps; [discriminate | exact Hr].
Qed.

(** The sum of the sizes of the FIRST sets of the left-hand sides. *)
Definition first_measure (g : Grammar.t) : nat :=
  list_sum (map (fun k => length (get_set (Grammar.first_sets_ g) k))
                (map (fun prod => addr (lhs prod)) (Grammar.productions_ g))).

Lemma first_measure_mono (m : BoolMap) (g g' : Grammar.t) :
  first_rel m g g' -> first_measure g <= first_measure g'.
Proof.
  intros Hrel. unfold first_measure. rewrite (sc_prods _ _ (fr_core _ _ _ Hrel)).
  apply list_sum_le_pointwise. intros k _.
  eapply set_ops_length. apply (fr_ops _ _ _ Hrel).
Qed.

(** One round of the FIRST loop over the productions [l]. *)
Lemma first_pass_spec (fuel : nat) (m : BoolMap) (l : list ProductionPtr) :
  forall (g : Grammar.t) (changed : bool),
    (forall prod, In prod l -> In prod (Grammar.productions_ g)) ->
    length (Grammar.productions_ g) < fuel -> eps_cache_of g m ->
    exists g' changed',
      res_fold (Grammar.first_step fuel) l (g, changed) = Val (g', changed')
      /\ first_rel m g g'
      /\ (changed' = true -> changed = true \/ first_measure g < first_measure g')
      /\ (forall prod, In prod l -> ready m prod = true ->
            has_addr (Grammar.first_sets_ g') (addr (lhs prod))
                     (addr (SymbolTable.epsilon_ (Grammar.symbol_table_ g)))).
Proof.
  induction l as [|prod l IH]; intros g changed Hl Hfuel Hm.
  - exists g, changed. cbn. split; [reflexivity|]. split; [now apply first_rel_refl|].
    split; [auto | intros prod []].
  - cbn [res_fold].
    destruct (first_step_spec fuel m prod g changed) as (g1 & Hstep & Hrel1 & Heps1);
      [apply Hl; now left | exact Hfuel | exact Hm |].
    rewrite Hstep. cbn [res_bind].
    pose proof (fr_core _ _ _ Hrel1) as Hcore1.
    destruct (IH g1 (changed
               || negb (length (get_set (Grammar.first_sets_ g1) (addr (lhs prod)))
                        =? length (get_set (Grammar.first_sets_ g) (addr (lhs prod))))))
      as (g' & changed' & Hfold & Hrel' & Hchanged & Heps').
    + intros p Hp. rewrite (sc_prods _ _ Hcore1). apply Hl. now right.
    + now rewrite (sc_prods _ _ Hcore1).
    + apply (fr_cache _ _ _ Hrel1).
    + exists g', changed'. split; [exact Hfold|]. split; [eapply first_rel_trans; eauto|].
      split.
      * intros Hc. destruct (Hchanged Hc) as [Hc1|Hlt].
        -- apply orb_true_iff in Hc1 as [Hc1|Hc1]; [now left|]. right.
           apply negb_true_iff, Nat.eqb_neq in Hc1.
           pose proof (first_measure_mono m g1 g' Hrel').
           assert (first_measure g < first_measure g1); [|lia].
           unfold first_measure. rewrite (sc_prods _ _ Hcore1).
           apply list_sum_lt_pointwise with (x := addr (lhs prod)).
           ++ intros k _. eapply set_ops_length. apply (fr_ops _ _ _ Hrel1).
           ++ apply in_map_iff. exists prod. split; [reflexivity | apply Hl; now left].
           ++ pose proof (set_ops_length _ _ _ _ _ (addr (lhs prod)) (fr_ops _ _ _ Hrel1)).
              lia.
        -- right. pose proof (first_measure_mono m g g1 Hrel1). lia.
      * intros p [<-|Hp] Hr.
        -- eapply has_addr_ops; [apply (fr_ops _ _ _ Hrel') | now apply Heps1].
        -- rewrite <- (sc_table _ _ Hcore1). now apply Heps'.
Qed.

(** The universe of the FIRST sets: the symbols of the table. *)
Definition table_symbols (st : SymbolTable.t) : list SymbolPtr :=
  SymbolTable.epsilon_ st :: SymbolTable.end_of_input_ st :: SymbolTable.symbols_ st.

Lemma sets_ok_empty (U : list SymbolPtr) : sets_ok U ∅.
Proof.
  intros j. unfold get_set. rewrite lookup_empty. split; [constructor | intros x []].
Qed.

Lemma sets_ok_set_add (U : list SymbolPtr) (k x : SymbolPtr) (fs : SetMap) :
  In x U -> sets_ok U fs -> sets_ok U (Grammar.set_add k x fs).
Proof.
  intros Hx Hok j. rewrite set_add_spec.
  destruct (Nat.eqb_spec j (addr k)) as [->|_]; [|apply Hok]. split.
  - apply set_insert_sorted; [exact ptr_ltb_trans | apply Hok].
  - intros y Hy. apply set_insert_In in Hy as [->|Hy]; [exact Hx|].
    now apply (Hok (addr k)).
Qed.

Lemma sets_ok_insert_empty (U : list SymbolPtr) (k : nat) (fs : SetMap) :
  sets_ok U fs -> sets_ok U (<[k := []]> fs).
Proof.
  intros Hok j. rewrite get_set_insert. destruct (j =? k); [|apply Hok].
  split; [constructor | intros x []].
Qed.

Lemma filtered_copy_In (p : SymbolPtr -> bool) (l : SymbolSet) :
  forall acc x,
    In x (fold_left (fun acc s => if p s then sym_insert s acc else acc) l acc) ->
    In x l \/ In x acc.
Proof.
  induction l as [|s l IH]; intros acc x; cbn; [now right|].
  intros H. apply IH in H as [H|H]; [left; now right|].
  destruct (p s); [|now right].
  apply set_insert_In in H as [->|H]; [left; now left | now right].
Qed.

Lemma get_terminals_In (st : SymbolTable.t) (x : SymbolPtr) :
  In x (SymbolTable.get_terminals st) -> In x (SymbolTable.symbols_ st).
Proof.
  intros H. apply filtered_copy_In in H as [H|[]]. exact H.
Qed.

Lemma get_nonterminals_In (st : SymbolTable.t) (x : SymbolPtr) :
  In x (SymbolTable.get_nonterminals st) -> In x (SymbolTable.symbols_ st).
Proof.
  intros H. apply filtered_copy_In in H as [H|[]]. exact H.
Qed.

Lemma first_init_ok (st : SymbolTable.t) : sets_ok (table_symbols st) (Grammar.first_init st).
Proof.
  unfold Grammar.first_init.
  assert (H1 : sets_ok (table_symbols st)
                 (fold_left (fun acc terminal => Grammar.set_add terminal terminal acc)
                            (SymbolTable.get_terminals st) ∅)).
  { assert (Hgen : forall l acc,
              (forall x, In x l -> In x (table_symbols st)) ->
              sets_ok (table_symbols st) acc ->
              sets_ok (table_symbols st)
                (fold_left (fun acc terminal => Grammar.set_add terminal terminal acc) l acc)).
    { induction l as [|t l IH]; intros acc Hl Hacc; cbn; [exact Hacc|].
      apply IH; [intros x Hx; apply Hl; now right|].
      apply sets_ok_set_add; [apply Hl; now left | exact Hacc]. }
    apply Hgen; [|apply sets_ok_empty].
    intros x Hx. right. right. now apply get_terminals_In. }
  assert (H3 : sets_ok (table_symbols st)
                 (Grammar.set_add (SymbolTable.get_end_of_input st)
                    (SymbolTable.get_end_of_input st)
                    (Grammar.set_add (SymbolTable.get_epsilon st)
                       (SymbolTable.get_epsilon st)
                       (fold_left (fun acc terminal => Grammar.set_add terminal terminal acc)
                                  (SymbolTable.get_terminals st) ∅)))).
  { apply sets_ok_set_add; [right; now left|].
    apply sets_ok_set_add; [now left | exact H1]. }
  revert H3. generalize (Grammar.set_add (SymbolTable.get_end_of_input st)
                    (SymbolTable.get_end_of_input st)
                    (Grammar.set_add (SymbolTable.get_epsilon st)
                       (SymbolTable.get_epsilon st)
                       (fold_left (fun acc terminal => Grammar.set_add terminal terminal acc)
                                  (SymbolTable.get_terminals st) ∅))).
  induction (SymbolTable.get_nonterminals st) as [|nt l IH]; intros acc Hacc; cbn;
    [exact Hacc|].
  apply IH. now apply sets_ok_insert_empty.
Qed.

(** The fuel that the FIRST loop needs at most. *)
Definition first_fuel (g : Grammar.t) : nat :=
  S (length (Grammar.productions_ g)
     * length (table_symbols (Grammar.symbol_table_ g))).

Lemma first_rel_sets_ok (m : BoolMap) (g g' : Grammar.t) :
  sets_ok (table_symbols (Grammar.symbol_table_ g)) (Grammar.first_sets_ g) ->
  first_rel m g g' ->
  sets_ok (table_symbols (Grammar.symbol_table_ g)) (Grammar.first_sets_ g').
Proof.
  intros Hok Hrel. eapply set_ops_ok; [| |apply (fr_ops _ _ _ Hrel) | exact Hok].
  - intros j x [].
  - intros j x [-> _]. now left.
Qed.

Lemma first_measure_bound (g : Grammar.t) :
  sets_ok (table_symbols (Grammar.symbol_table_ g)) (Grammar.first_sets_ g) ->
  first_measure g < first_fuel g.
Proof.
  intros Hok. unfold first_measure, first_fuel.
  apply Nat.lt_succ_r.
  etransitivity; [apply list_sum_bound|].
  - intros k _. apply (sorted_set_length_bound _
                         (map addr (table_symbols (Grammar.symbol_table_ g)))).
    + apply Hok.
    + intros x Hx. apply in_map. now apply (Hok k).
  - now rewrite !length_map.
Qed.

(** The FIRST loop terminates, and when it does every production that is
    ready has the epsilon symbol in the set of its left-hand side. *)
Lemma first_loop_spec (fuel n : nat) (gi : Grammar.t) (m : BoolMap) :
  sets_ok (table_symbols (Grammar.symbol_table_ gi)) (Grammar.first_sets_ gi) ->
  eps_cache_of gi m ->
  length (Grammar.productions_ gi) < fuel -> first_fuel gi <= n ->
  exists g',
    Grammar.first_loop fuel n gi = Val g'
    /\ first_rel m gi g'
    /\ (forall prod, In prod (Grammar.productions_ gi) -> ready m prod = true ->
          has_addr (Grammar.first_sets_ g') (addr (lhs prod))
                   (addr (SymbolTable.epsilon_ (Grammar.symbol_table_ gi)))).
Proof.
  intros Hok Hm Hfuel Hn. unfold Grammar.first_loop.
  destruct (while_changed_terminates
              (fun g0 => res_fold (Grammar.first_step fuel) (Grammar.productions_ g0)
                                  (g0, false))
              (first_rel m gi) first_measure (first_fuel gi - 1))
    with (fuel := n) (s := gi) as (g' & g0 & Hrun & HI & HI0 & Hlast).
  - intros g Hrel.
    pose proof (first_measure_bound g) as Hb.
    unfold first_fuel in *.
    rewrite (sc_table _ _ (fr_core _ _ _ Hrel)), (sc_prods _ _ (fr_core _ _ _ Hrel)) in Hb.
    specialize (Hb (first_rel_sets_ok m gi g Hok Hrel)). lia.
  - intros g Hrel.
    destruct (first_pass_spec fuel m (Grammar.productions_ g) g false)
      as (g1 & changed & Hfold & Hrel1 & Hchanged & _).
    + auto.
    + now rewrite (sc_prods _ _ (fr_core _ _ _ Hrel)).
    + apply (fr_cache _ _ _ Hrel).
    + exists g1, changed. split; [exact Hfold|]. split; [eapply first_rel_trans; eauto|].
      intros Hc. destruct (Hchanged Hc) as [Hf|Hlt]; [discriminate | exact Hlt].
  - now apply first_rel_refl.
  - unfold first_fuel in *. lia.
  - exists g'. split; [exact Hrun|]. split; [exact HI|].
    destruct (first_pass_spec fuel m (Grammar.productions_ g0) g0 false)
      as (g1 & changed & Hfold & _ & _ & Heps).
    + auto.
    + now rewrite (sc_prods _ _ (fr_core _ _ _ HI0)).
    + apply (fr_cache _ _ _ HI0).
    + rewrite Hlast in Hfold. injection Hfold as <- <-.
      intros prod Hin Hr.
      rewrite <- (sc_table _ _ (fr_core _ _ _ HI0)). apply Heps; [|exact Hr].
      now rewrite (sc_prods _ _ (fr_core _ _ _ HI0)).
Qed.

(** The fuel that [first_set] and [derives_epsilon] need at most. *)
Definition sets_fuel (g : Grammar.t) : nat :=
  first_fuel g + S (length (Grammar.productions_ g)).

(** [compute_first_sets] returns; it writes the FIRST cache and possibly
    the nullable cache, and nothing else. *)
Lemma compute_first_sets_spec (fuel : nat) (g : Grammar.t) (m : BoolMap) :
  eps_cache_of g m -> sets_fuel g <= fuel ->
  exists g',
    Grammar.compute_first_sets fuel g = Val g'
    /\ same_core g g'
    /\ Grammar.follow_sets_ g' = Grammar.follow_sets_ g
    /\ Grammar.follow_sets_computed_ g' = Grammar.follow_sets_computed_ g
    /\ Grammar.first_sets_computed_ g' = true
    /\ eps_cache_of g' m
    /\ first_ops m g (Grammar.first_init (Grammar.symbol_table_ g)) (Grammar.first_sets_ g')
    /\ (forall prod, In prod (Grammar.productions_ g) -> ready m prod = true ->
          has_addr (Grammar.first_sets_ g') (addr (lhs prod))
                   (addr (SymbolTable.epsilon_ (Grammar.symbol_table_ g)))).
Proof.
  intros Hm Hfuel. unfold Grammar.compute_first_sets, sets_fuel in *.
  set (gi := Grammar.with_first_sets (Grammar.first_init (Grammar.symbol_table_ g)) g).
  destruct (first_loop_spec fuel fuel gi m) as (g1 & Hloop & Hrel & Heps).
  - apply first_init_ok.
  - exact Hm.
  - change (Grammar.productions_ gi) with (Grammar.productions_ g). lia.
  - change (first_fuel gi) with (first_fuel g). lia.
  - rewrite Hloop. cbn [res_bind]. eexists. split; [reflexivity|].
    destruct Hrel as [[Ht Hp Hs Ha] Hfo Hff Hfof Hc Hops]. cbn in *.
    repeat split; auto.
Qed.

(** [first_set(SymbolPtr)] returns, for every grammar and every symbol, the
    set stored for the symbol in the cache, and the empty set when the
    cache has no entry for it. *)
Lemma first_set_spec (fuel : nat) (symbol : SymbolPtr) (g : Grammar.t) :
  sets_fuel g <= fuel ->
  exists s g',
    Grammar.first_set fuel symbol g = Val (s, g')
    /\ s = get_set (Grammar.first_sets_ g') (addr symbol)
    /\ same_core g g'
    /\ Grammar.first_sets_computed_ g' = true
    /\ (Grammar.first_sets_computed_ g = true -> g' = g).
Proof.
  intros Hfuel. unfold Grammar.first_set.
  destruct (Grammar.first_sets_computed_ g) eqn:Hc.
  - cbn. exists (get_set (Grammar.first_sets_ g) (addr symbol)), g.
    repeat split; auto using same_core_refl.
  - destruct (eps_cache_exists g) as [m Hm].
    destruct (compute_first_sets_spec fuel g m Hm Hfuel)
      as (g' & Hcomp & Hcore & _ & _ & Hflag & _).
    rewrite Hcomp. cbn. exists (get_set (Grammar.first_sets_ g') (addr symbol)), g'.
    split; [reflexivity|]. split; [reflexivity|]. split; [exact Hcore|].
    split; [exact Hflag | discriminate].
Qed.

(** ** Nullability and the epsilon symbol in FIRST *)

Lemma nullable_rhs_forall (prods : list ProductionPtr) (e : nat) (l : list SymbolPtr) :
  nullable_rhs prods e l ->
  forall s, In s l -> nullable_addr prods e (addr s).
Proof.
  induction 1 as [|s l Ht He Hs Hl IH]; [intros s []|].
  intros x [<-|Hx]; auto.
Qed.

Lemma first_init_diag (st : SymbolTable.t) (k : nat) (y : SymbolPtr) :
  In y (get_set (Grammar.first_init st) k) -> addr y = k.
Proof.
  pose (D := fun fs : SetMap => forall k y, In y (get_set fs k) -> addr y = k).
  assert (Hadd : forall t fs, D fs -> D (Grammar.set_add t t fs)).
  { intros t fs HD j x. rewrite set_add_spec.
    destruct (Nat.eqb_spec j (addr t)) as [->|_]; [|apply HD].
    intros Hx. apply set_insert_In in Hx as [->|Hx]; [reflexivity | now apply HD]. }
  assert (Hreset : forall j fs, D fs -> D (<[j := []]> fs)).
  { intros j fs HD i x. rewrite get_set_insert. destruct (i =? j); [intros []|apply HD]. }
  assert (Hempty : D ∅).
  { intros j x. unfold get_set. rewrite lookup_empty. intros []. }
  revert k y. change (D (Grammar.first_init st)). unfold Grammar.first_init.
  assert (H1 : forall l fs, D fs ->
              D (fold_left (fun acc terminal => Grammar.set_add terminal terminal acc) l fs)).
  { induction l as [|t l IH]; intros fs HD; cbn; auto. }
  assert (H2 : forall l fs, D fs ->
              D (fold_left (fun acc nonterminal => <[addr nonterminal := []]> acc) l fs)).
  { induction l as [|t l IH]; intros fs HD; cbn; auto. }
  apply H2, Hadd, Hadd, H1, Hempty.
Qed.

Section nullable_first.
Variable g : Grammar.t.
Hypothesis wf : well_formed g.
Variable m : BoolMap.

Let prods := Grammar.productions_ g.
Let eps := SymbolTable.epsilon_ (Grammar.symbol_table_ g).

Hypothesis m_correct : forall j, markedb m j = true <-> nullable_addr prods (addr eps) j.

Lemma table_symbols_of (x : SymbolPtr) :
  In x (table_symbols (Grammar.symbol_table_ g)) -> In x (symbols_of g).
Proof using Type.
  unfold table_symbols, symbols_of. intros [<-|[<-|H]]; [now left | right; now left|].
  right. right. apply in_or_app. now left.
Qed.

Lemma nullable_addr_type (s : SymbolPtr) :
  In s (symbols_of g) -> nullable_addr prods (addr eps) (addr s) ->
  is_terminal s = false /\ is_end_of_input s = false.
Proof using wf.
  intros Hs Hn.
  assert (Hcases : s = eps \/ exists p, In p prods /\ s = lhs p).
  { inversion Hn as [He|p Hin _ He|p Hin _ He].
    - left. apply (wf_addr g wf); auto. apply in_symbols_of_epsilon.
    - right. exists p. split; [exact Hin|].
      apply (wf_addr g wf); auto. now apply in_symbols_of_lhs.
    - right. exists p. split; [exact Hin|].
      apply (wf_addr g wf); auto. now apply in_symbols_of_lhs. }
  destruct Hcases as [->|(p & Hin & ->)].
  - pose proof (wf_epsilon g wf) as He. fold eps in He.
    unfold is_terminal, is_end_of_input, is_epsilon in *. now destruct (type eps).
  - pose proof (wf_lhs g wf p Hin) as Hnt.
    now apply nonterminal_not_others in Hnt as (? & ? & _).
Qed.

(** A production is ready exactly when it lets its left-hand side into the
    least closed set by the third rule. *)
Lemma ready_nullable_rhs (p : ProductionPtr) :
  In p prods -> (ready m p = true <-> nullable_rhs prods (addr eps) (rhs p)).
Proof using wf m_correct.
  intros Hin. unfold ready.
  assert (Hsyms : forall s, In s (rhs p) -> In s (symbols_of g))
    by (intros s Hs; now apply in_symbols_of_rhs with (p := p)).
  induction (rhs p) as [|s l IH]; cbn.
  - split; [constructor | reflexivity].
  - rewrite andb_true_iff, IH by (intros x Hx; apply Hsyms; now right). split.
    + intros [Hs Hl]. apply m_correct in Hs.
      destruct (nullable_addr_type s) as [Ht He]; [apply Hsyms; now left | exact Hs|].
      now constructor.
    + intros H. inversion H as [|s' l' Ht He Hs Hl]; subst.
      split; [now apply m_correct | exact Hl].
Qed.

(** The epsilon symbol enters only sets whose key is in the least closed
    set. *)
Lemma first_ops_epsilon_sound_from (fs0 fs : SetMap) :
  first_ops m g fs0 fs ->
  sets_ok (table_symbols (Grammar.symbol_table_ g)) fs0 ->
  (forall k y, In y (get_set fs0 k) -> addr y = addr eps ->
               nullable_addr prods (addr eps) k) ->
  forall k y, In y (get_set fs k) -> addr y = addr eps ->
              nullable_addr prods (addr eps) k.
Proof using wf m_correct.
  intros Hops Hok0 H0.
  assert (Hoks : forall fs', first_ops m g fs0 fs' ->
                             sets_ok (table_symbols (Grammar.symbol_table_ g)) fs').
  { intros fs' Hops'. eapply set_ops_ok; [| |exact Hops' | exact Hok0].
    - intros j x [].
    - intros j x [-> _]. now left. }
  induction Hops as [|fs0 fs1 fs2 Hops IH Hop]; [exact H0|].
  specialize (IH Hok0 H0 Hoks). pose proof (Hoks fs1 Hops) as Hok1.
  intros k y Hy Ha.
  destruct Hop as [k0|k0 j x Hx Hg|k0 x [-> (p & Hin & Hk & Hr)]].
  - rewrite (proj2 (set_at_spec k0 fs1)) in Hy. eauto.
  - rewrite set_add_spec in Hy.
    destruct (Nat.eqb_spec k (addr k0)) as [->|_]; [|eauto].
    apply set_insert_In in Hy as [->|Hy]; [|eauto].
    exfalso. destruct Hx as [Hx|[]].
    assert (x = eps) as ->.
    { apply (wf_addr g wf); auto.
      - apply table_symbols_of. now apply (Hok1 j).
      - apply in_symbols_of_epsilon. }
    pose proof (wf_epsilon g wf) as He. fold eps in He. congruence.
  - rewrite set_add_spec in Hy.
    destruct (Nat.eqb_spec k (addr k0)) as [->|_]; [|eauto].
    rewrite <- Hk. apply nullable_prod; [exact Hin|].
    now apply ready_nullable_rhs.
Qed.

Lemma first_ops_epsilon_sound (fs : SetMap) :
  first_ops m g (Grammar.first_init (Grammar.symbol_table_ g)) fs ->
  forall k y, In y (get_set fs k) -> addr y = addr eps ->
              nullable_addr prods (addr eps) k.
Proof using wf m_correct.
  intros Hops. eapply first_ops_epsilon_sound_from; [exact Hops | apply first_init_ok|].
  intros k y Hy Ha. apply first_init_diag in Hy. rewrite <- Hy, Ha. constructor.
Qed.
End nullable_first.

Lemma symbol_eqb_eq (x y : SymbolPtr) : symbol_eqb x y = true -> x = y.
Proof.
  unfold symbol_eqb. rewrite !andb_true_iff. intros [[[Ha Hn] Ht] Hk].
  apply Nat.eqb_eq in Ha. apply String.eqb_eq in Hn. apply Z.eqb_eq in Hk.
  destruct x as [a n t k], y as [a' n' t' k']; cbn in *. subst.
  destruct t, t'; try discriminate; reflexivity.
Qed.

Lemma well_formed_check_sound (g : Grammar.t) :
  well_formed_check g = true -> well_formed g.
Proof.
  unfold well_formed_check. rewrite !andb_true_iff. intros [[[H1 H2] H3] H4].
  rewrite forallb_forall in H1, H3, H4. constructor.
  - intros x y Hx Hy Ha. specialize (H1 x Hx). rewrite forallb_forall in H1.
    specialize (H1 y Hy). apply Nat.eqb_eq in Ha. rewrite Ha in H1.
    now apply symbol_eqb_eq.
  - exact H2.
  - intros x Hx He. specialize (H3 x Hx). rewrite He in H3. now apply symbol_eqb_eq.
  - exact H4.
Qed.

(** C8. For every nonterminal [A] of a well-formed grammar whose caches are
    not yet computed, [derives_epsilon(A)] and [first_set(A)] return, and
    the three statements agree: [A] derives the empty string,
    [derives_epsilon(A)] is true, and the epsilon symbol is in the computed
    FIRST set of [A]. *)
Theorem nullable_agrees_with_first_and_derivation
        (g : Grammar.t) (A : SymbolPtr) (fuel : nat) :
  well_formed g ->
  Grammar.epsilon_computed_ g = false ->
  Grammar.first_sets_computed_ g = false ->
  In A (symbols_of g) -> is_nonterminal A = true ->
  sets_fuel g <= fuel ->
  exists b g1 s g2,
    Grammar.derives_epsilon fuel A g = Val (b, g1)
    /\ Grammar.first_set fuel A g = Val (s, g2)
    /\ (derives_empty (Grammar.productions_ g) A <-> b = true)
    /\ (b = true <-> In (SymbolTable.get_epsilon (Grammar.symbol_table_ g)) s).
Proof.
  intros wf Heps Hfirst HA Hnt Hfuel.
  destruct (eps_cache_exists g) as [m Hm].
  pose proof (eps_cache_correct g m Heps Hm) as Hcorrect.
  destruct (derives_epsilon_spec fuel A g m) as (g1 & Hde & _);
    [unfold sets_fuel in Hfuel; lia | exact Hm |].
  destruct (compute_first_sets_spec fuel g m Hm Hfuel)
    as (g2 & Hcomp & Hcore & _ & _ & _ & _ & Hops & Hcomplete).
  exists (markedb m (addr A)), g1, (get_set (Grammar.first_sets_ g2) (addr A)), g2.
  split; [exact Hde|]. split.
  { unfold Grammar.first_set. rewrite Hfirst, Hcomp. reflexivity. }
  split.
  { rewrite Hcorrect. symmetry. now apply nullable_addr_iff_derives. }
  unfold SymbolTable.get_epsilon.
  set (eps := SymbolTable.epsilon_ (Grammar.symbol_table_ g)) in *.
  assert (Hok : sets_ok (table_symbols (Grammar.symbol_table_ g)) (Grammar.first_sets_ g2)).
  { eapply set_ops_ok; [| |exact Hops | apply first_init_ok].
    - intros j x [].
    - intros j x [-> _]. now left. }
  split.
  - intros Hb. apply Hcorrect in Hb.
    assert (Hprod : exists p, In p (Grammar.productions_ g)
                              /\ addr (lhs p) = addr A /\ ready m p = true).
    { inversion Hb as [He|p Hin Hp He|p Hin Hp He].
      - exfalso.
        assert (A = eps) as -> by (apply (wf_addr g wf); auto; apply in_symbols_of_epsilon).
        apply nonterminal_not_others in Hnt as (_ & _ & Hne).
        pose proof (wf_epsilon g wf) as Htrue. fold eps in Htrue. congruence.
      - exists p. split; [exact Hin|]. split; [first [exact He | reflexivity]|].
        unfold is_epsilon_production in Hp. unfold ready.
        destruct (rhs p) as [|s [|s' l]] eqn:Hrhs; try discriminate. cbn.
        assert (s = eps) as ->.
        { apply (wf_epsilon_unique g wf); [|exact Hp].
          apply in_symbols_of_rhs with (p := p); [exact Hin | rewrite Hrhs; now left]. }
        rewrite andb_true_r. apply Hcorrect. constructor.
      - exists p. split; [exact Hin|]. split; [first [exact He | reflexivity]|].
        now apply (ready_nullable_rhs g wf m Hcorrect). }
    destruct Hprod as (p & Hin & Hp & Hr).
    destruct (Hcomplete p Hin Hr) as (y & Hy & Ha). rewrite Hp in Hy.
    assert (y = eps) as ->; [|exact Hy].
    apply (wf_addr g wf); auto; [|apply in_symbols_of_epsilon].
    apply table_symbols_of. now apply (Hok (addr A)).
  - intros Hin. apply Hcorrect.
    now apply (first_ops_epsilon_sound g wf m Hcorrect _ Hops (addr A) eps).
Qed.

Lemma nullable_agrees_with_first_and_derivation_witness :
  exists b g1 s g2,
    Grammar.derives_epsilon 60 ExamplesLL.E' ExamplesLL.ll_grammar = Val (b, g1)
    /\ Grammar.first_set 60 ExamplesLL.E' ExamplesLL.ll_grammar = Val (s, g2)
    /\ (derives_empty (Grammar.productions_ ExamplesLL.ll_grammar) ExamplesLL.E'
        <-> b = true)
    /\ (b = true
        <-> In (SymbolTable.get_epsilon (Grammar.symbol_table_ ExamplesLL.ll_grammar)) s).
Proof.
  apply (nullable_agrees_with_first_and_derivation ExamplesLL.ll_grammar ExamplesLL.E' 60).
  - apply well_formed_check_sound. vm_compute. reflexivity.
  - reflexivity.
  - reflexivity.
  - vm_compute. tauto.
  - reflexivity.
  - vm_compute. lia.
Defined.

(** ** compute_follow_sets *)

(** The symbols that may be put into any FOLLOW set from outside the FIRST
    cache: the two special symbols of the table. *)
Definition follow_allowed (g : Grammar.t) (k : nat) (x : SymbolPtr) : Prop :=
  x = SymbolTable.epsilon_ (Grammar.symbol_table_ g)
  \/ x = SymbolTable.end_of_input_ (Grammar.symbol_table_ g).

Definition follow_ops (g : Grammar.t) : SetMap -> SetMap -> Prop :=
  set_ops (get_set (Grammar.first_sets_ g)) (fun _ => True) (follow_allowed g).

(** What a part of [compute_follow_sets] may change once the FIRST cache is
    computed. *)
Record follow_rel (m : BoolMap) (g g' : Grammar.t) : Prop := {
  fo_core : same_core g g';
  fo_first : Grammar.first_sets_ g' = Grammar.first_sets_ g;
  fo_first_flag : Grammar.first_sets_computed_ g' = Grammar.first_sets_computed_ g;
  fo_follow_flag : Grammar.follow_sets_computed_ g' = Grammar.follow_sets_computed_ g;
  fo_cache : eps_cache_of g' m;
  fo_ops : follow_ops g (Grammar.follow_sets_ g) (Grammar.follow_sets_ g')
}.

Lemma follow_ops_core (g g' : Grammar.t) (fs fs' : SetMap) :
  same_core g g' -> Grammar.first_sets_ g' = Grammar.first_sets_ g ->
  follow_ops g' fs fs' -> follow_ops g fs fs'.
Proof.
  intros [Ht _ _ _] Hf. unfold follow_ops, follow_allowed. now rewrite Hf, Ht.
Qed.

Lemma follow_rel_refl (m : BoolMap) (g : Grammar.t) : eps_cache_of g m -> follow_rel m g g.
Proof.
  intros H. constructor; auto using same_core_refl. apply set_ops_refl.
Qed.

Lemma follow_rel_trans (m : BoolMap) (g1 g2 g3 : Grammar.t) :
  follow_rel m g1 g2 -> follow_rel m g2 g3 -> follow_rel m g1 g3.
Proof.
  intros [Hc1 Hf1 ? ? ? Ho1] [Hc2 Hf2 ? ? ? Ho2]. constructor; try congruence.
  - eapply same_core_trans; eauto.
  - eapply set_ops_trans; [exact Ho1|]. eapply follow_ops_core; eauto.
Qed.

Lemma eps_rel_follow_rel (m : BoolMap) (g g' : Grammar.t) :
  eps_rel m g g' -> follow_rel m g g'.
Proof.
  intros []. constructor; auto. rewrite er_follow0. apply set_ops_refl.
Qed.

Lemma follow_rel_with_follow_sets (m : BoolMap) (g : Grammar.t) (fs : SetMap) :
  eps_cache_of g m -> follow_ops g (Grammar.follow_sets_ g) fs ->
  follow_rel m g (Grammar.with_follow_sets fs g).
Proof.
  intros Hm Hops. constructor; try reflexivity; [now constructor | exact Hm | exact Hops].
Qed.

(** The elements that [first_set] of a sequence can return. *)
Definition from_first (g : Grammar.t) (x : SymbolPtr) : Prop :=
  x = SymbolTable.epsilon_ (Grammar.symbol_table_ g)
  \/ exists j, In x (get_set (Grammar.first_sets_ g) j).

Lemma non_epsilon_copy_In (l : SymbolSet) :
  forall acc x,
    In x (fold_left (fun acc sym => if is_epsilon sym then acc else sym_insert sym acc)
                    l acc) ->
    In x l \/ In x acc.
Proof.
  induction l as [|s l IH]; intros acc x; cbn; [now right|].
  intros H. apply IH in H as [H|H]; [left; now right|].
  destruct (is_epsilon s); [now right|].
  apply set_insert_In in H as [->|H]; [left; now left | now right].
Qed.

Lemma first_seq_loop_spec (fuel : nat) (m : BoolMap) (symbols : list SymbolPtr) :
  forall (result : SymbolSet) (g : Grammar.t),
    Grammar.first_sets_computed_ g = true ->
    length (Grammar.productions_ g) < fuel -> eps_cache_of g m ->
    (forall x, In x result -> from_first g x) ->
    exists s g',
      Grammar.first_seq_loop fuel symbols result g = Val (s, g')
      /\ eps_rel m g g'
      /\ forall x, In x s -> from_first g x.
Proof.
  induction symbols as [|symbol rest IH]; intros result g Hflag Hfuel Hm Hres.
  - exists result, g. cbn. split; [reflexivity|]. split; [now apply eps_rel_refl | exact Hres].
  - cbn [Grammar.first_seq_loop]. unfold Grammar.first_set. rewrite Hflag. cbn [res_bind].
    set (first_i := match Grammar.first_sets_ g !! addr symbol with
                    | Some s => s | None => [] end).
    set (result1 := fold_left (fun acc sym => if is_epsilon sym then acc
                                              else sym_insert sym acc) first_i result).
    assert (Hres1 : forall x, In x result1 -> from_first g x).
    { intros x Hx. unfold result1 in Hx.
      apply non_epsilon_copy_In in Hx as [Hx|Hx]; [|auto].
      right. now exists (addr symbol). }
    destruct (derives_epsilon_spec fuel symbol g m Hfuel Hm) as (g2 & Hde & Hrel2).
    rewrite Hde. cbn [res_bind].
    destruct (markedb m (addr symbol)); cbn [negb].
    2:{ exists result1, g2. split; [reflexivity|]. split; [exact Hrel2 | exact Hres1]. }
    assert (Hfuel2 : length (Grammar.productions_ g2) < fuel)
      by now rewrite (sc_prods _ _ (er_core _ _ _ Hrel2)).
    destruct rest as [|symbol' rest'].
    + destruct (derives_epsilon_spec fuel symbol g2 m Hfuel2 (er_cache _ _ _ Hrel2))
        as (g3 & Hde3 & Hrel3).
      rewrite Hde3. cbn [res_bind]. eexists _, g3. split; [reflexivity|].
      split; [eapply eps_rel_trans; eauto|].
      intros x Hx. destruct (markedb m (addr symbol)); [|now apply Hres1].
      apply set_insert_In in Hx as [->|Hx]; [|now apply Hres1].
      left. unfold SymbolTable.get_epsilon.
      now rewrite (sc_table _ _ (er_core _ _ _ Hrel3)), (sc_table _ _ (er_core _ _ _ Hrel2)).
    + destruct (IH result1 g2) as (s & g' & Hloop & Hrel' & Hs).
      * now rewrite (er_first_flag _ _ _ Hrel2).
      * exact Hfuel2.
      * apply (er_cache _ _ _ Hrel2).
      * intros x Hx. destruct (Hres1 x Hx) as [->|(j & Hj)].
        -- left. now rewrite (sc_table _ _ (er_core _ _ _ Hrel2)).
        -- right. exists j. now rewrite (er_first _ _ _ Hrel2).
      * exists s, g'. split; [exact Hloop|]. split; [eapply eps_rel_trans; eauto|].
        intros x Hx. destruct (Hs x Hx) as [->|(j & Hj)].
        -- left. now rewrite (sc_table _ _ (er_core _ _ _ Hrel2)).
        -- right. exists j. now rewrite <- (er_first _ _ _ Hrel2).
Qed.

Lemma first_set_seq_spec (fuel : nat) (m : BoolMap) (symbols : list SymbolPtr)
      (g : Grammar.t) :
  Grammar.first_sets_computed_ g = true ->
  length (Grammar.productions_ g) < fuel -> eps_cache_of g m ->
  exists s g',
    Grammar.first_set_seq fuel symbols g = Val (s, g')
    /\ eps_rel m g g'
    /\ forall x, In x s -> from_first g x.
Proof.
  intros Hflag Hfuel Hm. unfold Grammar.first_set_seq.
  destruct (first_seq_loop_spec fuel m symbols [] g Hflag Hfuel Hm)
    as (result & g1 & Hloop & Hrel1 & Hres); [intros x []|].
  rewrite Hloop. cbn [res_bind].
  assert (Heps : forall g2, eps_rel m g1 g2 ->
                 from_first g (SymbolTable.get_epsilon (Grammar.symbol_table_ g2))).
  { intros g2 Hrel2. left. unfold SymbolTable.get_epsilon.
    now rewrite (sc_table _ _ (er_core _ _ _ Hrel2)), (sc_table _ _ (er_core _ _ _ Hrel1)). }
  destruct symbols as [|symbol rest].
  - eexists _, g1. split; [reflexivity|]. split; [exact Hrel1|].
    intros x Hx. apply set_insert_In in Hx as [->|Hx]; [|now apply Hres].
    apply Heps. apply eps_rel_refl, (er_cache _ _ _ Hrel1).
  - destruct (derives_epsilon_seq_spec fuel (symbol :: rest) g1 m)
      as (g2 & Hseq & Hrel2).
    + now rewrite (sc_prods _ _ (er_core _ _ _ Hrel1)).
    + apply (er_cache _ _ _ Hrel1).
    + rewrite Hseq. cbn [res_bind]. eexists _, g2. split; [reflexivity|].
      split; [eapply eps_rel_trans; eauto|].
      intros x Hx. destruct (forallb _ _); [|now apply Hres].
      apply set_insert_In in Hx as [->|Hx]; [now apply Heps | now apply Hres].
Qed.

Lemma set_add_all_ops (g : Grammar.t) (B : SymbolPtr) (elems : SymbolSet) :
  forall fs,
    (forall x, In x elems ->
       (exists j, In x (get_set fs j) \/ In x (get_set (Grammar.first_sets_ g) j))
       \/ follow_allowed g (addr B) x) ->
    follow_ops g fs (Grammar.set_add_all B elems fs).
Proof.
  unfold Grammar.set_add_all.
  induction elems as [|x elems IH]; intros fs Hin; cbn; [apply set_ops_refl|].
  assert (Hop : set_op (get_set (Grammar.first_sets_ g)) (fun _ => True)
                       (follow_allowed g) fs (Grammar.set_add B x fs)).
  { destruct (Hin x (or_introl eq_refl)) as [(j & Hj)|Ha].
    - now apply set_op_copy with (j := j).
    - now apply set_op_put. }
  eapply set_ops_trans; [apply set_ops_one; exact Hop|].
  apply IH. intros y Hy. destruct (Hin y (or_intror Hy)) as [(j & [Hj|Hj])|Ha].
  - left. exists j. left. eapply set_op_incl; eauto.
  - left. exists j. now right.
  - now right.
Qed.

Lemma set_add_non_epsilon_follow_ops (g : Grammar.t) (B : SymbolPtr) (elems : SymbolSet) :
  forall fs,
    (forall x, In x elems -> from_first g x) ->
    follow_ops g fs (Grammar.set_add_non_epsilon B elems fs).
Proof.
  unfold Grammar.set_add_non_epsilon.
  induction elems as [|x elems IH]; intros fs Hin; cbn; [apply set_ops_refl|].
  destruct (is_epsilon x).
  - apply IH. intros y Hy. apply Hin. now right.
  - eapply set_ops_trans; [|apply IH; intros y Hy; apply Hin; now right].
    apply set_ops_one. destruct (Hin x (or_introl eq_refl)) as [->|(j & Hj)].
    + apply set_op_put. now left.
    + apply set_op_copy with (j := j); auto.
Qed.

Lemma follow_pos_step_spec (fuel : nat) (m : BoolMap) (A B : SymbolPtr)
      (beta : list SymbolPtr) (g : Grammar.t) (changed : bool) :
  Grammar.first_sets_computed_ g = true ->
  length (Grammar.productions_ g) < fuel -> eps_cache_of g m ->
  exists g',
    Grammar.follow_pos_step fuel A B beta (g, changed)
    = Val (g', changed
               || (is_nonterminal B
                   && negb (length (get_set (Grammar.follow_sets_ g') (addr B))
                            =? length (get_set (Grammar.follow_sets_ g) (addr B)))))
    /\ follow_rel m g g'.
Proof.
  intros Hflag Hfuel Hm. unfold Grammar.follow_pos_step.
  destruct (is_nonterminal B); cbn [negb andb].
  2:{ exists g. rewrite orb_false_r. split; [reflexivity | now apply follow_rel_refl]. }
  destruct (Grammar.set_at B (Grammar.follow_sets_ g)) as [follow_B fo0] eqn:Hat.
  pose proof (set_at_spec B (Grammar.follow_sets_ g)) as [Hfst Hsnd].
  rewrite Hat in Hfst, Hsnd. cbn in Hfst, Hsnd.
  assert (Hops0 : follow_ops g (Grammar.follow_sets_ g) fo0).
  { apply set_ops_one.
    assert (Hfo0 : fo0 = snd (Grammar.set_at B (Grammar.follow_sets_ g)))
      by now rewrite Hat.
    rewrite Hfo0. exact (set_op_touch _ _ _ _ B). }
  pose proof (follow_rel_with_follow_sets m g fo0 Hm Hops0) as Hrel0.
  set (g0 := Grammar.with_follow_sets fo0 g) in *.
  assert (Hresult : forall g1 : Grammar.t,
    (if length (fst (Grammar.set_at B (Grammar.follow_sets_ g1)))
        =? length follow_B then changed else true)
    = changed
      || negb (length (get_set (Grammar.follow_sets_ g1) (addr B))
               =? length (get_set (Grammar.follow_sets_ g) (addr B)))).
  { intros g1. rewrite (proj1 (set_at_spec B (Grammar.follow_sets_ g1))), Hfst.
    destruct (_ =? _); cbn; [now rewrite orb_false_r | now rewrite orb_true_r]. }
  (* Adding FOLLOW(A) to FOLLOW(B) in a grammar [gc] reached from [g0]. *)
  assert (Hcopy : forall gc, follow_rel m g0 gc ->
    follow_rel m gc
      (let '(follow_A, fo1) := Grammar.set_at A (Grammar.follow_sets_ gc) in
       Grammar.with_follow_sets (Grammar.set_add_all B follow_A fo1) gc)).
  { intros gc Hrelc.
    destruct (Grammar.set_at A (Grammar.follow_sets_ gc)) as [follow_A fo1] eqn:HatA.
    pose proof (set_at_spec A (Grammar.follow_sets_ gc)) as [HfstA HsndA].
    rewrite HatA in HfstA, HsndA. cbn in HfstA, HsndA.
    apply follow_rel_with_follow_sets; [apply (fo_cache _ _ _ Hrelc)|].
    apply (set_ops_trans _ _ _ _ fo1).
    - apply set_ops_one.
      assert (Hfo1 : fo1 = snd (Grammar.set_at A (Grammar.follow_sets_ gc)))
        by now rewrite HatA.
      rewrite Hfo1. exact (set_op_touch _ _ _ _ A).
    - apply set_add_all_ops. intros x Hx. left. exists (addr A). left.
      rewrite HsndA. now rewrite <- HfstA. }
  destruct beta as [|b beta'].
  - specialize (Hcopy g0 (follow_rel_refl m g0 Hm)).
    destruct (Grammar.set_at A (Grammar.follow_sets_ g0)) as [follow_A fo1] eqn:HatA.
    cbn [res_bind]. eexists. split; [now rewrite Hresult|].
    eapply follow_rel_trans; [exact Hrel0 | exact Hcopy].
  - destruct (first_set_seq_spec fuel m (b :: beta') g0) as (first_beta & ga & Hfs & Hrela & Hfb);
      [exact Hflag | exact Hfuel | exact Hm |].
    rewrite Hfs. cbn [res_bind].
    set (gb := Grammar.with_follow_sets
                 (Grammar.set_add_non_epsilon B first_beta (Grammar.follow_sets_ ga)) ga).
    assert (Hrelb : follow_rel m ga gb).
    { apply follow_rel_with_follow_sets; [apply (er_cache _ _ _ Hrela)|].
      apply set_add_non_epsilon_follow_ops. intros x Hx.
      destruct (Hfb x Hx) as [->|(j & Hj)].
      - left. now rewrite (sc_table _ _ (er_core _ _ _ Hrela)).
      - right. exists j. now rewrite (er_first _ _ _ Hrela). }
    assert (Hrel0b : follow_rel m g0 gb).
    { eapply follow_rel_trans; [apply eps_rel_follow_rel; exact Hrela | exact Hrelb]. }
    destruct (derives_epsilon_seq_spec fuel (b :: beta') gb m) as (gc & Hseq & Hrelc).
    + change (Grammar.productions_ gb) with (Grammar.productions_ ga).
      now rewrite (sc_prods _ _ (er_core _ _ _ Hrela)).
    + apply (fo_cache _ _ _ Hrelb).
    + rewrite Hseq. cbn [res_bind].
      assert (Hrel0c : follow_rel m g0 gc).
      { eapply follow_rel_trans; [exact Hrel0b | now apply eps_rel_follow_rel]. }
      destruct (forallb _ (b :: beta')).
      * specialize (Hcopy gc Hrel0c).
        destruct (Grammar.set_at A (Grammar.follow_sets_ gc)) as [follow_A fo1] eqn:HatA.
        cbn [res_bind]. eexists. split; [now rewrite Hresult|].
        eapply follow_rel_trans; [exact Hrel0|].
        eapply follow_rel_trans; [exact Hrel0c | exact Hcopy].
      * cbn [res_bind]. exists gc. split; [now rewrite Hresult|].
        eapply follow_rel_trans; eauto.
Qed.

(** The keys whose FOLLOW sets the loop can enlarge, and the measure. *)
Definition follow_keys (g : Grammar.t) : list nat :=
  flat_map (fun prod => map addr (rhs prod)) (Grammar.productions_ g).

Definition follow_measure (g : Grammar.t) : nat :=
  list_sum (map (fun k => length (get_set (Grammar.follow_sets_ g) k)) (follow_keys g)).

Lemma follow_measure_mono (m : BoolMap) (g g' : Grammar.t) :
  follow_rel m g g' -> follow_measure g <= follow_measure g'.
Proof.
  intros Hrel. unfold follow_measure, follow_keys.
  rewrite (sc_prods _ _ (fo_core _ _ _ Hrel)).
  apply list_sum_le_pointwise. intros k _.
  eapply set_ops_length. apply (fo_ops _ _ _ Hrel).
Qed.

Lemma follow_rhs_loop_spec (fuel : nat) (m : BoolMap) (A : SymbolPtr)
      (syms : list SymbolPtr) :
  forall (g : Grammar.t) (changed : bool),
    (forall s, In s syms -> In (addr s) (follow_keys g)) ->
    Grammar.first_sets_computed_ g = true ->
    length (Grammar.productions_ g) < fuel -> eps_cache_of g m ->
    exists g' changed',
      Grammar.follow_rhs_loop fuel A syms (g, changed) = Val (g', changed')
      /\ follow_rel m g g'
      /\ (changed' = true -> changed = true \/ follow_measure g < follow_measure g').
Proof.
  induction syms as [|B beta IH]; intros g changed Hkeys Hflag Hfuel Hm.
  - exists g, changed. cbn. split; [reflexivity|]. split; [now apply follow_rel_refl | auto].
  - cbn [Grammar.follow_rhs_loop].
    destruct (follow_pos_step_spec fuel m A B beta g changed Hflag Hfuel Hm)
      as (g1 & Hstep & Hrel1).
    rewrite Hstep. cbn [res_bind].
    pose proof (fo_core _ _ _ Hrel1) as Hcore1.
    assert (Hkeys1 : follow_keys g1 = follow_keys g)
      by (unfold follow_keys; now rewrite (sc_prods _ _ Hcore1)).
    destruct (IH g1 (changed
               || (is_nonterminal B
                   && negb (length (get_set (Grammar.follow_sets_ g1) (addr B))
                            =? length (get_set (Grammar.follow_sets_ g) (addr B))))))
      as (g' & changed' & Hloop & Hrel' & Hchanged).
    + intros s Hs. rewrite Hkeys1. apply Hkeys. now right.
    + now rewrite (fo_first_flag _ _ _ Hrel1).
    + now rewrite (sc_prods _ _ Hcore1).
    + apply (fo_cache _ _ _ Hrel1).
    + exists g', changed'. split; [exact Hloop|].
      split; [eapply follow_rel_trans; eauto|].
      intros Hc. destruct (Hchanged Hc) as [Hc1|Hlt].
      * apply orb_true_iff in Hc1 as [Hc1|Hc1]; [now left|]. right.
        apply andb_true_iff in Hc1 as [_ Hc1].
        apply negb_true_iff, Nat.eqb_neq in Hc1.
        pose proof (follow_measure_mono m g1 g' Hrel').
        assert (follow_measure g < follow_measure g1); [|lia].
        unfold follow_measure. rewrite Hkeys1.
        apply list_sum_lt_pointwise with (x := addr B).
        -- intros k _. eapply set_ops_length. apply (fo_ops _ _ _ Hrel1).
        -- apply Hkeys. now left.
        -- pose proof (set_ops_length _ _ _ _ _ (addr B) (fo_ops _ _ _ Hrel1)). lia.
      * right. pose proof (follow_measure_mono m g g1 Hrel1). lia.
Qed.

Lemma follow_pass_spec (fuel : nat) (m : BoolMap) (l : list ProductionPtr) :
  forall (g : Grammar.t) (changed : bool),
    (forall prod, In prod l -> In prod (Grammar.productions_ g)) ->
    Grammar.first_sets_computed_ g = true ->
    length (Grammar.productions_ g) < fuel -> eps_cache_of g m ->
    exists g' changed',
      res_fold (Grammar.follow_step fuel) l (g, changed) = Val (g', changed')
      /\ follow_rel m g g'
      /\ (changed' = true -> changed = true \/ follow_measure g < follow_measure g').
Proof.
  induction l as [|prod l IH]; intros g changed Hl Hflag Hfuel Hm.
  - exists g, changed. cbn. split; [reflexivity|]. split; [now apply follow_rel_refl | auto].
  - cbn [res_fold]. unfold Grammar.follow_step at 1.
    destruct (follow_rhs_loop_spec fuel m (lhs prod) (rhs prod) g changed)
      as (g1 & changed1 & Hstep & Hrel1 & Hc1); auto.
    { intros s Hs. unfold follow_keys. apply in_flat_map. exists prod.
      split; [apply Hl; now left | now apply in_map]. }
    rewrite Hstep. cbn [res_bind].
    pose proof (fo_core _ _ _ Hrel1) as Hcore1.
    destruct (IH g1 changed1) as (g' & changed' & Hfold & Hrel' & Hc').
    + intros p Hp. rewrite (sc_prods _ _ Hcore1). apply Hl. now right.
    + now rewrite (fo_first_flag _ _ _ Hrel1).
    + now rewrite (sc_prods _ _ Hcore1).
    + apply (fo_cache _ _ _ Hrel1).
    + exists g', changed'. split; [exact Hfold|].
      split; [eapply follow_rel_trans; eauto|].
      intros Hc. pose proof (follow_measure_mono m g g1 Hrel1).
      pose proof (follow_measure_mono m g1 g' Hrel').
      destruct (Hc' Hc) as [H1|H1]; [|right; lia].
      destruct (Hc1 H1) as [H2|H2]; [now left | right; lia].
Qed.

(** The symbols stored in a cache. *)
Definition cache_symbols (fs : SetMap) : list SymbolPtr := flat_map snd (map_to_list fs).

Lemma get_set_cache_symbols (fs : SetMap) (j : nat) (x : SymbolPtr) :
  In x (get_set fs j) -> In x (cache_symbols fs).
Proof.
  unfold get_set, cache_symbols.
  destruct (fs !! j) as [s|] eqn:Hj; [|intros []].
  intros Hx. apply in_flat_map. exists (j, s). split; [|exact Hx].
  apply list_elem_of_In. now apply elem_of_map_to_list.
Qed.

(** A universe [U] covers the grammar [g] when it holds the two special
    symbols and the elements of the FIRST cache. *)
Definition covers (U : list SymbolPtr) (g : Grammar.t) : Prop :=
  In (SymbolTable.epsilon_ (Grammar.symbol_table_ g)) U
  /\ In (SymbolTable.end_of_input_ (Grammar.symbol_table_ g)) U
  /\ forall j x, In x (get_set (Grammar.first_sets_ g) j) -> In x U.

Lemma follow_rel_sets_ok (U : list SymbolPtr) (m : BoolMap) (g g' : Grammar.t) :
  covers U g -> sets_ok U (Grammar.follow_sets_ g) ->
  follow_rel m g g' -> sets_ok U (Grammar.follow_sets_ g').
Proof.
  intros (He & Hd & Hf) Hok Hrel.
  eapply set_ops_ok; [| |apply (fo_ops _ _ _ Hrel) | exact Hok].
  - exact Hf.
  - intros j x [->| ->]; assumption.
Qed.

Lemma follow_init_ok (U : list SymbolPtr) (g : Grammar.t) :
  In (SymbolTable.end_of_input_ (Grammar.symbol_table_ g)) U ->
  sets_ok U (Grammar.follow_init g).
Proof.
  intros Hd. unfold Grammar.follow_init.
  assert (H : sets_ok U
                (fold_left (fun acc nonterminal => <[addr nonterminal := []]> acc)
                   (SymbolTable.get_nonterminals (Grammar.symbol_table_ g)) ∅)).
  { generalize (sets_ok_empty U). generalize (∅ : SetMap).
    induction (SymbolTable.get_nonterminals (Grammar.symbol_table_ g)) as [|nt l IH];
      intros acc Hacc; cbn; [exact Hacc|].
    apply IH. now apply sets_ok_insert_empty. }
  destruct (Grammar.start_symbol_ g); [|exact H].
  apply sets_ok_set_add; [exact Hd | exact H].
Qed.

Lemma follow_measure_bound (U : list SymbolPtr) (g : Grammar.t) :
  sets_ok U (Grammar.follow_sets_ g) ->
  follow_measure g <= length (follow_keys g) * length U.
Proof.
  intros Hok. unfold follow_measure.
  etransitivity; [apply list_sum_bound with (b := length U)|].
  - intros k _. rewrite <- (length_map addr U).
    apply sorted_set_length_bound; [apply Hok|].
    intros x Hx. apply in_map. now apply (Hok k).
  - reflexivity.
Qed.

(** The FOLLOW loop terminates. *)
Lemma follow_loop_spec (fuel n : nat) (U : list SymbolPtr) (gi : Grammar.t) (m : BoolMap) :
  covers U gi -> sets_ok U (Grammar.follow_sets_ gi) ->
  Grammar.first_sets_computed_ gi = true -> eps_cache_of gi m ->
  length (Grammar.productions_ gi) < fuel ->
  S (length (follow_keys gi) * length U) <= n ->
  exists g', Grammar.follow_loop fuel n gi = Val g' /\ follow_rel m gi g'.
Proof.
  intros Hcov Hok Hflag Hm Hfuel Hn. unfold Grammar.follow_loop.
  destruct (while_changed_terminates
              (fun g0 => res_fold (Grammar.follow_step fuel) (Grammar.productions_ g0)
                                  (g0, false))
              (follow_rel m gi) follow_measure (length (follow_keys gi) * length U))
    with (fuel := n) (s := gi) as (g' & g0 & Hrun & HI & _).
  - intros g Hrel.
    pose proof (follow_measure_bound U g (follow_rel_sets_ok U m gi g Hcov Hok Hrel)) as Hb.
    unfold follow_keys in *. now rewrite (sc_prods _ _ (fo_core _ _ _ Hrel)) in Hb.
  - intros g Hrel.
    destruct (follow_pass_spec fuel m (Grammar.productions_ g) g false)
      as (g1 & changed & Hfold & Hrel1 & Hchanged).
    + auto.
    + now rewrite (fo_first_flag _ _ _ Hrel).
    + now rewrite (sc_prods _ _ (fo_core _ _ _ Hrel)).
    + apply (fo_cache _ _ _ Hrel).
    + exists g1, changed. split; [exact Hfold|]. split; [eapply follow_rel_trans; eauto|].
      intros Hc. destruct (Hchanged Hc) as [Hf|Hlt]; [discriminate | exact Hlt].
  - now apply follow_rel_refl.
  - lia.
  - exists g'. split; [exact Hrun | exact HI].
Qed.

(** The universe of the FOLLOW sets of [g] and the fuel that
    [follow_set] needs at most. *)
Definition follow_universe (g : Grammar.t) : list SymbolPtr :=
  table_symbols (Grammar.symbol_table_ g) ++ cache_symbols (Grammar.first_sets_ g).

Definition follow_fuel (g : Grammar.t) : nat :=
  sets_fuel g + S (length (follow_keys g) * length (follow_universe g)).

Lemma first_sets_ready (fuel : nat) (g : Grammar.t) (m : BoolMap) :
  eps_cache_of g m -> sets_fuel g <= fuel ->
  exists g0,
    (if Grammar.first_sets_computed_ g then Val g else Grammar.compute_first_sets fuel g)
    = Val g0
    /\ same_core g g0
    /\ Grammar.first_sets_computed_ g0 = true
    /\ eps_cache_of g0 m
    /\ covers (follow_universe g) g0.
Proof.
  intros Hm Hfuel. destruct (Grammar.first_sets_computed_ g) eqn:Hc.
  - exists g. split; [reflexivity|]. split; [apply same_core_refl|].
    split; [exact Hc|]. split; [exact Hm|]. unfold covers, follow_universe.
    split; [apply in_or_app; left; now left|].
    split; [apply in_or_app; left; right; now left|].
    intros j x Hx. apply in_or_app. right. eapply get_set_cache_symbols, Hx.
  - destruct (compute_first_sets_spec fuel g m Hm Hfuel)
      as (g0 & Hcomp & Hcore & _ & _ & Hflag & Hm0 & Hops & _).
    exists g0. split; [exact Hcomp|]. split; [exact Hcore|].
    split; [exact Hflag|]. split; [exact Hm0|]. unfold covers, follow_universe.
    rewrite (sc_table _ _ Hcore).
    split; [apply in_or_app; left; now left|].
    split; [apply in_or_app; left; right; now left|].
    intros j x Hx. apply in_or_app. left.
    assert (Hok : sets_ok (table_symbols (Grammar.symbol_table_ g))
                          (Grammar.first_sets_ g0)).
    { eapply set_ops_ok; [| |exact Hops | apply first_init_ok].
      - intros j' x' [].
      - intros j' x' [-> _]. now left. }
    now apply (Hok j).
Qed.

(** [compute_follow_sets] returns. *)
Lemma compute_follow_sets_spec (fuel : nat) (g : Grammar.t) (m : BoolMap) :
  eps_cache_of g m -> follow_fuel g <= fuel ->
  exists g',
    Grammar.compute_follow_sets fuel g = Val g'
    /\ same_core g g'
    /\ Grammar.first_sets_computed_ g' = true
    /\ Grammar.follow_sets_computed_ g' = true.
Proof.
  intros Hm Hfuel. unfold Grammar.compute_follow_sets, follow_fuel in *.
  destruct (first_sets_ready fuel g m Hm) as (g0 & Hfirst & Hcore & Hflag & Hm0 & Hcov);
    [lia|].
  rewrite Hfirst. cbn [res_bind].
  set (gi := Grammar.with_follow_sets (Grammar.follow_init g0) g0).
  destruct (follow_loop_spec fuel fuel (follow_universe g) gi m)
    as (g1 & Hloop & Hrel).
  - exact Hcov.
  - apply follow_init_ok. apply Hcov.
  - exact Hflag.
  - exact Hm0.
  - change (Grammar.productions_ gi) with (Grammar.productions_ g0).
    rewrite (sc_prods _ _ Hcore). unfold sets_fuel in Hfuel. lia.
  - change (follow_keys gi) with (follow_keys g0).
    assert (Hk : follow_keys g0 = follow_keys g)
      by (unfold follow_keys; now rewrite (sc_prods _ _ Hcore)).
    rewrite Hk. lia.
  - rewrite Hloop. cbn [res_bind]. eexists. split; [reflexivity|].
    pose proof (fo_core _ _ _ Hrel) as [H1 H2 H3 H4]. destruct Hcore as [H5 H6 H7 H8].
    cbn in *. split; [constructor; cbn; congruence|].
    split; [|reflexivity]. now rewrite (fo_first_flag _ _ _ Hrel).
Qed.

(** [follow_set] returns the cache entry of the symbol, or the empty set. *)
Lemma follow_set_spec (fuel : nat) (symbol : SymbolPtr) (g : Grammar.t) :
  follow_fuel g <= fuel ->
  exists s g',
    Grammar.follow_set fuel symbol g = Val (s, g')
    /\ s = get_set (Grammar.follow_sets_ g') (addr symbol)
    /\ same_core g g'
    /\ Grammar.follow_sets_computed_ g' = true
    /\ (Grammar.follow_sets_computed_ g = true -> g' = g).
Proof.
  intros Hfuel. unfold Grammar.follow_set.
  destruct (Grammar.follow_sets_computed_ g) eqn:Hc.
  - cbn. exists (get_set (Grammar.follow_sets_ g) (addr symbol)), g.
    repeat split; auto using same_core_refl.
  - destruct (eps_cache_exists g) as [m Hm].
    destruct (compute_follow_sets_spec fuel g m Hm Hfuel)
      as (g' & Hcomp & Hcore & _ & Hflag).
    rewrite Hcomp. cbn. exists (get_set (Grammar.follow_sets_ g') (addr symbol)), g'.
    split; [reflexivity|]. split; [reflexivity|]. split; [exact Hcore|].
    split; [exact Hflag | discriminate].
Qed.

(** ** [first_set] and [follow_set] are total *)

(** Claim C9.  On every grammar object and for every symbol, [first_set]
    and [follow_set] return normally once the fuel of the loops is at least
    [follow_fuel g] (they neither throw nor leave defined behaviour nor run
    for ever), and the set they return is the entry of the symbol in the
    cache of the grammar they leave behind: the empty set when the cache
    has no entry for the symbol. *)
Theorem first_set_and_follow_set_total (g : Grammar.t) (symbol : SymbolPtr) (fuel : nat) :
  follow_fuel g <= fuel ->
  (exists s g',
      Grammar.first_set fuel symbol g = Val (s, g')
      /\ (Grammar.first_sets_ g' !! addr symbol = None -> s = [])
      /\ (forall x, Grammar.first_sets_ g' !! addr symbol = Some x -> s = x))
  /\ (exists s g',
         Grammar.follow_set fuel symbol g = Val (s, g')
         /\ (Grammar.follow_sets_ g' !! addr symbol = None -> s = [])
         /\ (forall x, Grammar.follow_sets_ g' !! addr symbol = Some x -> s = x)).
Proof.
  intros Hfuel. split.
  - destruct (first_set_spec fuel symbol g) as (s & g' & Hrun & Hs & _).
    { unfold follow_fuel in Hfuel. lia. }
    exists s, g'. split; [exact Hrun|]. subst s. unfold get_set.
    split; [intros -> | intros x ->]; reflexivity.
  - destruct (follow_set_spec fuel symbol g Hfuel) as (s & g' & Hrun & Hs & _).
    exists s, g'. split; [exact Hrun|]. subst s. unfold get_set.
    split; [intros -> | intros x ->]; reflexivity.
Qed.

Lemma first_set_and_follow_set_total_witness :
  (exists s g',
      Grammar.first_set 100 (make_symbol 99 "X" NONTERMINAL) Examples.sum_grammar
      = Val (s, g')
      /\ (Grammar.first_sets_ g' !! 99 = None -> s = [])
      /\ (forall x, Grammar.first_sets_ g' !! 99 = Some x -> s = x))
  /\ (exists s g',
         Grammar.follow_set 100 (make_symbol 99 "X" NONTERMINAL) Examples.sum_grammar
         = Val (s, g')
         /\ (Grammar.follow_sets_ g' !! 99 = None -> s = [])
         /\ (forall x, Grammar.follow_sets_ g' !! 99 = Some x -> s = x)).
Proof.
  apply (first_set_and_follow_set_total Examples.sum_grammar
           (make_symbol 99 "X" NONTERMINAL) 100).
  vm_compute. lia.
Defined.

(** ** Items and the closure *)

(** The key of an item in a [std::set<LR0Item>]: the address of the
    production and the position of the dot. *)
Definition ikey (i : LR0Item.t) : nat * nat :=
  (paddr (LR0Item.production_ i), LR0Item.dot_position_ i).

Lemma item_ltb_trans (a b c : LR0Item.t) :
  LR0Item.ltb a b = true -> LR0Item.ltb b c = true -> LR0Item.ltb a c = true.
Proof.
  unfold LR0Item.ltb, prod_eqb, prod_ltb.
  destruct (Nat.eqb_spec (paddr (LR0Item.production_ a)) (paddr (LR0Item.production_ b))),
    (Nat.eqb_spec (paddr (LR0Item.production_ b)) (paddr (LR0Item.production_ c))),
    (Nat.eqb_spec (paddr (LR0Item.production_ a)) (paddr (LR0Item.production_ c)));
    cbn [negb]; rewrite ?Nat.ltb_lt; lia.
Qed.

Lemma item_ltb_irrefl (a : LR0Item.t) : LR0Item.ltb a a = false.
Proof.
  unfold LR0Item.ltb, prod_eqb. rewrite Nat.eqb_refl. cbn. apply Nat.ltb_irrefl.
Qed.

Lemma item_equiv_key (a b : LR0Item.t) :
  equiv_key LR0Item.ltb a b = true <-> ikey a = ikey b.
Proof.
  unfold equiv_key, LR0Item.ltb, prod_eqb, prod_ltb, ikey.
  rewrite andb_true_iff, !negb_true_iff.
  destruct (Nat.eqb_spec (paddr (LR0Item.production_ a)) (paddr (LR0Item.production_ b))),
    (Nat.eqb_spec (paddr (LR0Item.production_ b)) (paddr (LR0Item.production_ a)));
    cbn [negb]; rewrite !Nat.ltb_ge; (split; [intros []; f_equal; lia | intros [= ? ?]; lia]).
Qed.

Lemma item_eqb_key (a b : LR0Item.t) : LR0Item.eqb a b = true <-> ikey a = ikey b.
Proof.
  unfold LR0Item.eqb, prod_eqb, ikey. rewrite andb_true_iff, !Nat.eqb_eq.
  split; [intros []; now f_equal | intros [= ? ?]; now split].
Qed.

Lemma item_mem_spec (x : LR0Item.t) (s : LR0ItemSet) :
  item_mem x s = true <-> In (ikey x) (map ikey s).
Proof.
  unfold item_mem, set_mem. rewrite existsb_exists, in_map_iff.
  split; intros (y & H1 & H2).
  - exists y. apply item_equiv_key in H2. split; [now symmetry | exact H1].
  - exists y. split; [exact H2|]. apply item_equiv_key. now symmetry.
Qed.

Lemma set_eqb_keys (l1 l2 : LR0ItemSet) :
  set_eqb LR0Item.eqb l1 l2 = true <-> map ikey l1 = map ikey l2.
Proof.
  revert l2.
  induction l1 as [|x l1 IH]; intros [|y l2]; cbn [set_eqb map]; try (split; congruence).
  rewrite andb_true_iff, item_eqb_key, IH.
  split; [intros [H1 H2]; now rewrite H1, H2 | intros H; split; congruence].
Qed.

(** The items of the grammar: a production of the grammar with the dot at
    a position of its right-hand side or at its end. *)
Definition item_ok (g : Grammar.t) (i : LR0Item.t) : Prop :=
  In (LR0Item.production_ i) (Grammar.productions_ g)
  /\ LR0Item.dot_position_ i <= length (rhs (LR0Item.production_ i)).

Definition items_ok (g : Grammar.t) (s : LR0ItemSet) : Prop :=
  sorted_by LR0Item.ltb s /\ forall i, In i s -> item_ok g i.

(** The number of productions whose initial item is in the set. *)
Definition closure_measure (g : Grammar.t) (s : LR0ItemSet) : nat :=
  length (List.filter (fun p => item_mem (LR0Item.mk p 0) s) (Grammar.productions_ g)).

Lemma fold_left_invariant {A B : Type} (f : A -> B -> A) (P : A -> Prop) (l : list B) :
  forall a, (forall acc x, In x l -> P acc -> P (f acc x)) -> P a -> P (fold_left f l a).
Proof.
  induction l as [|x l IH]; intros a Hf Ha; cbn; [exact Ha|].
  apply IH; [intros acc y Hy; apply Hf; now right | apply Hf; [now left | exact Ha]].
Qed.

(** What [closure_pass] collects before it merges: initial items of
    productions of the grammar that the set lacks, and the flag is set
    only when there is one. *)
Definition fresh_ok (g : Grammar.t) (result : LR0ItemSet) (acc : LR0ItemSet * bool) : Prop :=
  (forall i, In i (fst acc) ->
             (exists p, i = LR0Item.mk p 0 /\ In p (Grammar.productions_ g))
             /\ item_mem i result = false)
  /\ (snd acc = true -> exists i, In i (fst acc)).

Lemma closure_pass_spec (g : Grammar.t) (result : LR0ItemSet) :
  items_ok g result ->
  exists r' changed,
    LR0Automaton.closure_pass g result = (r', changed)
    /\ items_ok g r'
    /\ (forall i, In i result -> In i r')
    /\ (changed = true -> closure_measure g result < closure_measure g r').
Proof.
  intros [Hsorted Hitems]. unfold LR0Automaton.closure_pass. cbv zeta.
  match goal with
  | |- context [fold_left ?f result ?a] =>
      pose proof (fold_left_invariant f (fresh_ok g result) result a) as Hinv;
      destruct (fold_left f result a) as [new_items changed]
  end.
  destruct Hinv as [Hnew Hchanged].
  - intros acc item _ Hacc. destruct (LR0Item.next_symbol item) as [next_sym|]; [|exact Hacc].
    destruct (is_nonterminal next_sym); [|exact Hacc].
    apply fold_left_invariant; [|exact Hacc].
    intros [new ch] prod Hprod [H1 H2]. cbn [fst snd] in *.
    destruct (negb (item_mem (LR0Item.mk prod 0) result)) eqn:Hm1; cbn [andb];
      [|split; assumption].
    destruct (negb (item_mem (LR0Item.mk prod 0) new)); [|split; assumption].
    split; cbn [fst snd].
    + intros i Hi. apply set_insert_In in Hi as [->|Hi]; [|now apply H1].
      split; [|now apply negb_true_iff].
      exists prod. split; [reflexivity|].
      unfold Grammar.productions_for in Hprod. now apply filter_In in Hprod.
    + intros _. destruct (set_insert_has LR0Item.ltb item_ltb_irrefl (LR0Item.mk prod 0) new)
        as (y & Hy & _). now exists y.
  - split; [intros i [] | discriminate].
  - cbn [fst snd] in *. eexists _, _. split; [reflexivity|].
    assert (Hmono : forall x, item_mem x result = true
                              -> item_mem x (set_insert_all LR0Item.ltb new_items result) = true).
    { intros x Hx. unfold item_mem, set_mem in *. apply existsb_exists in Hx as (y & Hy & He).
      apply existsb_exists. exists y. split; [now apply set_insert_all_incl | exact He]. }
    split; [split|split].
    + apply set_insert_all_sorted; [exact item_ltb_trans | exact Hsorted].
    + intros i Hi. apply set_insert_all_In in Hi as [Hi|Hi]; [|now apply Hitems].
      destruct (Hnew i Hi) as [(p & -> & Hp) _]. split; cbn; [exact Hp | lia].
    + intros i Hi. now apply set_insert_all_incl.
    + intros Hc. destruct (Hchanged Hc) as (i & Hi).
      destruct (Hnew i Hi) as [(p & -> & Hp) Hfresh].
      unfold closure_measure.
      apply filter_length_lt_pointwise with (x := p); auto.
      destruct (set_insert_all_has LR0Item.ltb item_ltb_irrefl new_items result
                  (LR0Item.mk p 0) Hi) as (y & Hy & He).
      unfold item_mem, set_mem. apply existsb_exists. now exists y.
Qed.

(** The closure terminates within one round per production, and one
    more. *)
Lemma closure_spec (fuel : nat) (items : LR0ItemSet) (g : Grammar.t) :
  items_ok g items -> length (Grammar.productions_ g) < fuel ->
  exists r,
    LR0Automaton.closure fuel items g = Val r
    /\ items_ok g r
    /\ (forall i, In i items -> In i r).
Proof.
  intros Hok Hfuel. unfold LR0Automaton.closure.
  destruct (while_changed_terminates
              (fun result => Val (LR0Automaton.closure_pass g result))
              (fun s => items_ok g s /\ forall i, In i items -> In i s)
              (closure_measure g) (length (Grammar.productions_ g)))
    with (fuel := fuel) (s := items) as (r & _ & Hrun & [Hr1 Hr2] & _).
  - intros s _. unfold closure_measure. apply List.filter_length_le.
  - intros s [Hs1 Hs2].
    destruct (closure_pass_spec g s Hs1) as (r' & changed & Hpass & Hr' & Hincl & Hlt).
    exists r', changed. rewrite Hpass. split; [reflexivity|].
    split; [split; [exact Hr' | intros i Hi; apply Hincl, Hs2, Hi] | exact Hlt].
  - split; [exact Hok | auto].
  - lia.
  - exists r. auto.
Qed.

(** ** Counting key-ordered lists *)

Section sorted_counting.
Context {A : Type}.
Variable lt : A -> A -> bool.
Variable eqb : A -> A -> bool.
Hypothesis lt_trans : forall a b c, lt a b = true -> lt b c = true -> lt a c = true.
Hypothesis lt_irrefl : forall a, lt a a = false.
Hypothesis eqb_eq : forall a b, eqb a b = true <-> a = b.

Lemma sorted_by_head (x y : A) (l : list A) :
  sorted_by lt (x :: l) -> In y l -> lt x y = true.
Proof using Type.
  intros H Hy. inversion H as [|? ? _ Hall]; subst.
  rewrite List.Forall_forall in Hall. now apply Hall.
Qed.

Lemma sorted_by_tail (x : A) (l : list A) : sorted_by lt (x :: l) -> sorted_by lt l.
Proof using Type. intros H. now inversion H. Qed.

(** A key-ordered list is determined by its elements. *)
Lemma sorted_by_ext (l1 : list A) :
  forall l2, sorted_by lt l1 -> sorted_by lt l2 ->
             (forall x, In x l1 <-> In x l2) -> l1 = l2.
Proof using lt_trans lt_irrefl.
  induction l1 as [|x1 l1 IH]; intros [|x2 l2] H1 H2 Hext.
  - reflexivity.
  - destruct (proj2 (Hext x2) (or_introl eq_refl)).
  - destruct (proj1 (Hext x1) (or_introl eq_refl)).
  - assert (Hx : x1 = x2).
    { destruct (proj1 (Hext x1) (or_introl eq_refl)) as [E|Hin1]; [now symmetry|].
      destruct (proj2 (Hext x2) (or_introl eq_refl)) as [E|Hin2]; [exact E|].
      pose proof (sorted_by_head _ _ _ H2 Hin1) as Ha.
      pose proof (sorted_by_head _ _ _ H1 Hin2) as Hb.
      pose proof (lt_trans _ _ _ Ha Hb) as Hc. rewrite lt_irrefl in Hc. discriminate. }
    subst x2. f_equal.
    apply IH; [eapply sorted_by_tail, H1 | eapply sorted_by_tail, H2 |].
    intros x. split; intros Hin.
    + destruct (proj1 (Hext x) (or_intror Hin)) as [E|Hin2]; [|exact Hin2].
      subst x. pose proof (sorted_by_head _ _ _ H1 Hin) as Ha.
      rewrite lt_irrefl in Ha. discriminate.
    + destruct (proj2 (Hext x) (or_intror Hin)) as [E|Hin1]; [|exact Hin1].
      subst x. pose proof (sorted_by_head _ _ _ H2 Hin) as Ha.
      rewrite lt_irrefl in Ha. discriminate.
Qed.

(** The characteristic vector of a list over the universe [U]. *)
Definition char (U l : list A) : list bool := map (fun u => existsb (eqb u) l) U.

Fixpoint all_bools (n : nat) : list (list bool) :=
  match n with
  | 0 => [[]]
  | S n' => map (cons true) (all_bools n') ++ map (cons false) (all_bools n')
  end.

Lemma all_bools_length (n : nat) : length (all_bools n) = 2 ^ n.
Proof using Type.
  induction n as [|n IH]; [reflexivity|].
  cbn [all_bools]. rewrite length_app, !length_map, IH. cbn. lia.
Qed.

Lemma all_bools_In (v : list bool) : In v (all_bools (length v)).
Proof using Type.
  induction v as [|b v IH]; [now left|].
  cbn [length all_bools]. apply in_or_app.
  destruct b; [left | right]; now apply in_map.
Qed.

Lemma char_inj (U l1 l2 : list A) :
  sorted_by lt l1 -> sorted_by lt l2 ->
  (forall x, In x l1 -> In x U) -> (forall x, In x l2 -> In x U) ->
  char U l1 = char U l2 -> l1 = l2.
Proof using lt_trans lt_irrefl eqb_eq.
  intros H1 H2 HU1 HU2 Hchar. apply sorted_by_ext; auto.
  unfold char in Hchar.
  assert (Hmem : forall l x, In x l <-> existsb (eqb x) l = true).
  { intros l x. rewrite existsb_exists. split.
    - intros Hx. exists x. split; [exact Hx | now apply eqb_eq].
    - intros (y & Hy & He). apply eqb_eq in He. now subst. }
  pose proof (proj1 map_ext_in_iff Hchar) as Hpoint. cbn beta in Hpoint.
  intros x. split; intros Hx.
  - apply Hmem. rewrite <- Hpoint; [now apply Hmem | now apply HU1].
  - apply Hmem. rewrite Hpoint; [now apply Hmem | now apply HU2].
Qed.

(** There are at most [2 ^ |U|] key-ordered lists over [U]. *)
Lemma sorted_lists_bound (U : list A) (L : list (list A)) :
  List.NoDup L ->
  (forall l, In l L -> sorted_by lt l /\ forall x, In x l -> In x U) ->
  length L <= 2 ^ length U.
Proof using lt_trans lt_irrefl eqb_eq.
  intros Hnd HL. rewrite <- all_bools_length, <- (length_map (char U) L).
  apply List.NoDup_incl_length.
  - apply List.NoDup_map_NoDup_ForallPairs; [|exact Hnd].
    intros l1 l2 Hl1 Hl2 Heq.
    destruct (HL l1 Hl1), (HL l2 Hl2). now apply (char_inj U).
  - intros v Hv. apply in_map_iff in Hv as (l & <- & _).
    replace (length U) with (length (char U l)) by (unfold char; apply length_map).
    apply all_bools_In.
Qed.
End sorted_counting.

(** The order and the equality of the item keys. *)
Definition key_ltb (a b : nat * nat) : bool :=
  if negb (fst a =? fst b) then fst a <? fst b else snd a <? snd b.
Definition key_eqb (a b : nat * nat) : bool := (fst a =? fst b) && (snd a =? snd b).

Lemma key_ltb_trans (a b c : nat * nat) :
  key_ltb a b = true -> key_ltb b c = true -> key_ltb a c = true.
Proof.
  unfold key_ltb.
  destruct (Nat.eqb_spec (fst a) (fst b)), (Nat.eqb_spec (fst b) (fst c)),
    (Nat.eqb_spec (fst a) (fst c)); cbn [negb]; rewrite ?Nat.ltb_lt; lia.
Qed.

Lemma key_ltb_irrefl (a : nat * nat) : key_ltb a a = false.
Proof. unfold key_ltb. rewrite Nat.eqb_refl. cbn [negb]. apply Nat.ltb_irrefl. Qed.

Lemma key_eqb_eq (a b : nat * nat) : key_eqb a b = true <-> a = b.
Proof.
  destruct a, b. unfold key_eqb. cbn [fst snd]. rewrite andb_true_iff, !Nat.eqb_eq.
  split; [intros []; now f_equal | intros [= ? ?]; now split].
Qed.

Lemma item_ltb_key (a b : LR0Item.t) : LR0Item.ltb a b = key_ltb (ikey a) (ikey b).
Proof. reflexivity. Qed.

Lemma sorted_keys (s : LR0ItemSet) :
  sorted_by LR0Item.ltb s -> sorted_by key_ltb (map ikey s).
Proof.
  induction 1 as [|x s _ IH Hall]; cbn [map]; constructor; [exact IH|].
  rewrite List.Forall_forall in *. intros k Hk.
  apply in_map_iff in Hk as (y & <- & Hy). rewrite <- item_ltb_key. now apply Hall.
Qed.

(** The keys of the items of a grammar. *)
Definition item_universe (g : Grammar.t) : list (nat * nat) :=
  flat_map (fun p => map (fun d => (paddr p, d)) (seq 0 (S (length (rhs p)))))
           (Grammar.productions_ g).

Lemma item_ok_universe (g : Grammar.t) (i : LR0Item.t) :
  item_ok g i -> In (ikey i) (item_universe g).
Proof.
  intros [Hp Hd]. unfold item_universe. apply in_flat_map.
  exists (LR0Item.production_ i). split; [exact Hp|].
  apply in_map_iff. exists (LR0Item.dot_position_ i). split; [reflexivity|].
  apply in_seq. lia.
Qed.

(** The number of item sets of a grammar is at most [state_bound]. *)
Definition state_bound (g : Grammar.t) : nat := 2 ^ length (item_universe g).

Definition state_keys (s : LR0State.t) : list (nat * nat) := map ikey (LR0State.items s).

Lemma states_bound (g : Grammar.t) (sts : list LR0State.t) :
  List.NoDup (map state_keys sts) ->
  (forall s, In s sts -> items_ok g (LR0State.items s)) ->
  length sts <= state_bound g.
Proof.
  intros Hnd Hok. rewrite <- (length_map state_keys sts). unfold state_bound.
  apply (sorted_lists_bound key_ltb key_eqb key_ltb_trans key_ltb_irrefl key_eqb_eq);
    [exact Hnd|].
  intros l Hl. apply in_map_iff in Hl as (s & <- & Hs). destruct (Hok s Hs) as [H1 H2].
  split; [now apply sorted_keys|].
  intros k Hk. apply in_map_iff in Hk as (i & <- & Hi). apply item_ok_universe. auto.
Qed.

(** ** The work loop of the LR(0) automaton *)

(** What the constructor maintains: the first state stays what it was,
    the id of a state is its index in [states_], the states hold items of
    the grammar in key order, and no two states hold the same item set. *)
Record automaton_ok (g : Grammar.t) (s0 : LR0State.t) (a : LR0Automaton.t) : Prop := {
  ao_first : nth_error (LR0Automaton.states_ a) 0 = Some s0;
  ao_ids : forall i s, nth_error (LR0Automaton.states_ a) i = Some s ->
                       LR0State.id s = Z.of_nat i;
  ao_items : forall s, In s (LR0Automaton.states_ a) -> items_ok g (LR0State.items s);
  ao_distinct : List.NoDup (map state_keys (LR0Automaton.states_ a))
}.

Lemma next_symbol_some (i : LR0Item.t) (x : SymbolPtr) :
  LR0Item.next_symbol i = Some x ->
  LR0Item.dot_position_ i < length (rhs (LR0Item.production_ i)).
Proof.
  unfold LR0Item.next_symbol, LR0Item.is_complete.
  destruct (Nat.leb_spec (length (rhs (LR0Item.production_ i))) (LR0Item.dot_position_ i));
    [discriminate | auto].
Qed.

Lemma items_for_symbol_spec (symbol : SymbolPtr) (s : LR0State.t) (i : LR0Item.t) :
  In i (LR0State.get_items_for_symbol symbol s) ->
  In i (LR0State.items s) /\ exists x, LR0Item.next_symbol i = Some x.
Proof.
  unfold LR0State.get_items_for_symbol, LR0State.items. revert i.
  apply (fold_left_invariant _
           (fun acc => forall i, In i acc ->
                                 In i (LR0State.items_ s)
                                 /\ exists x, LR0Item.next_symbol i = Some x)).
  - intros acc item Hitem Hacc i.
    destruct (optr_eqb (LR0Item.next_symbol item) (Some symbol)) eqn:Hopt; [|apply Hacc].
    intros Hi. apply set_insert_In in Hi as [->|Hi]; [|now apply Hacc].
    split; [exact Hitem|]. destruct (LR0Item.next_symbol item); [eauto | discriminate].
  - intros i [].
Qed.

Lemma goto_items_ok (g : Grammar.t) (symbol : SymbolPtr) (s : LR0State.t) :
  items_ok g (LR0State.items s) ->
  items_ok g (fold_left (fun acc item => item_insert (LR0Item.advance item) acc)
                        (LR0State.get_items_for_symbol symbol s) []).
Proof.
  intros [_ Hitems]. apply fold_left_invariant.
  - intros acc item Hitem [Hsorted Hacc]. split.
    + apply set_insert_sorted; [exact item_ltb_trans | exact Hsorted].
    + intros i Hi. apply set_insert_In in Hi as [->|Hi]; [|now apply Hacc].
      apply items_for_symbol_spec in Hitem as [Hin [x Hx]].
      destruct (Hitems item Hin) as [Hp _]. apply next_symbol_some in Hx.
      split; cbn; [exact Hp | lia].
  - split; [constructor | intros i []].
Qed.

Lemma find_state_none (r : LR0ItemSet) (a : LR0Automaton.t) :
  LR0Automaton.find_state r a = None ->
  ~ In (map ikey r) (map state_keys (LR0Automaton.states_ a)).
Proof.
  unfold LR0Automaton.find_state. intros Hnone Hin.
  apply in_map_iff in Hin as (s & Hkeys & Hs).
  pose proof (find_none _ _ Hnone s Hs) as Hneq. cbn beta in Hneq.
  apply set_eqb_keys in Hkeys. unfold state_keys in *. congruence.
Qed.

(** One transition: at most one state is created; it is numbered with
    the size of [states_] and put on the work queue. *)
Lemma process_symbol_spec (fuel : nat) (g : Grammar.t) (s0 current_state : LR0State.t)
      (a : LR0Automaton.t) (work_queue : list LR0State.t) (symbol : SymbolPtr) :
  automaton_ok g s0 a -> items_ok g (LR0State.items current_state) ->
  length (Grammar.productions_ g) < fuel ->
  exists a' new,
    LR0Automaton.process_symbol fuel g current_state (a, work_queue) symbol
    = Val (a', rev new ++ work_queue)
    /\ automaton_ok g s0 a'
    /\ LR0Automaton.states_ a' = LR0Automaton.states_ a ++ new.
Proof.
  intros Hok Hcur Hfuel. unfold LR0Automaton.process_symbol.
  destruct (closure_spec fuel _ g (goto_items_ok g symbol current_state Hcur) Hfuel)
    as (r & Hclosure & Hr & _).
  rewrite Hclosure. cbn [res_bind].
  destruct (LR0Automaton.find_state r a) as [existing_state|] eqn:Hfind.
  - eexists _, []. split; [reflexivity|]. cbn [LR0Automaton.states_].
    split; [|now rewrite app_nil_r].
    destruct Hok. now constructor.
  - eexists _, [_]. split; [reflexivity|]. cbn [LR0Automaton.states_].
    split; [|reflexivity].
    destruct Hok as [Hfirst Hids Hitems Hdistinct]. constructor; cbn [LR0Automaton.states_].
    + rewrite nth_error_app1; [exact Hfirst|].
      apply nth_error_Some. now rewrite Hfirst.
    + intros i s Hi.
      destruct (Nat.lt_ge_cases i (length (LR0Automaton.states_ a))) as [Hlt|Hge].
      * rewrite nth_error_app1 in Hi by exact Hlt. now apply Hids.
      * rewrite nth_error_app2 in Hi by exact Hge.
        destruct (i - length (LR0Automaton.states_ a)) as [|k] eqn:Hk; cbn in Hi.
        -- injection Hi as <-. cbn. f_equal. lia.
        -- now destruct k.
    + intros s Hs. apply in_app_or in Hs as [Hs|[<-|[]]]; [now apply Hitems | exact Hr].
    + rewrite map_app. apply List.NoDup_app; [exact Hdistinct | |].
      * cbn. constructor; [intros [] | constructor].
      * intros k Hk [<-|[]]. now apply (find_state_none r a Hfind).
Qed.

Lemma process_symbols_spec (fuel : nat) (g : Grammar.t) (s0 current_state : LR0State.t)
      (symbols : list SymbolPtr) :
  forall (a : LR0Automaton.t) (work_queue : list LR0State.t),
    automaton_ok g s0 a -> items_ok g (LR0State.items current_state) ->
    length (Grammar.productions_ g) < fuel ->
    exists a' new,
      res_fold (LR0Automaton.process_symbol fuel g current_state) symbols (a, work_queue)
      = Val (a', rev new ++ work_queue)
      /\ automaton_ok g s0 a'
      /\ LR0Automaton.states_ a' = LR0Automaton.states_ a ++ new.
Proof.
  induction symbols as [|symbol symbols IH]; intros a work_queue Hok Hcur Hfuel.
  - exists a, []. cbn. split; [reflexivity|]. split; [exact Hok | now rewrite app_nil_r].
  - cbn [res_fold].
    destruct (process_symbol_spec fuel g s0 current_state a work_queue symbol Hok Hcur Hfuel)
      as (a1 & new1 & Hstep & Hok1 & Hstates1).
    rewrite Hstep. cbn [res_bind].
    destruct (IH a1 (rev new1 ++ work_queue) Hok1 Hcur Hfuel)
      as (a2 & new2 & Hfold & Hok2 & Hstates2).
    exists a2, (new1 ++ new2). rewrite Hfold, rev_app_distr, <- app_assoc.
    split; [reflexivity|]. split; [exact Hok2|]. now rewrite Hstates2, Hstates1, <- app_assoc.
Qed.

(** The work loop terminates: every state is put on the queue once, and
    there are at most [state_bound g] of them. *)
Lemma build_loop_spec (n fuel : nat) (g : Grammar.t) (s0 : LR0State.t) :
  forall (a : LR0Automaton.t) (work_queue : list LR0State.t),
    automaton_ok g s0 a ->
    (forall s, In s work_queue -> In s (LR0Automaton.states_ a)) ->
    length (Grammar.productions_ g) < fuel ->
    (state_bound g - length (LR0Automaton.states_ a)) + length work_queue <= n ->
    exists a', LR0Automaton.build_loop n fuel g a work_queue = Val a' /\ automaton_ok g s0 a'.
Proof.
  induction n as [|n IH]; intros a work_queue Hok Hwq Hfuel Hn.
  - destruct work_queue; [|cbn in Hn; lia]. exists a. now split.
  - destruct work_queue as [|current_state rest]; [exists a; now split|].
    cbn [LR0Automaton.build_loop]. unfold LR0Automaton.process_state.
    destruct (process_symbols_spec fuel g s0 current_state
                (LR0State.get_transition_symbols current_state) a rest Hok)
      as (a1 & new & Hfold & Hok1 & Hstates); [|exact Hfuel|].
    { apply (ao_items _ _ _ Hok). apply Hwq. now left. }
    rewrite Hfold. cbn [res_bind].
    apply IH; [exact Hok1 | | exact Hfuel |].
    + intros s Hs. rewrite Hstates. apply in_or_app.
      apply in_app_or in Hs as [Hs|Hs]; [right; now apply in_rev | left; apply Hwq; now right].
    + pose proof (states_bound g (LR0Automaton.states_ a1)
                    (ao_distinct _ _ _ Hok1) (ao_items _ _ _ Hok1)) as Hb.
      rewrite Hstates, length_app in *. rewrite length_app, length_rev.
      cbn [length] in Hn. lia.
Qed.

(** ** The numbering of the LR(0) states *)

Lemma initial_spec (fuel : nat) (g : Grammar.t) (p0 : ProductionPtr)
      (rest : list ProductionPtr) :
  Grammar.productions_ g = p0 :: rest -> length (Grammar.productions_ g) < fuel ->
  exists initial_set,
    LR0Automaton.closure fuel [LR0Item.mk p0 0] g = Val initial_set
    /\ LR0Automaton.initial fuel g
       = Val (LR0Automaton.mk [LR0State.mk 0 initial_set] ∅, [LR0State.mk 0 initial_set])
    /\ automaton_ok g (LR0State.mk 0 initial_set)
                    (LR0Automaton.mk [LR0State.mk 0 initial_set] ∅).
Proof.
  intros Hprods Hfuel.
  destruct (closure_spec fuel [LR0Item.mk p0 0] g) as (r & Hclosure & Hr & _);
    [|exact Hfuel|].
  { split; [repeat constructor|]. intros i [<-|[]]. split; cbn; [|lia].
    rewrite Hprods. now left. }
  exists r. split; [exact Hclosure|].
  unfold LR0Automaton.initial, Grammar.productions. rewrite Hprods.
  change (set_of_list LR0Item.ltb [LR0Item.mk p0 0]) with [LR0Item.mk p0 0].
  rewrite Hclosure. cbn [res_bind]. split; [reflexivity|].
  constructor; cbn [LR0Automaton.states_].
  - reflexivity.
  - intros [|[|i]] s Hi; cbn in Hi; try discriminate. now injection Hi as <-.
  - intros s [<-|[]]. exact Hr.
  - cbn. constructor; [intros [] | constructor].
Qed.

Lemma closure_more_fuel (fuel fuel' : nat) (items r : LR0ItemSet) (g : Grammar.t) :
  LR0Automaton.closure fuel items g = Val r -> fuel <= fuel' ->
  LR0Automaton.closure fuel' items g = Val r.
Proof. unfold LR0Automaton.closure. apply while_changed_more_fuel. Qed.

Lemma process_symbol_more_fuel (fuel fuel' : nat) (g : Grammar.t) (current_state : LR0State.t)
      (st r : LR0Automaton.t * list LR0State.t) (symbol : SymbolPtr) :
  fuel <= fuel' ->
  LR0Automaton.process_symbol fuel g current_state st symbol = Val r ->
  LR0Automaton.process_symbol fuel' g current_state st symbol = Val r.
Proof.
  intros Hle. unfold LR0Automaton.process_symbol. destruct st as [a work_queue].
  destruct (LR0Automaton.closure fuel _ g) as [r0| | |] eqn:Hc; try discriminate.
  now rewrite (closure_more_fuel _ _ _ _ _ Hc Hle).
Qed.

Lemma res_fold_mono {A S : Type} (f f' : S -> A -> Res S) (l : list A) :
  (forall s x r, f s x = Val r -> f' s x = Val r) ->
  forall s r, res_fold f l s = Val r -> res_fold f' l s = Val r.
Proof.
  intros Hf. induction l as [|x l IH]; intros s r; cbn [res_fold]; [auto|].
  destruct (f s x) as [s1| | |] eqn:Hx; try discriminate.
  rewrite (Hf _ _ _ Hx). cbn [res_bind]. apply IH.
Qed.

Lemma build_loop_more_fuel (n : nat) :
  forall (n' fuel fuel' : nat) (g : Grammar.t) (a r : LR0Automaton.t)
         (work_queue : list LR0State.t),
    LR0Automaton.build_loop n fuel g a work_queue = Val r ->
    n <= n' -> fuel <= fuel' ->
    LR0Automaton.build_loop n' fuel' g a work_queue = Val r.
Proof.
  induction n as [|n IH]; intros n' fuel fuel' g a r work_queue Hrun Hn Hfuel;
    destruct work_queue as [|current_state rest]; destruct n' as [|n'];
    cbn [LR0Automaton.build_loop] in *; try discriminate; try exact Hrun; try lia.
  unfold LR0Automaton.process_state in *.
  destruct (res_fold (LR0Automaton.process_symbol fuel g current_state)
              (LR0State.get_transition_symbols current_state) (a, rest))
    as [[a1 wq1]| | |] eqn:Hfold; try discriminate.
  rewrite (res_fold_mono _ (LR0Automaton.process_symbol fuel' g current_state) _
             (fun s x r0 => process_symbol_more_fuel fuel fuel' g current_state s r0 x Hfuel)
             _ _ Hfold).
  cbn [res_bind] in *. apply (IH n' fuel fuel'); [exact Hrun | lia | exact Hfuel].
Qed.

Lemma create_more_fuel (n n' fuel fuel' : nat) (g : Grammar.t) (a : LR0Automaton.t) :
  LR0Automaton.create n fuel g = Val a -> n <= n' -> fuel <= fuel' ->
  LR0Automaton.create n' fuel' g = Val a.
Proof.
  unfold LR0Automaton.create, LR0Automaton.initial. intros Hrun Hn Hfuel.
  destruct (Grammar.productions g) as [|p0 rest]; [discriminate|].
  destruct (LR0Automaton.closure fuel _ g) as [r0| | |] eqn:Hc; try discriminate.
  rewrite (closure_more_fuel _ _ _ _ _ Hc Hfuel). cbn [res_bind] in *.
  now apply (build_loop_more_fuel n n' fuel fuel').
Qed.

(** The part of the numbering that holds for every grammar with at least
    one production: the constructor of the automaton returns, and what it
    returns does not depend on the fuel of the model; state 0 is the
    closure of the initial item of the first production, the id of every
    state is its index in [states_] (the ids are handed out consecutively
    as the states are created), and two different ids never carry the same
    item set.  It says nothing on the order in which the states are
    created. *)
Theorem state_ids_number_the_states_as_created (g : Grammar.t) (p0 : ProductionPtr)
        (rest : list ProductionPtr) :
  Grammar.productions_ g = p0 :: rest ->
  exists a initial_set,
    (forall n fuel,
        state_bound g <= n -> length (Grammar.productions_ g) < fuel ->
        LR0Automaton.closure fuel [LR0Item.mk p0 0] g = Val initial_set
        /\ LR0Automaton.create n fuel g = Val a)
    /\ nth_error (LR0Automaton.states_ a) 0 = Some (LR0State.mk 0 initial_set)
    /\ (forall i s, nth_error (LR0Automaton.states_ a) i = Some s ->
                    LR0State.id s = Z.of_nat i)
    /\ (forall i j si sj,
           nth_error (LR0Automaton.states_ a) i = Some si ->
           nth_error (LR0Automaton.states_ a) j = Some sj ->
           set_eqb LR0Item.eqb (LR0State.items si) (LR0State.items sj) = true ->
           i = j).
Proof.
  intros Hprods.
  set (fuel0 := S (length (Grammar.productions_ g))).
  destruct (initial_spec fuel0 g p0 rest Hprods) as (r & Hclosure & Hinit & Hok0);
    [unfold fuel0; lia|].
  destruct (build_loop_spec (state_bound g) fuel0 g (LR0State.mk 0 r)
              (LR0Automaton.mk [LR0State.mk 0 r] ∅) [LR0State.mk 0 r] Hok0)
    as (a & Hloop & Hok).
  { intros s Hs. exact Hs. }
  { unfold fuel0. lia. }
  { cbn [LR0Automaton.states_ length]. unfold state_bound.
    pose proof (Nat.pow_nonzero 2 (length (item_universe g))). lia. }
  assert (Hcreate : LR0Automaton.create (state_bound g) fuel0 g = Val a).
  { unfold LR0Automaton.create. rewrite Hinit. exact Hloop. }
  exists a, r. split; [|split; [|split]].
  - intros n fuel Hn Hfuel. split.
    + apply (closure_more_fuel fuel0); [exact Hclosure | unfold fuel0; lia].
    + apply (create_more_fuel (state_bound g) n fuel0 fuel); [exact Hcreate | exact Hn |].
      unfold fuel0. lia.
  - apply (ao_first _ _ _ Hok).
  - apply (ao_ids _ _ _ Hok).
  - intros i j si sj Hi Hj Heq. apply set_eqb_keys in Heq.
    pose proof (ao_distinct _ _ _ Hok) as Hnd.
    rewrite List.NoDup_nth_error in Hnd. apply Hnd.
    + rewrite length_map. apply nth_error_Some. now rewrite Hi.
    + rewrite !nth_error_map, Hi, Hj. cbn. unfold state_keys. now rewrite Heq.
Qed.

Lemma state_ids_number_the_states_as_created_witness :
  exists a initial_set,
    (forall n fuel,
        state_bound ExamplesOrder.grammar <= n ->
        length (Grammar.productions_ ExamplesOrder.grammar) < fuel ->
        LR0Automaton.closure fuel
          [LR0Item.mk (mkProduction 22 (make_symbol 15 "S'" NONTERMINAL) [ExamplesOrder.S]) 0]
          ExamplesOrder.grammar = Val initial_set
        /\ LR0Automaton.create n fuel ExamplesOrder.grammar = Val a)
    /\ nth_error (LR0Automaton.states_ a) 0 = Some (LR0State.mk 0 initial_set)
    /\ (forall i s, nth_error (LR0Automaton.states_ a) i = Some s ->
                    LR0State.id s = Z.of_nat i)
    /\ (forall i j si sj,
           nth_error (LR0Automaton.states_ a) i = Some si ->
           nth_error (LR0Automaton.states_ a) j = Some sj ->
           set_eqb LR0Item.eqb (LR0State.items si) (LR0State.items sj) = true ->
           i = j).
Proof.
  apply (state_ids_number_the_states_as_created ExamplesOrder.grammar
           (mkProduction 22 (make_symbol 15 "S'" NONTERMINAL) [ExamplesOrder.S])
           (skipn 1 (Grammar.productions_ ExamplesOrder.grammar))).
  reflexivity.
Defined.

(** C7 (defect).  The constructor calls its worklist a queue
    ([work_queue], "Queue of states to process") but takes the states from
    its back ([back()], [pop_back()]): the states are expanded last-in
    first-out and are not numbered in breadth-first order.  On the grammar
    [S -> a b | c d] the constructor gives id 4 to the item set
    [{S -> c d .}] and id 5 to [{S -> a b .}]: after state 0 it expands
    state 3, the state created last.  The breadth-first numbering expands
    state 2 before state 3 and gives id 4 to [{S -> a b .}] and id 5 to
    [{S -> c d .}]. *)
Theorem worklist_order_is_not_breadth_first :
  ExamplesOrder.numbering (LR0Automaton.create 256 4 ExamplesOrder.grammar)
  = [(0%Z, [(20, 0); (21, 0); (22, 0)]); (1%Z, [(22, 1)]); (2%Z, [(20, 1)]); (3%Z, [(21, 1)]);
     (4%Z, [(21, 2)]); (5%Z, [(20, 2)])]
  /\ ExamplesOrder.numbering (BreadthFirst.create 256 4 ExamplesOrder.grammar)
     = [(0%Z, [(20, 0); (21, 0); (22, 0)]); (1%Z, [(22, 1)]); (2%Z, [(20, 1)]); (3%Z, [(21, 1)]);
        (4%Z, [(20, 2)]); (5%Z, [(21, 2)])].
Proof. split; vm_compute; reflexivity. Qed.

(** The transition symbols of a state are visited in the order of their
    addresses: the same grammar with the symbols [a] and [c] allocated the
    other way round is numbered differently. *)
Lemma state_ids_depend_on_symbol_addresses :
  ExamplesOrder.numbering (LR0Automaton.create 256 4 ExamplesOrder.grammar_swapped)
  = [(0%Z, [(20, 0); (21, 0); (22, 0)]); (1%Z, [(22, 1)]); (2%Z, [(21, 1)]); (3%Z, [(20, 1)]);
     (4%Z, [(20, 2)]); (5%Z, [(21, 2)])].
Proof. vm_compute. reflexivity. Qed.

(** ** The names of the token types *)

Lemma find_by_type_named (ty : TokenType) :
  (0 <= ty <= 24)%Z ->
  exists s, find_by_type ty type_map = Some s /\ find_by_name s type_map = Some ty.
Proof.
  intros H.
  assert (Hcases : In ty (map Z.of_nat (seq 0 25))).
  { apply in_map_iff. exists (Z.to_nat ty). split; [lia | apply in_seq; lia]. }
  cbn in Hcases.
  repeat (destruct Hcases as [<-|Hcases]; [eexists; split; reflexivity|]).
  destruct Hcases.
Qed.

Lemma find_by_type_unnamed (ty : TokenType) :
  ~ (0 <= ty <= 24)%Z -> find_by_type ty type_map = None.
Proof.
  intros H. unfold type_map. cbn [find_by_type].
  repeat match goal with
         | |- context [(?k =? ty)%Z] =>
             destruct (Z.eqb_spec k ty) as [E|_];
             [exfalso; apply H; rewrite <- E; vm_compute; split; discriminate|]
         end.
  reflexivity.
Qed.

(** X1.  Converting a token type to its name and back gives the type
    again for the 25 named enumerators (0 to 24); every other value of the
    enumeration is printed as [UNKNOWN(n)], which reads back as
    [ERROR_TOKEN]. *)
Theorem token_type_name_round_trip (ty : TokenType) :
  string_to_token_type (token_type_to_string ty)
  = if ((0 <=? ty) && (ty <=? 24))%Z then ty else TokenType.ERROR_TOKEN.
Proof.
  unfold string_to_token_type, token_type_to_string.
  destruct ((0 <=? ty) && (ty <=? 24))%Z eqn:Hrange.
  - apply andb_true_iff in Hrange as [H1 H2].
    apply Z.leb_le in H1. apply Z.leb_le in H2.
    destruct (find_by_type_named ty (conj H1 H2)) as (s & -> & ->). reflexivity.
  - rewrite find_by_type_unnamed.
    + reflexivity.
    + intros [H1 H2]. apply Z.leb_le in H1. apply Z.leb_le in H2.
      rewrite H1, H2 in Hrange. discriminate.
Qed.

(** X2.  Converting a name to a token type and back gives the name again
    exactly for the 25 names of the map; every other string is read as
    [ERROR_TOKEN] and printed as [ERROR]. *)
Theorem token_type_of_name_round_trip (str : string) :
  token_type_to_string (string_to_token_type str)
  = match find_by_name str type_map with
    | Some _ => str
    | None => "ERROR"%string
    end.
Proof.
  unfold string_to_token_type, type_map. cbn [find_by_name].
  repeat match goal with
         | |- context [String.eqb ?k str] =>
             destruct (String.eqb_spec k str) as [<-|_]; [reflexivity|]
         end.
  reflexivity.
Qed.

(** ** The cells of the parse table *)

Lemma cell_eq_dec (state state' : Z) (terminal terminal' : SymbolPtr) :
  ((state' =? state)%Z && ptr_eqb terminal' terminal = true
   /\ (state', addr terminal') = (state, addr terminal))
  \/ ((state' =? state)%Z && ptr_eqb terminal' terminal = false
      /\ (state', addr terminal') <> (state, addr terminal)).
Proof.
  unfold ptr_eqb.
  destruct (Z.eqb_spec state' state) as [->|Hs];
    destruct (Nat.eqb_spec (addr terminal') (addr terminal)) as [->|Ht]; cbn [andb];
    [left | right | right | right]; split; congruence.
Qed.

(** X3.  The two tables are maps keyed by the state and the address of
    the symbol: a write is read back from its own cell, leaves every other
    cell as it was, and [set_action] and [set_goto] never touch each
    other's table. *)
Theorem parse_table_write_then_read (state state' : Z) (symbol symbol' : SymbolPtr)
        (action : Action.t) (target : Z) (tb : ParseTable.t) :
  ParseTable.get_action state' symbol' (ParseTable.set_action state symbol action tb)
  = (if (state' =? state)%Z && ptr_eqb symbol' symbol then action
     else ParseTable.get_action state' symbol' tb)
  /\ ParseTable.get_goto state' symbol' (ParseTable.set_goto state symbol target tb)
     = (if (state' =? state)%Z && ptr_eqb symbol' symbol then target
        else ParseTable.get_goto state' symbol' tb)
  /\ ParseTable.get_goto state' symbol' (ParseTable.set_action state symbol action tb)
     = ParseTable.get_goto state' symbol' tb
  /\ ParseTable.get_action state' symbol' (ParseTable.set_goto state symbol target tb)
     = ParseTable.get_action state' symbol' tb.
Proof.
  unfold ParseTable.get_action, ParseTable.get_goto, ParseTable.set_action,
    ParseTable.set_goto.
  cbn [ParseTable.action_table_ ParseTable.goto_table_].
  destruct (cell_eq_dec state state' symbol symbol') as [[-> Hcell]|[-> Hcell]].
  - rewrite Hcell, !lookup_insert_eq. auto.
  - rewrite !lookup_insert_ne by congruence. auto.
Qed.

(** Two calls of [set_action] address the same cell. *)
Definition same_cell (c1 c2 : LALR1Generator.ActionCall) : bool :=
  (fst (fst c1) =? fst (fst c2))%Z && ptr_eqb (snd (fst c1)) (snd (fst c2)).

(** No two calls write different actions to one cell. *)
Definition consistent_calls (calls : list LALR1Generator.ActionCall) : Prop :=
  forall c1 c2, In c1 calls -> In c2 calls -> same_cell c1 c2 = true ->
                Action.differs (snd c1) (snd c2) = false.

Lemma differs_false_iff (a b : Action.t) : Action.differs a b = false <-> a = b.
Proof.
  unfold Action.differs. rewrite orb_false_iff, !negb_false_iff, Z.eqb_eq.
  destruct a as [ta va], b as [tb vb]. cbn [Action.type Action.value].
  split.
  - intros [Ht ->]. f_equal. destruct ta, tb; (reflexivity || discriminate).
  - intros [= -> ->]. split; [now destruct tb | reflexivity].
Qed.

Lemma lookup_after_calls (calls : list LALR1Generator.ActionCall)
      (tb : ParseTable.t) (state : Z) (terminal : SymbolPtr) :
  ParseTable.action_table_ (fold_left LALR1Generator.do_action calls tb)
    !! (state, addr terminal)
  = match last_write calls state terminal with
    | Some action => Some action
    | None => ParseTable.action_table_ tb !! (state, addr terminal)
    end.
Proof.
  revert tb. induction calls as [|[[state' terminal'] action] rest IH]; intros tb; cbn.
  - reflexivity.
  - rewrite IH. destruct (last_write rest state terminal) as [later|]; [reflexivity|].
    destruct (cell_eq_dec state state' terminal terminal') as [[-> Hcell]|[-> Hcell]];
      unfold ParseTable.set_action; cbn [ParseTable.action_table_].
    + rewrite Hcell. apply lookup_insert_eq.
    + now apply lookup_insert_ne.
Qed.

Lemma last_write_some (calls : list LALR1Generator.ActionCall) (state : Z)
      (terminal : SymbolPtr) (a : Action.t) :
  last_write calls state terminal = Some a ->
  exists c, In c calls /\ same_cell c (state, terminal, a) = true /\ snd c = a.
Proof.
  induction calls as [|[[state' terminal'] action] rest IH]; cbn; [discriminate|].
  destruct (last_write rest state terminal) as [later|].
  - intros [= ->]. destruct IH as (c & Hc & Hcell & Ha); [reflexivity|].
    exists c. auto.
  - destruct ((state' =? state)%Z && ptr_eqb terminal' terminal) eqn:Hcell; [|discriminate].
    intros [= ->]. exists (state', terminal', a). auto.
Qed.

Lemma last_write_none (calls : list LALR1Generator.ActionCall) (state : Z)
      (terminal : SymbolPtr) (c : LALR1Generator.ActionCall) :
  last_write calls state terminal = None -> In c calls ->
  (fst (fst c) =? state)%Z && ptr_eqb (snd (fst c)) terminal = false.
Proof.
  induction calls as [|[[state' terminal'] action] rest IH]; cbn; [intros _ []|].
  destruct (last_write rest state terminal) as [later|]; [discriminate|].
  destruct ((state' =? state)%Z && ptr_eqb terminal' terminal) eqn:Hcell; [discriminate|].
  intros _ [<-|Hin]; [exact Hcell | now apply IH].
Qed.

Lemma same_cell_trans (c1 c2 c3 : LALR1Generator.ActionCall) :
  same_cell c1 c2 = true -> same_cell c2 c3 = true -> same_cell c1 c3 = true.
Proof.
  unfold same_cell, ptr_eqb. rewrite !andb_true_iff, !Z.eqb_eq, !Nat.eqb_eq.
  intros [-> ->] [-> ->]. auto.
Qed.

Lemma same_cell_sym (c1 c2 : LALR1Generator.ActionCall) :
  same_cell c1 c2 = true -> same_cell c2 c1 = true.
Proof.
  unfold same_cell, ptr_eqb. rewrite !andb_true_iff, !Z.eqb_eq, !Nat.eqb_eq.
  intros [-> ->]. auto.
Qed.

Lemma conflicts_after_calls (calls : list LALR1Generator.ActionCall) (tb : ParseTable.t) :
  ParseTable.action_table_ tb = ∅ -> ParseTable.conflicts_ tb = [] ->
  ParseTable.conflicts_ (fold_left LALR1Generator.do_action calls tb) = []
  <-> consistent_calls calls.
Proof.
  intros Hempty Hnone. induction calls as [|c calls IH] using rev_ind.
  - cbn. split; [intros _ c1 c2 [] | auto].
  - rewrite fold_left_app. cbn [fold_left]. destruct c as [[state terminal] action].
    cbn [LALR1Generator.do_action]. unfold ParseTable.set_action at 1.
    cbn [ParseTable.conflicts_]. rewrite lookup_after_calls, Hempty, lookup_empty.
    destruct (last_write calls state terminal) as [existing|] eqn:Hlast.
    + destruct (last_write_some _ _ _ _ Hlast) as (c0 & Hc0 & Hcell0 & Ha0).
      destruct (Action.differs existing action) eqn:Hdiff.
      * split; [intros H; apply app_eq_nil in H as [_ H]; discriminate|].
        intros Hcons. exfalso.
        assert (Hd : Action.differs (snd c0) action = false).
        { apply (Hcons c0 (state, terminal, action)); [apply in_or_app; now left | |exact Hcell0].
          apply in_or_app. right. now left. }
        rewrite Ha0, Hdiff in Hd. discriminate.
      * apply differs_false_iff in Hdiff. subst action.
        rewrite IH. split; intros Hcons.
        -- intros c1 c2 H1 H2 Hcell.
           assert (Hold : forall c', In c' calls -> same_cell c' (state, terminal, existing) = true
                                     -> snd c' = existing).
           { intros c' Hc' Hcell'. rewrite <- Ha0. apply differs_false_iff.
             apply Hcons; [exact Hc' | exact Hc0 |].
             eapply same_cell_trans; [exact Hcell' | now apply same_cell_sym]. }
           apply differs_false_iff.
           apply in_app_or in H1 as [H1|[<-|[]]]; apply in_app_or in H2 as [H2|[<-|[]]].
           ++ apply differs_false_iff. now apply Hcons.
           ++ now apply Hold.
           ++ symmetry. apply Hold; [exact H2 | now apply same_cell_sym].
           ++ reflexivity.
        -- intros c1 c2 H1 H2. apply Hcons; apply in_or_app; now left.
    + rewrite IH. split; intros Hcons.
      * intros c1 c2 H1 H2 Hcell.
        apply in_app_or in H1 as [H1|[<-|[]]]; apply in_app_or in H2 as [H2|[<-|[]]].
        -- now apply Hcons.
        -- pose proof (last_write_none _ _ _ c1 Hlast H1) as Hno.
           unfold same_cell in Hcell. cbn [fst snd] in Hcell. congruence.
        -- pose proof (last_write_none _ _ _ c2 Hlast H2) as Hno.
           apply same_cell_sym in Hcell.
           unfold same_cell in Hcell. cbn [fst snd] in Hcell. congruence.
        -- now apply differs_false_iff.
      * intros c1 c2 H1 H2. apply Hcons; apply in_or_app; now left.
Qed.

(** X4.  A table filled from empty by a sequence of [set_action] calls
    reports no conflict exactly when no two of the calls write different
    actions to one cell; then every written cell holds the one action
    written to it, whatever the order of the calls. *)
Theorem conflict_free_iff_calls_agree (calls : list LALR1Generator.ActionCall)
        (num_states : Z) (terminals nonterminals : SymbolSet) :
  let tb := fold_left LALR1Generator.do_action calls
                      (ParseTable.create num_states terminals nonterminals) in
  (ParseTable.has_conflicts tb = false <-> consistent_calls calls)
  /\ (ParseTable.has_conflicts tb = false ->
      forall state terminal action,
        In (state, terminal, action) calls ->
        ParseTable.get_action state terminal tb = action).
Proof.
  cbv zeta.
  assert (Hiff : ParseTable.has_conflicts
                   (fold_left LALR1Generator.do_action calls
                      (ParseTable.create num_states terminals nonterminals)) = false
                 <-> consistent_calls calls).
  { rewrite <- (conflicts_after_calls calls
                  (ParseTable.create num_states terminals nonterminals));
      [|reflexivity|reflexivity].
    unfold ParseTable.has_conflicts.
    destruct (ParseTable.conflicts_ _); split; congruence. }
  split; [exact Hiff|].
  intros Hfree state terminal action Hin. apply Hiff in Hfree.
  rewrite get_action_after_calls.
  destruct (last_write calls state terminal) as [a|] eqn:Hlast.
  - destruct (last_write_some _ _ _ _ Hlast) as (c0 & Hc0 & Hcell0 & <-).
    apply differs_false_iff.
    apply (Hfree c0 (state, terminal, action)); [exact Hc0 | exact Hin |].
    unfold same_cell in *. cbn [fst snd] in *. exact Hcell0.
  - pose proof (last_write_none _ _ _ _ Hlast Hin) as Hno. cbn [fst snd] in Hno.
    unfold ptr_eqb in Hno. now rewrite Z.eqb_refl, Nat.eqb_refl in Hno.
Qed.

(** ** The order of the items *)

(** X5.  [operator<] of [LR0Item] and of [LR1Item] is a strict order
    (irreflexive and transitive) in which two items are incomparable
    exactly when [operator==] holds for them: the requirement that
    [std::set] puts on its key order, with the set's notion of "same key"
    coinciding with [==]. *)
Theorem item_orders_are_strict_and_match_equality :
  (forall a, LR0Item.ltb a a = false)
  /\ (forall a b c, LR0Item.ltb a b = true -> LR0Item.ltb b c = true ->
                    LR0Item.ltb a c = true)
  /\ (forall a b, LR0Item.eqb a b = true
                  <-> LR0Item.ltb a b = false /\ LR0Item.ltb b a = false)
  /\ (forall a, LR1Item.ltb a a = false)
  /\ (forall a b c, LR1Item.ltb a b = true -> LR1Item.ltb b c = true ->
                    LR1Item.ltb a c = true)
  /\ (forall a b, LR1Item.eqb a b = true
                  <-> LR1Item.ltb a b = false /\ LR1Item.ltb b a = false).
Proof.
  split; [exact item_ltb_irrefl|]. split; [exact item_ltb_trans|]. split.
  { intros a b. rewrite item_eqb_key, <- item_equiv_key. unfold equiv_key.
    rewrite andb_true_iff, !negb_true_iff. reflexivity. }
  split.
  { intros a. unfold LR1Item.ltb, prod_eqb, ptr_ltb. rewrite !Nat.eqb_refl. cbn [negb].
    apply Nat.ltb_irrefl. }
  split.
  { intros a b c. unfold LR1Item.ltb, prod_eqb, prod_ltb, ptr_ltb.
    destruct (Nat.eqb_spec (paddr (LR1Item.production_ a)) (paddr (LR1Item.production_ b))),
      (Nat.eqb_spec (paddr (LR1Item.production_ b)) (paddr (LR1Item.production_ c))),
      (Nat.eqb_spec (paddr (LR1Item.production_ a)) (paddr (LR1Item.production_ c)));
      cbn [negb]; try (rewrite ?Nat.ltb_lt; lia);
      destruct (Nat.eqb_spec (LR1Item.dot_position_ a) (LR1Item.dot_position_ b)),
        (Nat.eqb_spec (LR1Item.dot_position_ b) (LR1Item.dot_position_ c)),
        (Nat.eqb_spec (LR1Item.dot_position_ a) (LR1Item.dot_position_ c));
      cbn [negb]; rewrite ?Nat.ltb_lt; lia. }
  intros a b. unfold LR1Item.eqb, LR1Item.ltb, prod_eqb, prod_ltb, ptr_eqb, ptr_ltb.
  rewrite (Nat.eqb_sym (paddr (LR1Item.production_ b))),
    (Nat.eqb_sym (LR1Item.dot_position_ b)).
  destruct (Nat.eqb_spec (paddr (LR1Item.production_ a)) (paddr (LR1Item.production_ b)));
    cbn [negb andb]; [|rewrite !Nat.ltb_ge; split; [discriminate | lia]].
  destruct (Nat.eqb_spec (LR1Item.dot_position_ a) (LR1Item.dot_position_ b));
    cbn [negb andb]; [|rewrite !Nat.ltb_ge; split; [discriminate | lia]].
  rewrite Nat.eqb_eq, !Nat.ltb_ge. lia.
Qed.

(** ** The symbol table *)

(** The address [a] is not the address of a symbol of the table: what
    [std::make_shared] guarantees for the address of a new object while the
    table keeps its symbols alive. *)
Definition fresh (a : nat) (st : SymbolTable.t) : bool :=
  forallb (fun s => negb (addr s =? a)) (SymbolTable.symbols_ st).

(** The tables that the interface of the class can produce. *)
Inductive built : SymbolTable.t -> Prop :=
  | built_create (a_eps a_eoi : nat) :
      a_eps <> a_eoi -> built (SymbolTable.create a_eps a_eoi)
  | built_terminal (a : nat) (n : string) (tt : TokenType) (st : SymbolTable.t) :
      built st -> fresh a st = true -> built (snd (SymbolTable.get_terminal a n tt st))
  | built_nonterminal (a : nat) (n : string) (st : SymbolTable.t) :
      built st -> fresh a st = true -> built (snd (SymbolTable.get_nonterminal a n st)).

Record table_ok (st : SymbolTable.t) : Prop := {
  to_sorted : sorted_by ptr_ltb (SymbolTable.symbols_ st);
  to_epsilon_in : In (SymbolTable.epsilon_ st) (SymbolTable.symbols_ st);
  to_end_in : In (SymbolTable.end_of_input_ st) (SymbolTable.symbols_ st);
  to_epsilon_only : forall x, In x (SymbolTable.symbols_ st) ->
                              is_epsilon x = true <-> x = SymbolTable.epsilon_ st;
  to_end_only : forall x, In x (SymbolTable.symbols_ st) ->
                          is_end_of_input x = true <-> x = SymbolTable.end_of_input_ st;
  to_nonterminals : forall x y,
      In x (SymbolTable.symbols_ st) -> In y (SymbolTable.symbols_ st) ->
      is_nonterminal x = true -> is_nonterminal y = true -> name x = name y -> x = y;
  to_terminals : forall x y,
      In x (SymbolTable.symbols_ st) -> In y (SymbolTable.symbols_ st) ->
      is_terminal x = true -> is_terminal y = true ->
      name x = name y -> token_type x = token_type y -> x = y
}.

Lemma find_sym_insert_fresh (f : SymbolPtr -> bool) (x : SymbolPtr) (l : SymbolSet) :
  (forall y, In y l -> f y = false) -> f x = true ->
  (forall y, In y l -> addr y <> addr x) ->
  find f (sym_insert x l) = Some x.
Proof.
  unfold sym_insert. induction l as [|y l IH]; intros Hl Hx Hfresh; cbn [set_insert find].
  - now rewrite Hx.
  - destruct (ptr_ltb x y) eqn:H1; [cbn [find]; now rewrite Hx|].
    destruct (ptr_ltb y x) eqn:H2.
    + cbn [find]. rewrite (Hl y (or_introl eq_refl)).
      apply IH; [intros z Hz; apply Hl; now right | exact Hx |].
      intros z Hz. apply Hfresh. now right.
    + exfalso. unfold ptr_ltb in H1, H2. apply Nat.ltb_ge in H1, H2.
      apply (Hfresh y (or_introl eq_refl)). lia.
Qed.

Lemma fresh_spec (a : nat) (st : SymbolTable.t) :
  fresh a st = true -> forall y, In y (SymbolTable.symbols_ st) -> addr y <> a.
Proof.
  unfold fresh. rewrite forallb_forall. intros H y Hy.
  specialize (H y Hy). apply negb_true_iff in H. now apply Nat.eqb_neq.
Qed.

(** Adding a symbol that is neither special nor a duplicate keeps the
    invariants. *)
Lemma table_ok_insert (s : SymbolPtr) (st : SymbolTable.t) :
  table_ok st -> is_epsilon s = false -> is_end_of_input s = false ->
  (forall y, In y (SymbolTable.symbols_ st) -> is_nonterminal s = true ->
             is_nonterminal y = true -> name y <> name s) ->
  (forall y, In y (SymbolTable.symbols_ st) -> is_terminal s = true ->
             is_terminal y = true -> name y = name s -> token_type y <> token_type s) ->
  table_ok (SymbolTable.mk (sym_insert s (SymbolTable.symbols_ st))
                           (SymbolTable.epsilon_ st) (SymbolTable.end_of_input_ st)).
Proof.
  intros [Hsorted Heps Hend Heps1 Hend1 Hnt Ht] Hse Hsd Hnew_nt Hnew_t.
  assert (Hin : forall x, In x (sym_insert s (SymbolTable.symbols_ st)) ->
                          x = s \/ In x (SymbolTable.symbols_ st))
    by (intros x; apply set_insert_In).
  constructor; cbn [SymbolTable.symbols_ SymbolTable.epsilon_ SymbolTable.end_of_input_].
  - apply set_insert_sorted; [exact ptr_ltb_trans | exact Hsorted].
  - now apply set_insert_incl.
  - now apply set_insert_incl.
  - intros x Hx. destruct (Hin x Hx) as [->|Hold]; [|now apply Heps1].
    split; [congruence|]. intros ->.
    rewrite (proj2 (Heps1 _ Heps) eq_refl) in Hse. discriminate.
  - intros x Hx. destruct (Hin x Hx) as [->|Hold]; [|now apply Hend1].
    split; [congruence|]. intros ->.
    rewrite (proj2 (Hend1 _ Hend) eq_refl) in Hsd. discriminate.
  - intros x y Hx Hy Hxn Hyn Hname.
    destruct (Hin x Hx) as [->|Hx']; destruct (Hin y Hy) as [->|Hy']; auto.
    + exfalso. apply (Hnew_nt y Hy' Hxn Hyn). now symmetry.
    + exfalso. now apply (Hnew_nt x Hx' Hyn Hxn).
  - intros x y Hx Hy Hxt Hyt Hname Htt.
    destruct (Hin x Hx) as [->|Hx']; destruct (Hin y Hy) as [->|Hy']; auto.
    + exfalso. apply (Hnew_t y Hy' Hxt Hyt); now symmetry.
    + exfalso. now apply (Hnew_t x Hx' Hyt Hxt).
Qed.

Lemma built_table_ok (st : SymbolTable.t) : built st -> table_ok st.
Proof.
  induction 1 as [a_eps a_eoi Hne | a n tt st _ IH Hfresh | a n st _ IH Hfresh].
  - assert (Hsyms : forall x,
               In x (SymbolTable.symbols_ (SymbolTable.create a_eps a_eoi)) <->
               x = make_symbol a_eps "ε" EPSILON \/ x = make_symbol a_eoi "$" END_OF_INPUT).
    { intros x. unfold SymbolTable.create, sym_insert.
      cbn [SymbolTable.symbols_ set_insert]. unfold ptr_ltb. cbn [addr make_symbol].
      destruct (Nat.ltb_spec a_eoi a_eps); [cbn; intuition congruence|].
      destruct (Nat.ltb_spec a_eps a_eoi); [cbn; intuition congruence | lia]. }
    constructor.
    + unfold SymbolTable.create, sym_insert. cbn [SymbolTable.symbols_].
      repeat (apply set_insert_sorted; [exact ptr_ltb_trans|]). constructor.
    + apply Hsyms. now left.
    + apply Hsyms. now right.
    + intros x Hx. apply Hsyms in Hx as [->| ->]; cbn; unfold make_symbol; split; congruence.
    + intros x Hx. apply Hsyms in Hx as [->| ->]; cbn; unfold make_symbol; split; congruence.
    + intros x y Hx _ Hxn. apply Hsyms in Hx as [->| ->]; discriminate.
    + intros x y Hx _ Hxt. apply Hsyms in Hx as [->| ->]; discriminate.
  - unfold SymbolTable.get_terminal.
    destruct (find _ (SymbolTable.symbols_ st)) as [s|] eqn:Hfind; [exact IH|].
    cbn [snd]. apply table_ok_insert; try exact IH; try reflexivity.
    + intros y Hy Hs. discriminate.
    + intros y Hy _ Hyt Hname Htt. pose proof (find_none _ _ Hfind y Hy) as Hno.
      cbn beta in Hno. cbn [name token_type make_terminal_symbol] in Hname, Htt.
      rewrite Hname, String.eqb_refl, Hyt, Htt, Z.eqb_refl in Hno. discriminate.
  - unfold SymbolTable.get_nonterminal.
    destruct (find _ (SymbolTable.symbols_ st)) as [s|] eqn:Hfind; [exact IH|].
    cbn [snd]. apply table_ok_insert; try exact IH; try reflexivity.
    + intros y Hy _ Hyn Hname. pose proof (find_none _ _ Hfind y Hy) as Hno.
      cbn beta in Hno. cbn [name make_symbol] in Hname.
      rewrite Hname, String.eqb_refl, Hyn in Hno. discriminate.
    + intros y Hy Hs. discriminate.
Qed.

(** X6.  In every table that the interface can produce (the constructor
    followed by calls of [get_terminal] and [get_nonterminal], each new
    object at a fresh address), the epsilon and end-of-input symbols are
    members and the only symbols of their types, a name denotes at most one
    nonterminal, a name and a token type denote at most one terminal, and
    no two symbols share an address. *)
Theorem built_symbol_table_invariants (st : SymbolTable.t) :
  built st ->
  table_ok st
  /\ forall x y, In x (SymbolTable.symbols_ st) -> In y (SymbolTable.symbols_ st) ->
                 addr x = addr y -> x = y.
Proof.
  intros Hbuilt. pose proof (built_table_ok st Hbuilt) as Hok. split; [exact Hok|].
  pose proof (sorted_by_addr_NoDup _ (to_sorted _ Hok)) as Hnd.
  intros x y Hx Hy Haddr.
  apply In_nth_error in Hx as [i Hi]. apply In_nth_error in Hy as [j Hj].
  assert (Hij : i = j).
  { rewrite List.NoDup_nth_error in Hnd. apply Hnd.
    - rewrite length_map. apply nth_error_Some. now rewrite Hi.
    - rewrite !nth_error_map, Hi, Hj. cbn. now rewrite Haddr. }
  subst j. congruence.
Qed.

Lemma built_symbol_table_invariants_witness :
  table_ok (snd Examples.num_st)
  /\ forall x y, In x (SymbolTable.symbols_ (snd Examples.num_st)) ->
                 In y (SymbolTable.symbols_ (snd Examples.num_st)) ->
                 addr x = addr y -> x = y.
Proof.
  apply (built_symbol_table_invariants (snd Examples.num_st)).
  unfold Examples.num_st, Examples.plus_st, Examples.T_st, Examples.E_st.
  apply built_terminal; [|reflexivity].
  apply built_terminal; [|reflexivity].
  apply built_nonterminal; [|reflexivity].
  apply built_nonterminal; [|reflexivity].
  apply built_create. discriminate.
Defined.

(** X7.  [get_nonterminal] and [get_terminal] are get-or-create: the
    symbol they return is in the table afterwards and has the name (and
    token type) asked for, and asking again returns the same symbol and
    leaves the table as it is. *)
Theorem get_or_create_returns_the_same_symbol
        (a a' : nat) (n : string) (tt : TokenType) (st : SymbolTable.t) :
  fresh a st = true ->
  (let '(s, st1) := SymbolTable.get_nonterminal a n st in
   In s (SymbolTable.symbols_ st1) /\ name s = n /\ is_nonterminal s = true
   /\ SymbolTable.get_nonterminal a' n st1 = (s, st1))
  /\ (let '(s, st1) := SymbolTable.get_terminal a n tt st in
      In s (SymbolTable.symbols_ st1) /\ name s = n /\ is_terminal s = true
      /\ token_type s = tt
      /\ SymbolTable.get_terminal a' n tt st1 = (s, st1)).
Proof.
  intros Hfresh. pose proof (fresh_spec a st Hfresh) as Haddr. split.
  - unfold SymbolTable.get_nonterminal at 1.
    destruct (find _ (SymbolTable.symbols_ st)) as [s|] eqn:Hfind.
    + destruct (find_some _ _ Hfind) as [Hin Hp].
      apply andb_true_iff in Hp as [Hname Hnt]. apply String.eqb_eq in Hname.
      repeat split; auto. unfold SymbolTable.get_nonterminal. now rewrite Hfind.
    + split; [|split; [reflexivity|split; [reflexivity|]]].
      * cbn [SymbolTable.symbols_].
        destruct (set_insert_has ptr_ltb ptr_ltb_irrefl (make_symbol a n NONTERMINAL)
                    (SymbolTable.symbols_ st)) as (y & Hy & Hkey).
        apply set_insert_In in Hy as Hy'. destruct Hy' as [->|Hold]; [exact Hy|].
        apply equiv_key_ptr in Hkey. exfalso. apply (Haddr y Hold). now symmetry.
      * unfold SymbolTable.get_nonterminal. cbn [SymbolTable.symbols_].
        rewrite find_sym_insert_fresh; [reflexivity | | |].
        -- exact (find_none _ _ Hfind).
        -- cbn. now rewrite String.eqb_refl.
        -- exact Haddr.
  - unfold SymbolTable.get_terminal at 1.
    destruct (find _ (SymbolTable.symbols_ st)) as [s|] eqn:Hfind.
    + destruct (find_some _ _ Hfind) as [Hin Hp].
      apply andb_true_iff in Hp as [Hp Htt]. apply andb_true_iff in Hp as [Hname Ht].
      apply String.eqb_eq in Hname. apply Z.eqb_eq in Htt.
      repeat split; auto. unfold SymbolTable.get_terminal. now rewrite Hfind.
    + split; [|split; [reflexivity|split; [reflexivity|split; [reflexivity|]]]].
      * cbn [SymbolTable.symbols_].
        destruct (set_insert_has ptr_ltb ptr_ltb_irrefl (make_terminal_symbol a n tt)
                    (SymbolTable.symbols_ st)) as (y & Hy & Hkey).
        apply set_insert_In in Hy as Hy'. destruct Hy' as [->|Hold]; [exact Hy|].
        apply equiv_key_ptr in Hkey. exfalso. apply (Haddr y Hold). now symmetry.
      * unfold SymbolTable.get_terminal. cbn [SymbolTable.symbols_].
        rewrite find_sym_insert_fresh; [reflexivity | | |].
        -- exact (find_none _ _ Hfind).
        -- cbn. now rewrite String.eqb_refl, Z.eqb_refl.
        -- exact Haddr.
Qed.

Lemma get_or_create_returns_the_same_symbol_witness :
  (let '(s, st1) := SymbolTable.get_nonterminal 10 "E" (SymbolTable.create 1 2) in
   In s (SymbolTable.symbols_ st1) /\ name s = "E"%string /\ is_nonterminal s = true
   /\ SymbolTable.get_nonterminal 11 "E" st1 = (s, st1))
  /\ (let '(s, st1) :=
        SymbolTable.get_terminal 10 "E" TokenType.PLUS (SymbolTable.create 1 2) in
      In s (SymbolTable.symbols_ st1) /\ name s = "E"%string /\ is_terminal s = true
      /\ token_type s = TokenType.PLUS
      /\ SymbolTable.get_terminal 11 "E" TokenType.PLUS st1 = (s, st1)).
Proof.
  apply (get_or_create_returns_the_same_symbol 10 11 "E" TokenType.PLUS
           (SymbolTable.create 1 2)).
  reflexivity.
Defined.

(** ** Grammar::is_valid *)

Lemma sym_mem_addr (x y : SymbolPtr) (s : SymbolSet) :
  addr x = addr y -> sym_mem x s = sym_mem y s.
Proof.
  intros Hxy. unfold sym_mem, set_mem. induction s as [|z s IH]; cbn; [reflexivity|].
  rewrite IH. f_equal. unfold equiv_key, ptr_ltb. now rewrite Hxy.
Qed.

Lemma sym_mem_spec (x : SymbolPtr) (s : SymbolSet) :
  sym_mem x s = true <-> exists y, In y s /\ addr x = addr y.
Proof.
  unfold sym_mem, set_mem. rewrite existsb_exists.
  split; intros (y & Hy & H); exists y; (split; [exact Hy|]); now apply equiv_key_ptr.
Qed.

Lemma sym_mem_insert (x y : SymbolPtr) (s : SymbolSet) :
  sym_mem x (sym_insert y s) = true <-> addr x = addr y \/ sym_mem x s = true.
Proof.
  rewrite !sym_mem_spec. unfold sym_insert. split.
  - intros (z & Hz & Hxz). apply set_insert_In in Hz as [->|Hz]; [now left|].
    right. now exists z.
  - intros [Hxy|(z & Hz & Hxz)].
    + destruct (set_insert_has ptr_ltb ptr_ltb_irrefl y s) as (z & Hz & Hkey).
      exists z. split; [exact Hz|]. apply equiv_key_ptr in Hkey. congruence.
    + exists z. split; [now apply set_insert_incl | exact Hxz].
Qed.

(** A loop that inserts the elements that pass a test. *)
Lemma fold_insert_if (keep : SymbolPtr -> bool) (l : list SymbolPtr) :
  forall acc,
    let r := fold_left (fun a s => if keep s then sym_insert s a else a) l acc in
    (forall u, In u r -> In u acc \/ (In u l /\ keep u = true))
    /\ (forall x, sym_mem x r = true <->
                  sym_mem x acc = true
                  \/ exists s, In s l /\ keep s = true /\ addr x = addr s).
Proof.
  induction l as [|s l IH]; intros acc; cbn [fold_left].
  - split; [auto|]. intros x. split; [auto|]. intros [H|(s & [] & _)]. exact H.
  - destruct (IH (if keep s then sym_insert s acc else acc)) as [H1 H2]. split.
    + intros u Hu. destruct (H1 u Hu) as [Hacc|[Hl Hk]]; [|right; split; [now right | exact Hk]].
      destruct (keep s) eqn:Hks; [|now left].
      apply set_insert_In in Hacc as [->|Hacc]; [right; split; [now left | exact Hks] | now left].
    + intros x. rewrite H2. destruct (keep s) eqn:Hks.
      * rewrite sym_mem_insert. split.
        -- intros [[Hxs|Hacc]|(s' & Hs' & Hk & Hx)].
           ++ right. exists s. repeat split; auto. now left.
           ++ now left.
           ++ right. exists s'. repeat split; auto. now right.
        -- intros [Hacc|(s' & [<-|Hs'] & Hk & Hx)].
           ++ left. now right.
           ++ left. now left.
           ++ right. exists s'. auto.
      * split.
        -- intros [Hacc|(s' & Hs' & Hk & Hx)]; [now left|].
           right. exists s'. repeat split; auto. now right.
        -- intros [Hacc|(s' & [<-|Hs'] & Hk & Hx)]; [now left | congruence |].
           right. exists s'. auto.
Qed.

Lemma validation_sets (prods : list ProductionPtr) :
  forall d u,
    fold_left (fun (st : SymbolSet * SymbolSet) prod =>
                 (sym_insert (lhs prod) (fst st),
                  fold_left (fun used symbol =>
                               if is_nonterminal symbol then sym_insert symbol used
                               else used)
                            (rhs prod) (snd st)))
              prods (d, u)
    = (fold_left (fun a s => sym_insert s a) (map lhs prods) d,
       fold_left (fun a s => if is_nonterminal s then sym_insert s a else a)
                 (flat_map rhs prods) u).
Proof.
  induction prods as [|p prods IH]; intros d u; cbn [fold_left map flat_map fst snd].
  - reflexivity.
  - rewrite IH, fold_left_app. reflexivity.
Qed.

Lemma errors_fold (defined used : SymbolSet) :
  forall errors,
    fold_left (fun errors symbol =>
                 if sym_mem symbol defined then errors
                 else errors ++ [String.append "Undefined nonterminal: " (name symbol)])
              used errors = []
    <-> errors = [] /\ forall u, In u used -> sym_mem u defined = true.
Proof.
  induction used as [|s used IH]; intros errors; cbn [fold_left].
  - split; [intros ->; split; [reflexivity | intros u []] | now intros [-> _]].
  - rewrite IH. destruct (sym_mem s defined) eqn:Hs.
    + split; intros [He Hu]; (split; [exact He|]).
      * intros u [<-|Hin]; auto.
      * intros u Hin. apply Hu. now right.
    + split.
      * intros [He _]. now apply app_eq_nil in He as [_ He].
      * intros [_ Hu]. rewrite (Hu s (or_introl eq_refl)) in Hs. discriminate.
Qed.

(** X8.  [is_valid] holds exactly when a start symbol is set, there is at
    least one production, and every nonterminal that occurs in a
    right-hand side is the left-hand side of some production (compared by
    address).  Nothing else is checked: not that the start symbol has a
    production, nor the types of the left-hand sides. *)
Theorem is_valid_iff (g : Grammar.t) :
  Grammar.is_valid g = true
  <-> Grammar.start_symbol_ g <> None
      /\ Grammar.productions_ g <> []
      /\ forall prod symbol,
           In prod (Grammar.productions_ g) -> In symbol (rhs prod) ->
           is_nonterminal symbol = true ->
           exists q, In q (Grammar.productions_ g) /\ addr (lhs q) = addr symbol.
Proof.
  unfold Grammar.is_valid, Grammar.get_validation_errors.
  rewrite validation_sets.
  destruct (fold_insert_if (fun _ => true) (map lhs (Grammar.productions_ g)) [])
    as [_ Hdefined].
  destruct (fold_insert_if is_nonterminal (flat_map rhs (Grammar.productions_ g)) [])
    as [Hused1 Hused2].
  cbv beta iota zeta in Hdefined, Hused1, Hused2.
  set (defined := fold_left (fun a s => sym_insert s a)
                            (map lhs (Grammar.productions_ g)) []) in *.
  set (used := fold_left (fun a s => if is_nonterminal s then sym_insert s a else a)
                         (flat_map rhs (Grammar.productions_ g)) []) in *.
  assert (Hdef : forall x, sym_mem x defined = true
                           <-> exists q, In q (Grammar.productions_ g)
                                         /\ addr (lhs q) = addr x).
  { intros x. rewrite Hdefined. split.
    - intros [H|(s & Hs & _ & Hx)]; [discriminate|].
      apply in_map_iff in Hs as (q & <- & Hq). exists q. auto.
    - intros (q & Hq & Hx). right. exists (lhs q).
      split; [now apply in_map | auto]. }
  match goal with
  | |- match ?e with [] => true | _ :: _ => false end = true <-> _ =>
      assert (Hnil : match e with [] => true | _ :: _ => false end = true <-> e = [])
        by (destruct e; split; congruence);
      rewrite Hnil; clear Hnil
  end.
  rewrite errors_fold. split.
  - intros [Herrors Hall].
    destruct (Grammar.start_symbol_ g) eqn:Hstart;
      destruct (Grammar.productions_ g) eqn:Hprods; try discriminate.
    split; [discriminate|]. split; [discriminate|].
    intros prod symbol Hprod Hsym Hnt.
    assert (Hmem : sym_mem symbol used = true).
    { apply Hused2. right. exists symbol. split; [|auto].
      apply in_flat_map. exists prod. auto. }
    apply sym_mem_spec in Hmem as (u & Hu & Haddr).
    apply Hdef. rewrite (sym_mem_addr symbol u _ Haddr). now apply Hall.
  - intros (Hstart & Hprods & Hall). split.
    + destruct (Grammar.start_symbol_ g); [|congruence].
      destruct (Grammar.productions_ g); [congruence | reflexivity].
    + intros u Hu. destruct (Hused1 u Hu) as [[]|[Hin Hnt]].
      apply in_flat_map in Hin as (prod & Hprod & Hsym).
      apply Hdef. now apply (Hall prod u).
Qed.

(** ** The closure of an item set *)

(** An item set is closed when, for every item with a nonterminal after
    the dot, it holds the initial item of every production of that
    nonterminal. *)
Definition closed (g : Grammar.t) (s : LR0ItemSet) : Prop :=
  forall item X prod,
    In item s -> LR0Item.next_symbol item = Some X -> is_nonterminal X = true ->
    In prod (Grammar.productions_for X g) ->
    item_mem (LR0Item.mk prod 0) s = true.

(** The same with membership of the very objects. *)
Definition closed_in (g : Grammar.t) (S : list LR0Item.t) : Prop :=
  forall item X prod,
    In item S -> LR0Item.next_symbol item = Some X -> is_nonterminal X = true ->
    In prod (Grammar.productions_for X g) ->
    In (LR0Item.mk prod 0) S.

(** A round that reports no change changed nothing, and then the set is
    closed. *)
Lemma closure_pass_unchanged (g : Grammar.t) (result r : LR0ItemSet) :
  LR0Automaton.closure_pass g result = (r, false) -> r = result /\ closed g result.
Proof.
  unfold LR0Automaton.closure_pass. cbv zeta.
  match goal with |- context [fold_left ?f result ?a] => set (visit := f) end.
  set (add_prod := fun (acc : LR0ItemSet * bool) (prod : ProductionPtr) =>
                     if negb (item_mem (LR0Item.mk prod 0) result)
                        && negb (item_mem (LR0Item.mk prod 0) (fst acc))
                     then (item_insert (LR0Item.mk prod 0) (fst acc), true) else acc).
  assert (Hadd_mono : forall prods acc, snd acc = true ->
                                        snd (fold_left add_prod prods acc) = true).
  { induction prods as [|p prods IH]; intros acc Hacc; cbn [fold_left]; [exact Hacc|].
    apply IH. unfold add_prod. destruct (_ && _); [reflexivity | exact Hacc]. }
  assert (Hadd : forall prods acc,
             snd (fold_left add_prod prods acc) = false ->
             fold_left add_prod prods acc = acc
             /\ forall prod, In prod prods ->
                             item_mem (LR0Item.mk prod 0) result
                             || item_mem (LR0Item.mk prod 0) (fst acc) = true).
  { induction prods as [|p prods IH]; intros acc Hflag; cbn [fold_left] in *.
    - split; [reflexivity | intros prod []].
    - destruct (negb (item_mem (LR0Item.mk p 0) result)
                && negb (item_mem (LR0Item.mk p 0) (fst acc))) eqn:Hcond.
      + exfalso. unfold add_prod at 2 in Hflag. rewrite Hcond in Hflag.
        rewrite Hadd_mono in Hflag; [discriminate | reflexivity].
      + assert (Hstep : add_prod acc p = acc) by (unfold add_prod; now rewrite Hcond).
        rewrite Hstep in *. destruct (IH acc Hflag) as [Heq Hall].
        split; [exact Heq|]. intros prod [<-|Hin]; [|now apply Hall].
        apply andb_false_iff in Hcond as [H|H]; apply negb_false_iff in H; rewrite H;
          [reflexivity | apply orb_true_r]. }
  assert (Hvisit_step : forall acc item, snd acc = true -> snd (visit acc item) = true).
  { intros acc item Hacc. unfold visit.
    destruct (LR0Item.next_symbol item) as [X|]; [|exact Hacc].
    destruct (is_nonterminal X); [|exact Hacc]. now apply Hadd_mono. }
  assert (Hvisit_mono : forall l acc, snd acc = true -> snd (fold_left visit l acc) = true).
  { induction l as [|i l IH]; intros acc Hacc; cbn [fold_left]; [exact Hacc|].
    apply IH. now apply Hvisit_step. }
  assert (Hvisit : forall l acc,
             snd (fold_left visit l acc) = false ->
             fold_left visit l acc = acc
             /\ forall item X prod,
                 In item l -> LR0Item.next_symbol item = Some X ->
                 is_nonterminal X = true -> In prod (Grammar.productions_for X g) ->
                 item_mem (LR0Item.mk prod 0) result
                 || item_mem (LR0Item.mk prod 0) (fst acc) = true).
  { induction l as [|i l IH]; intros acc Hflag; cbn [fold_left] in *.
    - split; [reflexivity | intros item X prod []].
    - destruct (snd (visit acc i)) eqn:Hsnd.
      { rewrite Hvisit_mono in Hflag; [discriminate | exact Hsnd]. }
      assert (Hstep : visit acc i = acc
                      /\ forall X prod,
                          LR0Item.next_symbol i = Some X -> is_nonterminal X = true ->
                          In prod (Grammar.productions_for X g) ->
                          item_mem (LR0Item.mk prod 0) result
                          || item_mem (LR0Item.mk prod 0) (fst acc) = true).
      { unfold visit in Hsnd |- *.
        destruct (LR0Item.next_symbol i) as [X|]; [|split; [reflexivity | discriminate]].
        destruct (is_nonterminal X) eqn:HX.
        - destruct (Hadd _ _ Hsnd) as [Heq Hall]. split; [exact Heq|].
          intros X' prod [= <-] _. apply Hall.
        - split; [reflexivity|]. intros X' prod [= <-]. congruence. }
      destruct Hstep as [Heq Hi]. rewrite Heq in *.
      destruct (IH acc Hflag) as [Hfold Hall]. split; [exact Hfold|].
      intros item X prod [<-|Hin]; [apply Hi | now apply Hall]. }
  destruct (fold_left visit result ([], false)) as [new_items changed] eqn:Hfold.
  intros [= <- ->].
  destruct (Hvisit result ([], false)) as [Heq Hall]; [now rewrite Hfold|].
  rewrite Hfold in Heq. injection Heq as ->. split; [reflexivity|].
  intros item X prod Hitem HX Hnt Hprod.
  specialize (Hall item X prod Hitem HX Hnt Hprod). cbn in Hall.
  now rewrite orb_false_r in Hall.
Qed.

(** A round adds only what every closed superset holds. *)
Lemma closure_pass_least (g : Grammar.t) (result : LR0ItemSet) (S : list LR0Item.t) :
  closed_in g S -> (forall i, In i result -> In i S) ->
  forall i, In i (fst (LR0Automaton.closure_pass g result)) -> In i S.
Proof.
  intros Hclosed Hincl. unfold LR0Automaton.closure_pass. cbv zeta.
  match goal with
  | |- context [fold_left ?f result ?a] =>
      pose proof (fold_left_invariant f (fun acc => forall i, In i (fst acc) -> In i S)
                    result a) as Hinv;
      destruct (fold_left f result a) as [new_items changed]
  end.
  cbn [fst] in *. intros i Hi. apply set_insert_all_In in Hi as [Hi|Hi]; [|now apply Hincl].
  revert i Hi. apply Hinv; [|intros i []].
  intros acc item Hitem Hacc.
  destruct (LR0Item.next_symbol item) as [X|] eqn:HX; [|exact Hacc].
  destruct (is_nonterminal X) eqn:Hnt; [|exact Hacc].
  apply fold_left_invariant; [|exact Hacc].
  intros [new ch] prod Hprod Hnew. cbn [fst snd] in *.
  destruct (_ && _); [|exact Hnew]. cbn [fst].
  intros i Hi. apply set_insert_In in Hi as [->|Hi]; [|now apply Hnew].
  apply (Hclosed item X prod); auto.
Qed.

(** A closed set is left as it is by one round. *)
Lemma closure_pass_closed (g : Grammar.t) (s : LR0ItemSet) :
  closed g s -> LR0Automaton.closure_pass g s = (s, false).
Proof.
  intros Hclosed. unfold LR0Automaton.closure_pass. cbv zeta.
  match goal with
  | |- context [fold_left ?f s ?a] =>
      pose proof (fold_left_invariant f (fun acc => acc = ([], false)) s a) as Hinv
  end.
  rewrite Hinv; [reflexivity | | reflexivity].
  intros acc item Hitem ->.
  destruct (LR0Item.next_symbol item) as [X|] eqn:HX; [|reflexivity].
  destruct (is_nonterminal X) eqn:Hnt; [|reflexivity].
  apply fold_left_invariant; [|reflexivity].
  intros acc prod Hprod ->. cbn [fst].
  now rewrite (Hclosed item X prod Hitem HX Hnt Hprod).
Qed.

(** X9.  For a key-ordered set of items of the grammar, [closure]
    returns within one round per production and one more.  Its result
    contains the given items, is closed, is contained in every closed set
    that contains the given items, holds items of the grammar only, and is
    a fixed point: the closure of the result is the result. *)
Theorem closure_is_the_least_closed_superset (fuel : nat) (items : LR0ItemSet)
        (g : Grammar.t) :
  items_ok g items -> length (Grammar.productions_ g) < fuel ->
  exists r,
    LR0Automaton.closure fuel items g = Val r
    /\ items_ok g r
    /\ (forall i, In i items -> In i r)
    /\ closed g r
    /\ (forall S, closed_in g S -> (forall i, In i items -> In i S) ->
                  forall i, In i r -> In i S)
    /\ LR0Automaton.closure fuel r g = Val r.
Proof.
  intros Hok Hfuel. unfold LR0Automaton.closure.
  destruct (while_changed_terminates
              (fun result => Val (LR0Automaton.closure_pass g result))
              (fun s => items_ok g s
                        /\ (forall i, In i items -> In i s)
                        /\ (forall S, closed_in g S -> (forall i, In i items -> In i S) ->
                                      forall i, In i s -> In i S))
              (closure_measure g) (length (Grammar.productions_ g)))
    with (fuel := fuel) (s := items) as (r & s0 & Hrun & (Hr1 & Hr2 & Hr3) & _ & Hlast).
  - intros s _. unfold closure_measure. apply List.filter_length_le.
  - intros s (Hs1 & Hs2 & Hs3).
    destruct (closure_pass_spec g s Hs1) as (r' & changed & Hpass & Hr' & Hincl & Hlt).
    exists r', changed. rewrite Hpass. split; [reflexivity|].
    split; [|exact Hlt]. split; [exact Hr'|].
    split; [intros i Hi; apply Hincl, Hs2, Hi|].
    intros S HS HI i Hi.
    apply (closure_pass_least g s S HS (Hs3 S HS HI)). now rewrite Hpass.
  - split; [exact Hok|]. split; auto.
  - lia.
  - injection Hlast as Hlast. apply closure_pass_unchanged in Hlast as [-> Hclosed].
    exists s0. split; [exact Hrun|]. split; [exact Hr1|]. split; [exact Hr2|].
    split; [exact Hclosed|]. split; [exact Hr3|].
    destruct fuel as [|fuel]; [lia|]. cbn [while_changed]. cbn beta.
    rewrite (closure_pass_closed g s0 Hclosed). reflexivity.
Qed.

Lemma closure_is_the_least_closed_superset_witness :
  exists r,
    LR0Automaton.closure 4
      [LR0Item.mk (mkProduction 22 (make_symbol 15 "S'" NONTERMINAL) [ExamplesOrder.S]) 0]
      ExamplesOrder.grammar = Val r
    /\ items_ok ExamplesOrder.grammar r
    /\ (forall i,
           In i [LR0Item.mk (mkProduction 22 (make_symbol 15 "S'" NONTERMINAL)
                                          [ExamplesOrder.S]) 0] -> In i r)
    /\ closed ExamplesOrder.grammar r
    /\ (forall S, closed_in ExamplesOrder.grammar S ->
                  (forall i,
                      In i [LR0Item.mk (mkProduction 22 (make_symbol 15 "S'" NONTERMINAL)
                                                     [ExamplesOrder.S]) 0] -> In i S) ->
                  forall i, In i r -> In i S)
    /\ LR0Automaton.closure 4 r ExamplesOrder.grammar = Val r.
Proof.
  apply (closure_is_the_least_closed_superset 4
           [LR0Item.mk (mkProduction 22 (make_symbol 15 "S'" NONTERMINAL) [ExamplesOrder.S]) 0]
           ExamplesOrder.grammar).
  - split; [repeat constructor|]. intros i [<-|[]]. split; [left; reflexivity | cbn; lia].
  - vm_compute. lia.
Defined.

(** ** GOTO and the transitions of the automaton *)

Section sorted_append.
Context {A : Type}.
Variable lt : A -> A -> bool.
Hypothesis lt_trans : forall a b c, lt a b = true -> lt b c = true -> lt a c = true.
Hypothesis lt_irrefl : forall a, lt a a = false.

Lemma sorted_by_app (a b : list A) :
  sorted_by lt (a ++ b)
  <-> sorted_by lt a /\ sorted_by lt b
      /\ forall x y, In x a -> In y b -> lt x y = true.
Proof using Type.
  unfold sorted_by. induction a as [|z a IH]; cbn [app].
  - split; [intros H; repeat split; [constructor | exact H | intros x y []] | tauto].
  - split.
    + intros H. inversion H as [|? ? Hs Hall]; subst. apply IH in Hs as (Ha & Hb & Hab).
      rewrite List.Forall_forall in Hall.
      split; [|split; [exact Hb|]].
      * constructor; [exact Ha|]. apply List.Forall_forall. intros x Hx.
        apply Hall. apply in_or_app. now left.
      * intros x y [<-|Hx] Hy; [apply Hall, in_or_app; now right | now apply Hab].
    + intros (Ha & Hb & Hab). inversion Ha as [|? ? Hs Hall]; subst.
      rewrite List.Forall_forall in Hall. constructor.
      * apply IH. split; [exact Hs|]. split; [exact Hb|].
        intros x y Hx Hy. apply Hab; [now right | exact Hy].
      * apply List.Forall_forall. intros x Hx. apply in_app_or in Hx as [Hx|Hx].
        -- now apply Hall.
        -- apply Hab; [now left | exact Hx].
Qed.

(** Inserting a key above all the keys of the set appends it. *)
Lemma set_insert_append (x : A) (s : list A) :
  (forall y, In y s -> lt y x = true) -> set_insert lt x s = s ++ [x].
Proof using lt_trans lt_irrefl.
  induction s as [|y s IH]; intros Hs; cbn [set_insert app]; [reflexivity|].
  pose proof (Hs y (or_introl eq_refl)) as Hyx.
  destruct (lt x y) eqn:Hxy.
  - pose proof (lt_trans _ _ _ Hxy Hyx) as H. rewrite lt_irrefl in H. discriminate.
  - rewrite Hyx. f_equal. apply IH. intros z Hz. apply Hs. now right.
Qed.

(** Copying the elements that pass a test from a set into a new set, in
    the order of the set, gives the filtered list. *)
Lemma fold_insert_filter (c : A -> bool) (l : list A) :
  forall acc, sorted_by lt (acc ++ l) ->
              fold_left (fun r i => if c i then set_insert lt i r else r) l acc
              = acc ++ List.filter c l.
Proof using lt_trans lt_irrefl.
  induction l as [|i l IH]; intros acc Hsorted; cbn [fold_left List.filter].
  - now rewrite app_nil_r.
  - apply sorted_by_app in Hsorted as (Ha & Hb & Hab).
    destruct (c i).
    + rewrite set_insert_append by (intros y Hy; apply Hab; [exact Hy | now left]).
      rewrite IH; [now rewrite <- app_assoc|].
      rewrite <- app_assoc. cbn [app]. apply sorted_by_app. auto.
    + apply IH. apply sorted_by_app. split; [exact Ha|].
      split; [eapply sorted_by_tail, Hb|].
      intros x y Hx Hy. apply Hab; [exact Hx | now right].
Qed.
End sorted_append.

(** The item set that [goto_set] closes. *)
Definition goto_kernel (items : LR0ItemSet) (symbol : SymbolPtr) : LR0ItemSet :=
  fold_left (fun result item =>
               if optr_eqb (LR0Item.next_symbol item) (Some symbol)
               then item_insert (LR0Item.advance item) result else result)
            items [].

Lemma fold_left_filter {A B : Type} (f : B -> A -> B) (c : A -> bool) (l : list A) :
  forall acc, fold_left f (List.filter c l) acc
              = fold_left (fun r i => if c i then f r i else r) l acc.
Proof.
  induction l as [|i l IH]; intros acc; cbn [List.filter fold_left]; [reflexivity|].
  destruct (c i); [cbn [fold_left]|]; apply IH.
Qed.

(** The constructor computes GOTO in two loops; on a key-ordered item set
    they give the set that [goto_set] closes. *)
Lemma items_for_symbol_kernel (symbol : SymbolPtr) (s : LR0State.t) :
  sorted_by LR0Item.ltb (LR0State.items s) ->
  fold_left (fun acc item => item_insert (LR0Item.advance item) acc)
            (LR0State.get_items_for_symbol symbol s) []
  = goto_kernel (LR0State.items s) symbol.
Proof.
  intros Hsorted.
  pose proof (fold_insert_filter LR0Item.ltb item_ltb_trans item_ltb_irrefl
                (fun item => optr_eqb (LR0Item.next_symbol item) (Some symbol))
                (LR0State.items_ s) [] Hsorted) as Hfilter.
  cbn [app] in Hfilter.
  transitivity (fold_left (fun acc item => item_insert (LR0Item.advance item) acc)
                  (List.filter
                     (fun item => optr_eqb (LR0Item.next_symbol item) (Some symbol))
                     (LR0State.items_ s)) []).
  - f_equal. exact Hfilter.
  - apply fold_left_filter.
Qed.

Lemma goto_kernel_addr (items : LR0ItemSet) (X Y : SymbolPtr) :
  addr X = addr Y -> goto_kernel items X = goto_kernel items Y.
Proof.
  intros Hxy. unfold goto_kernel. generalize (@nil LR0Item.t).
  assert (H : forall o, optr_eqb o (Some X) = optr_eqb o (Some Y)).
  { intros [z|]; [|reflexivity]. cbn. unfold ptr_eqb. now rewrite Hxy. }
  induction items as [|i items IH]; intros acc; cbn [fold_left]; [reflexivity|].
  rewrite H. apply IH.
Qed.

(** The entry [(i, X) -> j] of the transition map is right: [i] and [j]
    are ids of states, [X] stands after the dot in state [i], and state
    [j] holds the items of [goto_set] for state [i] and [X]. *)
Definition has_transition (fuel : nat) (g : Grammar.t) (a : LR0Automaton.t)
           (i : Z) (X : SymbolPtr) (j : Z) : Prop :=
  exists si sj r,
    LR0Automaton.get_state i a = Some si /\ LR0State.id si = i
    /\ LR0Automaton.get_state j a = Some sj /\ LR0State.id sj = j
    /\ (exists Y, In Y (LR0State.get_transition_symbols si) /\ addr Y = addr X)
    /\ LR0Automaton.goto_set fuel (LR0State.items si) X g = Val r
    /\ set_eqb LR0Item.eqb (LR0State.items sj) r = true.

Definition transitions_sound (fuel : nat) (g : Grammar.t) (a : LR0Automaton.t) : Prop :=
  forall i X j, LR0Automaton.transitions_ a !! (i, addr X) = Some j ->
                has_transition fuel g a i X j.

(** All the transitions of the state [s] are in the map. *)
Definition state_done (a : LR0Automaton.t) (s : LR0State.t) : Prop :=
  forall X, In X (LR0State.get_transition_symbols s) ->
            is_Some (LR0Automaton.transitions_ a !! (LR0State.id s, addr X)).

Lemma get_state_nth (a : LR0Automaton.t) (k : nat) (s : LR0State.t) :
  nth_error (LR0Automaton.states_ a) k = Some s ->
  LR0Automaton.get_state (Z.of_nat k) a = Some s.
Proof.
  intros Hk. unfold LR0Automaton.get_state.
  assert (k < length (LR0Automaton.states_ a)) by (apply nth_error_Some; congruence).
  destruct (Z.ltb_spec (Z.of_nat k) 0); [lia|].
  destruct (Z.leb_spec (Z.of_nat (length (LR0Automaton.states_ a))) (Z.of_nat k)); [lia|].
  cbn [orb]. now rewrite Nat2Z.id.
Qed.

Lemma in_states_get_state (g : Grammar.t) (s0 s : LR0State.t) (a : LR0Automaton.t) :
  automaton_ok g s0 a -> In s (LR0Automaton.states_ a) ->
  LR0Automaton.get_state (LR0State.id s) a = Some s.
Proof.
  intros Hok Hin. apply In_nth_error in Hin as [k Hk].
  rewrite (ao_ids _ _ _ Hok k s Hk). now apply get_state_nth.
Qed.

Lemma get_state_app (a a' : LR0Automaton.t) (new : list LR0State.t) (i : Z)
      (s : LR0State.t) :
  LR0Automaton.states_ a' = LR0Automaton.states_ a ++ new ->
  LR0Automaton.get_state i a = Some s -> LR0Automaton.get_state i a' = Some s.
Proof.
  unfold LR0Automaton.get_state. intros ->.
  destruct (Z.ltb_spec i 0); [discriminate|].
  destruct (Z.leb_spec (Z.of_nat (length (LR0Automaton.states_ a))) i); [discriminate|].
  cbn [orb]. intros Hs. rewrite length_app.
  destruct (Z.leb_spec (Z.of_nat (length (LR0Automaton.states_ a) + length new)) i); [lia|].
  rewrite nth_error_app1 by lia. exact Hs.
Qed.

Lemma has_transition_app (fuel : nat) (g : Grammar.t) (a a' : LR0Automaton.t)
      (new : list LR0State.t) (i : Z) (X : SymbolPtr) (j : Z) :
  LR0Automaton.states_ a' = LR0Automaton.states_ a ++ new ->
  has_transition fuel g a i X j -> has_transition fuel g a' i X j.
Proof.
  intros Hstates (si & sj & r & H1 & H2 & H3 & H4 & H5).
  exists si, sj, r. split; [eapply get_state_app; eauto|]. split; [exact H2|].
  split; [eapply get_state_app; eauto|]. split; [exact H4 | exact H5].
Qed.

Lemma set_eqb_refl (s : LR0ItemSet) : set_eqb LR0Item.eqb s s = true.
Proof. now apply set_eqb_keys. Qed.

Lemma transition_symbol_addr (s : LR0State.t) (X : SymbolPtr) :
  In X (LR0State.get_transition_symbols s) ->
  exists Y, In Y (LR0State.get_transition_symbols s) /\ addr Y = addr X.
Proof. intros H. now exists X. Qed.

(** One transition keeps the entries right and adds the entry of the
    symbol. *)
Lemma process_symbol_trans (fuel : nat) (g : Grammar.t) (s0 current_state : LR0State.t)
      (a a' : LR0Automaton.t) (work_queue wq' : list LR0State.t) (symbol : SymbolPtr) :
  LR0Automaton.process_symbol fuel g current_state (a, work_queue) symbol = Val (a', wq') ->
  automaton_ok g s0 a -> In current_state (LR0Automaton.states_ a) ->
  In symbol (LR0State.get_transition_symbols current_state) ->
  transitions_sound fuel g a ->
  transitions_sound fuel g a'
  /\ (forall k, is_Some (LR0Automaton.transitions_ a !! k) ->
                is_Some (LR0Automaton.transitions_ a' !! k))
  /\ is_Some (LR0Automaton.transitions_ a' !! (LR0State.id current_state, addr symbol)).
Proof.
  intros Hrun Hok Hcur Hsym Hsound. unfold LR0Automaton.process_symbol in Hrun.
  destruct (LR0Automaton.closure fuel _ g) as [r| | |] eqn:Hclosure; try discriminate.
  cbn [res_bind] in Hrun.
  rewrite items_for_symbol_kernel in Hclosure by apply (ao_items _ _ _ Hok _ Hcur).
  assert (Hgoto : forall X, addr X = addr symbol ->
                            LR0Automaton.goto_set fuel (LR0State.items current_state) X g
                            = Val r).
  { intros X HX. unfold LR0Automaton.goto_set.
    change (LR0Automaton.closure fuel (goto_kernel (LR0State.items current_state) X) g
            = Val r).
    now rewrite (goto_kernel_addr _ X symbol HX). }
  assert (Hnew : forall (target : LR0State.t) (states' : list LR0State.t) new,
             states' = LR0Automaton.states_ a ++ new ->
             (forall a1, LR0Automaton.states_ a1 = states' ->
                         LR0Automaton.get_state (LR0State.id current_state) a1
                         = Some current_state
                         /\ LR0Automaton.get_state (LR0State.id target) a1 = Some target) ->
             set_eqb LR0Item.eqb (LR0State.items target) r = true ->
             let a1 := LR0Automaton.mk states'
                         (<[(LR0State.id current_state, addr symbol) := LR0State.id target]>
                            (LR0Automaton.transitions_ a)) in
             transitions_sound fuel g a1
             /\ (forall k, is_Some (LR0Automaton.transitions_ a !! k) ->
                           is_Some (LR0Automaton.transitions_ a1 !! k))
             /\ is_Some (LR0Automaton.transitions_ a1
                           !! (LR0State.id current_state, addr symbol))).
  { intros target states' new Hstates Hget Heq a1. subst a1.
    cbn [LR0Automaton.transitions_]. split; [|split].
    - intros i X j Hlookup. cbn [LR0Automaton.transitions_] in Hlookup.
      destruct (decide ((LR0State.id current_state, addr symbol) = (i, addr X))) as [Hk|Hk].
      + injection Hk as <- HX. rewrite HX in Hlookup.
        rewrite lookup_insert_eq in Hlookup. injection Hlookup as <-.
        destruct (Hget (LR0Automaton.mk states'
                          (<[(LR0State.id current_state, addr X) := LR0State.id target]>
                             (LR0Automaton.transitions_ a))) eq_refl) as [Hg1 Hg2].
        exists current_state, target, r. rewrite HX in *.
        split; [exact Hg1|]. split; [reflexivity|]. split; [exact Hg2|].
        split; [reflexivity|]. split; [exists symbol; auto|].
        split; [apply Hgoto; congruence | exact Heq].
      + rewrite lookup_insert_ne in Hlookup by exact Hk.
        eapply has_transition_app; [|apply Hsound, Hlookup]. exact Hstates.
    - intros k [v Hv].
      destruct (decide ((LR0State.id current_state, addr symbol) = k)) as [<-|Hk].
      + rewrite lookup_insert_eq. eauto.
      + rewrite lookup_insert_ne by exact Hk. eauto.
    - rewrite lookup_insert_eq. eauto. }
  destruct (LR0Automaton.find_state r a) as [existing_state|] eqn:Hfind.
  - injection Hrun as <- <-.
    unfold LR0Automaton.find_state in Hfind. apply find_some in Hfind as [Hin Heq].
    apply (Hnew existing_state (LR0Automaton.states_ a) []); [now rewrite app_nil_r | | exact Heq].
    intros a1 Ha1. split.
    + eapply get_state_app; [rewrite Ha1; symmetry; apply app_nil_r|].
      eapply in_states_get_state; eauto.
    + eapply get_state_app; [rewrite Ha1; symmetry; apply app_nil_r|].
      eapply in_states_get_state; eauto.
  - injection Hrun as <- <-. cbn [LR0Automaton.states_ LR0Automaton.transitions_].
    apply (Hnew (LR0State.mk (Z.of_nat (length (LR0Automaton.states_ a))) r)
             _ [LR0State.mk (Z.of_nat (length (LR0Automaton.states_ a))) r]);
      [reflexivity | | apply set_eqb_refl].
    intros a1 Ha1. split.
    + eapply get_state_app; [exact Ha1|]. eapply in_states_get_state; eauto.
    + cbn [LR0State.id LR0State.id_]. apply get_state_nth. rewrite Ha1.
      rewrite nth_error_app2 by lia. now rewrite Nat.sub_diag.
Qed.

Lemma process_symbols_trans (fuel : nat) (g : Grammar.t) (s0 current_state : LR0State.t)
      (symbols : list SymbolPtr) :
  forall (a a' : LR0Automaton.t) (work_queue wq' : list LR0State.t),
    res_fold (LR0Automaton.process_symbol fuel g current_state) symbols (a, work_queue)
    = Val (a', wq') ->
    automaton_ok g s0 a -> In current_state (LR0Automaton.states_ a) ->
    (forall X, In X symbols -> In X (LR0State.get_transition_symbols current_state)) ->
    length (Grammar.productions_ g) < fuel ->
    transitions_sound fuel g a ->
    transitions_sound fuel g a'
    /\ (forall k, is_Some (LR0Automaton.transitions_ a !! k) ->
                  is_Some (LR0Automaton.transitions_ a' !! k))
    /\ (forall X, In X symbols ->
                  is_Some (LR0Automaton.transitions_ a'
                             !! (LR0State.id current_state, addr X))).
Proof.
  induction symbols as [|symbol symbols IH];
    intros a a' work_queue wq' Hrun Hok Hcur Hsyms Hfuel Hsound; cbn [res_fold] in Hrun.
  - injection Hrun as <- <-. split; [exact Hsound|]. split; [auto | intros X []].
  - destruct (process_symbol_spec fuel g s0 current_state a work_queue symbol Hok
                (ao_items _ _ _ Hok _ Hcur) Hfuel) as (a1 & new1 & Hstep & Hok1 & Hstates1).
    rewrite Hstep in Hrun. cbn [res_bind] in Hrun.
    destruct (process_symbol_trans fuel g s0 current_state a a1 work_queue _ symbol
                Hstep Hok Hcur (Hsyms symbol (or_introl eq_refl)) Hsound)
      as (Hsound1 & Hmono1 & Hnew1).
    destruct (IH a1 a' _ wq' Hrun Hok1) as (Hsound' & Hmono' & Hnew'); auto.
    { rewrite Hstates1. apply in_or_app. now left. }
    { intros X HX. apply Hsyms. now right. }
    split; [exact Hsound'|]. split; [auto|].
    intros X [<-|HX]; [apply Hmono', Hnew1 | now apply Hnew'].
Qed.

Lemma state_done_mono (a a' : LR0Automaton.t) (s : LR0State.t) :
  (forall k, is_Some (LR0Automaton.transitions_ a !! k) ->
             is_Some (LR0Automaton.transitions_ a' !! k)) ->
  state_done a s -> state_done a' s.
Proof. intros Hmono Hdone X HX. apply Hmono, Hdone, HX. Qed.

(** When the work loop ends, the entries are right and every state has
    all its transitions. *)
Lemma build_loop_trans (n fuel : nat) (g : Grammar.t) (s0 : LR0State.t) :
  forall (a a' : LR0Automaton.t) (work_queue : list LR0State.t),
    LR0Automaton.build_loop n fuel g a work_queue = Val a' ->
    automaton_ok g s0 a ->
    (forall s, In s work_queue -> In s (LR0Automaton.states_ a)) ->
    length (Grammar.productions_ g) < fuel ->
    transitions_sound fuel g a ->
    (forall s, In s (LR0Automaton.states_ a) -> In s work_queue \/ state_done a s) ->
    automaton_ok g s0 a'
    /\ transitions_sound fuel g a'
    /\ forall s, In s (LR0Automaton.states_ a') -> state_done a' s.
Proof.
  induction n as [|n IH]; intros a a' work_queue Hrun Hok Hwq Hfuel Hsound Hdone;
    destruct work_queue as [|current_state rest]; cbn [LR0Automaton.build_loop] in Hrun;
    try discriminate.
  - injection Hrun as <-. split; [exact Hok|]. split; [exact Hsound|].
    intros s Hs. now destruct (Hdone s Hs).
  - injection Hrun as <-. split; [exact Hok|]. split; [exact Hsound|].
    intros s Hs. now destruct (Hdone s Hs).
  - unfold LR0Automaton.process_state in Hrun.
    assert (Hcur : In current_state (LR0Automaton.states_ a)) by (apply Hwq; now left).
    destruct (process_symbols_spec fuel g s0 current_state
                (LR0State.get_transition_symbols current_state) a rest Hok
                (ao_items _ _ _ Hok _ Hcur) Hfuel)
      as (a1 & new & Hfold & Hok1 & Hstates).
    rewrite Hfold in Hrun. cbn [res_bind] in Hrun.
    destruct (process_symbols_trans fuel g s0 current_state _ a a1 rest _ Hfold Hok Hcur)
      as (Hsound1 & Hmono1 & Hnew1); auto.
    apply (IH a1 a' (rev new ++ rest) Hrun Hok1); auto.
    + intros s Hs. rewrite Hstates. apply in_or_app.
      apply in_app_or in Hs as [Hs|Hs]; [right; now apply in_rev | left; apply Hwq; now right].
    + intros s Hs. rewrite Hstates in Hs. apply in_app_or in Hs as [Hs|Hs].
      * destruct (Hdone s Hs) as [[<-|Hrest]|Hd].
        -- right. exact Hnew1.
        -- left. apply in_or_app. now right.
        -- right. eapply state_done_mono; eauto.
      * left. apply in_or_app. left. now apply in_rev in Hs.
Qed.

(** X10.  For a grammar with at least one production the automaton that
    the constructor builds has a complete and correct transition map: for
    every state and every symbol after a dot in it, [get_transition] gives
    the id of a state of the automaton whose item set equals
    [goto_set] of the state and the symbol; for every other symbol it
    gives [-1]. *)
Theorem transitions_agree_with_goto (n fuel : nat) (g : Grammar.t) (p0 : ProductionPtr)
        (rest : list ProductionPtr) :
  Grammar.productions_ g = p0 :: rest ->
  state_bound g <= n -> length (Grammar.productions_ g) < fuel ->
  exists a,
    LR0Automaton.create n fuel g = Val a
    /\ (forall s X,
           In s (LR0Automaton.states_ a) -> In X (LR0State.get_transition_symbols s) ->
           exists t r,
             LR0Automaton.get_transition (LR0State.id s) X a = LR0State.id t
             /\ LR0Automaton.get_state (LR0State.id t) a = Some t
             /\ LR0Automaton.goto_set fuel (LR0State.items s) X g = Val r
             /\ set_eqb LR0Item.eqb (LR0State.items t) r = true)
    /\ (forall s X,
           In s (LR0Automaton.states_ a) ->
           (forall Y, In Y (LR0State.get_transition_symbols s) -> addr Y <> addr X) ->
           LR0Automaton.get_transition (LR0State.id s) X a = (-1)%Z).
Proof.
  intros Hprods Hn Hfuel.
  destruct (initial_spec fuel g p0 rest Hprods Hfuel) as (r0 & _ & Hinit & Hok0).
  set (st0 := LR0State.mk 0 r0) in *.
  destruct (build_loop_spec n fuel g st0 (LR0Automaton.mk [st0] ∅) [st0] Hok0)
    as (a & Hloop & _); auto.
  { cbn [LR0Automaton.states_ length]. unfold state_bound in *.
    pose proof (Nat.pow_nonzero 2 (length (item_universe g))). lia. }
  destruct (build_loop_trans n fuel g st0 _ a [st0] Hloop Hok0) as (Hok & Hsound & Hdone);
    auto.
  { intros i X j Hlookup. cbn in Hlookup. rewrite lookup_empty in Hlookup. discriminate. }
  exists a. split; [unfold LR0Automaton.create; now rewrite Hinit|]. split.
  - intros s X Hs HX. destruct (Hdone s Hs X HX) as [j Hj].
    destruct (Hsound _ _ _ Hj) as (si & sj & r & H1 & H2 & H3 & H4 & _ & H5 & H6).
    rewrite (in_states_get_state g st0 s a Hok Hs) in H1. injection H1 as <-.
    exists sj, r. unfold LR0Automaton.get_transition. rewrite Hj, H4. auto.
  - intros s X Hs Hno. unfold LR0Automaton.get_transition.
    destruct (LR0Automaton.transitions_ a !! (LR0State.id s, addr X)) as [j|] eqn:Hj;
      [|reflexivity].
    destruct (Hsound _ _ _ Hj) as (si & sj & r & H1 & _ & _ & _ & (Y & HY & HYX) & _).
    rewrite (in_states_get_state g st0 s a Hok Hs) in H1. injection H1 as <-.
    exfalso. now apply (Hno Y HY).
Qed.

Lemma transitions_agree_with_goto_witness :
  exists a,
    LR0Automaton.create 256 4 ExamplesOrder.grammar = Val a
    /\ (forall s X,
           In s (LR0Automaton.states_ a) -> In X (LR0State.get_transition_symbols s) ->
           exists t r,
             LR0Automaton.get_transition (LR0State.id s) X a = LR0State.id t
             /\ LR0Automaton.get_state (LR0State.id t) a = Some t
             /\ LR0Automaton.goto_set 4 (LR0State.items s) X ExamplesOrder.grammar = Val r
             /\ set_eqb LR0Item.eqb (LR0State.items t) r = true)
    /\ (forall s X,
           In s (LR0Automaton.states_ a) ->
           (forall Y, In Y (LR0State.get_transition_symbols s) -> addr Y <> addr X) ->
           LR0Automaton.get_transition (LR0State.id s) X a = (-1)%Z).
Proof.
  apply (transitions_agree_with_goto 256 4 ExamplesOrder.grammar
           (mkProduction 22 (make_symbol 15 "S'" NONTERMINAL) [ExamplesOrder.S])
           (skipn 1 (Grammar.productions_ ExamplesOrder.grammar))).
  - reflexivity.
  - vm_compute. lia.
  - vm_compute. lia.
Defined.

(** ** The driver *)

(** What one iteration of the loop of [parse_internal] does, by the
    action that the table gives for the state on top of the stack and the
    terminal of the current token. *)
Inductive step_case (p : LALR1Parser.t) (c : LALR1Parser.Config) : Res LALR1Parser.Step -> Prop :=
  | case_failure (msg : string) :
      step_case p c
        (Val (LALR1Parser.Return
                (result_error msg (tok_line (LALR1Parser.current_token c))
                              (tok_column (LALR1Parser.current_token c)))))
  | case_accept (top : LALR1Parser.StackElement) (rest : list LALR1Parser.StackElement) :
      LALR1Parser.stack c = top :: rest -> 2 <= length (LALR1Parser.stack c) ->
      step_case p c (Val (LALR1Parser.Return (result_ok (LALR1Parser.node top))))
  | case_shift (terminal : SymbolPtr) (target : Z) (tok' : Token) (lexer' : Lexer) :
      LALR1Parser.find_terminal p (LALR1Parser.current_token c) = Some terminal ->
      next_token (LALR1Parser.lexer c) = (tok', lexer') ->
      step_case p c
        (Val (LALR1Parser.Continue
                (LALR1Parser.mkConfig
                   (LALR1Parser.mkElement target (Some terminal)
                      (Some (Node terminal (tok_value (LALR1Parser.current_token c)) []))
                    :: LALR1Parser.stack c)
                   tok' lexer')))
  | case_reduce (production : ProductionPtr) (target : Z) :
      In production (Grammar.productions (LALR1Parser.grammar_ p)) ->
      length (rhs production) <= length (LALR1Parser.stack c) ->
      step_case p c
        (Val (LALR1Parser.Continue
                (LALR1Parser.mkConfig
                   (LALR1Parser.mkElement target (Some (lhs production))
                      (Some (Node (lhs production) ""
                               (LALR1Parser.children_of
                                  (map LALR1Parser.node
                                       (firstn (length (rhs production))
                                               (LALR1Parser.stack c))))))
                    :: skipn (length (rhs production)) (LALR1Parser.stack c))
                   (LALR1Parser.current_token c) (LALR1Parser.lexer c))))
  | case_bad_reduce (top : LALR1Parser.StackElement) (rest : list LALR1Parser.StackElement)
                    (terminal : SymbolPtr) :
      LALR1Parser.stack c = top :: rest ->
      Action.is_reduce (ParseTable.get_action (LALR1Parser.state top) terminal
                                              (LALR1Parser.table_ p)) = true ->
      ~ (0 <= Action.value (ParseTable.get_action (LALR1Parser.state top) terminal
                                                  (LALR1Parser.table_ p))
         < Z.of_nat (length (Grammar.productions (LALR1Parser.grammar_ p))))%Z ->
      step_case p c Undefined.

Lemma step_cases (p : LALR1Parser.t) (c : LALR1Parser.Config) :
  LALR1Parser.stack c <> [] -> step_case p c (LALR1Parser.step p c).
Proof.
  intros Hstack. unfold LALR1Parser.step.
  destruct (LALR1Parser.stack c) as [|top rest] eqn:Hc; [congruence|].
  destruct (LALR1Parser.find_terminal p (LALR1Parser.current_token c))
    as [terminal|] eqn:Hterm; [|apply case_failure].
  set (action := ParseTable.get_action (LALR1Parser.state top) terminal
                                       (LALR1Parser.table_ p)).
  destruct (Action.is_shift action).
  { destruct (next_token (LALR1Parser.lexer c)) as [tok' lexer'] eqn:Hnext.
    rewrite <- Hc. now apply case_shift. }
  destruct (Action.is_reduce action) eqn:Hreduce.
  { destruct (Z.ltb_spec (Action.value action) 0) as [Hneg|Hpos].
    { apply (case_bad_reduce p c top rest terminal Hc Hreduce). fold action. lia. }
    destruct (nth_error (Grammar.productions (LALR1Parser.grammar_ p))
                        (Z.to_nat (Action.value action))) as [production|] eqn:Hprod.
    - rewrite pop_frames_spec.
      destruct (Nat.leb_spec (length (rhs production)) (length (top :: rest)));
        [|apply case_failure].
      cbn [app]. destruct (_ <? 0)%Z; [apply case_failure|].
      rewrite <- Hc. apply case_reduce; [|now rewrite Hc].
      eapply nth_error_In, Hprod.
    - apply (case_bad_reduce p c top rest terminal Hc Hreduce). fold action.
      apply nth_error_None in Hprod. lia. }
  destruct (Action.is_accept action).
  { destruct (Nat.leb_spec 2 (length (top :: rest))); [|apply case_failure].
    apply (case_accept p c top rest Hc). now rewrite Hc. }
  apply case_failure.
Qed.

(** Every Reduce action of the table names a production of the grammar. *)
Definition reduce_indices_ok (p : LALR1Parser.t) : Prop :=
  forall state terminal,
    Action.is_reduce (ParseTable.get_action state terminal (LALR1Parser.table_ p)) = true ->
    (0 <= Action.value (ParseTable.get_action state terminal (LALR1Parser.table_ p))
     < Z.of_nat (length (Grammar.productions (LALR1Parser.grammar_ p))))%Z.

(** The same as a test over the cells of the table. *)
Definition reduce_indices_check (p : LALR1Parser.t) : bool :=
  forallb (fun kv => negb (Action.is_reduce (snd kv))
                     || ((0 <=? Action.value (snd kv))%Z
                         && (Action.value (snd kv)
                             <? Z.of_nat (length (Grammar.productions
                                                    (LALR1Parser.grammar_ p))))%Z))
          (map_to_list (ParseTable.action_table_ (LALR1Parser.table_ p))).

Lemma reduce_indices_check_sound (p : LALR1Parser.t) :
  reduce_indices_check p = true -> reduce_indices_ok p.
Proof.
  unfold reduce_indices_check, reduce_indices_ok, ParseTable.get_action.
  rewrite forallb_forall. intros Hall state terminal.
  destruct (ParseTable.action_table_ (LALR1Parser.table_ p) !! (state, addr terminal))
    as [a|] eqn:Hlookup; [|discriminate].
  intros Hreduce. specialize (Hall ((state, addr terminal), a)).
  cbn [snd] in Hall. rewrite Hreduce in Hall. cbn [negb orb] in Hall.
  assert (Hin : In (state, addr terminal, a)
                   (map_to_list (ParseTable.action_table_ (LALR1Parser.table_ p))))
    by (apply list_elem_of_In; now apply elem_of_map_to_list).
  apply Hall in Hin. apply andb_true_iff in Hin as [H1 H2].
  apply Z.leb_le in H1. apply Z.ltb_lt in H2. lia.
Qed.

Lemma run_defined (fuel : nat) (p : LALR1Parser.t) :
  reduce_indices_ok p ->
  forall c, LALR1Parser.stack c <> [] ->
            LALR1Parser.run fuel p c = Timeout
            \/ exists r, LALR1Parser.run fuel p c = Val r.
Proof.
  intros Hok. induction fuel as [|fuel IH]; intros c Hstack; [now left|].
  cbn [LALR1Parser.run].
  destruct (step_cases p c Hstack)
    as [msg | top rest _ _ | terminal target tok' lexer' _ _ | production target _ _
        | top rest terminal _ Hreduce Hbad]; cbn [res_bind].
  - right. eexists. reflexivity.
  - right. eexists. reflexivity.
  - apply IH. discriminate.
  - apply IH. discriminate.
  - exfalso. apply Hbad. now apply Hok.
Qed.

(** X11.  When every Reduce action of the table names a production of
    the grammar, the driver never leaves defined behaviour and never
    throws, whatever else the table holds and whatever the tokens are: the
    stack is never empty when its top is read, and a run either returns a
    result or is still running when the fuel of the model ends. *)
Theorem driver_stays_defined (fuel : nat) (p : LALR1Parser.t) (l : Lexer) :
  reduce_indices_ok p ->
  LALR1Parser.parse_internal fuel p l = Timeout
  \/ exists r, LALR1Parser.parse_internal fuel p l = Val r.
Proof.
  intros Hok. unfold LALR1Parser.parse_internal.
  destruct (next_token l) as [tok l']. apply run_defined; [exact Hok | discriminate].
Qed.

Lemma driver_stays_defined_witness :
  LALR1Parser.parse_internal 20 ExamplesEps.parser_empty_rhs ExamplesEps.lexer_a = Timeout
  \/ exists r,
      LALR1Parser.parse_internal 20 ExamplesEps.parser_empty_rhs ExamplesEps.lexer_a = Val r.
Proof.
  apply (driver_stays_defined 20 ExamplesEps.parser_empty_rhs ExamplesEps.lexer_a).
  apply reduce_indices_check_sound. vm_compute. reflexivity.
Defined.

(** The values of the leaves of a tree that are not labelled by a
    nonterminal, from left to right. *)
Fixpoint yield (n : ParseNode) : list string :=
  match n with
  | Node s v children => if is_nonterminal s then flat_map yield children else [v]
  end.

Definition frame_yield (e : LALR1Parser.StackElement) : list string :=
  match LALR1Parser.node e with
  | Some n => yield n
  | None => []
  end.

(** Every frame above the lowest one carries a node. *)
Definition nodes_ok (stack : list LALR1Parser.StackElement) : Prop :=
  forall i e, nth_error stack i = Some e -> S i < length stack ->
              LALR1Parser.node e <> None.

Lemma children_yield (frames : list LALR1Parser.StackElement) :
  flat_map yield (LALR1Parser.children_of (map LALR1Parser.node frames))
  = flat_map frame_yield (rev frames).
Proof.
  unfold LALR1Parser.children_of. rewrite <- map_rev.
  induction (rev frames) as [|e l IH]; [reflexivity|].
  cbn [map flat_map]. rewrite flat_map_app, IH. f_equal.
  unfold frame_yield. destruct (LALR1Parser.node e); [apply app_nil_r | reflexivity].
Qed.

Lemma find_terminal_type (p : LALR1Parser.t) (tok : Token) (terminal : SymbolPtr) :
  is_nonterminal (SymbolTable.end_of_input_
                    (Grammar.symbol_table_ (LALR1Parser.grammar_ p))) = false ->
  LALR1Parser.find_terminal p tok = Some terminal -> is_nonterminal terminal = false.
Proof.
  intros Hend. unfold LALR1Parser.find_terminal.
  destruct (is_eof tok); [now intros [= <-]|].
  intros Hfind. apply find_some in Hfind as [_ H]. apply andb_true_iff in H as [H _].
  unfold is_terminal, is_nonterminal in *. now destruct (type terminal).
Qed.

(** What an iteration that goes on does to the stack and to the token
    source: a shift pushes a leaf for the current token and asks the lexer
    for the next one, a reduction leaves the current token and the lexer as
    they are. *)
Lemma shifted_token_step (p : LALR1Parser.t) (c : LALR1Parser.Config) :
  match LALR1Parser.step p c with
  | Val (LALR1Parser.Continue c') =>
      match LALR1Parser.shifted_token p c with
      | Some tok =>
          tok = LALR1Parser.current_token c
          /\ (LALR1Parser.current_token c', LALR1Parser.lexer c')
             = next_token (LALR1Parser.lexer c)
          /\ exists terminal target,
               LALR1Parser.find_terminal p tok = Some terminal
               /\ LALR1Parser.stack c'
                  = LALR1Parser.mkElement target (Some terminal)
                      (Some (Node terminal (tok_value tok) []))
                    :: LALR1Parser.stack c
      | None =>
          LALR1Parser.current_token c' = LALR1Parser.current_token c
          /\ LALR1Parser.lexer c' = LALR1Parser.lexer c
          /\ exists production target,
               In production (Grammar.productions (LALR1Parser.grammar_ p))
               /\ length (rhs production) <= length (LALR1Parser.stack c)
               /\ LALR1Parser.stack c'
                  = LALR1Parser.mkElement target (Some (lhs production))
                      (Some (Node (lhs production) ""
                               (LALR1Parser.children_of
                                  (map LALR1Parser.node
                                       (firstn (length (rhs production))
                                               (LALR1Parser.stack c))))))
                    :: skipn (length (rhs production)) (LALR1Parser.stack c)
      end
  | _ => True
  end.
Proof.
  unfold LALR1Parser.step, LALR1Parser.shifted_token.
  destruct (LALR1Parser.stack c) as [|top rest] eqn:Hc; [exact I|].
  destruct (LALR1Parser.find_terminal p (LALR1Parser.current_token c))
    as [terminal|] eqn:Hterm; [|exact I].
  set (action := ParseTable.get_action (LALR1Parser.state top) terminal
                                       (LALR1Parser.table_ p)).
  destruct (Action.is_shift action).
  { destruct (next_token (LALR1Parser.lexer c)) as [tok' lexer'].
    cbn [LALR1Parser.stack LALR1Parser.current_token LALR1Parser.lexer].
    split; [reflexivity|]. split; [reflexivity|]. eauto. }
  destruct (Action.is_reduce action).
  { destruct (Action.value action <? 0)%Z; [exact I|].
    destruct (nth_error (Grammar.productions (LALR1Parser.grammar_ p))
                        (Z.to_nat (Action.value action))) as [production|] eqn:Hprod;
      [|exact I].
    rewrite pop_frames_spec.
    destruct (Nat.leb_spec (length (rhs production)) (length (top :: rest)));
      [|exact I].
    cbn [app]. destruct (_ <? 0)%Z; [exact I|].
    cbn [LALR1Parser.stack LALR1Parser.current_token LALR1Parser.lexer].
    split; [reflexivity|]. split; [reflexivity|].
    eexists production, _. split; [eapply nth_error_In, Hprod|]. split; [assumption|].
    reflexivity. }
  destruct (Action.is_accept action); [|exact I].
  now destruct (2 <=? length (top :: rest)).
Qed.

Lemma run_yield (fuel : nat) (p : LALR1Parser.t) (l : Lexer) :
  (forall prod, In prod (Grammar.productions (LALR1Parser.grammar_ p)) ->
                is_nonterminal (lhs prod) = true) ->
  is_nonterminal (SymbolTable.end_of_input_
                    (Grammar.symbol_table_ (LALR1Parser.grammar_ p))) = false ->
  forall c shifted k r,
    LALR1Parser.stack c <> [] -> nodes_ok (LALR1Parser.stack c) ->
    flat_map frame_yield (rev (LALR1Parser.stack c)) = map tok_value shifted ->
    shifted ++ LALR1Parser.current_token c :: pending (LALR1Parser.lexer c)
    = pending l ++ repeat (eof_token l) k ->
    eof_token (LALR1Parser.lexer c) = eof_token l ->
    LALR1Parser.run fuel p c = Val r -> success r = true ->
    exists n before rest k',
      tree r = Some n
      /\ map tok_value (shifted ++ LALR1Parser.shifted_tokens fuel p c) = before ++ yield n
      /\ pending l ++ repeat (eof_token l) k'
         = (shifted ++ LALR1Parser.shifted_tokens fuel p c) ++ rest.
Proof.
  intros Hlhs Hend. induction fuel as [|fuel IH];
    intros c shifted k r Hstack Hnodes Hyield Hstream Heof Hrun Hsuccess; [discriminate|].
  cbn [LALR1Parser.run LALR1Parser.shifted_tokens] in *.
  pose proof (step_cases p c Hstack) as Hcase.
  pose proof (shifted_token_step p c) as Hshift.
  destruct (LALR1Parser.step p c) as [[c'|r']| | |]; cbn [res_bind] in Hrun;
    try discriminate.
  - destruct (LALR1Parser.shifted_token p c) as [tok|].
    + destruct Hshift as (-> & Hnext & terminal & target & Hterm & Hc').
      destruct (IH c' (shifted ++ [LALR1Parser.current_token c])
                   (match pending (LALR1Parser.lexer c) with [] => S k | _ :: _ => k end) r)
        as (n & before & rest & k' & Hn & Hvalues & Hprefix); auto.
      * rewrite Hc'. discriminate.
      * rewrite Hc'. intros [|i] e Hi Hlt; cbn in Hi.
        -- injection Hi as <-. discriminate.
        -- apply (Hnodes i e Hi). cbn [length] in Hlt. lia.
      * rewrite Hc'. cbn [rev]. rewrite flat_map_app, Hyield, map_app. cbn [flat_map map].
        unfold frame_yield. cbn [LALR1Parser.node yield].
        now rewrite (find_terminal_type p _ terminal Hend Hterm), app_nil_r.
      * rewrite <- app_assoc. cbn [app]. unfold next_token in Hnext.
        destruct (pending (LALR1Parser.lexer c)) as [|t l'] eqn:Hlexer;
          injection Hnext as -> ->.
        -- rewrite Hlexer, Heof. cbn [repeat].
           rewrite repeat_cons, app_assoc, <- Hstream.
           now rewrite <- app_assoc.
        -- exact Hstream.
      * unfold next_token in Hnext.
        destruct (pending (LALR1Parser.lexer c)); injection Hnext as _ ->;
          [exact Heof | rewrite <- Heof; reflexivity].
      * exists n, before, rest, k'. 
        rewrite <- (app_assoc shifted [LALR1Parser.current_token c]) in Hvalues, Hprefix.
        split; [exact Hn|]. split; [exact Hvalues | exact Hprefix].
    + destruct Hshift as (Htok & Hlexer & production & target & Hprod & Hlen & Hc').
      apply (IH c' shifted k r); auto.
      * rewrite Hc'. discriminate.
      * rewrite Hc'. intros [|i] e Hi Hlt; cbn [nth_error] in Hi.
        -- injection Hi as <-. discriminate.
        -- rewrite nth_error_skipn in Hi. apply (Hnodes _ e Hi).
           cbn [length] in Hlt. rewrite length_skipn in Hlt. lia.
      * rewrite Hc'. cbn [rev]. rewrite flat_map_app. cbn [flat_map].
        unfold frame_yield at 2. cbn [LALR1Parser.node yield].
        rewrite (Hlhs production Hprod), children_yield, app_nil_r, <- flat_map_app.
        rewrite <- rev_app_distr, firstn_skipn. exact Hyield.
      * now rewrite Htok, Hlexer.
      * now rewrite Hlexer.
  - injection Hrun as <-.
    inversion Hcase as [msg Hr | top rest Hc Hlen Hr | | |]; subst r'; [discriminate|].
    destruct (LALR1Parser.node top) as [n|] eqn:Hnode.
    + exists n, (flat_map frame_yield (rev rest)),
        (LALR1Parser.current_token c :: pending (LALR1Parser.lexer c)), k.
      rewrite app_nil_r. split; [reflexivity|]. split; [|now symmetry].
      rewrite <- Hyield, Hc. cbn [rev]. rewrite flat_map_app. cbn [flat_map].
      unfold frame_yield at 2. now rewrite Hnode, app_nil_r.
    + exfalso. apply (Hnodes 0 top); [now rewrite Hc | lia | exact Hnode].
Qed.

(** X12.  When the left-hand sides of the productions are nonterminals
    and the end-of-input symbol is not, a successful parse returns a tree
    whose leaves, read from left to right, are the values of the last
    tokens that the loop shifted, in the order in which it shifted them;
    and the shifted tokens, all of them, are the first tokens of the token
    stream (the tokens of the lexer followed by its end-of-file token). *)
Theorem accepted_tree_yields_shifted_tokens (fuel : nat) (p : LALR1Parser.t) (l : Lexer)
        (r : ParseResult) :
  (forall prod, In prod (Grammar.productions (LALR1Parser.grammar_ p)) ->
                is_nonterminal (lhs prod) = true) ->
  is_nonterminal (SymbolTable.end_of_input_
                    (Grammar.symbol_table_ (LALR1Parser.grammar_ p))) = false ->
  LALR1Parser.parse_internal fuel p l = Val r -> success r = true ->
  exists n before rest k,
    tree r = Some n
    /\ map tok_value (LALR1Parser.parse_shifted fuel p l) = before ++ yield n
    /\ pending l ++ repeat (eof_token l) k = LALR1Parser.parse_shifted fuel p l ++ rest.
Proof.
  intros Hlhs Hend Hrun Hsuccess.
  unfold LALR1Parser.parse_internal, LALR1Parser.parse_shifted in *.
  destruct (next_token l) as [tok l'] eqn:Hnext.
  apply (run_yield fuel p l Hlhs Hend _ []
           (match pending l with [] => 1 | _ :: _ => 0 end) r)
    in Hrun; cbn [LALR1Parser.stack LALR1Parser.current_token LALR1Parser.lexer];
    [exact Hrun | discriminate | | reflexivity | | | exact Hsuccess].
  - intros [|[|i]] e Hi Hlt; cbn in Hi, Hlt; try discriminate; lia.
  - unfold next_token in Hnext.
    destruct (pending l) as [|t l''] eqn:Hl; injection Hnext as <- <-; cbn [app repeat].
    + now rewrite Hl.
    + now rewrite app_nil_r.
  - unfold next_token in Hnext.
    destruct (pending l); injection Hnext as _ <-; reflexivity.
Qed.

Lemma accepted_tree_yields_shifted_tokens_witness :
  exists n before rest k,
    tree (match LALR1Parser.parse_internal 20 ExamplesEps.parser_empty_rhs
                                           ExamplesEps.lexer_a with
          | Val r => r
          | _ => result_error "" 0 0
          end) = Some n
    /\ map tok_value (LALR1Parser.parse_shifted 20 ExamplesEps.parser_empty_rhs
                                                ExamplesEps.lexer_a)
       = before ++ yield n
    /\ pending ExamplesEps.lexer_a ++ repeat (eof_token ExamplesEps.lexer_a) k
       = LALR1Parser.parse_shifted 20 ExamplesEps.parser_empty_rhs ExamplesEps.lexer_a
         ++ rest.
Proof.
  apply (accepted_tree_yields_shifted_tokens 20 ExamplesEps.parser_empty_rhs
           ExamplesEps.lexer_a).
  - intros prod Hin. vm_compute in Hin.
    repeat (destruct Hin as [<-|Hin]; [reflexivity|]). destruct Hin.
  - reflexivity.
  - vm_compute. reflexivity.
  - vm_compute. reflexivity.
Defined.


(** ** The table generator *)

(** The FIRST cache, when it is marked computed, holds key-ordered sets
    of symbols of the table: what [compute_first_sets] writes. *)
Definition caches_ok (g : Grammar.t) : Prop :=
  Grammar.first_sets_computed_ g = true ->
  sets_ok (table_symbols (Grammar.symbol_table_ g)) (Grammar.first_sets_ g).

(** A fuel that suffices for the set computations of a grammar whose
    caches are clear or were written by the code. *)
Definition core_fuel (g : Grammar.t) : nat :=
  sets_fuel g
  + S (length (follow_keys g) * length (table_symbols (Grammar.symbol_table_ g))).

Lemma core_fuel_core (g g' : Grammar.t) : same_core g g' -> core_fuel g' = core_fuel g.
Proof.
  intros [Ht Hp _ _]. unfold core_fuel, sets_fuel, first_fuel, follow_keys.
  now rewrite Ht, Hp.
Qed.

Lemma caches_ok_first_ops (m : BoolMap) (g g' : Grammar.t) :
  same_core g g' ->
  first_ops m g (Grammar.first_init (Grammar.symbol_table_ g)) (Grammar.first_sets_ g') ->
  caches_ok g'.
Proof.
  intros Hcore Hops _. rewrite (sc_table _ _ Hcore).
  eapply set_ops_ok; [| |exact Hops | apply first_init_ok].
  - intros j x [].
  - intros j x [-> _]. now left.
Qed.

Lemma first_set_ok (fuel : nat) (symbol : SymbolPtr) (g : Grammar.t) :
  caches_ok g -> core_fuel g <= fuel ->
  exists s g',
    Grammar.first_set fuel symbol g = Val (s, g')
    /\ same_core g g' /\ caches_ok g'
    /\ Grammar.first_sets_computed_ g' = true.
Proof.
  intros Hok Hfuel. unfold Grammar.first_set.
  destruct (Grammar.first_sets_computed_ g) eqn:Hc.
  - cbn [res_bind]. eexists _, g. split; [reflexivity|].
    split; [apply same_core_refl|]. split; [exact Hok | exact Hc].
  - destruct (eps_cache_exists g) as [m Hm].
    destruct (compute_first_sets_spec fuel g m Hm)
      as (g' & Hcomp & Hcore & _ & _ & Hflag & _ & Hops & _);
      [unfold core_fuel in Hfuel; lia|].
    rewrite Hcomp. cbn [res_bind]. eexists _, g'. split; [reflexivity|].
    split; [exact Hcore|]. split; [|exact Hflag]. eapply caches_ok_first_ops; eauto.
Qed.

Lemma compute_follow_sets_ok (fuel : nat) (g : Grammar.t) :
  caches_ok g -> core_fuel g <= fuel ->
  exists g',
    Grammar.compute_follow_sets fuel g = Val g'
    /\ same_core g g' /\ caches_ok g'
    /\ Grammar.first_sets_computed_ g' = true
    /\ Grammar.follow_sets_computed_ g' = true.
Proof.
  intros Hok Hfuel. unfold Grammar.compute_follow_sets.
  destruct (eps_cache_exists g) as [m Hm].
  assert (Hfirst : exists g0,
             (if Grammar.first_sets_computed_ g then Val g
              else Grammar.compute_first_sets fuel g) = Val g0
             /\ same_core g g0 /\ Grammar.first_sets_computed_ g0 = true
             /\ eps_cache_of g0 m /\ caches_ok g0).
  { destruct (Grammar.first_sets_computed_ g) eqn:Hc.
    - exists g. split; [reflexivity|]. split; [apply same_core_refl|]. auto.
    - destruct (compute_first_sets_spec fuel g m Hm)
        as (g0 & Hcomp & Hcore & _ & _ & Hflag & Hm0 & Hops & _);
        [unfold core_fuel in Hfuel; lia|].
      exists g0. split; [exact Hcomp|]. split; [exact Hcore|]. split; [exact Hflag|].
      split; [exact Hm0|]. eapply caches_ok_first_ops; eauto. }
  destruct Hfirst as (g0 & Hfirst & Hcore & Hflag & Hm0 & Hok0).
  rewrite Hfirst. cbn [res_bind].
  set (gi := Grammar.with_follow_sets (Grammar.follow_init g0) g0).
  set (U := table_symbols (Grammar.symbol_table_ g0)).
  assert (Hcov : covers U gi).
  { split; [now left|]. split; [right; now left|]. intros j x Hx.
    now apply (Hok0 Hflag j). }
  destruct (follow_loop_spec fuel fuel U gi m Hcov) as (g1 & Hloop & Hrel).
  - apply follow_init_ok. right. now left.
  - exact Hflag.
  - exact Hm0.
  - change (Grammar.productions_ gi) with (Grammar.productions_ g0).
    rewrite (sc_prods _ _ Hcore). unfold core_fuel, sets_fuel in Hfuel. lia.
  - change (follow_keys gi) with (follow_keys g0).
    assert (Hk : follow_keys g0 = follow_keys g)
      by (unfold follow_keys; now rewrite (sc_prods _ _ Hcore)).
    unfold U. rewrite Hk, (sc_table _ _ Hcore). unfold core_fuel in Hfuel. lia.
  - rewrite Hloop. cbn [res_bind]. eexists. split; [reflexivity|].
    pose proof (fo_core _ _ _ Hrel) as [H1 H2 H3 H4]. destruct Hcore as [H5 H6 H7 H8].
    cbn in H1, H2, H3, H4.
    split; [constructor; cbn; congruence|].
    split; [|split; [|reflexivity]].
    + intros _. cbn. rewrite (fo_first _ _ _ Hrel), H1. apply Hok0, Hflag.
    + cbn. now rewrite (fo_first_flag _ _ _ Hrel).
Qed.

Lemma follow_set_ok (fuel : nat) (symbol : SymbolPtr) (g : Grammar.t) :
  caches_ok g -> core_fuel g <= fuel ->
  exists s g',
    Grammar.follow_set fuel symbol g = Val (s, g')
    /\ same_core g g' /\ caches_ok g'.
Proof.
  intros Hok Hfuel. unfold Grammar.follow_set.
  destruct (Grammar.follow_sets_computed_ g) eqn:Hc.
  - cbn [res_bind]. eexists _, g. split; [reflexivity|].
    split; [apply same_core_refl | exact Hok].
  - destruct (compute_follow_sets_ok fuel g Hok Hfuel) as (g' & Hcomp & Hcore & Hok' & _).
    rewrite Hcomp. cbn [res_bind]. eexists _, g'. auto.
Qed.

(** The left-hand sides have names: [name().back()] is defined. *)
Definition names_ok (g : Grammar.t) : Prop :=
  forall p, In p (Grammar.productions_ g) -> name (lhs p) <> ""%string.

Lemma back_some (s : string) : s <> ""%string -> exists c, back s = Some c.
Proof.
  induction s as [|c s IH]; [congruence|]. intros _. cbn [back].
  destruct s as [|c' s']; [eauto|]. apply IH. discriminate.
Qed.

Lemma looks_augmented_defined (prod : ProductionPtr) :
  name (lhs prod) <> ""%string -> exists b, looks_augmented prod = Val b.
Proof.
  intros Hname. unfold looks_augmented, name_ends_with_quote.
  destruct (back_some _ Hname) as [c ->]. cbn [res_bind]. eauto.
Qed.

(** The items of an LALR state are items of productions of the grammar. *)
Definition lalr_state_ok (g : Grammar.t) (ls : LALRState.t) : Prop :=
  forall i, In i (LALRState.items_ ls) ->
            In (LR1Item.production_ i) (Grammar.productions_ g).

Lemma add_lookahead_spec (item : LR0Item.t) (lookahead : SymbolPtr) (s : LALRState.t) :
  LALRState.id_ (LALRState.add_lookahead item lookahead s) = LALRState.id_ s
  /\ LALRState.core_ (LALRState.add_lookahead item lookahead s) = LALRState.core_ s
  /\ forall i, In i (LALRState.items_ (LALRState.add_lookahead item lookahead s)) ->
               exists c, In c (LALRState.core_ s)
                         /\ LR1Item.production_ i = LR0Item.production_ c
                         /\ LR1Item.dot_position_ i = LR0Item.dot_position_ c.
Proof.
  unfold LALRState.add_lookahead.
  destruct (LALRState.lookaheads_at item (LALRState.lookaheads_ s)) as [las m1].
  match goal with
  | |- context [fold_left ?f (LALRState.core_ s) ?a] =>
      pose proof (fold_left_invariant f
                    (fun acc => forall i, In i (fst acc) ->
                                          exists c, In c (LALRState.core_ s)
                                                    /\ LR1Item.production_ i
                                                       = LR0Item.production_ c
                                                    /\ LR1Item.dot_position_ i
                                                       = LR0Item.dot_position_ c)
                    (LALRState.core_ s) a) as Hinv;
      destruct (fold_left f (LALRState.core_ s) a) as [its m3]
  end.
  cbn [LALRState.id_ LALRState.core_ LALRState.items_ fst] in *.
  split; [reflexivity|]. split; [reflexivity|].
  apply Hinv; [|intros i []].
  intros [its0 m0] core_item Hcore Hacc. cbn [fst snd] in *.
  destruct (LALRState.lookaheads_at core_item m0) as [las' m']. cbn [fst].
  apply fold_left_invariant; [|exact Hacc].
  intros acc la _ Hacc' i Hi. unfold lr1_insert in Hi.
  apply set_insert_In in Hi as [->|Hi]; [|now apply Hacc'].
  exists core_item. auto.
Qed.

Lemma add_lookaheads_spec (g : Grammar.t) (item : LR0Item.t) (las : SymbolSet) :
  forall s,
    (forall c, In c (LALRState.core_ s) -> item_ok g c) ->
    let s' := fold_left (fun s la => LALRState.add_lookahead item la s) las s in
    LALRState.id_ s' = LALRState.id_ s
    /\ LALRState.core_ s' = LALRState.core_ s
    /\ (lalr_state_ok g s -> lalr_state_ok g s').
Proof.
  induction las as [|la las IH]; intros s Hcore; cbn [fold_left]; [auto|].
  destruct (add_lookahead_spec item la s) as (Hid & Hc & Hitems).
  destruct (IH (LALRState.add_lookahead item la s)) as (Hid' & Hc' & Hok').
  { rewrite Hc. exact Hcore. }
  cbv zeta in *. rewrite Hid', Hc', Hid, Hc. split; [reflexivity|]. split; [reflexivity|].
  intros _. apply Hok'. intros i Hi.
  destruct (Hitems i Hi) as (c & Hcin & Hp & _). rewrite Hp. apply (Hcore c Hcin).
Qed.

Lemma item_lookaheads_ok (fuel : nat) (g g1 : Grammar.t) (lr0_item : LR0Item.t) :
  same_core g g1 -> caches_ok g1 -> core_fuel g <= fuel -> names_ok g ->
  item_ok g lr0_item ->
  exists las g2,
    LALR1Generator.item_lookaheads fuel lr0_item g1 = Val (las, g2)
    /\ same_core g g2 /\ caches_ok g2.
Proof.
  intros Hcore Hok Hfuel Hnames [Hprod _]. unfold LALR1Generator.item_lookaheads.
  rewrite <- (core_fuel_core g g1 Hcore) in Hfuel.
  destruct (LR0Item.is_complete lr0_item).
  - destruct (looks_augmented_defined (LR0Item.production lr0_item)) as [b ->];
      [now apply Hnames|].
    cbn [res_bind]. destruct b; [eauto|].
    destruct (follow_set_ok fuel (lhs (LR0Item.production lr0_item)) g1 Hok Hfuel)
      as (s & g2 & -> & Hcore2 & Hok2).
    cbn [res_bind]. eexists _, g2. split; [reflexivity|].
    split; [eapply same_core_trans; eauto | exact Hok2].
  - destruct (LR0Item.next_symbol lr0_item) as [next_symbol|]; [|eauto].
    destruct (is_terminal next_symbol); [eauto|].
    destruct (is_nonterminal next_symbol); [|eauto].
    destruct (first_set_ok fuel next_symbol g1 Hok Hfuel) as (s & g2 & -> & Hcore2 & Hok2 & _).
    cbn [res_bind]. eexists _, g2. split; [reflexivity|].
    split; [eapply same_core_trans; eauto | exact Hok2].
Qed.

Lemma build_lalr_items_ok (fuel : nat) (g : Grammar.t) (items : LR0ItemSet) :
  core_fuel g <= fuel -> names_ok g ->
  (forall i, In i items -> item_ok g i) ->
  forall (ls : LALRState.t) (g1 : Grammar.t),
    same_core g g1 -> caches_ok g1 ->
    (forall c, In c (LALRState.core_ ls) -> item_ok g c) -> lalr_state_ok g ls ->
    exists ls' g2,
      res_fold (fun '(ls, g1) lr0_item =>
                  do (lookaheads, g2) <- LALR1Generator.item_lookaheads fuel lr0_item g1 in
                  Val (fold_left (fun s la => LALRState.add_lookahead lr0_item la s)
                                 lookaheads ls, g2))
               items (ls, g1) = Val (ls', g2)
      /\ LALRState.id_ ls' = LALRState.id_ ls
      /\ LALRState.core_ ls' = LALRState.core_ ls
      /\ lalr_state_ok g ls' /\ same_core g g2 /\ caches_ok g2.
Proof.
  intros Hfuel Hnames. induction items as [|item items IH];
    intros Hitems ls g1 Hcore Hok Hls_core Hls.
  - exists ls, g1. cbn. auto 10.
  - cbn [res_fold].
    destruct (item_lookaheads_ok fuel g g1 item Hcore Hok Hfuel Hnames
                (Hitems item (or_introl eq_refl))) as (las & g2 & -> & Hcore2 & Hok2).
    cbn [res_bind].
    destruct (add_lookaheads_spec g item las ls Hls_core) as (Hid & Hc & Hls').
    cbv zeta in Hid, Hc, Hls'.
    destruct (IH (fun i Hi => Hitems i (or_intror Hi))
                 (fold_left (fun s la => LALRState.add_lookahead item la s) las ls)
                 g2 Hcore2 Hok2)
      as (ls' & g3 & Hfold & Hid' & Hc' & Hok' & Hcore3 & Hok3).
    + rewrite Hc. exact Hls_core.
    + now apply Hls'.
    + exists ls', g3. rewrite Hfold, Hid', Hc', Hid, Hc. auto 10.
Qed.

Lemma build_lalr_states_ok (fuel : nat) (g : Grammar.t) (lr0_states : list LR0State.t) :
  core_fuel g <= fuel -> names_ok g ->
  (forall s, In s lr0_states -> items_ok g (LR0State.items s)) ->
  forall (states : list LALRState.t) (g1 : Grammar.t),
    same_core g g1 -> caches_ok g1 ->
    exists new g2,
      res_fold (LALR1Generator.build_lalr_state fuel) lr0_states (states, g1)
      = Val (states ++ new, g2)
      /\ map LALRState.id_ new = map LR0State.id lr0_states
      /\ Forall (lalr_state_ok g) new
      /\ same_core g g2 /\ caches_ok g2.
Proof.
  intros Hfuel Hnames. induction lr0_states as [|lr0_state lr0_states IH];
    intros Hstates states g1 Hcore Hok.
  - exists [], g1. cbn. rewrite app_nil_r. auto.
  - cbn [res_fold]. unfold LALR1Generator.build_lalr_state at 1. cbv beta iota zeta.
    destruct (build_lalr_items_ok fuel g (LR0State.items lr0_state) Hfuel Hnames)
      with (ls := LALRState.create (LR0State.id lr0_state) (LR0State.items lr0_state))
           (g1 := g1)
      as (ls' & g2 & Hfold & Hid & _ & Hls' & Hcore2 & Hok2); auto.
    { apply (Hstates lr0_state (or_introl eq_refl)). }
    { intros c Hc. apply (Hstates lr0_state (or_introl eq_refl)), Hc. }
    { intros i []. }
    rewrite Hfold. cbn [res_bind].
    destruct (IH (fun s Hs => Hstates s (or_intror Hs)) (states ++ [ls']) g2 Hcore2 Hok2)
      as (new & g3 & Hrest & Hids & Hall & Hcore3 & Hok3).
    exists (ls' :: new), g3. rewrite Hrest, <- app_assoc. split; [reflexivity|].
    split; [cbn [map]; now rewrite Hids, Hid|]. auto.
Qed.

(** The automaton of a grammar with a production, with its invariants. *)
Lemma create_ok (n fuel : nat) (g : Grammar.t) (p0 : ProductionPtr)
      (rest : list ProductionPtr) :
  Grammar.productions_ g = p0 :: rest ->
  state_bound g <= n -> length (Grammar.productions_ g) < fuel ->
  exists a s0,
    LR0Automaton.create n fuel g = Val a
    /\ automaton_ok g s0 a /\ transitions_sound fuel g a
    /\ forall s, In s (LR0Automaton.states_ a) -> state_done a s.
Proof.
  intros Hprods Hn Hfuel.
  destruct (initial_spec fuel g p0 rest Hprods Hfuel) as (r0 & _ & Hinit & Hok0).
  set (st0 := LR0State.mk 0 r0) in *.
  destruct (build_loop_spec n fuel g st0 (LR0Automaton.mk [st0] ∅) [st0] Hok0)
    as (a & Hloop & _); auto.
  { cbn [LR0Automaton.states_ length]. unfold state_bound in *.
    pose proof (Nat.pow_nonzero 2 (length (item_universe g))). lia. }
  destruct (build_loop_trans n fuel g st0 _ a [st0] Hloop Hok0) as (Hok & Hsound & Hdone);
    auto.
  { intros i X j Hlookup. cbn in Hlookup. rewrite lookup_empty in Hlookup. discriminate. }
  exists a, st0. split; [unfold LR0Automaton.create; now rewrite Hinit | auto].
Qed.

Lemma get_transition_range (fuel : nat) (g : Grammar.t) (a : LR0Automaton.t)
      (i : Z) (X : SymbolPtr) :
  transitions_sound fuel g a ->
  (0 <= LR0Automaton.get_transition i X a)%Z ->
  (LR0Automaton.get_transition i X a < Z.of_nat (length (LR0Automaton.states_ a)))%Z.
Proof.
  intros Hsound. unfold LR0Automaton.get_transition.
  destruct (LR0Automaton.transitions_ a !! (i, addr X)) as [j|] eqn:Hj; [|lia].
  intros _. destruct (Hsound _ _ _ Hj) as (_ & sj & _ & _ & _ & Hget & _).
  unfold LR0Automaton.get_state in Hget.
  destruct (Z.ltb_spec j 0); [discriminate|].
  destruct (Z.leb_spec (Z.of_nat (length (LR0Automaton.states_ a))) j); [discriminate | lia].
Qed.

Lemma production_number_bound (prod : ProductionPtr) (productions : list ProductionPtr) :
  forall k i, production_number prod productions k = Some i ->
              k <= i < k + length productions.
Proof.
  induction productions as [|p l IH]; intros k i; cbn; [discriminate|].
  destruct (prod_eqb p prod); [intros [= <-]; lia|].
  intros H. apply IH in H. lia.
Qed.

(** The entries that [generate_table] may write: a Reduce names a
    production, a Shift and a goto name a state. *)
Definition action_in_range (num_productions num_states : nat) (a : Action.t) : Prop :=
  (Action.is_reduce a = true -> (0 <= Action.value a < Z.of_nat num_productions)%Z)
  /\ (Action.is_shift a = true -> (0 <= Action.value a < Z.of_nat num_states)%Z).

Definition table_in_range (num_productions num_states : nat) (tb : ParseTable.t) : Prop :=
  (forall k a, ParseTable.action_table_ tb !! k = Some a ->
               action_in_range num_productions num_states a)
  /\ (forall k j, ParseTable.goto_table_ tb !! k = Some j ->
                  (0 <= j < Z.of_nat num_states)%Z).

Lemma table_in_range_actions (np ns : nat) (calls : list LALR1Generator.ActionCall) :
  forall tb,
    table_in_range np ns tb ->
    (forall c, In c calls -> action_in_range np ns (snd c)) ->
    table_in_range np ns (fold_left LALR1Generator.do_action calls tb).
Proof.
  induction calls as [|[[state terminal] action] calls IH]; intros tb Htb Hcalls;
    cbn [fold_left]; [exact Htb|].
  apply IH; [|intros c Hc; apply Hcalls; now right].
  destruct Htb as [Ha Hg]. split; cbn.
  - intros k a Hk. destruct (decide ((state, addr terminal) = k)) as [<-|Hne].
    + rewrite lookup_insert_eq in Hk. injection Hk as <-.
      apply (Hcalls (state, terminal, action)). now left.
    + rewrite lookup_insert_ne in Hk by exact Hne. eapply Ha, Hk.
  - exact Hg.
Qed.

Lemma table_in_range_gotos (np ns : nat) (calls : list LALR1Generator.GotoCall) :
  forall tb,
    table_in_range np ns tb ->
    (forall c, In c calls -> (0 <= snd c < Z.of_nat ns)%Z) ->
    table_in_range np ns (fold_left LALR1Generator.do_goto calls tb).
Proof.
  induction calls as [|[[state nonterminal] target] calls IH]; intros tb Htb Hcalls;
    cbn [fold_left]; [exact Htb|].
  apply IH; [|intros c Hc; apply Hcalls; now right].
  destruct Htb as [Ha Hg]. split; cbn.
  - exact Ha.
  - intros k j Hk. destruct (decide ((state, addr nonterminal) = k)) as [<-|Hne].
    + rewrite lookup_insert_eq in Hk. injection Hk as <-.
      apply (Hcalls (state, nonterminal, target)). now left.
    + rewrite lookup_insert_ne in Hk by exact Hne. eapply Hg, Hk.
Qed.

Section fill_table.
Variable fuel : nat.
Variable g : Grammar.t.
Variable gen : LALR1Generator.t.
Hypothesis gen_core : same_core g (LALR1Generator.grammar_ gen).
Hypothesis gen_names : names_ok g.
Hypothesis gen_sound : transitions_sound fuel g (LALR1Generator.lr0_automaton_ gen).

Let np := length (Grammar.productions_ g).
Let ns := length (LR0Automaton.states_ (LALR1Generator.lr0_automaton_ gen)).

Lemma item_action_ok (state : LALRState.t) (item : LR1Item.t) :
  In (LR1Item.production_ item) (Grammar.productions_ g) ->
  exists c, LALR1Generator.item_action gen state item = Val c
            /\ forall call, c = Some call -> action_in_range np ns (snd call).
Proof using gen_core gen_names gen_sound.
  intros Hprod. unfold LALR1Generator.item_action.
  destruct (LR1Item.is_complete item).
  - destruct (looks_augmented_defined (LR1Item.production item)) as [b ->];
      [now apply gen_names|].
    cbn [res_bind]. destruct b.
    + eexists. split; [reflexivity|]. intros call [= <-]. split; discriminate.
    + eexists. split; [reflexivity|]. intros call.
      destruct (production_number _ _ 0) as [i|] eqn:Hnum; [|discriminate].
      intros [= <-]. cbn [snd]. split; [|discriminate]. intros _. cbn [Action.value].
      apply production_number_bound in Hnum. unfold Grammar.productions in Hnum.
      rewrite (sc_prods _ _ gen_core) in Hnum. subst np. lia.
  - eexists. split; [reflexivity|]. intros call.
    destruct (LR1Item.next_symbol item) as [next_symbol|]; [|discriminate].
    destruct (is_terminal next_symbol); [|discriminate].
    destruct (Z.leb_spec 0 (LR0Automaton.get_transition (LALRState.id state) next_symbol
                              (LALR1Generator.lr0_automaton_ gen))) as [Hpos|];
      [|discriminate].
    intros [= <-]. cbn [snd]. split; [discriminate|]. intros _. cbn [Action.value].
    split; [exact Hpos|]. now apply (get_transition_range fuel g).
Qed.

Lemma state_actions_ok (state : LALRState.t) (items : LR1ItemSet) :
  (forall i, In i items -> In (LR1Item.production_ i) (Grammar.productions_ g)) ->
  exists calls,
    LALR1Generator.state_actions gen state items = Val calls
    /\ forall c, In c calls -> action_in_range np ns (snd c).
Proof using gen_core gen_names gen_sound.
  induction items as [|item items IH]; intros Hitems; cbn [LALR1Generator.state_actions].
  - exists []. split; [reflexivity | intros c []].
  - destruct (item_action_ok state item (Hitems item (or_introl eq_refl)))
      as (c & -> & Hc).
    destruct (IH (fun i Hi => Hitems i (or_intror Hi))) as (calls & -> & Hcalls).
    cbn [res_bind]. eexists. split; [reflexivity|].
    destruct c as [call|]; [|exact Hcalls].
    intros c [<-|Hin]; [now apply Hc | now apply Hcalls].
Qed.

Lemma state_gotos_ok (state : LALRState.t) (c : LALR1Generator.GotoCall) :
  In c (LALR1Generator.state_gotos gen state) -> (0 <= snd c < Z.of_nat ns)%Z.
Proof using gen_sound.
  unfold LALR1Generator.state_gotos. intros Hc. apply in_flat_map in Hc as (symbol & _ & Hc).
  destruct (is_nonterminal symbol); [|destruct Hc].
  destruct (Z.leb_spec 0 (LR0Automaton.get_transition (LALRState.id state) symbol
                            (LALR1Generator.lr0_automaton_ gen))) as [Hpos|];
    [|destruct Hc].
  destruct Hc as [<-|[]]. cbn [snd]. split; [exact Hpos|].
  now apply (get_transition_range fuel g).
Qed.

Lemma fill_states_ok (states : list LALRState.t) :
  Forall (lalr_state_ok g) states ->
  forall tb,
    table_in_range np ns tb ->
    exists tb',
      res_fold (LALR1Generator.fill_state gen) states tb = Val tb'
      /\ table_in_range np ns tb'
      /\ ParseTable.num_states_ tb' = ParseTable.num_states_ tb.
Proof using gen_core gen_names gen_sound.
  induction 1 as [|state states Hstate _ IH]; intros tb Htb; cbn [res_fold].
  - exists tb. auto.
  - unfold LALR1Generator.fill_state at 1.
    destruct (state_actions_ok state (LALRState.items state) Hstate) as (calls & -> & Hcalls).
    cbn [res_bind].
    set (tb1 := fold_left LALR1Generator.do_goto _ _).
    assert (Htb1 : table_in_range np ns tb1).
    { apply table_in_range_gotos; [now apply table_in_range_actions|].
      intros c Hc. now apply (state_gotos_ok state). }
    assert (Hnum : ParseTable.num_states_ tb1 = ParseTable.num_states_ tb).
    { unfold tb1. clear. generalize (LALR1Generator.state_gotos gen state).
      assert (Hact : forall cs t, ParseTable.num_states_
                                    (fold_left LALR1Generator.do_action cs t)
                                  = ParseTable.num_states_ t).
      { induction cs as [|[[s x] a] cs IHc]; intros t; cbn [fold_left]; [reflexivity|].
        now rewrite IHc. }
      intros gs. rewrite <- (Hact calls tb). generalize (fold_left LALR1Generator.do_action calls tb).
      induction gs as [|[[s x] j] gs IHg]; intros t; cbn [fold_left]; [reflexivity|].
      now rewrite IHg. }
    destruct (IH tb1 Htb1) as (tb' & Hfold & Htb' & Hnum').
    exists tb'. rewrite Hfold. split; [reflexivity|]. split; [exact Htb' | congruence].
Qed.
End fill_table.

(** X13.  For an augmented grammar with at least one production, whose
    production left-hand sides have non-empty names and whose FIRST cache
    is clear or was written by the code, the generator and
    [generate_table] return (no exception, no undefined behaviour, no
    endless loop).  The table has one row per LR(0) state; every Reduce
    action in it carries the index of a production, every Shift action and
    every goto entry the id of a state; and the driver running on this
    table never leaves defined behaviour. *)
Theorem generated_table_is_in_range (n fuel : nat) (g : Grammar.t) (p0 : ProductionPtr)
        (rest : list ProductionPtr) :
  Grammar.productions_ g = p0 :: rest ->
  Grammar.is_augmented_ g = true ->
  caches_ok g -> names_ok g ->
  state_bound g <= n -> core_fuel g <= fuel ->
  exists gen tb gen',
    LALR1Generator.create n fuel g = Val gen
    /\ LALR1Generator.generate_table fuel gen = Val (tb, gen')
    /\ same_core g (LALR1Generator.grammar_ gen')
    /\ ParseTable.num_states_ tb
       = Z.of_nat (length (LR0Automaton.states_ (LALR1Generator.lr0_automaton_ gen)))
    /\ map LALRState.id_ (LALR1Generator.states_ gen')
       = map LR0State.id (LR0Automaton.states_ (LALR1Generator.lr0_automaton_ gen))
    /\ (forall state X,
           action_in_range (length (Grammar.productions_ g))
                           (Z.to_nat (ParseTable.num_states_ tb))
                           (ParseTable.get_action state X tb))
    /\ (forall state X,
           ParseTable.get_goto state X tb = (-1)%Z
           \/ (0 <= ParseTable.get_goto state X tb < ParseTable.num_states_ tb)%Z)
    /\ (forall fuel' l,
           let p := LALR1Parser.mk (LALR1Generator.grammar_ gen') tb false in
           LALR1Parser.parse_internal fuel' p l = Timeout
           \/ exists r, LALR1Parser.parse_internal fuel' p l = Val r).
Proof.
  intros Hprods Haug Hcaches Hnames Hn Hfuel.
  assert (Hfuel0 : length (Grammar.productions_ g) < fuel)
    by (unfold core_fuel, sets_fuel in Hfuel; lia).
  destruct (create_ok n fuel g p0 rest Hprods Hn Hfuel0) as (a & s0 & Hcreate & Hok & Hsound & _).
  exists (LALR1Generator.mk g [] a).
  unfold LALR1Generator.create. rewrite Hcreate. cbn [res_bind].
  unfold LALR1Generator.generate_table, LALR1Generator.build_lalr_states.
  cbn [LALR1Generator.grammar_ LALR1Generator.states_ LALR1Generator.lr0_automaton_].
  unfold Grammar.is_augmented. rewrite Haug. cbn [negb].
  destruct (build_lalr_states_ok fuel g (LR0Automaton.states a) Hfuel Hnames
              (ao_items _ _ _ Hok) [] g (same_core_refl g) Hcaches)
    as (new & g2 & Hbuild & Hids & Hall & Hcore2 & _).
  rewrite Hbuild. cbn [res_bind app LALR1Generator.grammar_ LALR1Generator.states_].
  set (gen' := LALR1Generator.mk g2 new a).
  set (tb0 := ParseTable.create _ _ _).
  destruct (fill_states_ok fuel g gen' Hcore2 Hnames Hsound new Hall tb0)
    as (tb & Hfill & [Hactions Hgotos] & Hnum).
  { split; intros k x Hk; cbn in Hk; rewrite lookup_empty in Hk; discriminate. }
  rewrite Hfill. cbn [res_bind].
  assert (Hlen : ParseTable.num_states_ tb = Z.of_nat (length (LR0Automaton.states_ a))).
  { rewrite Hnum. unfold tb0. cbn [ParseTable.create ParseTable.num_states_]. f_equal.
    rewrite <- (length_map LALRState.id_), Hids. apply length_map. }
  cbn [LALR1Generator.lr0_automaton_] in Hactions, Hgotos.
  assert (Hrange : forall state X,
             action_in_range (length (Grammar.productions_ g))
                             (length (LR0Automaton.states_ a))
                             (ParseTable.get_action state X tb)).
  { intros state X. unfold ParseTable.get_action.
    destruct (ParseTable.action_table_ tb !! (state, addr X)) as [act|] eqn:Hact.
    - eapply Hactions, Hact.
    - split; discriminate. }
  exists tb, gen'. split; [reflexivity|]. split; [reflexivity|].
  split; [exact Hcore2|]. split; [exact Hlen|]. split; [exact Hids|].
  split; [|split].
  - intros state X. rewrite Hlen, Nat2Z.id. apply Hrange.
  - intros state X. unfold ParseTable.get_goto.
    destruct (ParseTable.goto_table_ tb !! (state, addr X)) as [j|] eqn:Hj; [|now left].
    right. rewrite Hlen. eapply Hgotos, Hj.
  - intros fuel' l. cbv zeta. unfold LALR1Parser.parse_internal.
    destruct (next_token l) as [tok l']. apply run_defined; [|discriminate].
    intros state X Hreduce. unfold gen' in *.
    cbn [LALR1Parser.table_ LALR1Parser.grammar_ LALR1Generator.grammar_] in *.
    unfold Grammar.productions. rewrite (sc_prods _ _ Hcore2).
    now apply (Hrange state X).
Qed.

Lemma generated_table_is_in_range_witness :
  exists gen tb gen',
    LALR1Generator.create 1024 100 Examples.sum_grammar_augmented = Val gen
    /\ LALR1Generator.generate_table 100 gen = Val (tb, gen')
    /\ same_core Examples.sum_grammar_augmented (LALR1Generator.grammar_ gen')
    /\ ParseTable.num_states_ tb
       = Z.of_nat (length (LR0Automaton.states_ (LALR1Generator.lr0_automaton_ gen)))
    /\ map LALRState.id_ (LALR1Generator.states_ gen')
       = map LR0State.id (LR0Automaton.states_ (LALR1Generator.lr0_automaton_ gen))
    /\ (forall state X,
           action_in_range (length (Grammar.productions_ Examples.sum_grammar_augmented))
                           (Z.to_nat (ParseTable.num_states_ tb))
                           (ParseTable.get_action state X tb))
    /\ (forall state X,
           ParseTable.get_goto state X tb = (-1)%Z
           \/ (0 <= ParseTable.get_goto state X tb < ParseTable.num_states_ tb)%Z)
    /\ (forall fuel' l,
           let p := LALR1Parser.mk (LALR1Generator.grammar_ gen') tb false in
           LALR1Parser.parse_internal fuel' p l = Timeout
           \/ exists r, LALR1Parser.parse_internal fuel' p l = Val r).
Proof.
  apply (generated_table_is_in_range 1024 100 Examples.sum_grammar_augmented
           (mkProduction 23 (make_symbol 14 "E'" NONTERMINAL) [Examples.E])
           (skipn 1 (Grammar.productions_ Examples.sum_grammar_augmented))).
  - reflexivity.
  - reflexivity.
  - intros H. vm_compute in H. discriminate.
  - intros p Hp. vm_compute in Hp.
    repeat (destruct Hp as [<-|Hp]; [discriminate|]). destruct Hp.
  - vm_compute. lia.
  - vm_compute. lia.
Defined.
(** ** The FIRST sets as a least fixed point *)

(** A key-ordered set that has grown without getting longer is the same
    set. *)
Lemma sorted_grown_same (s s' : SymbolSet) :
  sorted_by ptr_ltb s -> sorted_by ptr_ltb s' ->
  (forall x, In x s -> In x s') -> length s' = length s -> s' = s.
Proof.
  intros Hs Hs' Hincl Hlen.
  apply (sorted_by_ext ptr_ltb ptr_ltb_trans ptr_ltb_irrefl); [exact Hs' | exact Hs |].
  intros x. split; [|apply Hincl].
  apply List.NoDup_length_incl; [|lia | exact Hincl].
  apply (List.NoDup_map_inv addr). now apply sorted_by_addr_NoDup.
Qed.

Lemma sorted_addr_inj (s : SymbolSet) :
  sorted_by ptr_ltb s ->
  forall x y, In x s -> In y s -> addr x = addr y -> x = y.
Proof.
  unfold sorted_by. induction 1 as [|z s Hs IH Hz]; [intros x y []|].
  rewrite List.Forall_forall in Hz.
  assert (Hlt : forall y, In y s -> addr z < addr y).
  { intros y Hy. specialize (Hz y Hy). unfold ptr_ltb in Hz. now apply Nat.ltb_lt in Hz. }
  intros x y [<-|Hx] [<-|Hy] Ha; auto.
  - specialize (Hlt y Hy). lia.
  - specialize (Hlt x Hx). lia.
Qed.

(** What a loop that runs until nothing changes keeps, and how it ends. *)
Lemma while_changed_invariant {S : Type} (body : S -> Res (S * bool)) (Inv : S -> Prop) :
  (forall s s1 c, Inv s -> body s = Val (s1, c) -> Inv s1) ->
  forall fuel s s',
    Inv s -> while_changed body fuel s = Val s' ->
    Inv s' /\ exists s0, Inv s0 /\ body s0 = Val (s', false).
Proof.
  intros Hbody. induction fuel as [|fuel IH]; intros s s' HI; cbn; [discriminate|].
  destruct (body s) as [[s1 c]| | |] eqn:Hb; cbn; try discriminate.
  destruct c.
  - apply IH. eapply Hbody; eauto.
  - intros [= <-]. split; [eapply Hbody; eauto|]. exists s. auto.
Qed.

(** [set_add_non_epsilon] and [set_add_all] write the set of one key. *)
Lemma has_addr_incl (fs fs' : SetMap) (k a : nat) :
  (forall x, In x (get_set fs k) -> In x (get_set fs' k)) ->
  has_addr fs k a -> has_addr fs' k a.
Proof. intros Hincl (y & Hy & Ha). exists y. auto. Qed.

Lemma set_add_exact (l x : SymbolPtr) (fs : SetMap) :
  (forall k, k <> addr l -> get_set (Grammar.set_add l x fs) k = get_set fs k)
  /\ (forall k y, In y (get_set fs k) -> In y (get_set (Grammar.set_add l x fs) k))
  /\ (forall y, In y (get_set (Grammar.set_add l x fs) (addr l)) ->
                y = x \/ In y (get_set fs (addr l))).
Proof.
  split; [|split].
  - intros k Hk. rewrite set_add_spec. now destruct (Nat.eqb_spec k (addr l)).
  - intros k y Hy. rewrite set_add_spec.
    destruct (Nat.eqb_spec k (addr l)) as [->|_]; [|exact Hy].
    now apply set_insert_incl.
  - intros y. rewrite set_add_spec, Nat.eqb_refl. apply set_insert_In.
Qed.

Lemma set_add_filtered_exact (keep : SymbolPtr -> bool) (l : SymbolPtr) (elems : SymbolSet) :
  forall fs,
    let fs' := fold_left (fun acc sym => if keep sym then Grammar.set_add l sym acc else acc)
                         elems fs in
    (forall k, k <> addr l -> get_set fs' k = get_set fs k)
    /\ (forall k y, In y (get_set fs k) -> In y (get_set fs' k))
    /\ (forall x, In x elems -> keep x = true -> has_addr fs' (addr l) (addr x))
    /\ (forall y, In y (get_set fs' (addr l)) ->
                  In y (get_set fs (addr l)) \/ (In y elems /\ keep y = true)).
Proof.
  induction elems as [|e elems IH]; intros fs; cbn zeta; cbn [fold_left].
  - repeat split; auto. intros x [].
  - set (fs1 := if keep e then Grammar.set_add l e fs else fs).
    destruct (IH fs1) as (I1 & I2 & I3 & I4). cbn zeta in I1, I2, I3, I4.
    assert (H1 : forall k, k <> addr l -> get_set fs1 k = get_set fs k).
    { intros k Hk. unfold fs1. destruct (keep e); [|reflexivity].
      now apply set_add_exact. }
    assert (H2 : forall k y, In y (get_set fs k) -> In y (get_set fs1 k)).
    { intros k y Hy. unfold fs1. destruct (keep e); [|exact Hy].
      now apply set_add_exact. }
    split; [|split; [|split]].
    + intros k Hk. now rewrite I1, H1.
    + intros k y Hy. now apply I2, H2.
    + intros x [<-|Hx] Hkeep; [|now apply I3].
      eapply has_addr_incl; [apply I2|]. unfold fs1. rewrite Hkeep.
      apply has_addr_set_add.
    + intros y Hy. destruct (I4 y Hy) as [Hold|[Hin Hk]]; [|right; split; [now right | exact Hk]].
      unfold fs1 in Hold. destruct (keep e) eqn:Hkeep; [|now left].
      apply set_add_exact in Hold as [->|Hold]; [right; split; [now left | exact Hkeep] | now left].
Qed.

Lemma set_add_non_epsilon_exact (l : SymbolPtr) (elems : SymbolSet) (fs : SetMap) :
  let fs' := Grammar.set_add_non_epsilon l elems fs in
  (forall k, k <> addr l -> get_set fs' k = get_set fs k)
  /\ (forall k y, In y (get_set fs k) -> In y (get_set fs' k))
  /\ (forall x, In x elems -> is_epsilon x = false -> has_addr fs' (addr l) (addr x))
  /\ (forall y, In y (get_set fs' (addr l)) ->
                In y (get_set fs (addr l)) \/ (In y elems /\ is_epsilon y = false)).
Proof.
  assert (E : forall fs0, Grammar.set_add_non_epsilon l elems fs0
              = fold_left (fun acc sym => if negb (is_epsilon sym)
                                          then Grammar.set_add l sym acc else acc) elems fs0).
  { unfold Grammar.set_add_non_epsilon.
    induction elems as [|e elems IH]; intros fs0; cbn; [reflexivity|].
    rewrite IH. now destruct (is_epsilon e). }
  pose proof (set_add_filtered_exact (fun s => negb (is_epsilon s)) l elems fs) as H.
  cbn zeta in *. rewrite E. destruct H as (H1 & H2 & H3 & H4). split; [exact H1|]. split; [exact H2|].
  split.
  - intros x Hx He. apply H3; [exact Hx | now rewrite He].
  - intros y Hy. destruct (H4 y Hy) as [Hold|[Hin Hk]]; [now left|].
    right. split; [exact Hin | now apply negb_true_iff].
Qed.

Lemma set_add_all_exact (l : SymbolPtr) (elems : SymbolSet) (fs : SetMap) :
  let fs' := Grammar.set_add_all l elems fs in
  (forall k, k <> addr l -> get_set fs' k = get_set fs k)
  /\ (forall k y, In y (get_set fs k) -> In y (get_set fs' k))
  /\ (forall x, In x elems -> has_addr fs' (addr l) (addr x))
  /\ (forall y, In y (get_set fs' (addr l)) -> In y (get_set fs (addr l)) \/ In y elems).
Proof.
  pose proof (set_add_filtered_exact (fun _ => true) l elems fs) as H.
  cbn zeta in *. unfold Grammar.set_add_all.
  destruct H as (H1 & H2 & H3 & H4). split; [exact H1|]. split; [exact H2|].
  split.
  - intros x Hx. now apply H3.
  - intros y Hy. destruct (H4 y Hy) as [Hold|[Hin _]]; auto.
Qed.

Section first_exact.
Variable fuel : nat.
Variable m : BoolMap.
Variable g0 : Grammar.t.
Variable P : nat -> SymbolPtr -> Prop.

Hypothesis P_copy :
  forall prod pre X post x,
    In prod (Grammar.productions_ g0) -> rhs prod = pre ++ X :: post ->
    forallb (fun s => markedb m (addr s)) pre = true ->
    P (addr X) x -> is_epsilon x = false -> P (addr (lhs prod)) x.
Hypothesis P_nullable :
  forall prod,
    In prod (Grammar.productions_ g0) -> ready m prod = true ->
    P (addr (lhs prod)) (SymbolTable.epsilon_ (Grammar.symbol_table_ g0)).

(** Every element of every FIRST set of [g] is in the family [P]. *)
Definition first_within (g : Grammar.t) : Prop :=
  forall k x, In x (get_set (Grammar.first_sets_ g) k) -> P k x.

Lemma first_rhs_loop_exact (prod : ProductionPtr) (syms : list SymbolPtr) :
  forall (pre : list SymbolPtr) (g g' : Grammar.t),
    same_core g0 g -> rhs prod = pre ++ syms -> In prod (Grammar.productions_ g) ->
    forallb (fun s => markedb m (addr s)) pre = true ->
    length (Grammar.productions_ g) < fuel -> eps_cache_of g m ->
    Grammar.first_rhs_loop fuel (lhs prod) syms g = Val g' ->
    (forall k, k <> addr (lhs prod) ->
       get_set (Grammar.first_sets_ g') k = get_set (Grammar.first_sets_ g) k)
    /\ (forall k x, In x (get_set (Grammar.first_sets_ g) k) ->
                    In x (get_set (Grammar.first_sets_ g') k))
    /\ (forall pre' X post x,
          syms = pre' ++ X :: post ->
          forallb (fun s => markedb m (addr s)) pre' = true ->
          In x (get_set (Grammar.first_sets_ g) (addr X)) -> is_epsilon x = false ->
          has_addr (Grammar.first_sets_ g') (addr (lhs prod)) (addr x))
    /\ (first_within g -> first_within g').
Proof using P_copy P_nullable.
  induction syms as [|symbol rest IH]; intros pre g g' Hcore Hrhs Hin Hpre Hfuel Hm Hrun.
  - cbn in Hrun. injection Hrun as <-. repeat split; auto.
    intros pre' X post x Heq. now destruct pre'.
  - cbn [Grammar.first_rhs_loop] in Hrun.
    destruct (Grammar.set_at symbol (Grammar.first_sets_ g)) as [first_symbol fs1] eqn:Hat.
    pose proof (set_at_spec symbol (Grammar.first_sets_ g)) as [Hfst Hsnd].
    rewrite Hat in Hfst, Hsnd. cbn [fst snd] in Hfst, Hsnd.
    destruct (set_add_non_epsilon_exact (lhs prod) first_symbol fs1) as (Ho2 & Hm2 & Hc2 & Hs2).
    cbn zeta in Ho2, Hm2, Hc2, Hs2.
    set (fs2 := Grammar.set_add_non_epsilon (lhs prod) first_symbol fs1) in *.
    destruct (derives_epsilon_spec fuel symbol (Grammar.with_first_sets fs2 g) m)
      as (g1 & Hde & Hrel1); [exact Hfuel | exact Hm |].
    rewrite Hde in Hrun. cbn [res_bind] in Hrun.
    pose proof (er_first _ _ _ Hrel1) as E1. cbn [Grammar.first_sets_ Grammar.with_first_sets] in E1.
    pose proof (er_core _ _ _ Hrel1) as Hcore1.
    assert (Hcore01 : same_core g0 g1).
    { eapply same_core_trans; [exact Hcore|].
      destruct Hcore1 as [c1 c2 c3 c4]. constructor; cbn in *; assumption. }
    assert (Hprods1 : Grammar.productions_ g1 = Grammar.productions_ g)
      by exact (sc_prods _ _ Hcore1).
    assert (A1 : forall k, k <> addr (lhs prod) ->
                   get_set (Grammar.first_sets_ g1) k = get_set (Grammar.first_sets_ g) k).
    { intros k Hk. now rewrite E1, Ho2, Hsnd. }
    assert (A2 : forall k x, In x (get_set (Grammar.first_sets_ g) k) ->
                             In x (get_set (Grammar.first_sets_ g1) k)).
    { intros k x Hx. rewrite E1. apply Hm2. now rewrite Hsnd. }
    assert (A3 : forall x, In x (get_set (Grammar.first_sets_ g) (addr symbol)) ->
                           is_epsilon x = false ->
                           has_addr (Grammar.first_sets_ g1) (addr (lhs prod)) (addr x)).
    { intros x Hx He. rewrite E1. apply Hc2; [now rewrite Hfst | exact He]. }
    assert (A4 : first_within g -> first_within g1).
    { intros Hw k x Hx. destruct (Nat.eq_dec k (addr (lhs prod))) as [->|Hk].
      - rewrite E1 in Hx. apply Hs2 in Hx as [Hold|[Hnew He]].
        + apply Hw. now rewrite <- Hsnd.
        + apply (P_copy prod pre symbol rest); auto.
          * now rewrite <- (sc_prods _ _ Hcore).
          * apply Hw. now rewrite <- Hfst.
      - apply Hw. now rewrite <- A1. }
    destruct (markedb m (addr symbol)) eqn:Hsym; cbn [negb] in Hrun.
    2:{ injection Hrun as <-. split; [exact A1|]. split; [exact A2|]. split; [|exact A4].
        intros pre' X post x Heq Hn Hx He. destruct pre' as [|s pre''].
        - injection Heq as -> _. now apply A3.
        - injection Heq as <- _. cbn in Hn. rewrite Hsym in Hn. discriminate. }
    assert (Hpre1 : forallb (fun s => markedb m (addr s)) (pre ++ [symbol]) = true).
    { rewrite forallb_app, Hpre. cbn. now rewrite Hsym. }
    destruct rest as [|symbol' rest'].
    + injection Hrun as <-. cbn [Grammar.first_sets_ Grammar.with_first_sets].
      destruct (set_add_exact (lhs prod) (SymbolTable.get_epsilon (Grammar.symbol_table_ g1))
                              (Grammar.first_sets_ g1)) as (S1 & S2 & S3).
      split; [|split; [|split]].
      * intros k Hk. now rewrite S1, A1.
      * intros k x Hx. now apply S2, A2.
      * intros pre' X post x Heq Hn Hx He. destruct pre' as [|s pre''].
        -- injection Heq as -> _. eapply has_addr_incl; [apply S2 | now apply A3].
        -- injection Heq as _ Heq. now destruct pre''.
      * intros Hw k x Hx. specialize (A4 Hw).
        destruct (Nat.eq_dec k (addr (lhs prod))) as [->|Hk].
        -- apply S3 in Hx as [->|Hold]; [|now apply A4].
           unfold SymbolTable.get_epsilon. rewrite (sc_table _ _ Hcore01).
           apply P_nullable.
           ++ now rewrite <- (sc_prods _ _ Hcore).
           ++ unfold ready. now rewrite Hrhs.
        -- apply A4. now rewrite <- S1.
    + apply (IH (pre ++ [symbol]) g1 g') in Hrun.
      * destruct Hrun as (B1 & B2 & B3 & B4).
        split; [|split; [|split]].
        -- intros k Hk. now rewrite B1, A1.
        -- intros k x Hx. now apply B2, A2.
        -- intros pre' X post x Heq Hn Hx He. destruct pre' as [|s pre''].
           ++ injection Heq as -> _. eapply has_addr_incl; [apply B2 | now apply A3].
           ++ injection Heq as <- Heq. cbn in Hn. apply andb_true_iff in Hn as [_ Hn].
              apply (B3 pre'' X post x Heq Hn); [now apply A2 | exact He].
        -- intros Hw. now apply B4, A4.
      * exact Hcore01.
      * now rewrite <- app_assoc.
      * now rewrite Hprods1.
      * exact Hpre1.
      * now rewrite Hprods1.
      * apply (er_cache _ _ _ Hrel1).
Qed.

Lemma first_step_exact (prod : ProductionPtr) (g g' : Grammar.t) (changed changed' : bool) :
  same_core g0 g -> In prod (Grammar.productions_ g) ->
  length (Grammar.productions_ g) < fuel -> eps_cache_of g m ->
  Grammar.first_step fuel (g, changed) prod = Val (g', changed') ->
  changed' = changed
             || negb (length (get_set (Grammar.first_sets_ g') (addr (lhs prod)))
                      =? length (get_set (Grammar.first_sets_ g) (addr (lhs prod))))
  /\ first_rel m g g'
  /\ (forall k, k <> addr (lhs prod) ->
        get_set (Grammar.first_sets_ g') k = get_set (Grammar.first_sets_ g) k)
  /\ (forall pre X post x,
        rhs prod = pre ++ X :: post ->
        forallb (fun s => markedb m (addr s)) pre = true ->
        In x (get_set (Grammar.first_sets_ g) (addr X)) -> is_epsilon x = false ->
        has_addr (Grammar.first_sets_ g') (addr (lhs prod)) (addr x))
  /\ (ready m prod = true ->
      has_addr (Grammar.first_sets_ g') (addr (lhs prod))
               (addr (SymbolTable.epsilon_ (Grammar.symbol_table_ g0))))
  /\ (first_within g -> first_within g').
Proof using P_copy P_nullable.
  intros Hcore Hin Hfuel Hm Hrun.
  destruct (first_step_spec fuel m prod g changed Hin Hfuel Hm) as (g1 & Hspec & Hrel & Heps).
  rewrite Hrun in Hspec. injection Hspec as <- ->.
  split; [reflexivity|]. split; [exact Hrel|].
  assert (Heps' : ready m prod = true ->
                  has_addr (Grammar.first_sets_ g') (addr (lhs prod))
                           (addr (SymbolTable.epsilon_ (Grammar.symbol_table_ g0)))).
  { intros Hr. rewrite <- (sc_table _ _ Hcore). now apply Heps. }
  unfold Grammar.first_step in Hrun.
  destruct (Grammar.set_at (lhs prod) (Grammar.first_sets_ g)) as [first_lhs fs0] eqn:Hat.
  pose proof (set_at_spec (lhs prod) (Grammar.first_sets_ g)) as [_ Hsnd].
  rewrite Hat in Hsnd. cbn [snd] in Hsnd.
  set (gs := Grammar.with_first_sets fs0 g) in *.
  assert (Hcores : same_core g0 gs).
  { destruct Hcore as [c1 c2 c3 c4]. constructor; cbn; assumption. }
  destruct (rhs prod) as [|symbol rest] eqn:Hrhs.
  - cbn [res_bind] in Hrun. injection Hrun as <-.
    cbn [Grammar.first_sets_ Grammar.with_first_sets].
    destruct (set_add_exact (lhs prod) (SymbolTable.get_epsilon (Grammar.symbol_table_ gs)) fs0)
      as (S1 & S2 & S3).
    split; [|split; [|split]].
    + intros k Hk. now rewrite S1, Hsnd.
    + intros pre X post x Heq. now destruct pre.
    + exact Heps'.
    + intros Hw k x Hx. destruct (Nat.eq_dec k (addr (lhs prod))) as [->|Hk].
      * apply S3 in Hx as [->|Hold]; [|apply Hw; now rewrite <- Hsnd].
        unfold SymbolTable.get_epsilon. rewrite (sc_table _ _ Hcores).
        apply P_nullable; [now rewrite <- (sc_prods _ _ Hcore)|].
        unfold ready. now rewrite Hrhs.
      * apply Hw. now rewrite <- Hsnd, <- S1.
  - destruct (Grammar.first_rhs_loop fuel (lhs prod) (symbol :: rest) gs)
      as [g1| | |] eqn:Hloop; cbn [res_bind] in Hrun; try discriminate.
    injection Hrun as ->.
    rewrite <- Hrhs in Hloop.
    apply (first_rhs_loop_exact prod (rhs prod) [] gs g') in Hloop; auto.
    destruct Hloop as (B1 & B2 & B3 & B4).
    cbn [Grammar.first_sets_ Grammar.with_first_sets gs] in B1, B2, B3.
    split; [|split; [|split]].
    + intros k Hk. now rewrite B1, Hsnd.
    + intros pre X post x Heq Hn Hx He. rewrite Hrhs in B3.
      apply (B3 pre X post x Heq Hn); [now rewrite Hsnd | exact He].
    + exact Heps'.
    + intros Hw. apply B4. intros k x Hx. apply Hw.
      cbn [Grammar.first_sets_ Grammar.with_first_sets gs] in Hx. now rewrite <- Hsnd.
Qed.

(** One round over the productions [l]: when it reports no change, no set
    has changed. *)
Lemma first_pass_exact (l : list ProductionPtr) :
  forall (g g' : Grammar.t) (changed changed' : bool),
    same_core g0 g -> (forall prod, In prod l -> In prod (Grammar.productions_ g)) ->
    length (Grammar.productions_ g) < fuel -> eps_cache_of g m ->
    sets_ok (table_symbols (Grammar.symbol_table_ g)) (Grammar.first_sets_ g) ->
    res_fold (Grammar.first_step fuel) l (g, changed) = Val (g', changed') ->
    first_rel m g g'
    /\ (forall prod pre X post x,
          In prod l -> rhs prod = pre ++ X :: post ->
          forallb (fun s => markedb m (addr s)) pre = true ->
          In x (get_set (Grammar.first_sets_ g) (addr X)) -> is_epsilon x = false ->
          has_addr (Grammar.first_sets_ g') (addr (lhs prod)) (addr x))
    /\ (forall prod, In prod l -> ready m prod = true ->
          has_addr (Grammar.first_sets_ g') (addr (lhs prod))
                   (addr (SymbolTable.epsilon_ (Grammar.symbol_table_ g0))))
    /\ (first_within g -> first_within g')
    /\ (changed' = false ->
        changed = false
        /\ forall k, get_set (Grammar.first_sets_ g') k = get_set (Grammar.first_sets_ g) k).
Proof using P_copy P_nullable.
  induction l as [|prod l IH]; intros g g' changed changed' Hcore Hl Hfuel Hm Hok Hrun.
  - cbn in Hrun. injection Hrun as <- <-. split; [now apply first_rel_refl|].
    split; [intros ? ? ? ? ? []|]. split; [intros ? []|]. auto.
  - cbn [res_fold] in Hrun.
    destruct (Grammar.first_step fuel (g, changed) prod) as [[g1 changed1]| | |] eqn:Hstep;
      cbn [res_bind] in Hrun; try discriminate.
    apply first_step_exact in Hstep; auto; [|apply Hl; now left].
    destruct Hstep as (Hc1 & Hrel1 & Hother & Hcopy & Heps & Hw1).
    pose proof (fr_core _ _ _ Hrel1) as Hcore1.
    pose proof (first_rel_sets_ok m g g1 Hok Hrel1) as Hok1.
    rewrite <- (sc_table _ _ Hcore1) in Hok1.
    apply IH in Hrun; auto.
    2:{ eapply same_core_trans; eauto. }
    2:{ intros p Hp. rewrite (sc_prods _ _ Hcore1). apply Hl. now right. }
    2:{ now rewrite (sc_prods _ _ Hcore1). }
    2:{ apply (fr_cache _ _ _ Hrel1). }
    destruct Hrun as (Hrel' & Hcopy' & Heps' & Hw' & Hsame').
    assert (Hmono1 : forall k x, In x (get_set (Grammar.first_sets_ g) k) ->
                                 In x (get_set (Grammar.first_sets_ g1) k)).
    { intros k x. apply set_ops_incl with (1 := fr_ops _ _ _ Hrel1). }
    assert (Hmono' : forall k x, In x (get_set (Grammar.first_sets_ g1) k) ->
                                 In x (get_set (Grammar.first_sets_ g') k)).
    { intros k x. apply set_ops_incl with (1 := fr_ops _ _ _ Hrel'). }
    split; [eapply first_rel_trans; eauto|].
    split; [|split; [|split]].
    + intros p pre X post x [<-|Hp] Heq Hn Hx He.
      * eapply has_addr_incl; [apply Hmono'|]. now apply (Hcopy pre X post x).
      * apply (Hcopy' p pre X post x); auto.
    + intros p [<-|Hp] Hr.
      * eapply has_addr_incl; [apply Hmono'|]. now apply Heps.
      * now apply Heps'.
    + auto.
    + intros Hc. destruct (Hsame' Hc) as [Hc1' Hsame]. rewrite Hc1' in Hc1.
      symmetry in Hc1. apply orb_false_iff in Hc1 as [Hc0 Hlen].
      split; [exact Hc0|]. intros k. rewrite Hsame.
      apply negb_false_iff, Nat.eqb_eq in Hlen.
      destruct (Nat.eq_dec k (addr (lhs prod))) as [->|Hk]; [|now apply Hother].
      apply sorted_grown_same; [apply Hok | apply Hok1 | apply Hmono1 | exact Hlen].
Qed.

(** The loop of [compute_first_sets] stops at a family of sets that is
    closed under the two rules, and adds nothing that the rules do not
    ask for. *)
Lemma first_loop_exact (n : nat) (gi g' : Grammar.t) :
  same_core g0 gi ->
  sets_ok (table_symbols (Grammar.symbol_table_ gi)) (Grammar.first_sets_ gi) ->
  eps_cache_of gi m -> length (Grammar.productions_ gi) < fuel ->
  Grammar.first_loop fuel n gi = Val g' ->
  first_rel m gi g'
  /\ (forall prod pre X post x,
        In prod (Grammar.productions_ g0) -> rhs prod = pre ++ X :: post ->
        forallb (fun s => markedb m (addr s)) pre = true ->
        In x (get_set (Grammar.first_sets_ g') (addr X)) -> is_epsilon x = false ->
        has_addr (Grammar.first_sets_ g') (addr (lhs prod)) (addr x))
  /\ (forall prod, In prod (Grammar.productions_ g0) -> ready m prod = true ->
        has_addr (Grammar.first_sets_ g') (addr (lhs prod))
                 (addr (SymbolTable.epsilon_ (Grammar.symbol_table_ g0))))
  /\ (first_within gi -> first_within g').
Proof using P_copy P_nullable.
  intros Hcore Hok Hm Hfuel Hrun. unfold Grammar.first_loop in Hrun.
  assert (Hpass : forall s s1 c,
            first_rel m gi s ->
            res_fold (Grammar.first_step fuel) (Grammar.productions_ s) (s, false)
            = Val (s1, c) ->
            first_rel m s s1
            /\ (forall prod pre X post x,
                  In prod (Grammar.productions_ g0) -> rhs prod = pre ++ X :: post ->
                  forallb (fun s => markedb m (addr s)) pre = true ->
                  In x (get_set (Grammar.first_sets_ s) (addr X)) -> is_epsilon x = false ->
                  has_addr (Grammar.first_sets_ s1) (addr (lhs prod)) (addr x))
            /\ (forall prod, In prod (Grammar.productions_ g0) -> ready m prod = true ->
                  has_addr (Grammar.first_sets_ s1) (addr (lhs prod))
                           (addr (SymbolTable.epsilon_ (Grammar.symbol_table_ g0))))
            /\ (first_within s -> first_within s1)
            /\ (c = false ->
                forall k, get_set (Grammar.first_sets_ s1) k
                          = get_set (Grammar.first_sets_ s) k)).
  { intros s s1 c Hrel Hbody.
    pose proof (fr_core _ _ _ Hrel) as Hcs.
    assert (Hc0 : same_core g0 s) by (eapply same_core_trans; eauto).
    apply first_pass_exact in Hbody; auto.
    - destruct Hbody as (H1 & H2 & H3 & H4 & H5).
      rewrite (sc_prods _ _ Hc0) in H2, H3.
      split; [exact H1|]. split; [exact H2|]. split; [exact H3|]. split; [exact H4|].
      intros Hc. now apply H5.
    - now rewrite (sc_prods _ _ Hcs).
    - apply (fr_cache _ _ _ Hrel).
    - rewrite (sc_table _ _ Hcs). now apply (first_rel_sets_ok m gi s). }
  apply (while_changed_invariant _
           (fun s => first_rel m gi s /\ (first_within gi -> first_within s))) in Hrun.
  - destruct Hrun as ([Hrel Hw] & s0 & [Hrel0 Hw0] & Hlast).
    destruct (Hpass s0 g' false Hrel0 Hlast) as (_ & H2 & H3 & _ & H5).
    specialize (H5 eq_refl).
    split; [exact Hrel|]. split; [|split; [exact H3 | exact Hw]].
    intros prod pre X post x Hin Heq Hn Hx He.
    apply (H2 prod pre X post x); auto. now rewrite <- H5.
  - intros s s1 c [Hrel Hw] Hbody.
    destruct (Hpass s s1 c Hrel Hbody) as (H1 & _ & _ & H4 & _).
    split; [eapply first_rel_trans; eauto | auto].
  - split; [now apply first_rel_refl | auto].
Qed.
End first_exact.

(** What the initialisation of [compute_first_sets] stores. *)
Lemma filtered_copy_keeps (p : SymbolPtr -> bool) (l : SymbolSet) :
  forall acc x,
    In x (fold_left (fun acc s => if p s then sym_insert s acc else acc) l acc) ->
    (In x l /\ p x = true) \/ In x acc.
Proof.
  induction l as [|s l IH]; intros acc x; cbn; [now right|].
  intros H. apply IH in H as [[H Hp]|H]; [left; split; [now right | exact Hp]|].
  destruct (p s) eqn:Hs; [|now right].
  apply set_insert_In in H as [->|H]; [left; split; [now left | exact Hs] | now right].
Qed.

Lemma first_init_within (st : SymbolTable.t) (P : nat -> SymbolPtr -> Prop) :
  (forall t, In t (SymbolTable.get_terminals st) -> P (addr t) t) ->
  P (addr (SymbolTable.epsilon_ st)) (SymbolTable.epsilon_ st) ->
  P (addr (SymbolTable.end_of_input_ st)) (SymbolTable.end_of_input_ st) ->
  forall k x, In x (get_set (Grammar.first_init st) k) -> P k x.
Proof.
  intros Ht He Hd.
  pose (D := fun fs : SetMap => forall k y, In y (get_set fs k) -> P k y).
  assert (Hadd : forall t fs, P (addr t) t -> D fs -> D (Grammar.set_add t t fs)).
  { intros t fs HP HD j x. rewrite set_add_spec.
    destruct (Nat.eqb_spec j (addr t)) as [->|_]; [|apply HD].
    intros Hx. apply set_insert_In in Hx as [->|Hx]; [exact HP | now apply HD]. }
  assert (Hreset : forall j fs, D fs -> D (<[j := []]> fs)).
  { intros j fs HD i x. rewrite get_set_insert. destruct (i =? j); [intros []|apply HD]. }
  assert (Hempty : D ∅).
  { intros j x. unfold get_set. rewrite lookup_empty. intros []. }
  change (D (Grammar.first_init st)). unfold Grammar.first_init.
  assert (H1 : forall l fs, (forall t, In t l -> P (addr t) t) -> D fs ->
              D (fold_left (fun acc terminal => Grammar.set_add terminal terminal acc) l fs)).
  { induction l as [|t l IH]; intros fs Hl HD; cbn; [exact HD|].
    apply IH; [intros t' Ht'; apply Hl; now right|].
    apply Hadd; [apply Hl; now left | exact HD]. }
  assert (H2 : forall l fs, D fs ->
              D (fold_left (fun acc nonterminal => <[addr nonterminal := []]> acc) l fs)).
  { induction l as [|t l IH]; intros fs HD; cbn; auto. }
  apply H2, Hadd; [exact Hd|]. apply Hadd; [exact He|]. now apply H1.
Qed.

Lemma table_addr_inj (st : SymbolTable.t) :
  table_ok st ->
  forall x y, In x (table_symbols st) -> In y (table_symbols st) ->
              addr x = addr y -> x = y.
Proof.
  intros Hok.
  assert (Hin : forall x, In x (table_symbols st) -> In x (SymbolTable.symbols_ st)).
  { intros x [<-|[<-|H]]; [apply (to_epsilon_in _ Hok) | apply (to_end_in _ Hok) | exact H]. }
  intros x y Hx Hy. apply (sorted_addr_inj _ (to_sorted _ Hok)); auto.
Qed.

Lemma first_init_has (st : SymbolTable.t) :
  table_ok st ->
  forall t,
    In t (SymbolTable.get_terminals st) \/ t = SymbolTable.epsilon_ st
    \/ t = SymbolTable.end_of_input_ st ->
    In t (get_set (Grammar.first_init st) (addr t)).
Proof.
  intros Hok.
  set (U := SymbolTable.symbols_ st).
  pose proof (sorted_addr_inj _ (to_sorted _ Hok)) as Hinj. fold U in Hinj.
  pose (D := fun fs : SetMap =>
               forall k y, In y (get_set fs k) -> In y U /\ addr y = k).
  assert (Hadd : forall t fs, In t U -> D fs ->
                 D (Grammar.set_add t t fs)
                 /\ In t (get_set (Grammar.set_add t t fs) (addr t))).
  { intros t fs Ht HD. split.
    - intros j x. rewrite set_add_spec.
      destruct (Nat.eqb_spec j (addr t)) as [->|_]; [|apply HD].
      intros Hx. apply set_insert_In in Hx as [->|Hx]; [auto | now apply HD].
    - destruct (has_addr_set_add t t fs) as (y & Hy & Ha).
      assert (Hyt : y = t); [|now subst y].
      apply set_add_exact in Hy as [E|Hy]; [exact E|].
      apply Hinj; [now apply (HD (addr t)) | exact Ht | exact Ha]. }
  assert (Hkeep : forall t x fs k, In x (get_set fs k) ->
                                   In x (get_set (Grammar.set_add t t fs) k)).
  { intros t x fs k. apply set_add_exact. }
  assert (Hterm : forall t, In t (SymbolTable.get_terminals st) ->
                            In t U /\ is_terminal t = true).
  { intros t Ht. apply filtered_copy_keeps in Ht as [Ht|[]]. exact Ht. }
  assert (H1 : forall l fs, (forall t, In t l -> In t U) -> D fs ->
              let fs' := fold_left (fun acc terminal => Grammar.set_add terminal terminal acc)
                                   l fs in
              D fs'
              /\ (forall k x, In x (get_set fs k) -> In x (get_set fs' k))
              /\ forall t, In t l -> In t (get_set fs' (addr t))).
  { induction l as [|t l IH]; intros fs Hl HD; cbn zeta; cbn [fold_left].
    - split; [exact HD|]. split; [auto | intros t []].
    - destruct (Hadd t fs (Hl t (or_introl eq_refl)) HD) as [HD1 Ht1].
      destruct (IH (Grammar.set_add t t fs)) as (I1 & I2 & I3);
        [intros t' Ht'; apply Hl; now right | exact HD1 |].
      cbn zeta in I1, I2, I3. split; [exact I1|]. split.
      + intros k x Hx. now apply I2, Hkeep.
      + intros t' [<-|Ht']; [now apply I2 | now apply I3]. }
  assert (H2 : forall l fs t,
              (forall n, In n l -> addr n <> addr t) ->
              In t (get_set fs (addr t)) ->
              In t (get_set (fold_left (fun acc nonterminal => <[addr nonterminal := []]> acc)
                                       l fs) (addr t))).
  { induction l as [|n l IH]; intros fs t Hl Ht; cbn [fold_left]; [exact Ht|].
    apply IH; [intros n' Hn'; apply Hl; now right|].
    rewrite get_set_insert.
    destruct (Nat.eqb_spec (addr t) (addr n)) as [E|_]; [|exact Ht].
    exfalso. apply (Hl n (or_introl eq_refl)). now symmetry. }
  assert (Hnt : forall n t, In n (SymbolTable.get_nonterminals st) -> In t U ->
                            is_nonterminal t = false -> addr n <> addr t).
  { intros n t Hn Ht Htype Ha. apply filtered_copy_keeps in Hn as [[Hn Hnn]|[]].
    rewrite (Hinj n t Hn Ht Ha) in Hnn. congruence. }
  assert (Heps_type : is_nonterminal (SymbolTable.epsilon_ st) = false).
  { pose proof (proj2 (to_epsilon_only _ Hok _ (to_epsilon_in _ Hok)) eq_refl) as H.
    unfold is_epsilon, is_nonterminal in *. now destruct (type (SymbolTable.epsilon_ st)). }
  assert (Hend_type : is_nonterminal (SymbolTable.end_of_input_ st) = false).
  { pose proof (proj2 (to_end_only _ Hok _ (to_end_in _ Hok)) eq_refl) as H.
    unfold is_end_of_input, is_nonterminal in *.
    now destruct (type (SymbolTable.end_of_input_ st)). }
  assert (Hempty : D ∅).
  { intros j x. unfold get_set. rewrite lookup_empty. intros []. }
  destruct (H1 (SymbolTable.get_terminals st) ∅) as (D1 & _ & T1);
    [intros t Ht; now apply Hterm | exact Hempty |].
  cbn zeta in D1, T1.
  set (m1 := fold_left (fun acc terminal => Grammar.set_add terminal terminal acc)
                       (SymbolTable.get_terminals st) ∅) in *.
  destruct (Hadd (SymbolTable.epsilon_ st) m1 (to_epsilon_in _ Hok) D1) as [D2 T2].
  set (m2 := Grammar.set_add (SymbolTable.epsilon_ st) (SymbolTable.epsilon_ st) m1) in *.
  destruct (Hadd (SymbolTable.end_of_input_ st) m2 (to_end_in _ Hok) D2) as [D3 T3].
  intros t Ht. unfold Grammar.first_init, SymbolTable.get_epsilon, SymbolTable.get_end_of_input.
  fold m1. fold m2.
  destruct Ht as [Ht|[->| ->]].
  - destruct (Hterm t Ht) as [HtU Htt]. apply H2.
    + intros n Hn. apply Hnt; auto.
      unfold is_terminal, is_nonterminal in *. now destruct (type t).
    + apply Hkeep, Hkeep. now apply T1.
  - apply H2; [intros n Hn; apply Hnt; auto; apply (to_epsilon_in _ Hok)|].
    now apply Hkeep.
  - apply H2; [intros n Hn; apply Hnt; auto; apply (to_end_in _ Hok)|].
    exact T3.
Qed.

(** What [derives_epsilon(s)] answers on the grammar [g]. *)
Definition nullable_in (fuel : nat) (g : Grammar.t) (s : SymbolPtr) : bool :=
  match Grammar.derives_epsilon fuel s g with
  | Val (b, _) => b
  | _ => false
  end.

(** The rules of [compute_first_sets], for a family [P] of sets indexed by
    the address of a symbol: a terminal, the epsilon symbol and the
    end-of-input symbol are in their own set; the set of a left-hand side
    holds the non-epsilon elements of the set of each right-hand side symbol
    that only nullable symbols precede, and the epsilon symbol when all
    symbols of the right-hand side are nullable. *)
Record first_closed (nullable : SymbolPtr -> bool) (g : Grammar.t)
       (P : nat -> SymbolPtr -> Prop) : Prop := {
  fc_terminal :
    forall t, In t (SymbolTable.get_terminals (Grammar.symbol_table_ g)) -> P (addr t) t;
  fc_epsilon :
    P (addr (SymbolTable.epsilon_ (Grammar.symbol_table_ g)))
      (SymbolTable.epsilon_ (Grammar.symbol_table_ g));
  fc_end :
    P (addr (SymbolTable.end_of_input_ (Grammar.symbol_table_ g)))
      (SymbolTable.end_of_input_ (Grammar.symbol_table_ g));
  fc_copy :
    forall prod pre X post x,
      In prod (Grammar.productions_ g) -> rhs prod = pre ++ X :: post ->
      forallb nullable pre = true ->
      P (addr X) x -> is_epsilon x = false -> P (addr (lhs prod)) x;
  fc_nullable :
    forall prod,
      In prod (Grammar.productions_ g) -> forallb nullable (rhs prod) = true ->
      P (addr (lhs prod)) (SymbolTable.epsilon_ (Grammar.symbol_table_ g))
}.

Lemma nullable_in_spec (fuel : nat) (g : Grammar.t) (m : BoolMap) :
  length (Grammar.productions_ g) < fuel -> eps_cache_of g m ->
  forall l, forallb (nullable_in fuel g) l = forallb (fun s => markedb m (addr s)) l.
Proof.
  intros Hfuel Hm. induction l as [|s l IH]; [reflexivity|]. cbn [forallb].
  rewrite IH. f_equal. unfold nullable_in.
  destruct (derives_epsilon_spec fuel s g m Hfuel Hm) as (g' & -> & _). reflexivity.
Qed.

(** X14.  On a grammar whose symbol table is one that the interface
    builds and whose FIRST cache is not computed, [first_set] returns, and
    the sets it returns are the least family closed under the rules of
    [compute_first_sets]: the family is closed, and it is contained in
    every closed family.  Nullability is what [derives_epsilon] answers. *)
Theorem first_sets_are_the_least_closed_family (fuel : nat) (g : Grammar.t) :
  table_ok (Grammar.symbol_table_ g) ->
  Grammar.first_sets_computed_ g = false ->
  sets_fuel g <= fuel ->
  exists g',
    (forall X, Grammar.first_set fuel X g
               = Val (get_set (Grammar.first_sets_ g') (addr X), g'))
    /\ same_core g g'
    /\ first_closed (nullable_in fuel g') g
                    (fun k x => In x (get_set (Grammar.first_sets_ g') k))
    /\ forall P : nat -> SymbolPtr -> Prop,
         first_closed (nullable_in fuel g') g P ->
         forall k x, In x (get_set (Grammar.first_sets_ g') k) -> P k x.
Proof.
  intros Htable Hflag Hfuel.
  destruct (eps_cache_exists g) as [m Hm].
  destruct (compute_first_sets_spec fuel g m Hm Hfuel)
    as (g' & Hcomp & Hcore & _ & _ & _ & Hm' & Hops & _).
  exists g'. split.
  { intros X. unfold Grammar.first_set. rewrite Hflag, Hcomp. reflexivity. }
  split; [exact Hcore|].
  assert (Hlen : length (Grammar.productions_ g) < fuel)
    by (unfold sets_fuel in Hfuel; lia).
  assert (Hnull : forall l, forallb (nullable_in fuel g') l
                            = forallb (fun s => markedb m (addr s)) l).
  { apply nullable_in_spec; [now rewrite (sc_prods _ _ Hcore) | exact Hm']. }
  set (gi := Grammar.with_first_sets (Grammar.first_init (Grammar.symbol_table_ g)) g).
  assert (Hloop : exists g1, Grammar.first_loop fuel fuel gi = Val g1
                             /\ Grammar.first_sets_ g' = Grammar.first_sets_ g1).
  { unfold Grammar.compute_first_sets in Hcomp. fold gi in Hcomp.
    destruct (Grammar.first_loop fuel fuel gi) as [g1| | |]; cbn [res_bind] in Hcomp;
      try discriminate.
    injection Hcomp as <-. now exists g1. }
  destruct Hloop as (g1 & Hloop & Efs).
  assert (Hcorei : same_core g gi) by now constructor.
  assert (Hoki : sets_ok (table_symbols (Grammar.symbol_table_ gi)) (Grammar.first_sets_ gi))
    by apply first_init_ok.
  assert (Hok : sets_ok (table_symbols (Grammar.symbol_table_ g)) (Grammar.first_sets_ g')).
  { eapply set_ops_ok; [| |exact Hops | apply first_init_ok].
    - intros j x [].
    - intros j x [-> _]. now left. }
  assert (Hin : forall k x y, In x (table_symbols (Grammar.symbol_table_ g)) ->
                              In y (get_set (Grammar.first_sets_ g') k) ->
                              addr y = addr x -> In x (get_set (Grammar.first_sets_ g') k)).
  { intros k x y Hx Hy Ha.
    assert (y = x) as <-; [|exact Hy].
    apply (table_addr_inj _ Htable); auto. now apply (Hok k). }
  split.
  - destruct (first_loop_exact fuel m g (fun _ _ => True)) with (n := fuel) (gi := gi) (g' := g1)
      as (_ & Hcopy & Heps & _); auto.
    rewrite <- Efs in Hcopy, Heps.
    constructor.
    + intros t Ht. eapply set_ops_incl; [exact Hops|].
      apply first_init_has; auto.
    + eapply set_ops_incl; [exact Hops|]. apply first_init_has; auto.
    + eapply set_ops_incl; [exact Hops|]. apply first_init_has; auto.
    + intros prod pre X post x Hp Heq Hn Hx He. rewrite Hnull in Hn.
      destruct (Hcopy prod pre X post x Hp Heq Hn Hx He) as (y & Hy & Ha).
      apply (Hin _ x y); auto. now apply (Hok (addr X)).
    + intros prod Hp Hn. rewrite Hnull in Hn.
      destruct (Heps prod Hp Hn) as (y & Hy & Ha).
      apply (Hin _ _ y); auto. now left.
  - intros P [Pt Pe Pd Pc Pn] k x Hx. rewrite Efs in Hx.
    destruct (first_loop_exact fuel m g P) with (n := fuel) (gi := gi) (g' := g1)
      as (_ & _ & _ & Hw); auto.
    + intros prod pre X post y Hp Heq Hn. apply (Pc prod pre X post y Hp Heq).
      now rewrite Hnull.
    + intros prod Hp Hr. apply Pn; [exact Hp|]. now rewrite Hnull.
    + apply Hw; [|exact Hx]. intros j y Hy. now apply (first_init_within _ P Pt Pe Pd).
Qed.

Lemma first_sets_are_the_least_closed_family_witness :
  exists g',
    (forall X, Grammar.first_set 60 X ExamplesLL.ll_grammar
               = Val (get_set (Grammar.first_sets_ g') (addr X), g'))
    /\ same_core ExamplesLL.ll_grammar g'
    /\ first_closed (nullable_in 60 g') ExamplesLL.ll_grammar
                    (fun k x => In x (get_set (Grammar.first_sets_ g') k))
    /\ forall P : nat -> SymbolPtr -> Prop,
         first_closed (nullable_in 60 g') ExamplesLL.ll_grammar P ->
         forall k x, In x (get_set (Grammar.first_sets_ g') k) -> P k x.
Proof.
  apply (first_sets_are_the_least_closed_family 60 ExamplesLL.ll_grammar).
  - change (Grammar.symbol_table_ ExamplesLL.ll_grammar) with (snd ExamplesLL.num_st).
    apply built_table_ok.
    unfold ExamplesLL.num_st, ExamplesLL.plus_st, ExamplesLL.T_st, ExamplesLL.E'_st,
      ExamplesLL.E_st.
    apply built_terminal; [|reflexivity].
    apply built_terminal; [|reflexivity].
    apply built_nonterminal; [|reflexivity].
    apply built_nonterminal; [|reflexivity].
    apply built_nonterminal; [|reflexivity].
    apply built_create. discriminate.
  - reflexivity.
  - vm_compute. lia.
Defined.

(** ** The FOLLOW sets as a least fixed point *)

(** What [first_set] of a sequence returns once the FIRST cache [fs] is
    computed, as a function of the cache, the nullable map and the epsilon
    symbol. *)
Fixpoint first_seq_loop_result (fs : SetMap) (m : BoolMap) (eps : SymbolPtr)
         (symbols : list SymbolPtr) (result : SymbolSet) : SymbolSet :=
  match symbols with
  | [] => result
  | symbol :: rest =>
      let result1 :=
        fold_left (fun acc sym => if is_epsilon sym then acc else sym_insert sym acc)
                  (get_set fs (addr symbol)) result in
      if negb (markedb m (addr symbol)) then result1
      else
        match rest with
        | [] => sym_insert eps result1
        | _ :: _ => first_seq_loop_result fs m eps rest result1
        end
  end.

Definition first_set_seq_result (fs : SetMap) (m : BoolMap) (eps : SymbolPtr)
           (symbols : list SymbolPtr) : SymbolSet :=
  let result := first_seq_loop_result fs m eps symbols [] in
  match symbols with
  | [] => sym_insert eps result
  | _ :: _ =>
      if forallb (fun s => markedb m (addr s)) symbols then sym_insert eps result
      else result
  end.

Lemma first_seq_loop_exact (fuel : nat) (m : BoolMap) (symbols : list SymbolPtr) :
  forall (result : SymbolSet) (g : Grammar.t),
    Grammar.first_sets_computed_ g = true ->
    length (Grammar.productions_ g) < fuel -> eps_cache_of g m ->
    exists g',
      Grammar.first_seq_loop fuel symbols result g
      = Val (first_seq_loop_result (Grammar.first_sets_ g) m
               (SymbolTable.epsilon_ (Grammar.symbol_table_ g)) symbols result, g')
      /\ eps_rel m g g'.
Proof.
  induction symbols as [|symbol rest IH]; intros result g Hflag Hfuel Hm.
  - exists g. cbn. split; [reflexivity | now apply eps_rel_refl].
  - cbn [Grammar.first_seq_loop first_seq_loop_result].
    unfold Grammar.first_set. rewrite Hflag. cbn [res_bind].
    change (match Grammar.first_sets_ g !! addr symbol with
            | Some s => s | None => [] end)
      with (get_set (Grammar.first_sets_ g) (addr symbol)).
    set (result1 := fold_left (fun acc sym => if is_epsilon sym then acc
                                              else sym_insert sym acc)
                              (get_set (Grammar.first_sets_ g) (addr symbol)) result).
    destruct (derives_epsilon_spec fuel symbol g m Hfuel Hm) as (g2 & Hde & Hrel2).
    rewrite Hde. cbn [res_bind].
    destruct (markedb m (addr symbol)) eqn:Hsym; cbn [negb].
    2:{ exists g2. split; [reflexivity | exact Hrel2]. }
    assert (Hfuel2 : length (Grammar.productions_ g2) < fuel)
      by now rewrite (sc_prods _ _ (er_core _ _ _ Hrel2)).
    destruct rest as [|symbol' rest'].
    + destruct (derives_epsilon_spec fuel symbol g2 m Hfuel2 (er_cache _ _ _ Hrel2))
        as (g3 & Hde3 & Hrel3).
      rewrite Hde3. cbn [res_bind]. rewrite Hsym. exists g3. split.
      * unfold SymbolTable.get_epsilon.
        now rewrite (sc_table _ _ (er_core _ _ _ Hrel3)), (sc_table _ _ (er_core _ _ _ Hrel2)).
      * eapply eps_rel_trans; eauto.
    + destruct (IH result1 g2) as (g' & Hloop & Hrel').
      * now rewrite (er_first_flag _ _ _ Hrel2).
      * exact Hfuel2.
      * apply (er_cache _ _ _ Hrel2).
      * exists g'. split; [|eapply eps_rel_trans; eauto].
        rewrite Hloop, (er_first _ _ _ Hrel2), (sc_table _ _ (er_core _ _ _ Hrel2)).
        reflexivity.
Qed.

Lemma first_set_seq_exact (fuel : nat) (m : BoolMap) (symbols : list SymbolPtr)
      (g : Grammar.t) :
  Grammar.first_sets_computed_ g = true ->
  length (Grammar.productions_ g) < fuel -> eps_cache_of g m ->
  exists g',
    Grammar.first_set_seq fuel symbols g
    = Val (first_set_seq_result (Grammar.first_sets_ g) m
             (SymbolTable.epsilon_ (Grammar.symbol_table_ g)) symbols, g')
    /\ eps_rel m g g'.
Proof.
  intros Hflag Hfuel Hm. unfold Grammar.first_set_seq, first_set_seq_result.
  destruct (first_seq_loop_exact fuel m symbols [] g Hflag Hfuel Hm) as (g1 & Hloop & Hrel1).
  rewrite Hloop. cbn [res_bind].
  destruct symbols as [|symbol rest].
  - exists g1. split; [|exact Hrel1].
    unfold SymbolTable.get_epsilon. now rewrite (sc_table _ _ (er_core _ _ _ Hrel1)).
  - destruct (derives_epsilon_seq_spec fuel (symbol :: rest) g1 m) as (g2 & Hseq & Hrel2).
    + now rewrite (sc_prods _ _ (er_core _ _ _ Hrel1)).
    + apply (er_cache _ _ _ Hrel1).
    + rewrite Hseq. cbn [res_bind]. exists g2. split; [|eapply eps_rel_trans; eauto].
      unfold SymbolTable.get_epsilon.
      now rewrite (sc_table _ _ (er_core _ _ _ Hrel2)), (sc_table _ _ (er_core _ _ _ Hrel1)).
Qed.

(** The sets of a cache stay key-ordered. *)
Definition sets_sorted (fs : SetMap) : Prop :=
  forall j, sorted_by ptr_ltb (get_set fs j).

Lemma set_ops_sorted (src : nat -> SymbolSet) (guard : SymbolPtr -> Prop)
      (allowed : nat -> SymbolPtr -> Prop) (fs fs' : SetMap) :
  set_ops src guard allowed fs fs' -> sets_sorted fs -> sets_sorted fs'.
Proof.
  induction 1 as [|fs fs1 fs2 _ IH Hop]; [auto|].
  intros Hs. specialize (IH Hs).
  assert (Hadd : forall k x, sets_sorted (Grammar.set_add k x fs1)).
  { intros k x j. rewrite set_add_spec.
    destruct (Nat.eqb_spec j (addr k)) as [->|_]; [|apply IH].
    apply set_insert_sorted; [exact ptr_ltb_trans | apply IH]. }
  destruct Hop as [k|k i x _ _|k x _]; auto.
  intros j. rewrite (proj2 (set_at_spec k fs1)). apply IH.
Qed.

Section follow_exact.
Variable fuel : nat.
Variable m : BoolMap.
Variable g0 : Grammar.t.
Variable P : nat -> SymbolPtr -> Prop.

Let first_of (beta : list SymbolPtr) : SymbolSet :=
  first_set_seq_result (Grammar.first_sets_ g0) m
                       (SymbolTable.epsilon_ (Grammar.symbol_table_ g0)) beta.

Hypothesis P_first :
  forall prod pre B beta x,
    In prod (Grammar.productions_ g0) -> rhs prod = pre ++ B :: beta ->
    is_nonterminal B = true -> beta <> [] ->
    In x (first_of beta) -> is_epsilon x = false -> P (addr B) x.
Hypothesis P_follow :
  forall prod pre B beta x,
    In prod (Grammar.productions_ g0) -> rhs prod = pre ++ B :: beta ->
    is_nonterminal B = true ->
    forallb (fun s => markedb m (addr s)) beta = true ->
    P (addr (lhs prod)) x -> P (addr B) x.

(** Every element of every FOLLOW set of [g] is in the family [P]. *)
Definition follow_within (g : Grammar.t) : Prop :=
  forall k x, In x (get_set (Grammar.follow_sets_ g) k) -> P k x.

(** The grammars that the FOLLOW loop goes through. *)
Record follow_state (g : Grammar.t) : Prop := {
  fw_core : same_core g0 g;
  fw_first : Grammar.first_sets_ g = Grammar.first_sets_ g0;
  fw_flag : Grammar.first_sets_computed_ g = true;
  fw_fuel : length (Grammar.productions_ g) < fuel;
  fw_cache : eps_cache_of g m;
  fw_sorted : sets_sorted (Grammar.follow_sets_ g)
}.

Lemma follow_state_rel (g g' : Grammar.t) :
  follow_state g -> follow_rel m g g' -> follow_state g'.
Proof using Type.
  intros [Hc Hf Hfl Hfu Hca Hso] Hrel. constructor.
  - eapply same_core_trans; [exact Hc | apply (fo_core _ _ _ Hrel)].
  - now rewrite (fo_first _ _ _ Hrel).
  - now rewrite (fo_first_flag _ _ _ Hrel).
  - now rewrite (sc_prods _ _ (fo_core _ _ _ Hrel)).
  - apply (fo_cache _ _ _ Hrel).
  - eapply set_ops_sorted; [apply (fo_ops _ _ _ Hrel) | exact Hso].
Qed.

Lemma follow_pos_step_exact (prod : ProductionPtr) (pre : list SymbolPtr) (B : SymbolPtr)
      (beta : list SymbolPtr) (g g' : Grammar.t) (changed changed' : bool) :
  follow_state g -> rhs prod = pre ++ B :: beta -> In prod (Grammar.productions_ g) ->
  Grammar.follow_pos_step fuel (lhs prod) B beta (g, changed) = Val (g', changed') ->
  follow_rel m g g'
  /\ (is_nonterminal B = true -> beta <> [] ->
      forall x, In x (first_of beta) -> is_epsilon x = false ->
                has_addr (Grammar.follow_sets_ g') (addr B) (addr x))
  /\ (is_nonterminal B = true -> forallb (fun s => markedb m (addr s)) beta = true ->
      forall x, In x (get_set (Grammar.follow_sets_ g) (addr (lhs prod))) ->
                has_addr (Grammar.follow_sets_ g') (addr B) (addr x))
  /\ (follow_within g -> follow_within g')
  /\ (changed' = false ->
      changed = false
      /\ forall k, get_set (Grammar.follow_sets_ g') k = get_set (Grammar.follow_sets_ g) k).
Proof using P_first P_follow.
  intros Hst Hrhs Hin Hrun.
  destruct Hst as [Hcore Hfirst Hflag Hfuel Hm Hsorted].
  destruct (follow_pos_step_spec fuel m (lhs prod) B beta g changed Hflag Hfuel Hm)
    as (g1 & Hspec & Hrel).
  rewrite Hrun in Hspec. injection Hspec as <- Hchanged.
  split; [exact Hrel|].
  assert (Hmono : forall k x, In x (get_set (Grammar.follow_sets_ g) k) ->
                              In x (get_set (Grammar.follow_sets_ g') k)).
  { intros k x. apply set_ops_incl with (1 := fo_ops _ _ _ Hrel). }
  assert (Hin0 : In prod (Grammar.productions_ g0))
    by now rewrite <- (sc_prods _ _ Hcore).
  (* the sets of the keys other than [B] *)
  assert (Hmain :
    (forall k, k <> addr B ->
       get_set (Grammar.follow_sets_ g') k = get_set (Grammar.follow_sets_ g) k)
    /\ (is_nonterminal B = false ->
        forall k, get_set (Grammar.follow_sets_ g') k = get_set (Grammar.follow_sets_ g) k)
    /\ (is_nonterminal B = true -> beta <> [] ->
        forall x, In x (first_of beta) -> is_epsilon x = false ->
                  has_addr (Grammar.follow_sets_ g') (addr B) (addr x))
    /\ (is_nonterminal B = true -> forallb (fun s => markedb m (addr s)) beta = true ->
        forall x, In x (get_set (Grammar.follow_sets_ g) (addr (lhs prod))) ->
                  has_addr (Grammar.follow_sets_ g') (addr B) (addr x))
    /\ (follow_within g -> follow_within g')).
  { unfold Grammar.follow_pos_step in Hrun.
    destruct (is_nonterminal B) eqn:HB; cbn [negb] in Hrun.
    2:{ injection Hrun as <- _. repeat split; auto; discriminate. }
    destruct (Grammar.set_at B (Grammar.follow_sets_ g)) as [follow_B fo0] eqn:Hat.
    pose proof (set_at_spec B (Grammar.follow_sets_ g)) as [_ Hsnd].
    rewrite Hat in Hsnd. cbn [snd] in Hsnd.
    set (gs := Grammar.with_follow_sets fo0 g) in *.
    (* adding FOLLOW(A) to FOLLOW(B) in a grammar [gc] *)
    assert (Hcopy : forall gc,
      let g2 := (let '(follow_A, fo1) := Grammar.set_at (lhs prod) (Grammar.follow_sets_ gc) in
                 Grammar.with_follow_sets (Grammar.set_add_all B follow_A fo1) gc) in
      (forall k, k <> addr B ->
         get_set (Grammar.follow_sets_ g2) k = get_set (Grammar.follow_sets_ gc) k)
      /\ (forall x, In x (get_set (Grammar.follow_sets_ gc) (addr (lhs prod))) ->
                    has_addr (Grammar.follow_sets_ g2) (addr B) (addr x))
      /\ (forall x, In x (get_set (Grammar.follow_sets_ g2) (addr B)) ->
                    In x (get_set (Grammar.follow_sets_ gc) (addr B))
                    \/ In x (get_set (Grammar.follow_sets_ gc) (addr (lhs prod))))).
    { intros gc.
      destruct (Grammar.set_at (lhs prod) (Grammar.follow_sets_ gc)) as [follow_A fo1] eqn:HatA.
      pose proof (set_at_spec (lhs prod) (Grammar.follow_sets_ gc)) as [HfstA HsndA].
      rewrite HatA in HfstA, HsndA. cbn [fst snd] in HfstA, HsndA.
      cbn zeta. cbn [Grammar.follow_sets_ Grammar.with_follow_sets].
      destruct (set_add_all_exact B follow_A fo1) as (S1 & S2 & S3 & S4).
      cbn zeta in S1, S2, S3, S4.
      split; [|split].
      - intros k Hk. now rewrite S1, HsndA.
      - intros x Hx. apply S3. now rewrite HfstA.
      - intros x Hx. apply S4 in Hx as [Hx|Hx]; [left; now rewrite <- HsndA|].
        right. now rewrite <- HfstA. }
    destruct beta as [|b beta'].
    - specialize (Hcopy gs). cbn zeta in Hcopy.
      destruct (Grammar.set_at (lhs prod) (Grammar.follow_sets_ gs)) as [follow_A fo1] eqn:HatA.
      cbn [res_bind] in Hrun. injection Hrun as <- _.
      destruct Hcopy as (C1 & C2 & C3).
      cbn [Grammar.follow_sets_ Grammar.with_follow_sets gs] in C1, C2, C3.
      cbn [Grammar.follow_sets_ Grammar.with_follow_sets].
      split; [|split; [|split; [|split]]].
      + intros k Hk. now rewrite C1, Hsnd.
      + discriminate.
      + intros _ Hne. now contradiction Hne.
      + intros _ _ x Hx. apply C2. now rewrite Hsnd.
      + intros Hw k x Hx. destruct (Nat.eq_dec k (addr B)) as [->|Hk].
        * apply C3 in Hx as [Hx|Hx]; [apply Hw; now rewrite <- Hsnd|].
          apply (P_follow prod pre B [] x Hin0 Hrhs HB eq_refl).
          apply Hw. now rewrite <- Hsnd.
        * apply Hw. now rewrite <- Hsnd, <- C1.
    - destruct (first_set_seq_exact fuel m (b :: beta') gs) as (ga & Hfs & Hrela);
        [exact Hflag | exact Hfuel | exact Hm |].
      rewrite Hfs in Hrun. cbn [res_bind] in Hrun.
      change (Grammar.first_sets_ gs) with (Grammar.first_sets_ g) in Hrun.
      change (Grammar.symbol_table_ gs) with (Grammar.symbol_table_ g) in Hrun.
      rewrite Hfirst, (sc_table _ _ Hcore) in Hrun. fold (first_of (b :: beta')) in Hrun.
      pose proof (er_follow _ _ _ Hrela) as Ea.
      cbn [Grammar.follow_sets_ Grammar.with_follow_sets gs] in Ea.
      destruct (set_add_non_epsilon_exact B (first_of (b :: beta')) (Grammar.follow_sets_ ga))
        as (N1 & N2 & N3 & N4). cbn zeta in N1, N2, N3, N4.
      set (fb := Grammar.set_add_non_epsilon B (first_of (b :: beta'))
                   (Grammar.follow_sets_ ga)) in *.
      set (gb := Grammar.with_follow_sets fb ga) in *.
      destruct (derives_epsilon_seq_spec fuel (b :: beta') gb m) as (gc & Hseq & Hrelc).
      { change (Grammar.productions_ gb) with (Grammar.productions_ ga).
        now rewrite (sc_prods _ _ (er_core _ _ _ Hrela)). }
      { apply (eps_cache_of_core ga gb); [now constructor | reflexivity | reflexivity|].
        apply (er_cache _ _ _ Hrela). }
      rewrite Hseq in Hrun. cbn [res_bind] in Hrun.
      pose proof (er_follow _ _ _ Hrelc) as Ec.
      cbn [Grammar.follow_sets_ Grammar.with_follow_sets gb] in Ec.
      (* the state after adding FIRST(beta) without epsilon *)
      assert (A1 : forall k, k <> addr B ->
                     get_set (Grammar.follow_sets_ gc) k = get_set (Grammar.follow_sets_ g) k).
      { intros k Hk. now rewrite Ec, N1, Ea, Hsnd. }
      assert (A2 : forall k x, In x (get_set (Grammar.follow_sets_ g) k) ->
                               In x (get_set (Grammar.follow_sets_ gc) k)).
      { intros k x Hx. rewrite Ec. apply N2. now rewrite Ea, Hsnd. }
      assert (A3 : forall x, In x (first_of (b :: beta')) -> is_epsilon x = false ->
                             has_addr (Grammar.follow_sets_ gc) (addr B) (addr x)).
      { intros x Hx He. rewrite Ec. now apply N3. }
      assert (A4 : follow_within g -> follow_within gc).
      { intros Hw k x Hx. destruct (Nat.eq_dec k (addr B)) as [->|Hk].
        - rewrite Ec in Hx. apply N4 in Hx as [Hx|[Hx He]].
          + apply Hw. now rewrite <- Hsnd, <- Ea.
          + apply (P_first prod pre B (b :: beta') x Hin0 Hrhs HB); auto.
        - apply Hw. now rewrite <- A1. }
      destruct (forallb (fun s => markedb m (addr s)) (b :: beta')) eqn:Hnull.
      + specialize (Hcopy gc). cbn zeta in Hcopy.
        destruct (Grammar.set_at (lhs prod) (Grammar.follow_sets_ gc)) as [follow_A fo1] eqn:HatA.
        cbn [res_bind] in Hrun. injection Hrun as <- _.
        destruct Hcopy as (C1 & C2 & C3).
        assert (C0 : forall k x, In x (get_set (Grammar.follow_sets_ gc) k) ->
                       In x (get_set (Grammar.follow_sets_
                                        (Grammar.with_follow_sets
                                           (Grammar.set_add_all B follow_A fo1) gc)) k)).
        { intros k x Hx. cbn [Grammar.follow_sets_ Grammar.with_follow_sets].
          apply set_add_all_exact.
          pose proof (set_at_spec (lhs prod) (Grammar.follow_sets_ gc)) as [_ HsndA].
          rewrite HatA in HsndA. cbn [snd] in HsndA. now rewrite HsndA. }
        split; [|split; [|split; [|split]]].
        * intros k Hk. now rewrite C1, A1.
        * discriminate.
        * intros _ _ x Hx He. eapply has_addr_incl; [apply C0 | now apply A3].
        * intros _ _ x Hx. apply C2. now apply A2.
        * intros Hw k x Hx. specialize (A4 Hw).
          destruct (Nat.eq_dec k (addr B)) as [->|Hk].
          -- apply C3 in Hx as [Hx|Hx]; [now apply A4|].
             apply (P_follow prod pre B (b :: beta') x Hin0 Hrhs HB Hnull).
             now apply A4.
          -- apply A4. now rewrite <- C1.
      + cbn [res_bind] in Hrun. injection Hrun as <- _.
        split; [exact A1|]. split; [discriminate|]. split; [intros _ _; exact A3|].
        split; [discriminate | exact A4]. }
  destruct Hmain as (M1 & M2 & M3 & M4 & M5).
  split; [exact M3|]. split; [exact M4|]. split; [exact M5|].
  intros Hc. rewrite Hc in Hchanged. symmetry in Hchanged.
  apply orb_false_iff in Hchanged as [Hc0 Hlen]. split; [exact Hc0|].
  destruct (is_nonterminal B) eqn:HB; [|now apply M2].
  cbn [andb] in Hlen. apply negb_false_iff, Nat.eqb_eq in Hlen.
  intros k. destruct (Nat.eq_dec k (addr B)) as [->|Hk]; [|now apply M1].
  apply sorted_grown_same; [apply Hsorted | | apply Hmono | exact Hlen].
  eapply set_ops_sorted; [apply (fo_ops _ _ _ Hrel) | exact Hsorted].
Qed.

Lemma follow_rhs_loop_exact (prod : ProductionPtr) (syms : list SymbolPtr) :
  forall (pre : list SymbolPtr) (g g' : Grammar.t) (changed changed' : bool),
    follow_state g -> rhs prod = pre ++ syms -> In prod (Grammar.productions_ g) ->
    Grammar.follow_rhs_loop fuel (lhs prod) syms (g, changed) = Val (g', changed') ->
    follow_rel m g g'
    /\ (forall pre' B beta x,
          syms = pre' ++ B :: beta -> is_nonterminal B = true -> beta <> [] ->
          In x (first_of beta) -> is_epsilon x = false ->
          has_addr (Grammar.follow_sets_ g') (addr B) (addr x))
    /\ (forall pre' B beta x,
          syms = pre' ++ B :: beta -> is_nonterminal B = true ->
          forallb (fun s => markedb m (addr s)) beta = true ->
          In x (get_set (Grammar.follow_sets_ g) (addr (lhs prod))) ->
          has_addr (Grammar.follow_sets_ g') (addr B) (addr x))
    /\ (follow_within g -> follow_within g')
    /\ (changed' = false ->
        changed = false
        /\ forall k, get_set (Grammar.follow_sets_ g') k = get_set (Grammar.follow_sets_ g) k).
Proof using P_first P_follow.
  induction syms as [|B beta IH]; intros pre g g' changed changed' Hst Hrhs Hin Hrun.
  - cbn in Hrun. injection Hrun as <- <-.
    split; [apply follow_rel_refl, (fw_cache _ Hst)|].
    split; [intros pre' ? ? ? Heq; now destruct pre'|].
    split; [intros pre' ? ? ? Heq; now destruct pre'|]. auto.
  - cbn [Grammar.follow_rhs_loop] in Hrun.
    destruct (Grammar.follow_pos_step fuel (lhs prod) B beta (g, changed))
      as [[g1 changed1]| | |] eqn:Hstep; cbn [res_bind] in Hrun; try discriminate.
    apply (follow_pos_step_exact prod pre) in Hstep; auto.
    destruct Hstep as (Hrel1 & Hf1 & Ho1 & Hw1 & Hs1).
    pose proof (follow_state_rel g g1 Hst Hrel1) as Hst1.
    apply (IH (pre ++ [B])) in Hrun; auto.
    2:{ now rewrite <- app_assoc. }
    2:{ now rewrite (sc_prods _ _ (fo_core _ _ _ Hrel1)). }
    destruct Hrun as (Hrel' & Hf' & Ho' & Hw' & Hs').
    assert (Hmono1 : forall k x, In x (get_set (Grammar.follow_sets_ g) k) ->
                                 In x (get_set (Grammar.follow_sets_ g1) k)).
    { intros k x. apply set_ops_incl with (1 := fo_ops _ _ _ Hrel1). }
    assert (Hmono' : forall k x, In x (get_set (Grammar.follow_sets_ g1) k) ->
                                 In x (get_set (Grammar.follow_sets_ g') k)).
    { intros k x. apply set_ops_incl with (1 := fo_ops _ _ _ Hrel'). }
    split; [eapply follow_rel_trans; eauto|].
    split; [|split; [|split]].
    + intros pre' X post x Heq HX Hne Hx He. destruct pre' as [|s pre''].
      * injection Heq as -> ->. eapply has_addr_incl; [apply Hmono'|]. now apply Hf1.
      * injection Heq as _ Heq. now apply (Hf' pre'' X post x).
    + intros pre' X post x Heq HX Hn Hx. destruct pre' as [|s pre''].
      * injection Heq as -> ->. eapply has_addr_incl; [apply Hmono'|]. now apply Ho1.
      * injection Heq as _ Heq. apply (Ho' pre'' X post x); auto.
    + auto.
    + intros Hc. destruct (Hs' Hc) as [Hc1 Hsame']. destruct (Hs1 Hc1) as [Hc0 Hsame1].
      split; [exact Hc0|]. intros k. now rewrite Hsame', Hsame1.
Qed.

Lemma follow_pass_exact (l : list ProductionPtr) :
  forall (g g' : Grammar.t) (changed changed' : bool),
    follow_state g -> (forall prod, In prod l -> In prod (Grammar.productions_ g)) ->
    res_fold (Grammar.follow_step fuel) l (g, changed) = Val (g', changed') ->
    follow_rel m g g'
    /\ (forall prod pre B beta x,
          In prod l -> rhs prod = pre ++ B :: beta -> is_nonterminal B = true ->
          beta <> [] -> In x (first_of beta) -> is_epsilon x = false ->
          has_addr (Grammar.follow_sets_ g') (addr B) (addr x))
    /\ (forall prod pre B beta x,
          In prod l -> rhs prod = pre ++ B :: beta -> is_nonterminal B = true ->
          forallb (fun s => markedb m (addr s)) beta = true ->
          In x (get_set (Grammar.follow_sets_ g) (addr (lhs prod))) ->
          has_addr (Grammar.follow_sets_ g') (addr B) (addr x))
    /\ (follow_within g -> follow_within g')
    /\ (changed' = false ->
        changed = false
        /\ forall k, get_set (Grammar.follow_sets_ g') k = get_set (Grammar.follow_sets_ g) k).
Proof using P_first P_follow.
  induction l as [|prod l IH]; intros g g' changed changed' Hst Hl Hrun.
  - cbn in Hrun. injection Hrun as <- <-.
    split; [apply follow_rel_refl, (fw_cache _ Hst)|].
    split; [intros ? ? ? ? ? []|]. split; [intros ? ? ? ? ? []|]. auto.
  - cbn [res_fold] in Hrun. unfold Grammar.follow_step at 1 in Hrun.
    destruct (Grammar.follow_rhs_loop fuel (lhs prod) (rhs prod) (g, changed))
      as [[g1 changed1]| | |] eqn:Hstep; cbn [res_bind] in Hrun; try discriminate.
    apply (follow_rhs_loop_exact prod (rhs prod) []) in Hstep; auto; [|apply Hl; now left].
    destruct Hstep as (Hrel1 & Hf1 & Ho1 & Hw1 & Hs1).
    pose proof (follow_state_rel g g1 Hst Hrel1) as Hst1.
    apply IH in Hrun; auto.
    2:{ intros p Hp. rewrite (sc_prods _ _ (fo_core _ _ _ Hrel1)). apply Hl. now right. }
    destruct Hrun as (Hrel' & Hf' & Ho' & Hw' & Hs').
    assert (Hmono1 : forall k x, In x (get_set (Grammar.follow_sets_ g) k) ->
                                 In x (get_set (Grammar.follow_sets_ g1) k)).
    { intros k x. apply set_ops_incl with (1 := fo_ops _ _ _ Hrel1). }
    assert (Hmono' : forall k x, In x (get_set (Grammar.follow_sets_ g1) k) ->
                                 In x (get_set (Grammar.follow_sets_ g') k)).
    { intros k x. apply set_ops_incl with (1 := fo_ops _ _ _ Hrel'). }
    split; [eapply follow_rel_trans; eauto|].
    split; [|split; [|split]].
    + intros p pre B beta x [<-|Hp] Heq HB Hne Hx He.
      * eapply has_addr_incl; [apply Hmono'|]. now apply (Hf1 pre B beta x).
      * now apply (Hf' p pre B beta x).
    + intros p pre B beta x [<-|Hp] Heq HB Hn Hx.
      * eapply has_addr_incl; [apply Hmono'|]. now apply (Ho1 pre B beta x).
      * apply (Ho' p pre B beta x); auto.
    + auto.
    + intros Hc. destruct (Hs' Hc) as [Hc1 Hsame']. destruct (Hs1 Hc1) as [Hc0 Hsame1].
      split; [exact Hc0|]. intros k. now rewrite Hsame', Hsame1.
Qed.

(** The loop of [compute_follow_sets] stops at a family of sets that is
    closed under the two rules, and adds nothing that the rules do not ask
    for. *)
Lemma follow_loop_exact (n : nat) (gi g' : Grammar.t) :
  follow_state gi ->
  Grammar.follow_loop fuel n gi = Val g' ->
  follow_rel m gi g'
  /\ (forall prod pre B beta x,
        In prod (Grammar.productions_ g0) -> rhs prod = pre ++ B :: beta ->
        is_nonterminal B = true -> beta <> [] ->
        In x (first_of beta) -> is_epsilon x = false ->
        has_addr (Grammar.follow_sets_ g') (addr B) (addr x))
  /\ (forall prod pre B beta x,
        In prod (Grammar.productions_ g0) -> rhs prod = pre ++ B :: beta ->
        is_nonterminal B = true ->
        forallb (fun s => markedb m (addr s)) beta = true ->
        In x (get_set (Grammar.follow_sets_ g') (addr (lhs prod))) ->
        has_addr (Grammar.follow_sets_ g') (addr B) (addr x))
  /\ (follow_within gi -> follow_within g').
Proof using P_first P_follow.
  intros Hst Hrun. unfold Grammar.follow_loop in Hrun.
  apply (while_changed_invariant _
           (fun s => follow_rel m gi s /\ (follow_within gi -> follow_within s))) in Hrun.
  - destruct Hrun as ([Hrel Hw] & s0 & [Hrel0 Hw0] & Hlast).
    pose proof (follow_state_rel gi s0 Hst Hrel0) as Hst0.
    apply follow_pass_exact in Hlast; auto.
    destruct Hlast as (_ & Hf & Ho & _ & Hs). destruct (Hs eq_refl) as [_ Hsame].
    rewrite (sc_prods _ _ (fw_core _ Hst0)) in Hf, Ho.
    split; [exact Hrel|]. split; [exact Hf|]. split; [|exact Hw].
    intros prod pre B beta x Hin Heq HB Hn Hx. apply (Ho prod pre B beta x); auto.
    now rewrite <- Hsame.
  - intros s s1 c [Hrel Hw] Hbody.
    pose proof (follow_state_rel gi s Hst Hrel) as Hsts.
    apply follow_pass_exact in Hbody; auto.
    destruct Hbody as (H1 & _ & _ & H4 & _).
    split; [eapply follow_rel_trans; eauto | auto].
  - split; [apply follow_rel_refl, (fw_cache _ Hst) | auto].
Qed.
End follow_exact.

(** What the initialisation of [compute_follow_sets] stores: the
    end-of-input symbol in the set of the start symbol, and nothing else. *)
Lemma follow_init_content (g : Grammar.t) (k : nat) :
  get_set (Grammar.follow_init g) k
  = match Grammar.start_symbol_ g with
    | Some start =>
        if k =? addr start then [SymbolTable.end_of_input_ (Grammar.symbol_table_ g)]
        else []
    | None => []
    end.
Proof.
  unfold Grammar.follow_init.
  assert (Hempty : forall l (fs : SetMap),
            (forall j, get_set fs j = []) ->
            forall j, get_set (fold_left (fun acc nonterminal =>
                                            <[addr nonterminal := []]> acc) l fs) j = []).
  { induction l as [|n l IH]; intros fs Hfs j; cbn [fold_left]; [apply Hfs|].
    apply IH. intros i. rewrite get_set_insert. destruct (i =? addr n); [reflexivity|apply Hfs]. }
  specialize (Hempty (SymbolTable.get_nonterminals (Grammar.symbol_table_ g)) ∅).
  assert (H0 : forall j, get_set (∅ : SetMap) j = []).
  { intros j. unfold get_set. now rewrite lookup_empty. }
  specialize (Hempty H0).
  destruct (Grammar.start_symbol_ g) as [start|]; [|apply Hempty].
  rewrite set_add_spec. destruct (k =? addr start); [|apply Hempty].
  now rewrite Hempty.
Qed.

(** What [first_set] of a sequence returns on the grammar [g]. *)
Definition first_of_seq (fuel : nat) (g : Grammar.t) (beta : list SymbolPtr) : SymbolSet :=
  match Grammar.first_set_seq fuel beta g with
  | Val (s, _) => s
  | _ => []
  end.

(** The rules of [compute_follow_sets], for a family [P] of sets indexed by
    the address of a symbol: the end-of-input symbol is in the set of the
    start symbol; for a production [A -> alpha B beta] with a nonterminal
    [B], the set of [B] holds the non-epsilon elements of [first_set(beta)]
    when [beta] is not empty, and the elements of the set of [A] when all
    symbols of [beta] are nullable (in particular when [beta] is empty). *)
Record follow_closed (nullable : SymbolPtr -> bool)
       (first_seq : list SymbolPtr -> SymbolSet) (g : Grammar.t)
       (P : nat -> SymbolPtr -> Prop) : Prop := {
  fl_start :
    forall start, Grammar.start_symbol_ g = Some start ->
                  P (addr start) (SymbolTable.end_of_input_ (Grammar.symbol_table_ g));
  fl_first :
    forall prod pre B beta x,
      In prod (Grammar.productions_ g) -> rhs prod = pre ++ B :: beta ->
      is_nonterminal B = true -> beta <> [] ->
      In x (first_seq beta) -> is_epsilon x = false -> P (addr B) x;
  fl_follow :
    forall prod pre B beta x,
      In prod (Grammar.productions_ g) -> rhs prod = pre ++ B :: beta ->
      is_nonterminal B = true -> forallb nullable beta = true ->
      P (addr (lhs prod)) x -> P (addr B) x
}.

(** X15.  On a grammar whose symbol table is one that the interface
    builds, whose FIRST cache is clear or was written by the code and whose
    FOLLOW cache is not computed, [follow_set] returns, and the sets it
    returns are the least family closed under the rules of
    [compute_follow_sets]: the family is closed, and it is contained in
    every closed family.  Nullability is what [derives_epsilon] answers
    and the FIRST set of a sequence what [first_set] returns. *)
Theorem follow_sets_are_the_least_closed_family (fuel : nat) (g : Grammar.t) :
  table_ok (Grammar.symbol_table_ g) ->
  caches_ok g ->
  Grammar.follow_sets_computed_ g = false ->
  core_fuel g <= fuel ->
  exists g',
    (forall X, Grammar.follow_set fuel X g
               = Val (get_set (Grammar.follow_sets_ g') (addr X), g'))
    /\ same_core g g'
    /\ follow_closed (nullable_in fuel g') (first_of_seq fuel g') g
                     (fun k x => In x (get_set (Grammar.follow_sets_ g') k))
    /\ forall P : nat -> SymbolPtr -> Prop,
         follow_closed (nullable_in fuel g') (first_of_seq fuel g') g P ->
         forall k x, In x (get_set (Grammar.follow_sets_ g') k) -> P k x.
Proof.
  intros Htable Hcaches Hflag Hfuel.
  destruct (eps_cache_exists g) as [m Hm].
  assert (Hlen : length (Grammar.productions_ g) < fuel)
    by (unfold core_fuel, sets_fuel in Hfuel; lia).
  assert (Hfirst : exists g0,
             (if Grammar.first_sets_computed_ g then Val g
              else Grammar.compute_first_sets fuel g) = Val g0
             /\ same_core g g0 /\ Grammar.first_sets_computed_ g0 = true
             /\ eps_cache_of g0 m /\ caches_ok g0).
  { destruct (Grammar.first_sets_computed_ g) eqn:Hc.
    - exists g. split; [reflexivity|]. split; [apply same_core_refl|]. auto.
    - destruct (compute_first_sets_spec fuel g m Hm)
        as (g0 & Hcomp & Hcore & _ & _ & Hfl & Hm0 & Hops & _);
        [unfold core_fuel in Hfuel; lia|].
      exists g0. split; [exact Hcomp|]. split; [exact Hcore|]. split; [exact Hfl|].
      split; [exact Hm0|]. eapply caches_ok_first_ops; eauto. }
  destruct Hfirst as (g0 & Hfirst & Hcore0 & Hflag0 & Hm0 & Hok0).
  set (gi := Grammar.with_follow_sets (Grammar.follow_init g0) g0).
  set (U := table_symbols (Grammar.symbol_table_ g0)).
  assert (Hcov : covers U gi).
  { split; [now left|]. split; [right; now left|]. intros j x Hx.
    now apply (Hok0 Hflag0 j). }
  assert (Hinit : sets_ok U (Grammar.follow_sets_ gi)).
  { apply follow_init_ok. right. now left. }
  destruct (follow_loop_spec fuel fuel U gi m Hcov Hinit) as (g1 & Hloop & Hrel).
  { exact Hflag0. }
  { exact Hm0. }
  { change (Grammar.productions_ gi) with (Grammar.productions_ g0).
    now rewrite (sc_prods _ _ Hcore0). }
  { change (follow_keys gi) with (follow_keys g0).
    assert (Hk : follow_keys g0 = follow_keys g)
      by (unfold follow_keys; now rewrite (sc_prods _ _ Hcore0)).
    unfold U. rewrite Hk, (sc_table _ _ Hcore0). unfold core_fuel in Hfuel. lia. }
  set (g' := Grammar.with_flags (Grammar.first_sets_computed_ g1) true
                                (Grammar.epsilon_computed_ g1) g1).
  assert (Hcomp : Grammar.compute_follow_sets fuel g = Val g').
  { unfold Grammar.compute_follow_sets. rewrite Hfirst. cbn [res_bind]. fold gi.
    rewrite Hloop. reflexivity. }
  pose proof (fo_core _ _ _ Hrel) as Hcore1.
  assert (Hcorei : same_core g gi).
  { destruct Hcore0 as [c1 c2 c3 c4]. constructor; cbn; assumption. }
  assert (Hcore : same_core g g').
  { eapply same_core_trans; [exact Hcorei|].
    destruct Hcore1 as [c1 c2 c3 c4]. constructor; cbn; assumption. }
  assert (Hcorei' : same_core gi g').
  { destruct Hcore1 as [c1 c2 c3 c4]. constructor; cbn; assumption. }
  assert (Hm' : eps_cache_of g' m).
  { apply (eps_cache_of_core g1 g'); [now constructor | reflexivity | reflexivity|].
    apply (fo_cache _ _ _ Hrel). }
  assert (Hflag' : Grammar.first_sets_computed_ g' = true).
  { cbn. now rewrite (fo_first_flag _ _ _ Hrel). }
  assert (Hfs' : Grammar.first_sets_ g' = Grammar.first_sets_ gi).
  { cbn. now rewrite (fo_first _ _ _ Hrel). }
  assert (Hlen' : length (Grammar.productions_ g') < fuel)
    by now rewrite (sc_prods _ _ Hcore).
  exists g'. split.
  { intros X. unfold Grammar.follow_set. rewrite Hflag, Hcomp. reflexivity. }
  split; [exact Hcore|].
  assert (Hnull : forall l, forallb (nullable_in fuel g') l
                            = forallb (fun s => markedb m (addr s)) l).
  { now apply nullable_in_spec. }
  assert (Hseq : forall beta,
            first_of_seq fuel g' beta
            = first_set_seq_result (Grammar.first_sets_ gi) m
                (SymbolTable.epsilon_ (Grammar.symbol_table_ gi)) beta).
  { intros beta. unfold first_of_seq.
    destruct (first_set_seq_exact fuel m beta g' Hflag' Hlen' Hm') as (ga & -> & _).
    now rewrite Hfs', (sc_table _ _ Hcorei'). }
  assert (Hseq_in : forall beta x, In x (first_of_seq fuel g' beta) -> In x U).
  { intros beta x Hx. unfold first_of_seq in Hx.
    destruct (first_set_seq_spec fuel m beta g' Hflag' Hlen' Hm') as (s & ga & Hrun & _ & Hs).
    rewrite Hrun in Hx. destruct (Hs x Hx) as [->|(j & Hj)].
    - unfold U. rewrite (sc_table _ _ Hcore), <- (sc_table _ _ Hcore0). now left.
    - rewrite Hfs' in Hj. now apply Hcov in Hj. }
  assert (Hst : follow_state fuel m gi gi).
  { constructor; auto using same_core_refl.
    - change (Grammar.productions_ gi) with (Grammar.productions_ g0).
      now rewrite (sc_prods _ _ Hcore0).
    - intros j. apply Hinit. }
  pose proof (follow_rel_sets_ok U m gi g1 Hcov Hinit Hrel) as Hok1.
  assert (Hin : forall k x y, In x U ->
                              In y (get_set (Grammar.follow_sets_ g1) k) ->
                              addr y = addr x ->
                              In x (get_set (Grammar.follow_sets_ g1) k)).
  { intros k x y Hx Hy Ha.
    assert (y = x) as <-; [|exact Hy].
    assert (Ht0 : table_ok (Grammar.symbol_table_ g0))
      by now rewrite (sc_table _ _ Hcore0).
    apply (table_addr_inj _ Ht0); auto. now apply (Hok1 k). }
  assert (Hprods : Grammar.productions_ gi = Grammar.productions_ g)
    by exact (sc_prods _ _ Hcorei).
  change (Grammar.follow_sets_ g') with (Grammar.follow_sets_ g1).
  split.
  - destruct (follow_loop_exact fuel m gi (fun _ _ => True)) with (n := fuel) (gi := gi) (g' := g1)
      as (_ & Hf & Ho & _); auto.
    rewrite Hprods in Hf, Ho.
    constructor.
    + intros start Hs. eapply set_ops_incl; [apply (fo_ops _ _ _ Hrel)|].
      cbn [Grammar.follow_sets_ Grammar.with_follow_sets gi].
      rewrite follow_init_content, (sc_start _ _ Hcore0), Hs, Nat.eqb_refl.
      rewrite (sc_table _ _ Hcore0). now left.
    + intros prod pre B beta x Hp Heq HB Hne Hx He.
      pose proof (Hseq_in beta x Hx) as HxU. rewrite Hseq in Hx.
      destruct (Hf prod pre B beta x Hp Heq HB Hne Hx He) as (y & Hy & Ha).
      now apply (Hin _ x y).
    + intros prod pre B beta x Hp Heq HB Hn Hx. rewrite Hnull in Hn.
      destruct (Ho prod pre B beta x Hp Heq HB Hn Hx) as (y & Hy & Ha).
      apply (Hin _ x y); auto. now apply (Hok1 (addr (lhs prod))).
  - intros P [Ps Pf Po] k x Hx.
    destruct (follow_loop_exact fuel m gi P) with (n := fuel) (gi := gi) (g' := g1)
      as (_ & _ & _ & Hw); auto.
    + intros prod pre B beta y Hp Heq HB Hne Hy He.
      apply (Pf prod pre B beta y); auto; [now rewrite <- Hprods | now rewrite Hseq].
    + intros prod pre B beta y Hp Heq HB Hn.
      apply (Po prod pre B beta y); auto; [now rewrite <- Hprods | now rewrite Hnull].
    + apply Hw; [|exact Hx]. intros j y Hy.
      cbn [Grammar.follow_sets_ Grammar.with_follow_sets gi] in Hy.
      rewrite follow_init_content in Hy.
      destruct (Grammar.start_symbol_ g0) as [start|] eqn:Hs; [|destruct Hy].
      destruct (Nat.eqb_spec j (addr start)) as [->|_]; [|destruct Hy].
      destruct Hy as [<-|[]]. rewrite (sc_table _ _ Hcore0). apply Ps.
      now rewrite <- (sc_start _ _ Hcore0).
Qed.

Lemma follow_sets_are_the_least_closed_family_witness :
  exists g',
    (forall X, Grammar.follow_set 100 X ExamplesLL.ll_grammar
               = Val (get_set (Grammar.follow_sets_ g') (addr X), g'))
    /\ same_core ExamplesLL.ll_grammar g'
    /\ follow_closed (nullable_in 100 g') (first_of_seq 100 g') ExamplesLL.ll_grammar
                     (fun k x => In x (get_set (Grammar.follow_sets_ g') k))
    /\ forall P : nat -> SymbolPtr -> Prop,
         follow_closed (nullable_in 100 g') (first_of_seq 100 g') ExamplesLL.ll_grammar P ->
         forall k x, In x (get_set (Grammar.follow_sets_ g') k) -> P k x.
Proof.
  apply (follow_sets_are_the_least_closed_family 100 ExamplesLL.ll_grammar).
  - change (Grammar.symbol_table_ ExamplesLL.ll_grammar) with (snd ExamplesLL.num_st).
    apply built_table_ok.
    unfold ExamplesLL.num_st, ExamplesLL.plus_st, ExamplesLL.T_st, ExamplesLL.E'_st,
      ExamplesLL.E_st.
    apply built_terminal; [|reflexivity].
    apply built_terminal; [|reflexivity].
    apply built_nonterminal; [|reflexivity].
    apply built_nonterminal; [|reflexivity].
    apply built_nonterminal; [|reflexivity].
    apply built_create. discriminate.
  - intros Hc. discriminate Hc.
  - reflexivity.
  - vm_compute. lia.
Defined.
(** ** The trees that a generated parser returns *)

(** *** The items of the states along a path of the automaton *)

(** The closure adds items with the dot at the start only. *)
Lemma closure_origin (fuel : nat) (K r : LR0ItemSet) (g : Grammar.t) :
  LR0Automaton.closure fuel K g = Val r ->
  forall i, In i r -> In i K \/ LR0Item.dot_position_ i = 0.
Proof.
  intros Hrun.
  set (S := K ++ map (fun p => LR0Item.mk p 0) (Grammar.productions_ g)).
  assert (Hclosed : closed_in g S).
  { intros item X prod _ _ _ Hprod. apply in_or_app. right.
    apply (in_map (fun p => LR0Item.mk p 0)). unfold Grammar.productions_for in Hprod.
    now apply filter_In in Hprod as [Hprod _]. }
  unfold LR0Automaton.closure in Hrun.
  apply (while_changed_invariant _ (fun s => forall i, In i s -> In i S)) in Hrun.
  - destruct Hrun as [Hr _]. intros i Hi. apply Hr, in_app_or in Hi as [Hi|Hi]; [now left|].
    right. apply in_map_iff in Hi as (p & <- & _). reflexivity.
  - intros s s1 c Hs [= Hpass]. intros i Hi.
    apply (closure_pass_least g s S Hclosed Hs). now rewrite Hpass.
  - intros i Hi. apply in_or_app. now left.
Qed.

Lemma goto_kernel_In (items : LR0ItemSet) (X : SymbolPtr) (i : LR0Item.t) :
  In i (goto_kernel items X) ->
  exists item Y, In item items /\ LR0Item.next_symbol item = Some Y /\ addr Y = addr X
                 /\ i = LR0Item.advance item.
Proof.
  unfold goto_kernel. revert i.
  apply (fold_left_invariant _
           (fun acc => forall i, In i acc ->
              exists item Y, In item items /\ LR0Item.next_symbol item = Some Y
                             /\ addr Y = addr X /\ i = LR0Item.advance item)).
  - intros acc item Hitem Hacc i.
    destruct (optr_eqb (LR0Item.next_symbol item) (Some X)) eqn:Hopt; [|apply Hacc].
    intros Hi. apply set_insert_In in Hi as [->|Hi]; [|now apply Hacc].
    destruct (LR0Item.next_symbol item) as [Y|] eqn:HY; [|discriminate].
    exists item, Y. cbn in Hopt. unfold ptr_eqb in Hopt. apply Nat.eqb_eq in Hopt. auto.
  - intros i [].
Qed.

(** The addresses identify the productions of the grammar. *)
Definition productions_distinct (g : Grammar.t) : Prop :=
  List.NoDup (map paddr (Grammar.productions_ g)).

Lemma productions_distinct_inj (g : Grammar.t) :
  productions_distinct g ->
  forall p q, In p (Grammar.productions_ g) -> In q (Grammar.productions_ g) ->
              paddr p = paddr q -> p = q.
Proof.
  unfold productions_distinct. induction (Grammar.productions_ g) as [|x l IH]; cbn.
  - intros _ p q [].
  - intros Hnd. inversion Hnd as [|? ? Hx Hl]; subst.
    intros p q [<-|Hp] [<-|Hq] Ha; auto.
    + exfalso. apply Hx. rewrite Ha. now apply in_map.
    + exfalso. apply Hx. rewrite <- Ha. now apply in_map.
Qed.

(** The items of the state with the id [i]. *)
Definition state_items (a : LR0Automaton.t) (i : Z) : LR0ItemSet :=
  match LR0Automaton.get_state i a with
  | Some s => LR0State.items s
  | None => []
  end.

Section automaton_paths.
Variable fuel : nat.
Variable g : Grammar.t.
Variable a : LR0Automaton.t.
Variable s0 : LR0State.t.
Hypothesis a_ok : automaton_ok g s0 a.
Hypothesis a_sound : transitions_sound fuel g a.
Hypothesis a_initial : forall i, In i (LR0State.items s0) -> LR0Item.dot_position_ i = 0.
Hypothesis g_distinct : productions_distinct g.

Lemma state_items_ok (i : Z) (item : LR0Item.t) :
  In item (state_items a i) -> item_ok g item.
Proof using a_ok.
  unfold state_items, LR0Automaton.get_state.
  destruct (_ || _); [intros []|].
  destruct (nth_error (LR0Automaton.states_ a) (Z.to_nat i)) as [s|] eqn:Hs; [|intros []].
  intros Hin. apply nth_error_In in Hs. now apply (ao_items _ _ _ a_ok s Hs).
Qed.

Lemma state_items_initial (item : LR0Item.t) :
  In item (state_items a 0) -> LR0Item.dot_position_ item = 0.
Proof using a_ok a_initial.
  unfold state_items.
  pose proof (get_state_nth a 0 s0 (ao_first _ _ _ a_ok)) as H0.
  change (Z.of_nat 0) with 0%Z in H0. rewrite H0. apply a_initial.
Qed.

(** An item with the dot behind a symbol comes from the item with the dot
    before that symbol in every state that has a transition to its
    state. *)
Lemma predecessor_item (i j : Z) (X : nat) (item : LR0Item.t) (d : nat) :
  LR0Automaton.transitions_ a !! (i, X) = Some j ->
  In item (state_items a j) -> LR0Item.dot_position_ item = S d ->
  exists Y,
    In (LR0Item.mk (LR0Item.production_ item) d) (state_items a i)
    /\ nth_error (rhs (LR0Item.production_ item)) d = Some Y /\ addr Y = X.
Proof using a_ok a_sound g_distinct.
  intros Htrans Hitem Hdot.
  pose proof (state_items_ok j item Hitem) as [Hprod _].
  specialize (a_sound i (mkSymbol X "" TERMINAL 0%Z) j Htrans).
  destruct a_sound as (si & sj & r & Hi & _ & Hj & _ & _ & Hgoto & Heq).
  unfold state_items in *. rewrite Hi. rewrite Hj in Hitem.
  apply set_eqb_keys in Heq.
  assert (Hkey : In (ikey item) (map ikey r)) by (rewrite <- Heq; now apply in_map).
  apply in_map_iff in Hkey as (it & Hikey & Hit).
  unfold LR0Automaton.goto_set in Hgoto.
  apply (closure_origin _ _ _ _ Hgoto) in Hit as [Hit|Hzero].
  2:{ unfold ikey in Hikey. injection Hikey as _ Hd. lia. }
  apply goto_kernel_In in Hit as (item' & Y & Hin' & HY & HYX & ->).
  unfold ikey in Hikey. cbn [LR0Item.advance LR0Item.production_ LR0Item.dot_position_] in Hikey.
  injection Hikey as Hp Hd.
  assert (Hsi : In si (LR0Automaton.states_ a)).
  { unfold LR0Automaton.get_state in Hi. destruct (_ || _); [discriminate|].
    now apply nth_error_In in Hi. }
  destruct (ao_items _ _ _ a_ok si Hsi) as [_ Hitems].
  destruct (Hitems item' Hin') as [Hprod' _].
  pose proof (productions_distinct_inj g g_distinct _ _ Hprod' Hprod Hp) as Epr.
  assert (Ed : LR0Item.dot_position_ item' = d) by lia.
  exists Y. split; [|split; [|exact HYX]].
  - rewrite <- Epr, <- Ed. now destruct item'.
  - unfold LR0Item.next_symbol in HY. destruct (LR0Item.is_complete item'); [discriminate|].
    now rewrite <- Epr, <- Ed.
Qed.
End automaton_paths.

(** *** The entries of a generated table *)

(** Every entry of the table is backed by the automaton [a]: a Shift and a
    goto entry by a transition, a Reduce and an Accept by a complete item
    of the state. *)
Record table_sound (g : Grammar.t) (a : LR0Automaton.t) (tb : ParseTable.t) : Prop := {
  ts_shift :
    forall state X act,
      ParseTable.action_table_ tb !! (state, X) = Some act ->
      Action.is_shift act = true ->
      LR0Automaton.transitions_ a !! (state, X) = Some (Action.value act);
  ts_reduce :
    forall state X act,
      ParseTable.action_table_ tb !! (state, X) = Some act ->
      Action.is_reduce act = true ->
      exists item i p,
        In item (state_items a state) /\ LR0Item.is_complete item = true
        /\ Action.value act = Z.of_nat i
        /\ nth_error (Grammar.productions_ g) i = Some p
        /\ paddr p = paddr (LR0Item.production_ item);
  ts_accept :
    forall state X act,
      ParseTable.action_table_ tb !! (state, X) = Some act ->
      Action.is_accept act = true ->
      exists item,
        In item (state_items a state) /\ LR0Item.is_complete item = true
        /\ looks_augmented (LR0Item.production_ item) = Val true;
  ts_goto :
    forall state X j,
      ParseTable.goto_table_ tb !! (state, X) = Some j ->
      LR0Automaton.transitions_ a !! (state, X) = Some j
}.

(** The same for one call of [set_action]. *)
Definition call_sound (g : Grammar.t) (a : LR0Automaton.t) (c : LALR1Generator.ActionCall)
  : Prop :=
  let '(state, terminal, act) := c in
  (Action.is_shift act = true ->
   LR0Automaton.transitions_ a !! (state, addr terminal) = Some (Action.value act))
  /\ (Action.is_reduce act = true ->
      exists item i p,
        In item (state_items a state) /\ LR0Item.is_complete item = true
        /\ Action.value act = Z.of_nat i
        /\ nth_error (Grammar.productions_ g) i = Some p
        /\ paddr p = paddr (LR0Item.production_ item))
  /\ (Action.is_accept act = true ->
      exists item,
        In item (state_items a state) /\ LR0Item.is_complete item = true
        /\ looks_augmented (LR0Item.production_ item) = Val true).

Lemma table_sound_actions (g : Grammar.t) (a : LR0Automaton.t)
      (calls : list LALR1Generator.ActionCall) :
  forall tb,
    table_sound g a tb -> (forall c, In c calls -> call_sound g a c) ->
    table_sound g a (fold_left LALR1Generator.do_action calls tb).
Proof.
  induction calls as [|[[state terminal] action] calls IH]; intros tb Htb Hcalls;
    cbn [fold_left]; [exact Htb|].
  apply IH; [|intros c Hc; apply Hcalls; now right].
  destruct (Hcalls (state, terminal, action) (or_introl eq_refl)) as (Hs & Hr & Ha).
  destruct Htb as [Ts Tr Ta Tg].
  constructor; cbn [LALR1Generator.do_action ParseTable.set_action ParseTable.action_table_
                      ParseTable.goto_table_].
  - intros st X act Hk. destruct (decide ((state, addr terminal) = (st, X))) as [E|Hne].
    + rewrite E, lookup_insert_eq in Hk. injection Hk as <-. injection E as <- <-. exact Hs.
    + rewrite lookup_insert_ne in Hk by exact Hne. now apply Ts.
  - intros st X act Hk. destruct (decide ((state, addr terminal) = (st, X))) as [E|Hne].
    + rewrite E, lookup_insert_eq in Hk. injection Hk as <-. injection E as <- <-. exact Hr.
    + rewrite lookup_insert_ne in Hk by exact Hne. now apply (Tr st X).
  - intros st X act Hk. destruct (decide ((state, addr terminal) = (st, X))) as [E|Hne].
    + rewrite E, lookup_insert_eq in Hk. injection Hk as <-. injection E as <- <-. exact Ha.
    + rewrite lookup_insert_ne in Hk by exact Hne. now apply (Ta st X).
  - exact Tg.
Qed.

Lemma table_sound_gotos (g : Grammar.t) (a : LR0Automaton.t)
      (calls : list LALR1Generator.GotoCall) :
  forall tb,
    table_sound g a tb ->
    (forall state X j, In (state, X, j) calls ->
                       LR0Automaton.transitions_ a !! (state, addr X) = Some j) ->
    table_sound g a (fold_left LALR1Generator.do_goto calls tb).
Proof.
  induction calls as [|[[state nonterminal] target] calls IH]; intros tb Htb Hcalls;
    cbn [fold_left]; [exact Htb|].
  apply IH; [|intros s X j Hc; apply Hcalls; now right].
  destruct Htb as [Ts Tr Ta Tg].
  constructor; cbn [LALR1Generator.do_goto ParseTable.set_goto ParseTable.action_table_
                      ParseTable.goto_table_]; auto.
  intros st X j Hk. destruct (decide ((state, addr nonterminal) = (st, X))) as [E|Hne].
  - rewrite E, lookup_insert_eq in Hk. injection Hk as <-. injection E as <- <-.
    apply Hcalls. now left.
  - rewrite lookup_insert_ne in Hk by exact Hne. now apply Tg.
Qed.

Lemma get_transition_some (i : Z) (X : SymbolPtr) (a : LR0Automaton.t) :
  (0 <= LR0Automaton.get_transition i X a)%Z ->
  LR0Automaton.transitions_ a !! (i, addr X)
  = Some (LR0Automaton.get_transition i X a).
Proof.
  unfold LR0Automaton.get_transition.
  destruct (LR0Automaton.transitions_ a !! (i, addr X)); [reflexivity | lia].
Qed.

Lemma production_number_nth (prod : ProductionPtr) (productions : list ProductionPtr) :
  forall k i, production_number prod productions k = Some i ->
              exists p, nth_error productions (i - k) = Some p /\ paddr p = paddr prod
                        /\ k <= i.
Proof.
  induction productions as [|p l IH]; intros k i; cbn [production_number]; [discriminate|].
  destruct (prod_eqb p prod) eqn:Hp.
  - intros [= <-]. exists p. rewrite Nat.sub_diag. split; [reflexivity|].
    unfold prod_eqb in Hp. apply Nat.eqb_eq in Hp. auto.
  - intros H. apply IH in H as (q & Hq & Ha & Hle). exists q.
    replace (i - k) with (S (i - S k)) by lia. cbn [nth_error]. split; [exact Hq|].
    split; [exact Ha | lia].
Qed.

(** The items of an LALR state are items of the LR(0) state with its id,
    with a lookahead. *)
Definition lalr_linked (a : LR0Automaton.t) (ls : LALRState.t) : Prop :=
  forall i, In i (LALRState.items_ ls) ->
            In (LR1Item.core i) (state_items a (LALRState.id_ ls)).

Section table_entries.
Variable g : Grammar.t.
Variable gen : LALR1Generator.t.
Hypothesis gen_core : same_core g (LALR1Generator.grammar_ gen).

Let a := LALR1Generator.lr0_automaton_ gen.

Lemma item_action_sound (state : LALRState.t) (item : LR1Item.t)
      (c : LALR1Generator.ActionCall) :
  In (LR1Item.core item) (state_items a (LALRState.id_ state)) ->
  LALR1Generator.item_action gen state item = Val (Some c) ->
  call_sound g a c.
Proof using gen_core.
  intros Hcore. unfold LALR1Generator.item_action.
  destruct (LR1Item.is_complete item) eqn:Hcomplete.
  - destruct (looks_augmented (LR1Item.production item)) as [aug| | |] eqn:Haug;
      cbn [res_bind]; try discriminate.
    destruct aug.
    + intros [= <-]. cbn [call_sound]. split; [discriminate|]. split; [discriminate|].
      intros _. exists (LR1Item.core item). split; [exact Hcore|]. split; [exact Hcomplete|].
      exact Haug.
    + destruct (production_number _ _ 0) as [i|] eqn:Hnum; [|discriminate].
      intros [= <-]. cbn [call_sound]. split; [discriminate|]. split; [|discriminate].
      intros _. apply production_number_nth in Hnum as (p & Hp & Ha & _).
      rewrite Nat.sub_0_r in Hp. unfold Grammar.productions in Hp.
      rewrite (sc_prods _ _ gen_core) in Hp.
      exists (LR1Item.core item), i, p. auto.
  - destruct (LR1Item.next_symbol item) as [next_symbol|]; [|discriminate].
    destruct (is_terminal next_symbol); [|discriminate].
    destruct (Z.leb_spec 0 (LR0Automaton.get_transition (LALRState.id state) next_symbol
                              (LALR1Generator.lr0_automaton_ gen))) as [Hpos|];
      [|discriminate].
    intros [= <-]. cbn [call_sound]. split; [|split; discriminate].
    intros _. cbn [Action.value]. now apply get_transition_some.
Qed.

Lemma state_actions_sound (state : LALRState.t) (items : LR1ItemSet) :
  forall calls,
    (forall i, In i items -> In (LR1Item.core i) (state_items a (LALRState.id_ state))) ->
    LALR1Generator.state_actions gen state items = Val calls ->
    forall c, In c calls -> call_sound g a c.
Proof using gen_core.
  induction items as [|item items IH]; intros calls Hitems;
    cbn [LALR1Generator.state_actions].
  - intros [= <-] c [].
  - destruct (LALR1Generator.item_action gen state item) as [c0| | |] eqn:Hitem;
      cbn [res_bind]; try discriminate.
    destruct (LALR1Generator.state_actions gen state items) as [cs| | |] eqn:Hrest;
      cbn [res_bind]; try discriminate.
    intros [= <-] c Hc.
    specialize (IH cs (fun i Hi => Hitems i (or_intror Hi)) eq_refl).
    destruct c0 as [call|]; [|now apply IH].
    destruct Hc as [<-|Hc]; [|now apply IH].
    apply (item_action_sound state item); [apply Hitems; now left | exact Hitem].
Qed.

Lemma state_gotos_sound (state : LALRState.t) (s : Z) (X : SymbolPtr) (j : Z) :
  In (s, X, j) (LALR1Generator.state_gotos gen state) ->
  LR0Automaton.transitions_ a !! (s, addr X) = Some j.
Proof using Type.
  unfold LALR1Generator.state_gotos. intros Hc. apply in_flat_map in Hc as (symbol & _ & Hc).
  destruct (is_nonterminal symbol); [|destruct Hc].
  destruct (Z.leb_spec 0 (LR0Automaton.get_transition (LALRState.id state) symbol
                            (LALR1Generator.lr0_automaton_ gen))) as [Hpos|];
    [|destruct Hc].
  destruct Hc as [[= <- <- <-]|[]]. now apply get_transition_some.
Qed.

Lemma fill_states_sound (states : list LALRState.t) :
  Forall (lalr_linked a) states ->
  forall tb tb',
    table_sound g a tb ->
    res_fold (LALR1Generator.fill_state gen) states tb = Val tb' ->
    table_sound g a tb'.
Proof using gen_core.
  induction 1 as [|state states Hstate _ IH]; intros tb tb' Htb; cbn [res_fold].
  - now intros [= <-].
  - unfold LALR1Generator.fill_state at 1.
    destruct (LALR1Generator.state_actions gen state (LALRState.items state))
      as [calls| | |] eqn:Hcalls; cbn [res_bind]; try discriminate.
    apply IH. apply table_sound_gotos.
    + apply table_sound_actions; [exact Htb|].
      apply (state_actions_sound state (LALRState.items state)); [exact Hstate | exact Hcalls].
    + intros s X j. apply state_gotos_sound.
Qed.
End table_entries.

(** The LALR states that [build_lalr_states] makes from the LR(0) states. *)
Lemma add_lookaheads_linked (item : LR0Item.t) (las : SymbolSet) :
  forall s,
    let s' := fold_left (fun s la => LALRState.add_lookahead item la s) las s in
    LALRState.id_ s' = LALRState.id_ s
    /\ LALRState.core_ s' = LALRState.core_ s
    /\ ((forall i, In i (LALRState.items_ s) -> In (LR1Item.core i) (LALRState.core_ s)) ->
        forall i, In i (LALRState.items_ s') -> In (LR1Item.core i) (LALRState.core_ s')).
Proof.
  induction las as [|la las IH]; intros s; cbn [fold_left]; [auto|].
  destruct (add_lookahead_spec item la s) as (Hid & Hc & Hitems).
  destruct (IH (LALRState.add_lookahead item la s)) as (Hid' & Hc' & Hok').
  cbv zeta in *. rewrite Hid', Hc', Hid, Hc. split; [reflexivity|]. split; [reflexivity|].
  intros _ i Hi. rewrite <- Hc, <- Hc'. apply Hok'; [|exact Hi].
  intros i0 Hi0. destruct (Hitems i0 Hi0) as (c & Hcin & Hp & Hd). rewrite Hc.
  unfold LR1Item.core. rewrite Hp, Hd. now destruct c.
Qed.

Lemma build_lalr_states_linked (fuel : nat) (lr0_states : list LR0State.t) :
  forall (states states' : list LALRState.t) (g1 g2 : Grammar.t),
    res_fold (LALR1Generator.build_lalr_state fuel) lr0_states (states, g1)
    = Val (states', g2) ->
    exists new,
      states' = states ++ new
      /\ Forall (fun ls => exists s, In s lr0_states /\ LALRState.id_ ls = LR0State.id s
                                     /\ forall i, In i (LALRState.items_ ls) ->
                                                  In (LR1Item.core i) (LR0State.items s))
                new.
Proof.
  induction lr0_states as [|lr0_state lr0_states IH]; intros states states' g1 g2;
    cbn [res_fold].
  - intros [= <- <-]. exists []. now rewrite app_nil_r.
  - unfold LALR1Generator.build_lalr_state at 1. cbv beta iota zeta.
    assert (Hitems : forall items ls g0 ls' g',
              res_fold (fun '(ls, g1) lr0_item =>
                          do (lookaheads, g2) <-
                            LALR1Generator.item_lookaheads fuel lr0_item g1 in
                          Val (fold_left (fun s la => LALRState.add_lookahead lr0_item la s)
                                         lookaheads ls, g2))
                       items (ls, g0) = Val (ls', g') ->
              LALRState.id_ ls' = LALRState.id_ ls
              /\ LALRState.core_ ls' = LALRState.core_ ls
              /\ ((forall i, In i (LALRState.items_ ls) ->
                             In (LR1Item.core i) (LALRState.core_ ls)) ->
                  forall i, In i (LALRState.items_ ls') ->
                            In (LR1Item.core i) (LALRState.core_ ls'))).
    { induction items as [|item items IHi]; intros ls g0 ls' g'; cbn [res_fold].
      - intros [= <- <-]. auto.
      - destruct (LALR1Generator.item_lookaheads fuel item g0) as [[las g3]| | |];
          cbn [res_bind]; try discriminate.
        intros Hrest. apply IHi in Hrest as (Hid & Hc & Hok).
        destruct (add_lookaheads_linked item las ls) as (Hid1 & Hc1 & Hok1).
        cbv zeta in Hid1, Hc1, Hok1. rewrite Hid, Hc, Hid1, Hc1.
        split; [reflexivity|]. split; [reflexivity|].
        intros Hls i Hi. rewrite <- Hc1, <- Hc. apply Hok; [|exact Hi]. now apply Hok1. }
    destruct (res_fold _ (LR0State.items lr0_state) _) as [[ls' g3]| | |] eqn:Hfold;
      cbn [res_bind]; try discriminate.
    apply Hitems in Hfold as (Hid & Hc & Hok).
    cbn [LALRState.create LALRState.id_ LALRState.core_ LALRState.items_] in Hid, Hc, Hok.
    intros Hrest. apply IH in Hrest as (new & -> & Hnew).
    exists (ls' :: new). rewrite <- app_assoc. split; [reflexivity|].
    constructor.
    + exists lr0_state. split; [now left|]. split; [exact Hid|].
      intros i Hi. rewrite <- Hc. apply Hok; [intros i0 []|exact Hi].
    + eapply List.Forall_impl; [|exact Hnew].
      intros ls (s & Hs & H1 & H2). exists s. split; [now right | auto].
Qed.

(** *** The stack of the driver *)

(** The trees that the driver builds: a leaf for a shifted token, labelled
    with a terminal or with the end-of-input symbol, and a node for a
    reduction, labelled with the left-hand side of a production and with
    one child for each symbol of its right-hand side, in order (compared
    by address, as the table does). *)
Fixpoint derivation_tree (prods : list ProductionPtr) (eoi : SymbolPtr) (n : ParseNode)
  : Prop :=
  match n with
  | Node X v children =>
      (children = [] /\ (is_terminal X = true \/ X = eoi))
      \/ ((exists p, In p prods /\ lhs p = X
                     /\ map (fun c => addr (node_symbol c)) children = map addr (rhs p))
          /\ fold_right (fun c acc => derivation_tree prods eoi c /\ acc) True children)
  end.

Lemma derivation_trees_Forall (prods : list ProductionPtr) (eoi : SymbolPtr)
      (l : list ParseNode) :
  Forall (derivation_tree prods eoi) l ->
  fold_right (fun c acc => derivation_tree prods eoi c /\ acc) True l.
Proof. induction 1; cbn [fold_right]; auto. Qed.

Lemma children_of_nodes (nodes : list ParseNode) :
  LALR1Parser.children_of (map Some nodes) = rev nodes.
Proof.
  unfold LALR1Parser.children_of. rewrite <- map_rev.
  induction (rev nodes) as [|n l IH]; cbn; [reflexivity | now rewrite IH].
Qed.

Lemma firstn_S_nth {A : Type} (l : list A) (d : nat) (x : A) :
  nth_error l d = Some x -> firstn (S d) l = firstn d l ++ [x].
Proof.
  revert d. induction l as [|y l IH]; intros [|d]; cbn; try discriminate.
  - now intros [= ->].
  - intros H. now rewrite <- (IH d H).
Qed.

Section driver_stack.
Variable fuel : nat.
Variable g : Grammar.t.
Variable a : LR0Automaton.t.
Variable s0 : LR0State.t.
Variable p : LALR1Parser.t.
Hypothesis a_ok : automaton_ok g s0 a.
Hypothesis a_sound : transitions_sound fuel g a.
Hypothesis a_initial : forall i, In i (LR0State.items s0) -> LR0Item.dot_position_ i = 0.
Hypothesis g_distinct : productions_distinct g.
Hypothesis p_core : same_core g (LALR1Parser.grammar_ p).
Hypothesis p_table : table_sound g a (LALR1Parser.table_ p).

Let prods := Grammar.productions_ g.
Let eoi := SymbolTable.end_of_input_ (Grammar.symbol_table_ g).

(** The stacks of the driver: the states follow the transitions of the
    automaton along the symbols of the nodes. *)
Inductive stack_ok : list LALR1Parser.StackElement -> Prop :=
  | stack_bottom : stack_ok [LALR1Parser.mkElement 0 None None]
  | stack_push (target : Z) (nd : ParseNode) (top : LALR1Parser.StackElement)
               (rest : list LALR1Parser.StackElement) :
      stack_ok (top :: rest) -> derivation_tree prods eoi nd ->
      LR0Automaton.transitions_ a !! (LALR1Parser.state top, addr (node_symbol nd))
      = Some target ->
      stack_ok (LALR1Parser.mkElement target (Some (node_symbol nd)) (Some nd)
                  :: top :: rest).

(** An item with the dot at position [d] in the state on top of the stack:
    the [d] topmost frames carry trees for the [d] symbols before the dot,
    and the state below them holds the item with the dot at the start. *)
Lemma stack_items (d : nat) :
  forall (stk : list LALR1Parser.StackElement) (top : LALR1Parser.StackElement)
         (rest : list LALR1Parser.StackElement) (prod : ProductionPtr),
    stack_ok stk -> stk = top :: rest ->
    In (LR0Item.mk prod d) (state_items a (LALR1Parser.state top)) ->
    d < length stk
    /\ (exists nodes,
           map LALR1Parser.node (firstn d stk) = map Some nodes
           /\ Forall (derivation_tree prods eoi) nodes
           /\ map (fun c => addr (node_symbol c)) (rev nodes)
              = map addr (firstn d (rhs prod)))
    /\ stack_ok (skipn d stk)
    /\ exists e rest',
         skipn d stk = e :: rest'
         /\ In (LR0Item.mk prod 0) (state_items a (LALR1Parser.state e)).
Proof using a_ok a_sound a_initial g_distinct.
  induction d as [|d IH]; intros stk top rest prod Hstk -> Hitem.
  - cbn [firstn skipn length]. split; [lia|]. split.
    + exists []. repeat split; constructor.
    + split; [exact Hstk|]. now exists top, rest.
  - inversion Hstk as [|target nd top' rest' Hrest Hnd Htrans]; subst.
    + exfalso. cbn [LALR1Parser.state] in Hitem.
      apply (state_items_initial g a s0 a_ok a_initial) in Hitem. discriminate.
    + cbn [LALR1Parser.state] in Hitem.
      destruct (predecessor_item fuel g a s0 a_ok a_sound g_distinct
                  (LALR1Parser.state top') target (addr (node_symbol nd))
                  (LR0Item.mk prod (S d)) d Htrans Hitem eq_refl)
        as (Y & Hpred & HY & HYX).
      cbn [LR0Item.production_] in Hpred, HY.
      destruct (IH (top' :: rest') top' rest' prod Hrest eq_refl Hpred)
        as (Hlen & (nodes & Hnodes & Hall & Hlabels) & Hskip & Hbelow).
      split; [cbn [length] in *; lia|]. split; [|split; [exact Hskip | exact Hbelow]].
      exists (nd :: nodes). split; [|split].
      * cbn [firstn map LALR1Parser.node]. now rewrite Hnodes.
      * now constructor.
      * cbn [rev]. rewrite map_app, Hlabels, (firstn_S_nth _ _ _ HY), map_app.
        cbn [map]. now rewrite HYX.
Qed.

Lemma get_action_lookup (state : Z) (terminal : SymbolPtr) :
  Action.is_error (ParseTable.get_action state terminal (LALR1Parser.table_ p)) = false ->
  ParseTable.action_table_ (LALR1Parser.table_ p) !! (state, addr terminal)
  = Some (ParseTable.get_action state terminal (LALR1Parser.table_ p)).
Proof using Type.
  unfold ParseTable.get_action.
  destruct (ParseTable.action_table_ (LALR1Parser.table_ p) !! (state, addr terminal));
    [reflexivity | discriminate].
Qed.

Lemma find_terminal_leaf (tok : Token) (terminal : SymbolPtr) :
  LALR1Parser.find_terminal p tok = Some terminal ->
  is_terminal terminal = true \/ terminal = eoi.
Proof using p_core.
  unfold LALR1Parser.find_terminal. destruct (is_eof tok).
  - intros [= <-]. right. unfold SymbolTable.get_end_of_input, eoi.
    now rewrite (sc_table _ _ p_core).
  - intros H. apply find_some in H as [_ H]. apply andb_true_iff in H as [H _]. now left.
Qed.

(** The root of an accepted tree: the symbol after the arrow of a
    production that the generator takes for the augmented one. *)
Definition accepted_root (n : ParseNode) : Prop :=
  exists prod, In prod prods /\ looks_augmented prod = Val true
               /\ map addr (rhs prod) = [addr (node_symbol n)].

Lemma step_keeps_stack (c : LALR1Parser.Config) :
  stack_ok (LALR1Parser.stack c) ->
  match LALR1Parser.step p c with
  | Val (LALR1Parser.Continue c') => stack_ok (LALR1Parser.stack c')
  | Val (LALR1Parser.Return r) =>
      success r = true ->
      exists n, tree r = Some n /\ derivation_tree prods eoi n /\ accepted_root n
  | _ => True
  end.
Proof using a_ok a_sound a_initial g_distinct p_core p_table.
  intros Hstk. unfold LALR1Parser.step.
  destruct (LALR1Parser.stack c) as [|top rest] eqn:Hc; [exact I|].
  destruct (LALR1Parser.find_terminal p (LALR1Parser.current_token c))
    as [terminal|] eqn:Hterm; [|discriminate].
  set (action := ParseTable.get_action (LALR1Parser.state top) terminal
                                       (LALR1Parser.table_ p)).
  assert (Hlookup : Action.is_error action = false ->
                    ParseTable.action_table_ (LALR1Parser.table_ p)
                      !! (LALR1Parser.state top, addr terminal) = Some action)
    by apply get_action_lookup.
  destruct (Action.is_shift action) eqn:Hshift.
  { destruct (next_token (LALR1Parser.lexer c)) as [tok' lexer'].
    cbn [LALR1Parser.stack].
    assert (Herr : Action.is_error action = false).
    { unfold Action.is_shift, Action.is_error in *. now destruct (Action.type action). }
    pose proof (ts_shift _ _ _ p_table _ _ _ (Hlookup Herr) Hshift) as Htrans.
    apply (stack_push (Action.value action)
                      (Node terminal (tok_value (LALR1Parser.current_token c)) [])
                      top rest Hstk); [|exact Htrans].
    cbn [derivation_tree]. left. split; [reflexivity|].
    eapply find_terminal_leaf, Hterm. }
  destruct (Action.is_reduce action) eqn:Hreduce.
  { destruct (Z.ltb_spec (Action.value action) 0) as [Hneg|Hpos]; [exact I|].
    destruct (nth_error (Grammar.productions (LALR1Parser.grammar_ p))
                        (Z.to_nat (Action.value action))) as [production|] eqn:Hprod;
      [|exact I].
    assert (Herr : Action.is_error action = false).
    { unfold Action.is_reduce, Action.is_error in *. now destruct (Action.type action). }
    destruct (ts_reduce _ _ _ p_table _ _ _ (Hlookup Herr) Hreduce)
      as (item & i & q & Hitem & Hcomplete & Hval & Hq & Hpaddr).
    unfold Grammar.productions in Hprod.
    rewrite (sc_prods _ _ p_core), Hval, Nat2Z.id, Hq in Hprod. injection Hprod as <-.
    destruct (state_items_ok g a s0 a_ok _ _ Hitem) as [Hin Hdot].
    assert (Hqin : In q prods) by (eapply nth_error_In, Hq).
    assert (Eq : q = LR0Item.production_ item)
      by (apply (productions_distinct_inj g g_distinct); auto).
    assert (Ed : LR0Item.dot_position_ item = length (rhs q)).
    { unfold LR0Item.is_complete in Hcomplete. apply Nat.leb_le in Hcomplete.
      rewrite <- Eq in Hcomplete, Hdot. lia. }
    assert (Hitem' : In (LR0Item.mk q (length (rhs q)))
                        (state_items a (LALR1Parser.state top))).
    { rewrite Eq at 1. rewrite <- Ed. now destruct item. }
    destruct (stack_items (length (rhs q)) (top :: rest) top rest q Hstk eq_refl Hitem')
      as (Hlen & (nodes & Hnodes & Hall & Hlabels) & Hskip & (e & rest' & Hbelow & He)).
    rewrite pop_frames_spec.
    destruct (Nat.leb_spec (length (rhs q)) (length (top :: rest))) as [_|Hgt]; [|lia].
    cbn [app]. rewrite Hbelow.
    set (goto_state := ParseTable.get_goto (LALR1Parser.state e) (lhs q)
                                           (LALR1Parser.table_ p)).
    destruct (Z.ltb_spec goto_state 0) as [Hng|Hgo]; [discriminate|].
    cbn [LALR1Parser.stack].
    assert (Hgoto : ParseTable.goto_table_ (LALR1Parser.table_ p)
                      !! (LALR1Parser.state e, addr (lhs q)) = Some goto_state).
    { unfold goto_state, ParseTable.get_goto in *.
      destruct (ParseTable.goto_table_ (LALR1Parser.table_ p)
                  !! (LALR1Parser.state e, addr (lhs q))); [reflexivity | lia]. }
    apply (ts_goto _ _ _ p_table) in Hgoto.
    rewrite Hbelow in Hskip.
    apply (stack_push goto_state
             (Node (lhs q) ""
                   (LALR1Parser.children_of
                      (map LALR1Parser.node (firstn (length (rhs q)) (top :: rest)))))
             e rest' Hskip); [|exact Hgoto].
    rewrite Hnodes, children_of_nodes. cbn [derivation_tree]. right. split.
    - exists q. split; [exact Hqin|]. split; [reflexivity|].
      now rewrite Hlabels, firstn_all.
    - apply derivation_trees_Forall. now apply Forall_rev. }
  destruct (Action.is_accept action) eqn:Haccept; [|discriminate].
  destruct (Nat.leb_spec 2 (length (top :: rest))) as [Hlen|]; [|discriminate].
  intros _. cbn [tree result_ok].
  assert (Herr : Action.is_error action = false).
  { unfold Action.is_accept, Action.is_error in *. now destruct (Action.type action). }
  destruct (ts_accept _ _ _ p_table _ _ _ (Hlookup Herr) Haccept)
    as (item & Hitem & Hcomplete & Haug).
  destruct (state_items_ok g a s0 a_ok _ _ Hitem) as [Hin Hdot].
  assert (Hone : length (rhs (LR0Item.production_ item)) = 1).
  { unfold looks_augmented in Haug.
    destruct (name_ends_with_quote (lhs (LR0Item.production_ item))) as [b| | |];
      cbn [res_bind] in Haug; try discriminate.
    injection Haug as Haug. apply andb_true_iff in Haug as [_ Haug].
    now apply Nat.eqb_eq in Haug. }
  assert (Ed : LR0Item.dot_position_ item = 1).
  { unfold LR0Item.is_complete in Hcomplete. apply Nat.leb_le in Hcomplete. lia. }
  assert (Hitem' : In (LR0Item.mk (LR0Item.production_ item) 1)
                      (state_items a (LALR1Parser.state top))).
  { rewrite <- Ed. now destruct item. }
  destruct (stack_items 1 (top :: rest) top rest _ Hstk eq_refl Hitem')
    as (_ & (nodes & Hnodes & Hall & Hlabels) & _).
  cbn [firstn map] in Hnodes. destruct nodes as [|n [|n' nodes]]; try discriminate.
  injection Hnodes as Hnode. exists n. split; [exact Hnode|].
  split; [now inversion Hall|].
  exists (LR0Item.production_ item). split; [exact Hin|]. split; [exact Haug|].
  cbn [rev app map] in Hlabels. rewrite <- Hone, firstn_all in Hlabels. now symmetry.
Qed.

Lemma run_keeps_stack (k : nat) :
  forall (c : LALR1Parser.Config) (r : ParseResult),
    stack_ok (LALR1Parser.stack c) ->
    LALR1Parser.run k p c = Val r -> success r = true ->
    exists n, tree r = Some n /\ derivation_tree prods eoi n /\ accepted_root n.
Proof using a_ok a_sound a_initial g_distinct p_core p_table.
  induction k as [|k IH]; intros c r Hstk; cbn [LALR1Parser.run]; [discriminate|].
  pose proof (step_keeps_stack c Hstk) as Hstep.
  destruct (LALR1Parser.step p c) as [[c'|r']| | |]; cbn [res_bind]; try discriminate.
  - now apply IH.
  - intros [= <-]. exact Hstep.
Qed.
End driver_stack.

(** The automaton of a grammar with a production: its invariants, and the
    items of its first state have the dot at the start. *)
Lemma create_paths (n fuel : nat) (g : Grammar.t) (p0 : ProductionPtr)
      (rest : list ProductionPtr) :
  Grammar.productions_ g = p0 :: rest ->
  state_bound g <= n -> length (Grammar.productions_ g) < fuel ->
  exists a s0,
    LR0Automaton.create n fuel g = Val a
    /\ automaton_ok g s0 a /\ transitions_sound fuel g a
    /\ forall i, In i (LR0State.items s0) -> LR0Item.dot_position_ i = 0.
Proof.
  intros Hprods Hn Hfuel.
  destruct (initial_spec fuel g p0 rest Hprods Hfuel) as (r0 & Hclosure & Hinit & Hok0).
  set (st0 := LR0State.mk 0 r0) in *.
  destruct (build_loop_spec n fuel g st0 (LR0Automaton.mk [st0] ∅) [st0] Hok0)
    as (a & Hloop & _); auto.
  { cbn [LR0Automaton.states_ length]. unfold state_bound in *.
    pose proof (Nat.pow_nonzero 2 (length (item_universe g))). lia. }
  destruct (build_loop_trans n fuel g st0 _ a [st0] Hloop Hok0) as (Hok & Hsound & _);
    auto.
  { intros i X j Hlookup. cbn in Hlookup. rewrite lookup_empty in Hlookup. discriminate. }
  exists a, st0. split; [unfold LR0Automaton.create; now rewrite Hinit|].
  split; [exact Hok|]. split; [exact Hsound|].
  intros i Hi. cbn [st0 LR0State.items LR0State.items_] in Hi.
  destruct (closure_origin _ _ _ _ Hclosure i Hi) as [[<-|[]]|Hz]; [reflexivity | exact Hz].
Qed.

(** X16.  For an augmented grammar with at least one production, whose
    productions are distinct objects with named left-hand sides and whose
    FIRST cache is clear or was written by the code, the generator returns
    a table, and every tree that the driver returns with this table is a
    derivation tree of the grammar: each leaf is a node for a shifted
    token, each other node is labelled with the left-hand side of a
    production and has one child for each symbol of its right-hand side,
    in order; and the root is the symbol after the arrow of a production
    that the generator takes for the augmented one.  This holds whatever
    conflicts the table has. *)
Theorem generated_parser_returns_derivation_trees
        (n fuel : nat) (g : Grammar.t) (p0 : ProductionPtr) (rest : list ProductionPtr) :
  Grammar.productions_ g = p0 :: rest ->
  Grammar.is_augmented_ g = true ->
  caches_ok g -> names_ok g -> productions_distinct g ->
  state_bound g <= n -> core_fuel g <= fuel ->
  exists gen tb gen',
    LALR1Generator.create n fuel g = Val gen
    /\ LALR1Generator.generate_table fuel gen = Val (tb, gen')
    /\ forall fuel' tokens r,
         LALR1Parser.parse_internal fuel'
           (LALR1Parser.mk (LALR1Generator.grammar_ gen') tb false) tokens = Val r ->
         success r = true ->
         exists t,
           tree r = Some t
           /\ derivation_tree (Grammar.productions_ g)
                (SymbolTable.end_of_input_ (Grammar.symbol_table_ g)) t
           /\ exists prod,
                In prod (Grammar.productions_ g) /\ looks_augmented prod = Val true
                /\ map addr (rhs prod) = [addr (node_symbol t)].
Proof.
  intros Hprods Haug Hcaches Hnames Hdistinct Hn Hfuel.
  assert (Hfuel0 : length (Grammar.productions_ g) < fuel)
    by (unfold core_fuel, sets_fuel in Hfuel; lia).
  destruct (create_paths n fuel g p0 rest Hprods Hn Hfuel0)
    as (a & s0 & Hcreate & Hok & Hsound & Hinitial).
  exists (LALR1Generator.mk g [] a).
  unfold LALR1Generator.create. rewrite Hcreate. cbn [res_bind].
  unfold LALR1Generator.generate_table, LALR1Generator.build_lalr_states.
  cbn [LALR1Generator.grammar_ LALR1Generator.states_ LALR1Generator.lr0_automaton_].
  unfold Grammar.is_augmented. rewrite Haug. cbn [negb].
  destruct (build_lalr_states_ok fuel g (LR0Automaton.states a) Hfuel Hnames
              (ao_items _ _ _ Hok) [] g (same_core_refl g) Hcaches)
    as (new & g2 & Hbuild & Hids & Hall & Hcore2 & _).
  rewrite Hbuild. cbn [res_bind app LALR1Generator.grammar_ LALR1Generator.states_].
  set (gen' := LALR1Generator.mk g2 new a).
  set (tb0 := ParseTable.create _ _ _).
  destruct (fill_states_ok fuel g gen' Hcore2 Hnames Hsound new Hall tb0)
    as (tb & Hfill & _ & _).
  { split; intros k x Hk; cbn in Hk; rewrite lookup_empty in Hk; discriminate. }
  rewrite Hfill. cbn [res_bind].
  exists tb, gen'. split; [reflexivity|]. split; [reflexivity|].
  assert (Hlinked : Forall (lalr_linked a) new).
  { apply build_lalr_states_linked in Hbuild as (new' & Hnew & Hforall).
    cbn [app] in Hnew. subst new'.
    eapply List.Forall_impl; [|exact Hforall].
    intros ls (s & Hs & Hid & Hitems) i Hi. unfold state_items.
    rewrite Hid, (in_states_get_state g s0 s a Hok Hs). now apply Hitems. }
  assert (Htable : table_sound g a tb).
  { apply (fill_states_sound g gen' Hcore2 new Hlinked tb0 tb); [|exact Hfill].
    constructor; intros state X act Hk; cbn in Hk; rewrite lookup_empty in Hk;
      discriminate. }
  intros fuel' tokens r Hrun Hsuccess. unfold LALR1Parser.parse_internal in Hrun.
  destruct (next_token tokens) as [tok l'].
  apply (run_keeps_stack fuel g a s0 (LALR1Parser.mk g2 tb false) Hok Hsound Hinitial
           Hdistinct Hcore2 Htable fuel' _ r) in Hrun; [|constructor | exact Hsuccess].
  exact Hrun.
Qed.

Lemma generated_parser_returns_derivation_trees_witness :
  exists gen tb gen',
    LALR1Generator.create 1024 100 Examples.sum_grammar_augmented = Val gen
    /\ LALR1Generator.generate_table 100 gen = Val (tb, gen')
    /\ forall fuel' tokens r,
         LALR1Parser.parse_internal fuel'
           (LALR1Parser.mk (LALR1Generator.grammar_ gen') tb false) tokens = Val r ->
         success r = true ->
         exists t,
           tree r = Some t
           /\ derivation_tree (Grammar.productions_ Examples.sum_grammar_augmented)
                (SymbolTable.end_of_input_
                   (Grammar.symbol_table_ Examples.sum_grammar_augmented)) t
           /\ exists prod,
                In prod (Grammar.productions_ Examples.sum_grammar_augmented)
                /\ looks_augmented prod = Val true
                /\ map addr (rhs prod) = [addr (node_symbol t)].
Proof.
  apply (generated_parser_returns_derivation_trees 1024 100 Examples.sum_grammar_augmented
           (mkProduction 23 (make_symbol 14 "E'" NONTERMINAL) [Examples.E])
           (skipn 1 (Grammar.productions_ Examples.sum_grammar_augmented))).
  - reflexivity.
  - reflexivity.
  - intros H. vm_compute in H. discriminate.
  - intros p Hp. vm_compute in Hp.
    repeat (destruct Hp as [<-|Hp]; [discriminate|]). destruct Hp.
  - unfold productions_distinct. vm_compute.
    repeat (constructor; [cbn; intuition discriminate|]). constructor.
  - vm_compute. lia.
  - vm_compute. lia.
Defined.

(** ** The input that a generated parser accepts *)

(** The items that the closure adds belong to productions whose left-hand
    side stands in a right-hand side. *)
Definition lhs_in_rhs (g : Grammar.t) (prod : ProductionPtr) : Prop :=
  exists q X, In q (Grammar.productions_ g) /\ In X (rhs q) /\ addr X = addr (lhs prod).

Lemma closure_origin_lhs (fuel : nat) (K r : LR0ItemSet) (g : Grammar.t) :
  LR0Automaton.closure fuel K g = Val r ->
  (forall i, In i K -> In (LR0Item.production_ i) (Grammar.productions_ g)) ->
  forall i, In i r ->
            In i K
            \/ (LR0Item.dot_position_ i = 0
                /\ In (LR0Item.production_ i) (Grammar.productions_ g)
                /\ lhs_in_rhs g (LR0Item.production_ i)).
Proof.
  intros Hrun HK.
  pose (used := fun p : ProductionPtr =>
                  existsb (fun X => addr X =? addr (lhs p))
                          (flat_map rhs (Grammar.productions_ g))).
  assert (Hused : forall p, used p = true -> lhs_in_rhs g p).
  { intros p Hp. apply existsb_exists in Hp as (X & HX & Ha).
    apply in_flat_map in HX as (q & Hq & HX). apply Nat.eqb_eq in Ha.
    now exists q, X. }
  set (S := K ++ map (fun p => LR0Item.mk p 0)
                     (List.filter used (Grammar.productions_ g))).
  assert (Hprods : forall i, In i S -> In (LR0Item.production_ i) (Grammar.productions_ g)).
  { intros i Hi. apply in_app_or in Hi as [Hi|Hi]; [now apply HK|].
    apply in_map_iff in Hi as (p & <- & Hp). now apply filter_In in Hp as [Hp _]. }
  assert (Hclosed : closed_in g S).
  { intros item X prod Hitem HX _ Hprod. apply in_or_app. right.
    apply (in_map (fun p => LR0Item.mk p 0)). unfold Grammar.productions_for in Hprod.
    apply filter_In in Hprod as [Hprod Hlhs]. apply filter_In. split; [exact Hprod|].
    unfold used. apply existsb_exists. exists X. split.
    - apply in_flat_map. exists (LR0Item.production_ item). split; [now apply Hprods|].
      unfold LR0Item.next_symbol in HX.
      destruct (LR0Item.is_complete item); [discriminate|]. now apply nth_error_In in HX.
    - unfold ptr_eqb in Hlhs. apply Nat.eqb_eq in Hlhs. now apply Nat.eqb_eq. }
  unfold LR0Automaton.closure in Hrun.
  apply (while_changed_invariant _ (fun s => forall i, In i s -> In i S)) in Hrun.
  - destruct Hrun as [Hr _]. intros i Hi. apply Hr, in_app_or in Hi as [Hi|Hi]; [now left|].
    right. apply in_map_iff in Hi as (p & <- & Hp). apply filter_In in Hp as [Hp Hu].
    cbn. auto.
  - intros s s1 c Hs [= Hpass]. intros i Hi.
    apply (closure_pass_least g s S Hclosed Hs). now rewrite Hpass.
  - intros i Hi. apply in_or_app. now left.
Qed.

Lemma transition_symbols_In (s : LR0State.t) (Y : SymbolPtr) :
  In Y (LR0State.get_transition_symbols s) ->
  exists item, In item (LR0State.items s) /\ LR0Item.next_symbol item = Some Y.
Proof.
  unfold LR0State.get_transition_symbols, LR0State.items. revert Y.
  apply (fold_left_invariant _
           (fun acc => forall Y, In Y acc ->
              exists item, In item (LR0State.items_ s)
                           /\ LR0Item.next_symbol item = Some Y)).
  - intros acc item Hitem Hacc Y.
    destruct (LR0Item.next_symbol item) as [next_sym|] eqn:Hnext; [|apply Hacc].
    intros HY. apply set_insert_In in HY as [->|HY]; [|now apply Hacc]. eauto.
  - intros Y [].
Qed.

Section accepted_input.
Variable fuel : nat.
Variable g : Grammar.t.
Variable a : LR0Automaton.t.
Variable s0 : LR0State.t.
Hypothesis a_ok : automaton_ok g s0 a.
Hypothesis a_sound : transitions_sound fuel g a.
Hypothesis g_distinct : productions_distinct g.

Let prods := Grammar.productions_ g.
Let eoi := SymbolTable.end_of_input_ (Grammar.symbol_table_ g).

(** Every transition is on a symbol of a right-hand side. *)
Lemma transition_on_rhs_symbol (i j : Z) (X : nat) :
  LR0Automaton.transitions_ a !! (i, X) = Some j ->
  exists q Y, In q prods /\ In Y (rhs q) /\ addr Y = X.
Proof using a_ok a_sound.
  intros Htrans.
  destruct (a_sound i (mkSymbol X "" TERMINAL 0%Z) j Htrans)
    as (si & _ & _ & Hi & _ & _ & _ & (Y & HY & HYX) & _).
  apply transition_symbols_In in HY as (item & Hitem & Hnext).
  assert (Hsi : In si (LR0Automaton.states_ a)).
  { unfold LR0Automaton.get_state in Hi. destruct (_ || _); [discriminate|].
    now apply nth_error_In in Hi. }
  destruct (ao_items _ _ _ a_ok si Hsi) as [_ Hitems].
  destruct (Hitems item Hitem) as [Hprod _].
  exists (LR0Item.production_ item), Y. split; [exact Hprod|]. split; [|exact HYX].
  unfold LR0Item.next_symbol in Hnext.
  destruct (LR0Item.is_complete item); [discriminate|]. now apply nth_error_In in Hnext.
Qed.

(** The initial item of a production whose left-hand side stands in no
    right-hand side is in no state that a transition leads to. *)
Lemma initial_item_not_reached (i j : Z) (X : nat) (q : ProductionPtr) :
  LR0Automaton.transitions_ a !! (i, X) = Some j ->
  In q prods -> ~ lhs_in_rhs g q ->
  ~ In (LR0Item.mk q 0) (state_items a j).
Proof using a_ok a_sound g_distinct.
  intros Htrans Hq Hno Hitem.
  destruct (a_sound i (mkSymbol X "" TERMINAL 0%Z) j Htrans)
    as (si & sj & r & Hi & _ & Hj & _ & _ & Hgoto & Heq).
  unfold state_items in Hitem. rewrite Hj in Hitem.
  apply set_eqb_keys in Heq.
  assert (Hkey : In (ikey (LR0Item.mk q 0)) (map ikey r))
    by (rewrite <- Heq; now apply in_map).
  apply in_map_iff in Hkey as (it & Hikey & Hit).
  unfold ikey in Hikey. cbn [LR0Item.production_ LR0Item.dot_position_] in Hikey.
  injection Hikey as Hp Hd.
  assert (Hsi : In si (LR0Automaton.states_ a)).
  { unfold LR0Automaton.get_state in Hi. destruct (_ || _); [discriminate|].
    now apply nth_error_In in Hi. }
  destruct (ao_items _ _ _ a_ok si Hsi) as [_ Hitems].
  unfold LR0Automaton.goto_set in Hgoto.
  apply (closure_origin_lhs _ _ _ _ Hgoto) in Hit as [Hit|(_ & Hin & Hlhs)].
  - apply goto_kernel_In in Hit as (item' & Y & _ & _ & _ & ->).
    cbn [LR0Item.advance LR0Item.dot_position_] in Hd. lia.
  - apply Hno. now rewrite <- (productions_distinct_inj g g_distinct _ _ Hin Hq Hp).
  - intros i0 Hi0. apply goto_kernel_In in Hi0 as (item' & Y & Hin' & _ & _ & ->).
    cbn [LR0Item.advance LR0Item.production_]. now apply (Hitems item' Hin').
Qed.
End accepted_input.

(** *** The lookaheads of the LALR items *)

Section lookahead_tracking.
(** [J item la]: the lookahead [la] may be added for the LR(0) item. *)
Variable J : LR0Item.t -> SymbolPtr -> Prop.

Definition lookaheads_tracked (m : gmap (nat * nat) SymbolSet) : Prop :=
  forall key las la, m !! key = Some las -> In la las ->
                     exists c, LALRState.item_key c = key /\ J c la.

Definition items_tracked (its : LR1ItemSet) : Prop :=
  forall i, In i its ->
            exists c, LALRState.item_key c = LALRState.item_key (LR1Item.core i)
                      /\ J c (LR1Item.lookahead_ i).

Lemma lookaheads_at_tracked (item : LR0Item.t) (m : gmap (nat * nat) SymbolSet) :
  lookaheads_tracked m ->
  lookaheads_tracked (snd (LALRState.lookaheads_at item m))
  /\ forall la, In la (fst (LALRState.lookaheads_at item m)) ->
                exists c, LALRState.item_key c = LALRState.item_key item /\ J c la.
Proof using Type.
  intros Hm. unfold LALRState.lookaheads_at.
  destruct (m !! LALRState.item_key item) as [s|] eqn:Hs; cbn [fst snd].
  - split; [exact Hm|]. intros la Hla. now apply (Hm _ s).
  - split; [|intros la []]. intros key las la Hkey Hla.
    destruct (decide (LALRState.item_key item = key)) as [<-|Hne].
    + rewrite lookup_insert_eq in Hkey. injection Hkey as <-. destruct Hla.
    + rewrite lookup_insert_ne in Hkey by exact Hne. now apply (Hm key las).
Qed.

Lemma add_lookahead_tracked (item : LR0Item.t) (la : SymbolPtr) (s : LALRState.t) :
  J item la -> lookaheads_tracked (LALRState.lookaheads_ s) ->
  lookaheads_tracked (LALRState.lookaheads_ (LALRState.add_lookahead item la s))
  /\ items_tracked (LALRState.items_ (LALRState.add_lookahead item la s)).
Proof using Type.
  intros HJ Hm. unfold LALRState.add_lookahead.
  destruct (lookaheads_at_tracked item (LALRState.lookaheads_ s) Hm) as [Hm1 Hlas].
  destruct (LALRState.lookaheads_at item (LALRState.lookaheads_ s)) as [las m1].
  cbn [fst snd] in Hm1, Hlas.
  assert (Hm2 : lookaheads_tracked (<[LALRState.item_key item := sym_insert la las]> m1)).
  { intros key las' la' Hkey Hla'.
    destruct (decide (LALRState.item_key item = key)) as [<-|Hne].
    - rewrite lookup_insert_eq in Hkey. injection Hkey as <-.
      apply set_insert_In in Hla' as [->|Hla']; [now exists item | now apply Hlas].
    - rewrite lookup_insert_ne in Hkey by exact Hne. now apply (Hm1 key las'). }
  match goal with
  | |- context [fold_left ?f (LALRState.core_ s) ?a0] =>
      pose proof (fold_left_invariant f
                    (fun acc => items_tracked (fst acc) /\ lookaheads_tracked (snd acc))
                    (LALRState.core_ s) a0) as Hinv;
      destruct (fold_left f (LALRState.core_ s) a0) as [its m3]
  end.
  cbn [LALRState.lookaheads_ LALRState.items_ fst snd] in *.
  destruct Hinv as [Hits Hm3]; [|split; [intros i []|exact Hm2]|auto].
  intros [its0 m0] core_item _ [Hits0 Hm0]. cbn [fst snd] in *.
  destruct (lookaheads_at_tracked core_item m0 Hm0) as [Hm' Hlas'].
  destruct (LALRState.lookaheads_at core_item m0) as [las' m']. cbn [fst snd] in *.
  split; [|exact Hm'].
  apply fold_left_invariant; [|exact Hits0].
  intros acc la' Hla' Hacc i Hi. unfold lr1_insert in Hi.
  apply set_insert_In in Hi as [->|Hi]; [|now apply Hacc].
  destruct (Hlas' la' Hla') as (c & Hc & HJc). exists c. split; [|exact HJc].
  rewrite Hc. reflexivity.
Qed.

Lemma add_lookaheads_tracked (item : LR0Item.t) (las : SymbolSet) :
  forall s,
    (forall la, In la las -> J item la) ->
    lookaheads_tracked (LALRState.lookaheads_ s) -> items_tracked (LALRState.items_ s) ->
    let s' := fold_left (fun s la => LALRState.add_lookahead item la s) las s in
    lookaheads_tracked (LALRState.lookaheads_ s') /\ items_tracked (LALRState.items_ s').
Proof using Type.
  induction las as [|la las IH]; intros s HJ Hm Hits; cbn [fold_left]; [auto|].
  destruct (add_lookahead_tracked item la s (HJ la (or_introl eq_refl)) Hm) as [Hm1 Hits1].
  apply IH; auto. intros la' Hla'. apply HJ. now right.
Qed.
End lookahead_tracking.

(** The lookahead computed for a complete item of a production that looks
    augmented is the end-of-input symbol. *)
Definition accept_lookahead (g : Grammar.t) (c : LR0Item.t) (la : SymbolPtr) : Prop :=
  In (LR0Item.production_ c) (Grammar.productions_ g)
  /\ (LR0Item.is_complete c = true ->
      looks_augmented (LR0Item.production_ c) = Val true ->
      la = SymbolTable.end_of_input_ (Grammar.symbol_table_ g)).

Lemma item_lookaheads_accept (fuel : nat) (g g1 g2 : Grammar.t) (c : LR0Item.t)
      (las : SymbolSet) :
  same_core g g1 -> In (LR0Item.production_ c) (Grammar.productions_ g) ->
  LALR1Generator.item_lookaheads fuel c g1 = Val (las, g2) ->
  forall la, In la las -> accept_lookahead g c la.
Proof.
  intros Hcore Hprod Hrun la Hla. split; [exact Hprod|]. intros Hcomplete Haug.
  unfold LALR1Generator.item_lookaheads, LR0Item.production in Hrun.
  rewrite Hcomplete, Haug in Hrun. cbn [res_bind] in Hrun. injection Hrun as <- _.
  cbn in Hla. destruct Hla as [<-|[]]. unfold SymbolTable.get_end_of_input.
  now rewrite (sc_table _ _ Hcore).
Qed.

Lemma build_lalr_items_tracked (fuel : nat) (g : Grammar.t) (items : LR0ItemSet) :
  core_fuel g <= fuel -> names_ok g ->
  (forall i, In i items -> item_ok g i) ->
  forall (ls ls' : LALRState.t) (g1 g2 : Grammar.t),
    same_core g g1 -> caches_ok g1 ->
    lookaheads_tracked (accept_lookahead g) (LALRState.lookaheads_ ls) ->
    items_tracked (accept_lookahead g) (LALRState.items_ ls) ->
    res_fold (fun '(ls, g1) lr0_item =>
                do (lookaheads, g2) <- LALR1Generator.item_lookaheads fuel lr0_item g1 in
                Val (fold_left (fun s la => LALRState.add_lookahead lr0_item la s)
                               lookaheads ls, g2))
             items (ls, g1) = Val (ls', g2) ->
    items_tracked (accept_lookahead g) (LALRState.items_ ls').
Proof.
  intros Hfuel Hnames. induction items as [|item items IH];
    intros Hitems ls ls' g1 g2 Hcore Hok Hm Hits; cbn [res_fold].
  - now intros [= <- <-].
  - destruct (item_lookaheads_ok fuel g g1 item Hcore Hok Hfuel Hnames
                (Hitems item (or_introl eq_refl))) as (las & g3 & Hlas & Hcore3 & Hok3).
    rewrite Hlas. cbn [res_bind].
    destruct (add_lookaheads_tracked (accept_lookahead g) item las ls) as [Hm1 Hits1]; auto.
    { apply (item_lookaheads_accept fuel g g1 g3 item las Hcore); [|exact Hlas].
      apply (Hitems item (or_introl eq_refl)). }
    apply (IH (fun i Hi => Hitems i (or_intror Hi)) _ ls' g3 g2 Hcore3 Hok3 Hm1 Hits1).
Qed.

Lemma build_lalr_states_tracked (fuel : nat) (g : Grammar.t) (lr0_states : list LR0State.t) :
  core_fuel g <= fuel -> names_ok g ->
  (forall s, In s lr0_states -> items_ok g (LR0State.items s)) ->
  forall (states new : list LALRState.t) (g1 g2 : Grammar.t),
    same_core g g1 -> caches_ok g1 ->
    res_fold (LALR1Generator.build_lalr_state fuel) lr0_states (states, g1)
    = Val (states ++ new, g2) ->
    Forall (fun ls => items_tracked (accept_lookahead g) (LALRState.items_ ls)) new.
Proof.
  intros Hfuel Hnames. induction lr0_states as [|lr0_state lr0_states IH];
    intros Hstates states new g1 g2 Hcore Hok; cbn [res_fold].
  - intros [= Hnew _]. rewrite <- (app_nil_r states) in Hnew at 1.
    apply app_inv_head in Hnew. subst new. constructor.
  - unfold LALR1Generator.build_lalr_state at 1. cbv beta iota zeta.
    destruct (build_lalr_items_ok fuel g (LR0State.items lr0_state) Hfuel Hnames)
      with (ls := LALRState.create (LR0State.id lr0_state) (LR0State.items lr0_state))
           (g1 := g1)
      as (ls' & g3 & Hfold & _ & _ & _ & Hcore3 & Hok3); auto.
    { apply (Hstates lr0_state (or_introl eq_refl)). }
    { intros c Hc. apply (Hstates lr0_state (or_introl eq_refl)), Hc. }
    { intros i []. }
    rewrite Hfold. cbn [res_bind].
    assert (Hls' : items_tracked (accept_lookahead g) (LALRState.items_ ls')).
    { apply (build_lalr_items_tracked fuel g (LR0State.items lr0_state) Hfuel Hnames)
        with (ls := LALRState.create (LR0State.id lr0_state) (LR0State.items lr0_state))
             (g1 := g1) (g2 := g3); auto.
      - apply (Hstates lr0_state (or_introl eq_refl)).
      - intros key las la Hkey. cbn in Hkey. rewrite lookup_empty in Hkey. discriminate.
      - intros i []. }
    intros Hrest.
    destruct (build_lalr_states_ok fuel g lr0_states Hfuel Hnames
                (fun s Hs => Hstates s (or_intror Hs)) (states ++ [ls']) g3 Hcore3 Hok3)
      as (new' & g4 & Hrest' & _).
    rewrite Hrest' in Hrest. injection Hrest as Hnew _.
    rewrite <- app_assoc in Hnew. apply app_inv_head in Hnew. subst new.
    constructor; [exact Hls'|].
    apply (IH (fun s Hs => Hstates s (or_intror Hs)) (states ++ [ls']) new' g3 g4 Hcore3 Hok3).
    exact Hrest'.
Qed.

(** *** The Accept entries of a generated table *)

(** Accept is stored only in the column of the end-of-input symbol. *)
Definition accept_at_end (g : Grammar.t) (tb : ParseTable.t) : Prop :=
  forall state X act,
    ParseTable.action_table_ tb !! (state, X) = Some act -> Action.is_accept act = true ->
    X = addr (SymbolTable.end_of_input_ (Grammar.symbol_table_ g)).

Definition call_at_end (g : Grammar.t) (c : LALR1Generator.ActionCall) : Prop :=
  let '(state, terminal, act) := c in
  Action.is_accept act = true ->
  terminal = SymbolTable.end_of_input_ (Grammar.symbol_table_ g).

Lemma accept_at_end_actions (g : Grammar.t) (calls : list LALR1Generator.ActionCall) :
  forall tb,
    accept_at_end g tb -> (forall c, In c calls -> call_at_end g c) ->
    accept_at_end g (fold_left LALR1Generator.do_action calls tb).
Proof.
  induction calls as [|[[state terminal] action] calls IH]; intros tb Htb Hcalls;
    cbn [fold_left]; [exact Htb|].
  apply IH; [|intros c Hc; apply Hcalls; now right].
  pose proof (Hcalls (state, terminal, action) (or_introl eq_refl)) as Hcall.
  cbn [call_at_end] in Hcall.
  intros st X act Hk Hacc.
  cbn [LALR1Generator.do_action ParseTable.set_action ParseTable.action_table_] in Hk.
  destruct (decide ((state, addr terminal) = (st, X))) as [E|Hne].
  - rewrite E, lookup_insert_eq in Hk. injection Hk as <-. injection E as _ <-.
    now rewrite (Hcall Hacc).
  - rewrite lookup_insert_ne in Hk by exact Hne. now apply (Htb st X act).
Qed.

Lemma accept_at_end_gotos (g : Grammar.t) (calls : list LALR1Generator.GotoCall) :
  forall tb, accept_at_end g tb -> accept_at_end g (fold_left LALR1Generator.do_goto calls tb).
Proof.
  induction calls as [|[[state nonterminal] target] calls IH]; intros tb Htb;
    cbn [fold_left]; [exact Htb|].
  apply IH. exact Htb.
Qed.

Section accept_entries.
Variable g : Grammar.t.
Variable gen : LALR1Generator.t.
Variable s0 : LR0State.t.
Hypothesis a_ok : automaton_ok g s0 (LALR1Generator.lr0_automaton_ gen).
Hypothesis g_distinct : productions_distinct g.

Let a := LALR1Generator.lr0_automaton_ gen.

Lemma item_action_at_end (state : LALRState.t) (item : LR1Item.t)
      (c : LALR1Generator.ActionCall) :
  In (LR1Item.core item) (state_items a (LALRState.id_ state)) ->
  (exists c0, LALRState.item_key c0 = LALRState.item_key (LR1Item.core item)
              /\ accept_lookahead g c0 (LR1Item.lookahead_ item)) ->
  LALR1Generator.item_action gen state item = Val (Some c) ->
  call_at_end g c.
Proof using a_ok g_distinct.
  intros Hcore (c0 & Hkey & Hin0 & Hla). unfold LALR1Generator.item_action.
  destruct (LR1Item.is_complete item) eqn:Hcomplete.
  - destruct (looks_augmented (LR1Item.production item)) as [aug| | |] eqn:Haug;
      cbn [res_bind]; try discriminate.
    destruct aug.
    + intros [= <-]. cbn [call_at_end]. intros _. unfold LR1Item.lookahead.
      destruct (state_items_ok g a s0 a_ok _ _ Hcore) as [Hin _].
      unfold LALRState.item_key in Hkey. injection Hkey as Hp Hd.
      cbn [LR1Item.core LR0Item.production_ LR0Item.dot_position_] in Hp, Hd, Hin.
      pose proof (productions_distinct_inj g g_distinct _ _ Hin0 Hin Hp) as Eprod.
      apply Hla.
      * unfold LR0Item.is_complete. rewrite Eprod, Hd. exact Hcomplete.
      * rewrite Eprod. exact Haug.
    + destruct (production_number _ _ 0); [|discriminate].
      intros [= <-]. cbn [call_at_end]. discriminate.
  - destruct (LR1Item.next_symbol item) as [next_symbol|]; [|discriminate].
    destruct (is_terminal next_symbol); [|discriminate].
    destruct (0 <=? _)%Z; [|discriminate].
    intros [= <-]. cbn [call_at_end]. discriminate.
Qed.

Lemma state_actions_at_end (state : LALRState.t) (items : LR1ItemSet) :
  forall calls,
    (forall i, In i items -> In (LR1Item.core i) (state_items a (LALRState.id_ state))) ->
    items_tracked (accept_lookahead g) items ->
    LALR1Generator.state_actions gen state items = Val calls ->
    forall c, In c calls -> call_at_end g c.
Proof using a_ok g_distinct.
  induction items as [|item items IH]; intros calls Hitems Htracked;
    cbn [LALR1Generator.state_actions].
  - intros [= <-] c [].
  - destruct (LALR1Generator.item_action gen state item) as [c0| | |] eqn:Hitem;
      cbn [res_bind]; try discriminate.
    destruct (LALR1Generator.state_actions gen state items) as [cs| | |] eqn:Hrest;
      cbn [res_bind]; try discriminate.
    intros [= <-] c Hc.
    specialize (IH cs (fun i Hi => Hitems i (or_intror Hi))
                   (fun i Hi => Htracked i (or_intror Hi)) eq_refl).
    destruct c0 as [call|]; [|now apply IH].
    destruct Hc as [<-|Hc]; [|now apply IH].
    apply (item_action_at_end state item);
      [apply Hitems; now left | apply Htracked; now left | exact Hitem].
Qed.

Lemma fill_states_at_end (states : list LALRState.t) :
  Forall (lalr_linked a) states ->
  Forall (fun ls => items_tracked (accept_lookahead g) (LALRState.items_ ls)) states ->
  forall tb tb',
    accept_at_end g tb ->
    res_fold (LALR1Generator.fill_state gen) states tb = Val tb' ->
    accept_at_end g tb'.
Proof using a_ok g_distinct.
  induction 1 as [|state states Hstate _ IH]; intros Htracked tb tb' Htb; cbn [res_fold].
  - now intros [= <-].
  - unfold LALR1Generator.fill_state at 1.
    destruct (LALR1Generator.state_actions gen state (LALRState.items state))
      as [calls| | |] eqn:Hcalls; cbn [res_bind]; try discriminate.
    inversion Htracked as [|? ? Hst Hrest]; subst.
    apply (IH Hrest). apply accept_at_end_gotos, accept_at_end_actions; [exact Htb|].
    apply (state_actions_at_end state (LALRState.items state));
      [exact Hstate | exact Hst | exact Hcalls].
Qed.
End accept_entries.

(** *** The tokens of an accepted input *)

(** The tokens before the first end-of-file token. *)
Fixpoint input_tokens (l : list Token) : list Token :=
  match l with
  | [] => []
  | t :: l' => if is_eof t then [] else t :: input_tokens l'
  end.

Lemma shifted_input_tokens (l : list Token) (e : Token) :
  is_eof e = true ->
  forall (shifted : list Token) (tok : Token) (rest : list Token) (k : nat),
    Forall (fun t => is_eof t = false) shifted -> is_eof tok = true ->
    shifted ++ tok :: rest = l ++ repeat e k ->
    shifted = input_tokens l.
Proof.
  intros He. induction l as [|t l IH]; intros shifted tok rest k Hall Heof Hstream.
  - destruct shifted as [|s shifted]; [reflexivity|]. exfalso.
    cbn [app] in Hstream. inversion Hall as [|? ? Hs _]; subst.
    assert (Hin : In s (repeat e k)) by (rewrite <- Hstream; now left).
    apply repeat_spec in Hin. subst s. congruence.
  - cbn [app] in Hstream. destruct shifted as [|s shifted]; cbn [app] in Hstream.
    + injection Hstream as <- _. cbn [input_tokens]. now rewrite Heof.
    + injection Hstream as -> Hstream. inversion Hall as [|? ? Ht Hall']; subst.
      cbn [input_tokens]. rewrite Ht. f_equal. now apply (IH shifted tok rest k).
Qed.

Section accepted_stack.
Variable fuel : nat.
Variable g : Grammar.t.
Variable a : LR0Automaton.t.
Variable s0 : LR0State.t.
Variable p : LALR1Parser.t.
Variable l : Lexer.
Hypothesis a_ok : automaton_ok g s0 a.
Hypothesis a_sound : transitions_sound fuel g a.
Hypothesis a_initial : forall i, In i (LR0State.items s0) -> LR0Item.dot_position_ i = 0.
Hypothesis g_distinct : productions_distinct g.
Hypothesis p_core : same_core g (LALR1Parser.grammar_ p).
Hypothesis p_table : table_sound g a (LALR1Parser.table_ p).
Hypothesis p_accept : accept_at_end g (LALR1Parser.table_ p).
Hypothesis g_table : table_ok (Grammar.symbol_table_ g).
Hypothesis g_lhs :
  forall prod, In prod (Grammar.productions_ g) -> is_nonterminal (lhs prod) = true.
Hypothesis g_end :
  forall q X, In q (Grammar.productions_ g) -> In X (rhs q) ->
              addr X <> addr (SymbolTable.end_of_input_ (Grammar.symbol_table_ g)).
Hypothesis g_start :
  forall q, In q (Grammar.productions_ g) -> looks_augmented q = Val true ->
            ~ lhs_in_rhs g q.

Let prods := Grammar.productions_ g.
Let eoi := SymbolTable.end_of_input_ (Grammar.symbol_table_ g).

Lemma end_of_input_type : is_terminal eoi = false /\ is_nonterminal eoi = false.
Proof using g_table.
  pose proof (proj2 (to_end_only _ g_table eoi (to_end_in _ g_table)) eq_refl) as H.
  unfold is_end_of_input, is_terminal, is_nonterminal in *.
  destruct (type eoi); try discriminate; auto.
Qed.

(** The terminal that the driver finds for a token is the end-of-input
    symbol exactly for an end-of-file token. *)
Lemma find_terminal_end (tok : Token) (terminal : SymbolPtr) :
  LALR1Parser.find_terminal p tok = Some terminal ->
  (is_eof tok = true -> terminal = eoi)
  /\ (addr terminal = addr eoi -> is_eof tok = true).
Proof using p_core g_table.
  unfold LALR1Parser.find_terminal, SymbolTable.get_end_of_input.
  rewrite (sc_table _ _ p_core). destruct (is_eof tok).
  - intros [= <-]. auto.
  - intros H. split; [discriminate|]. intros Haddr. exfalso.
    apply find_some in H as [Hin H]. apply andb_true_iff in H as [Hterm _].
    apply get_terminals_In in Hin.
    pose proof (sorted_addr_inj _ (to_sorted _ g_table) terminal eoi Hin
                  (to_end_in _ g_table) Haddr) as E.
    rewrite E in Hterm. destruct end_of_input_type as [Ht _]. congruence.
Qed.

(** The state of the driver between two iterations: the stack follows the
    automaton, its trees yield the tokens shifted so far, none of which is
    an end-of-file token, and these with the current token and the rest of
    the lexer make up the token stream. *)
Definition spans (c : LALR1Parser.Config) : Prop :=
  stack_ok g a (LALR1Parser.stack c)
  /\ exists shifted k,
       flat_map frame_yield (rev (LALR1Parser.stack c)) = map tok_value shifted
       /\ Forall (fun t => is_eof t = false) shifted
       /\ shifted ++ LALR1Parser.current_token c :: pending (LALR1Parser.lexer c)
          = pending l ++ repeat (eof_token l) k
       /\ eof_token (LALR1Parser.lexer c) = eof_token l.

(** Below the frame of an accepted tree lies the initial frame only. *)
Lemma accept_stack_bottom (top : LALR1Parser.StackElement)
      (rest : list LALR1Parser.StackElement) (prod : ProductionPtr) :
  stack_ok g a (top :: rest) ->
  In prod prods -> looks_augmented prod = Val true ->
  In (LR0Item.mk prod 1) (state_items a (LALR1Parser.state top)) ->
  rest = [LALR1Parser.mkElement 0 None None].
Proof using a_ok a_sound a_initial g_distinct g_start.
  intros Hstk Hin Haug Hitem.
  destruct (stack_items fuel g a s0 a_ok a_sound a_initial g_distinct 1 (top :: rest)
              top rest prod Hstk eq_refl Hitem)
    as (_ & _ & Hskip & (e & rest' & Hbelow & He)).
  change (skipn 1 (top :: rest)) with rest in Hbelow, Hskip. rewrite Hbelow in *.
  inversion Hskip as [|target nd top' rest'' Hrest Hnd Htrans]; subst; [reflexivity|].
  exfalso. cbn [LALR1Parser.state] in He.
  apply (initial_item_not_reached fuel g a s0 a_ok a_sound g_distinct _ _ _ prod Htrans
           Hin (g_start prod Hin Haug) He).
Qed.

Lemma step_spans (c : LALR1Parser.Config) :
  spans c ->
  match LALR1Parser.step p c with
  | Val (LALR1Parser.Continue c') => spans c'
  | Val (LALR1Parser.Return r) =>
      success r = true ->
      exists n, tree r = Some n /\ yield n = map tok_value (input_tokens (pending l))
  | _ => True
  end.
Proof using a_ok a_sound a_initial g_distinct p_core p_table p_accept g_table g_lhs g_end
            g_start.
  intros (Hstk & shifted & k & Hyield & Hall & Hstream & Hends).
  pose proof (step_keeps_stack fuel g a s0 p a_ok a_sound a_initial g_distinct p_core
                p_table c Hstk) as Hkeep.
  unfold LALR1Parser.step in *.
  destruct (LALR1Parser.stack c) as [|top rest] eqn:Hc; [exact I|].
  destruct (LALR1Parser.find_terminal p (LALR1Parser.current_token c))
    as [terminal|] eqn:Hterm; [|discriminate].
  destruct (find_terminal_end _ _ Hterm) as [Heof_end Hend_eof].
  set (action := ParseTable.get_action (LALR1Parser.state top) terminal
                                       (LALR1Parser.table_ p)) in *.
  assert (Hlookup : Action.is_error action = false ->
                    ParseTable.action_table_ (LALR1Parser.table_ p)
                      !! (LALR1Parser.state top, addr terminal) = Some action)
    by apply get_action_lookup.
  destruct (Action.is_shift action) eqn:Hshift.
  { destruct (next_token (LALR1Parser.lexer c)) as [tok' lexer'] eqn:Hnext.
    split; [exact Hkeep|].
    assert (Herr : Action.is_error action = false).
    { unfold Action.is_shift, Action.is_error in *. now destruct (Action.type action). }
    pose proof (ts_shift _ _ _ p_table _ _ _ (Hlookup Herr) Hshift) as Htrans.
    assert (Hnot : is_eof (LALR1Parser.current_token c) = false).
    { destruct (is_eof (LALR1Parser.current_token c)) eqn:Heof; [|reflexivity].
      exfalso. rewrite (Heof_end eq_refl) in Htrans.
      destruct (transition_on_rhs_symbol fuel g a s0 a_ok a_sound _ _ _ Htrans)
        as (q & Y & Hq & HY & HYa).
      now apply (g_end q Y Hq HY). }
    exists (shifted ++ [LALR1Parser.current_token c]),
      (match pending (LALR1Parser.lexer c) with [] => S k | _ :: _ => k end).
    cbn [LALR1Parser.stack LALR1Parser.current_token LALR1Parser.lexer].
    split; [|split; [|split]].
    - rewrite <- Hc in Hyield. rewrite <- Hc.
      cbn [rev]. rewrite flat_map_app, Hyield, map_app. cbn [flat_map map].
      unfold frame_yield. cbn [LALR1Parser.node yield].
      rewrite (find_terminal_type p _ terminal) with (2 := Hterm); [now rewrite app_nil_r|].
      rewrite (sc_table _ _ p_core). apply end_of_input_type.
    - apply Forall_app. split; [exact Hall|]. now constructor.
    - rewrite <- app_assoc. cbn [app]. unfold next_token in Hnext.
      destruct (pending (LALR1Parser.lexer c)) as [|t l'] eqn:Hlexer;
        injection Hnext as <- <-.
      + rewrite Hlexer, Hends. cbn [repeat]. rewrite repeat_cons, app_assoc, <- Hstream.
        now rewrite <- app_assoc.
      + exact Hstream.
    - unfold next_token in Hnext.
      destruct (pending (LALR1Parser.lexer c)); injection Hnext as _ <-;
        [exact Hends | rewrite <- Hends; reflexivity]. }
  destruct (Action.is_reduce action) eqn:Hreduce.
  { destruct (Z.ltb_spec (Action.value action) 0) as [Hneg|Hpos]; [exact I|].
    destruct (nth_error (Grammar.productions (LALR1Parser.grammar_ p))
                        (Z.to_nat (Action.value action))) as [production|] eqn:Hprod;
      [|exact I].
    assert (Hin : In production prods).
    { apply nth_error_In in Hprod. unfold Grammar.productions in Hprod.
      now rewrite (sc_prods _ _ p_core) in Hprod. }
    rewrite pop_frames_spec in *.
    destruct (Nat.leb_spec (length (rhs production)) (length (top :: rest)));
      [|discriminate].
    cbn [app] in *.
    destruct (_ <? 0)%Z; [discriminate|].
    split; [exact Hkeep|]. exists shifted, k.
    cbn [LALR1Parser.stack LALR1Parser.current_token LALR1Parser.lexer].
    split; [|split; [exact Hall | split; [exact Hstream | exact Hends]]].
    rewrite <- Hc in Hyield. rewrite <- Hc.
    cbn [rev]. rewrite flat_map_app. cbn [flat_map].
    unfold frame_yield at 2. cbn [LALR1Parser.node yield].
    rewrite (g_lhs production Hin), children_yield, app_nil_r, <- flat_map_app.
    rewrite <- rev_app_distr, firstn_skipn. exact Hyield. }
  destruct (Action.is_accept action) eqn:Haccept; [|discriminate].
  destruct (Nat.leb_spec 2 (length (top :: rest))) as [Hlen|]; [|discriminate].
  intros _. cbn [tree result_ok].
  assert (Herr : Action.is_error action = false).
  { unfold Action.is_accept, Action.is_error in *. now destruct (Action.type action). }
  pose proof (p_accept _ _ _ (Hlookup Herr) Haccept) as Hcolumn.
  apply Hend_eof in Hcolumn.
  destruct (ts_accept _ _ _ p_table _ _ _ (Hlookup Herr) Haccept)
    as (item & Hitem & Hcomplete & Haug).
  destruct (state_items_ok g a s0 a_ok _ _ Hitem) as [Hin Hdot].
  assert (Hone : length (rhs (LR0Item.production_ item)) = 1).
  { unfold looks_augmented in Haug.
    destruct (name_ends_with_quote (lhs (LR0Item.production_ item))) as [b| | |];
      cbn [res_bind] in Haug; try discriminate.
    injection Haug as Haug. apply andb_true_iff in Haug as [_ Haug].
    now apply Nat.eqb_eq in Haug. }
  assert (Ed : LR0Item.dot_position_ item = 1).
  { unfold LR0Item.is_complete in Hcomplete. apply Nat.leb_le in Hcomplete. lia. }
  assert (Hitem' : In (LR0Item.mk (LR0Item.production_ item) 1)
                      (state_items a (LALR1Parser.state top))).
  { rewrite <- Ed. now destruct item. }
  pose proof (accept_stack_bottom top rest _ Hstk Hin Haug Hitem') as Hrest.
  pose proof (shifted_input_tokens (pending l) (eof_token l) eq_refl shifted _ _ k Hall
                Hcolumn Hstream) as Hshifted.
  destruct (Hkeep eq_refl) as (n & Hn & _). cbn [tree result_ok] in Hn.
  exists n. split; [exact Hn|].
  rewrite <- Hshifted, <- Hyield, Hrest. cbn [rev app flat_map].
  unfold frame_yield. cbn [LALR1Parser.node]. rewrite Hn. now rewrite app_nil_r.
Qed.

Lemma run_spans (k : nat) :
  forall (c : LALR1Parser.Config) (r : ParseResult),
    spans c -> LALR1Parser.run k p c = Val r -> success r = true ->
    exists n, tree r = Some n /\ yield n = map tok_value (input_tokens (pending l)).
Proof using a_ok a_sound a_initial g_distinct p_core p_table p_accept g_table g_lhs g_end
            g_start.
  induction k as [|k IH]; intros c r Hc; cbn [LALR1Parser.run]; [discriminate|].
  pose proof (step_spans c Hc) as Hstep.
  destruct (LALR1Parser.step p c) as [[c'|r']| | |]; cbn [res_bind]; try discriminate.
  - now apply IH.
  - intros [= <-]. exact Hstep.
Qed.
End accepted_stack.

(** X17.  For an augmented grammar as in X16 whose symbol table was built
    through its interface, whose left-hand sides are nonterminals, in which
    the end-of-input symbol stands in no right-hand side and in which the
    left-hand side of a production that the generator takes for the
    augmented one stands in no right-hand side: a parse that the generated
    parser accepts has consumed the entire input.  The leaves of the
    returned tree, read from left to right, are the values of all the
    tokens before the first end-of-file token, in order. *)
Theorem generated_parser_accepts_whole_input
        (n fuel : nat) (g : Grammar.t) (p0 : ProductionPtr) (rest : list ProductionPtr) :
  Grammar.productions_ g = p0 :: rest ->
  Grammar.is_augmented_ g = true ->
  caches_ok g -> names_ok g -> productions_distinct g ->
  table_ok (Grammar.symbol_table_ g) ->
  (forall prod, In prod (Grammar.productions_ g) -> is_nonterminal (lhs prod) = true) ->
  (forall q X, In q (Grammar.productions_ g) -> In X (rhs q) ->
               addr X <> addr (SymbolTable.end_of_input_ (Grammar.symbol_table_ g))) ->
  (forall q, In q (Grammar.productions_ g) -> looks_augmented q = Val true ->
             ~ lhs_in_rhs g q) ->
  state_bound g <= n -> core_fuel g <= fuel ->
  exists gen tb gen',
    LALR1Generator.create n fuel g = Val gen
    /\ LALR1Generator.generate_table fuel gen = Val (tb, gen')
    /\ forall fuel' tokens r,
         LALR1Parser.parse_internal fuel'
           (LALR1Parser.mk (LALR1Generator.grammar_ gen') tb false) tokens = Val r ->
         success r = true ->
         exists t, tree r = Some t
                   /\ yield t = map tok_value (input_tokens (pending tokens)).
Proof.
  intros Hprods Haug Hcaches Hnames Hdistinct Htable_ok Hlhs Hend Hstart Hn Hfuel.
  assert (Hfuel0 : length (Grammar.productions_ g) < fuel)
    by (unfold core_fuel, sets_fuel in Hfuel; lia).
  destruct (create_paths n fuel g p0 rest Hprods Hn Hfuel0)
    as (a & s0 & Hcreate & Hok & Hsound & Hinitial).
  exists (LALR1Generator.mk g [] a).
  unfold LALR1Generator.create. rewrite Hcreate. cbn [res_bind].
  unfold LALR1Generator.generate_table, LALR1Generator.build_lalr_states.
  cbn [LALR1Generator.grammar_ LALR1Generator.states_ LALR1Generator.lr0_automaton_].
  unfold Grammar.is_augmented. rewrite Haug. cbn [negb].
  destruct (build_lalr_states_ok fuel g (LR0Automaton.states a) Hfuel Hnames
              (ao_items _ _ _ Hok) [] g (same_core_refl g) Hcaches)
    as (new & g2 & Hbuild & Hids & Hall & Hcore2 & _).
  rewrite Hbuild. cbn [res_bind app LALR1Generator.grammar_ LALR1Generator.states_].
  set (gen' := LALR1Generator.mk g2 new a).
  set (tb0 := ParseTable.create _ _ _).
  destruct (fill_states_ok fuel g gen' Hcore2 Hnames Hsound new Hall tb0)
    as (tb & Hfill & _ & _).
  { split; intros k x Hk; cbn in Hk; rewrite lookup_empty in Hk; discriminate. }
  rewrite Hfill. cbn [res_bind].
  exists tb, gen'. split; [reflexivity|]. split; [reflexivity|].
  assert (Htracked : Forall (fun ls => items_tracked (accept_lookahead g)
                                                     (LALRState.items_ ls)) new).
  { apply (build_lalr_states_tracked fuel g (LR0Automaton.states a) Hfuel Hnames
             (ao_items _ _ _ Hok) [] new g g2 (same_core_refl g) Hcaches Hbuild). }
  assert (Hlinked : Forall (lalr_linked a) new).
  { apply build_lalr_states_linked in Hbuild as (new' & Hnew & Hforall).
    cbn [app] in Hnew. subst new'.
    eapply List.Forall_impl; [|exact Hforall].
    intros ls (s & Hs & Hid & Hitems) i Hi. unfold state_items.
    rewrite Hid, (in_states_get_state g s0 s a Hok Hs). now apply Hitems. }
  assert (Htable : table_sound g a tb).
  { apply (fill_states_sound g gen' Hcore2 new Hlinked tb0 tb); [|exact Hfill].
    constructor; intros state X act Hk; cbn in Hk; rewrite lookup_empty in Hk;
      discriminate. }
  assert (Haccept : accept_at_end g tb).
  { apply (fill_states_at_end g gen' s0 Hok Hdistinct new Hlinked Htracked tb0 tb);
      [|exact Hfill].
    intros state X act Hk. cbn in Hk. rewrite lookup_empty in Hk. discriminate. }
  intros fuel' tokens r Hrun Hsuccess. unfold LALR1Parser.parse_internal in Hrun.
  destruct (next_token tokens) as [tok l'] eqn:Hnext.
  apply (run_spans fuel g a s0 (LALR1Parser.mk g2 tb false) tokens Hok Hsound Hinitial
           Hdistinct Hcore2 Htable Haccept Htable_ok Hlhs Hend Hstart fuel' _ r)
    in Hrun; [exact Hrun | | exact Hsuccess].
  split; [constructor|].
  exists [], (match pending tokens with [] => 1 | _ :: _ => 0 end).
  cbn [LALR1Parser.stack LALR1Parser.current_token LALR1Parser.lexer].
  split; [reflexivity|]. split; [constructor|]. unfold next_token in Hnext.
  destruct (pending tokens) as [|t l''] eqn:Hl; injection Hnext as <- <-;
    cbn [app repeat pending].
  - rewrite Hl. auto.
  - rewrite app_nil_r. auto.
Qed.

Lemma generated_parser_accepts_whole_input_witness :
  exists gen tb gen',
    LALR1Generator.create 1024 100 Examples.sum_grammar_augmented = Val gen
    /\ LALR1Generator.generate_table 100 gen = Val (tb, gen')
    /\ forall fuel' tokens r,
         LALR1Parser.parse_internal fuel'
           (LALR1Parser.mk (LALR1Generator.grammar_ gen') tb false) tokens = Val r ->
         success r = true ->
         exists t, tree r = Some t
                   /\ yield t = map tok_value (input_tokens (pending tokens)).
Proof.
  apply (generated_parser_accepts_whole_input 1024 100 Examples.sum_grammar_augmented
           (mkProduction 23 (make_symbol 14 "E'" NONTERMINAL) [Examples.E])
           (skipn 1 (Grammar.productions_ Examples.sum_grammar_augmented))).
  - reflexivity.
  - reflexivity.
  - intros H. vm_compute in H. discriminate.
  - intros p Hp. vm_compute in Hp.
    repeat (destruct Hp as [<-|Hp]; [discriminate|]). destruct Hp.
  - unfold productions_distinct. vm_compute.
    repeat (constructor; [cbn; intuition discriminate|]). constructor.
  - change (Grammar.symbol_table_ Examples.sum_grammar_augmented)
      with (snd (SymbolTable.get_nonterminal 14 "E'" (snd Examples.num_st))).
    apply built_table_ok.
    unfold Examples.num_st, Examples.plus_st, Examples.T_st, Examples.E_st.
    apply built_nonterminal; [|reflexivity].
    apply built_terminal; [|reflexivity].
    apply built_terminal; [|reflexivity].
    apply built_nonterminal; [|reflexivity].
    apply built_nonterminal; [|reflexivity].
    apply built_create. discriminate.
  - intros prod Hin. vm_compute in Hin.
    repeat (destruct Hin as [<-|Hin]; [reflexivity|]). destruct Hin.
  - intros q X Hq HX. vm_compute in Hq.
    repeat (destruct Hq as [<-|Hq];
            [vm_compute in HX;
             repeat (destruct HX as [<-|HX]; [vm_compute; lia|]); destruct HX|]).
    destruct Hq.
  - intros q Hq Haugmented (q' & X & Hq' & HX & Ha). vm_compute in Hq.
    repeat (destruct Hq as [<-|Hq];
            [first [ discriminate Haugmented
                   | vm_compute in Hq';
                     repeat (destruct Hq' as [<-|Hq'];
                             [vm_compute in HX;
                              repeat (destruct HX as [<-|HX];
                                      [vm_compute in Ha; lia|]); destruct HX|]);
                     destruct Hq' ]|]).
    destruct Hq.
  - vm_compute. lia.
  - vm_compute. lia.
Defined.

(** ** The symbols named in an error message *)

(** X18.  In a symbol table built through its interface, the set that
    [get_expected_symbols] returns for a state holds exactly the terminals
    of the table and the end-of-input symbol for which the action table has
    an entry other than Error in that state; it is ordered by address and
    so has no symbol twice. *)
Theorem expected_symbols_are_the_filled_columns
        (state : Z) (p : LALR1Parser.t) (x : SymbolPtr) :
  table_ok (Grammar.symbol_table_ (LALR1Parser.grammar_ p)) ->
  sorted_by ptr_ltb (LALR1Parser.get_expected_symbols state p)
  /\ (In x (LALR1Parser.get_expected_symbols state p) <->
      (In x (SymbolTable.get_terminals (Grammar.symbol_table_ (LALR1Parser.grammar_ p)))
       \/ x = SymbolTable.get_end_of_input (Grammar.symbol_table_ (LALR1Parser.grammar_ p)))
      /\ Action.is_error (ParseTable.get_action state x (LALR1Parser.table_ p)) = false).
Proof.
  intros Hok. unfold LALR1Parser.get_expected_symbols. cbv zeta.
  set (st := Grammar.symbol_table_ (LALR1Parser.grammar_ p)) in *.
  set (keep := fun terminal =>
                 negb (Action.is_error (ParseTable.get_action state terminal
                                                              (LALR1Parser.table_ p)))).
  match goal with
  | |- context [fold_left ?f (SymbolTable.get_terminals st) []] =>
      set (expected := fold_left f (SymbolTable.get_terminals st) [])
  end.
  assert (Hexp : expected
                 = fold_left (fun a s => if keep s then sym_insert s a else a)
                             (SymbolTable.get_terminals st) []) by reflexivity.
  assert (Hsorted : sorted_by ptr_ltb expected).
  { rewrite Hexp. apply fold_left_invariant; [|constructor].
    intros acc s _ Hacc. destruct (keep s); [|exact Hacc].
    apply set_insert_sorted; [exact ptr_ltb_trans | exact Hacc]. }
  assert (Hin : forall y, In y expected <->
                          In y (SymbolTable.get_terminals st) /\ keep y = true).
  { intros y. split.
    - intros Hy. rewrite Hexp in Hy.
      apply filtered_copy_keeps in Hy as [Hy|[]]. exact Hy.
    - intros [Hy Hk].
      destruct (fold_insert_if keep (SymbolTable.get_terminals st) []) as [Hsub Hmem].
      cbv zeta in Hsub, Hmem. rewrite <- Hexp in Hsub, Hmem.
      assert (Hm : sym_mem y expected = true)
        by (apply Hmem; right; exists y; auto).
      apply sym_mem_spec in Hm as (z & Hz & Hyz).
      destruct (Hsub z Hz) as [[]|[Hzt _]].
      rewrite (sorted_addr_inj _ (to_sorted _ Hok) y z); auto using get_terminals_In. }
  fold (keep (SymbolTable.get_end_of_input st)).
  assert (Hkeep : forall y, keep y = true <->
            Action.is_error (ParseTable.get_action state y (LALR1Parser.table_ p)) = false).
  { intros y. unfold keep. apply negb_true_iff. }
  destruct (keep (SymbolTable.get_end_of_input st)) eqn:Hk; cbn [negb]; split.
  - apply set_insert_sorted; [exact ptr_ltb_trans | exact Hsorted].
  - rewrite <- Hkeep. split.
    + intros Hx. apply set_insert_In in Hx as [->|Hx]; [auto|].
      apply Hin in Hx as [Hx Hkx]. auto.
    + intros [[Hx| ->] Hkx].
      * apply set_insert_incl, Hin. auto.
      * destruct (set_insert_has ptr_ltb ptr_ltb_irrefl (SymbolTable.get_end_of_input st)
                                 expected) as (y & Hy & Heq).
        apply equiv_key_ptr in Heq.
        pose proof Hy as Hy'. apply set_insert_In in Hy' as [->|Hy']; [exact Hy|].
        apply Hin in Hy' as [Hy' _].
        assert (E : SymbolTable.get_end_of_input st = y).
        { apply (sorted_addr_inj _ (to_sorted _ Hok));
            [apply (to_end_in _ Hok) | now apply get_terminals_In | exact Heq]. }
        rewrite <- E in Hy. exact Hy.
  - exact Hsorted.
  - rewrite <- Hkeep. rewrite Hin. split.
    + intros [Hx Hkx]. auto.
    + intros [[Hx| ->] Hkx]; [auto | congruence].
Qed.

Lemma expected_symbols_are_the_filled_columns_witness :
  sorted_by ptr_ltb (LALR1Parser.get_expected_symbols 0 ExamplesEps.parser_empty_rhs)
  /\ (In ExamplesEps.a (LALR1Parser.get_expected_symbols 0 ExamplesEps.parser_empty_rhs) <->
      (In ExamplesEps.a
          (SymbolTable.get_terminals
             (Grammar.symbol_table_ (LALR1Parser.grammar_ ExamplesEps.parser_empty_rhs)))
       \/ ExamplesEps.a
          = SymbolTable.get_end_of_input
              (Grammar.symbol_table_ (LALR1Parser.grammar_ ExamplesEps.parser_empty_rhs)))
      /\ Action.is_error (ParseTable.get_action 0 ExamplesEps.a
                            (LALR1Parser.table_ ExamplesEps.parser_empty_rhs)) = false).
Proof.
  apply (expected_symbols_are_the_filled_columns 0 ExamplesEps.parser_empty_rhs
           ExamplesEps.a).
  change (Grammar.symbol_table_ (LALR1Parser.grammar_ ExamplesEps.parser_empty_rhs))
    with (snd (SymbolTable.get_nonterminal 13 "S'" (snd ExamplesEps.a_st))).
  apply built_table_ok.
  unfold ExamplesEps.a_st, ExamplesEps.A_st, ExamplesEps.S_st.
  apply built_nonterminal; [|reflexivity].
  apply built_terminal; [|reflexivity].
  apply built_nonterminal; [|reflexivity].
  apply built_nonterminal; [|reflexivity].
  apply built_create. discriminate.
Defined.
